(** * tar-stream: header codec (src/headers.ts) and extraction engine
      (src/extract.ts), shallow embedding and verified properties.

    Conventions of the embedding.
    - A [Buffer]/[Uint8Array] is a [list ascii]; [buf[i]] is [byteAt buf i],
      the numeric value of the byte, or [None] (JS [undefined]) out of range.
    - A JS string is a [string], identified with its UTF-8 bytes. With this
      reading [b4a.byteLength s] is the number of bytes, and [s.length]
      is the number of UTF-16 code units, which equals the number of bytes
      exactly when every byte is below 0x80 ([is_ascii_str]).
    - JS numbers that the codec handles are integers: [Z]; the result of
      [parseInt] is a [jsnum], a number or NaN; [null] is [None]. *)

From Stdlib Require Import ZArith Lia Ascii String List Bool.
From stdpp Require Import base option list strings gmap.

Local Open Scope Z_scope.

(** ** Bytes and buffers *)

Abbreviation Buffer := (list ascii).

Definition byteVal (a : ascii) : Z := Z.of_N (N_of_ascii a).
Definition byteOf (z : Z) : ascii := ascii_of_N (Z.to_N z).

(** [buf[i]]: [None] is [undefined]. *)
Definition byteAt (buf : Buffer) (i : nat) : option Z :=
  byteVal <$> buf !! i.

(** [buf[i]] inside arithmetic: [undefined] coerces to NaN; on the paths
    below the index is always in range, 0 is never observed. *)
Definition byteAt0 (buf : Buffer) (i : nat) : Z :=
  default 0 (byteAt buf i).

(** [b4a.alloc(n)] *)
Definition alloc (n : nat) : Buffer := replicate n zero.

(** [buf.slice(start, end)] / [buf.subarray(start, end)] for
    [0 <= start], [0 <= end]: clipped to the buffer. *)
Definition slice (buf : Buffer) (s e : nat) : Buffer :=
  take (e - s) (drop s buf).

(** [b4a.write(buf, str, offset)] and [b4a.copy(src, buf, offset)]: the bytes
    of [data] overwrite [buf] from [off] on; what does not fit is dropped. *)
Definition write (buf : Buffer) (data : Buffer) (off : nat) : Buffer :=
  take off buf
  ++ take (length buf - off) data
  ++ drop (off + length data) buf.

(** [buf[i] = v] *)
Definition setByte (buf : Buffer) (i : nat) (v : Z) : Buffer :=
  write buf [byteOf v] i.

Definition bytesOf (s : string) : Buffer := list_ascii_of_string s.
Definition strOf (b : Buffer) : string := string_of_list_ascii b.

(** [b4a.byteLength(s)] *)
Definition byteLength (s : string) : nat := length (bytesOf s).

(** [b4a.byteLength(s) === s.length]: no byte of the UTF-8 form is a
    multi-byte unit. *)
Definition is_ascii_byte (a : ascii) : bool := byteVal a <? 128.
Definition is_ascii_str (s : string) : bool := forallb is_ascii_byte (bytesOf s).

(** A text without the NUL character. *)
Definition noNul (b : Buffer) : Prop := Forall (fun a => a <> zero) b.

(** ** Constants *)

Definition ZEROS : string := "0000000000000000000".
Definition SEVENS : string := "7777777777777777777".
Definition ZERO_OFFSET : Z := 48.
Definition USTAR_MAGIC : Buffer := bytesOf "ustar" ++ [zero].
Definition USTAR_VER : Buffer := bytesOf "00".
Definition GNU_MAGIC : Buffer := bytesOf "ustar ".
Definition GNU_VER : Buffer := [byteOf 32; zero].
Definition MASK : Z := 4095. (* 0o7777 *)
Definition MAGIC_OFFSET : nat := 257.
Definition VERSION_OFFSET : nat := 263.

(** ** Numbers and their text *)

Inductive jsnum : Type :=
  | JNum (z : Z)
  | JNaN.

#[global] Instance jsnum_eq_dec : EqDecision jsnum.
Proof. solve_decision. Defined.

Definition digitChar (d : Z) : ascii := byteOf (48 + d).

(** The digits of [v >= 0] in [base], least significant first. The fuel
    bounds the number of digits; [Z.log2 v + 1] is always enough. *)
Fixpoint digitsRev (base : Z) (fuel : nat) (v : Z) : list Z :=
  match fuel with
  | O => []
  | S f => if v <? base then [v] else (v mod base) :: digitsRev base f (v / base)
  end.

Definition natDigits (base v : Z) : Buffer :=
  map digitChar (rev (digitsRev base (S (Z.to_nat (Z.log2 v))) v)).

(** [v.toString(base)] for an integer [v] and [base <= 10]. *)
Definition toStringRadix (base v : Z) : Buffer :=
  if v <? 0 then "-"%char :: natDigits base (- v) else natDigits base v.

(** The value of a digit character in [base], if it is one. *)
Definition digitVal (base : Z) (a : ascii) : option Z :=
  let c := byteVal a in
  if (48 <=? c) && (c <? 48 + base) then Some (c - 48) else None.

(** The longest prefix of digits, as a number; [None] when there is none. *)
Fixpoint parseDigits (base : Z) (acc : option Z) (l : Buffer) : option Z :=
  match l with
  | [] => acc
  | a :: l' =>
      match digitVal base a with
      | Some d => parseDigits base (Some (default 0 acc * base + d)) l'
      | None => acc
      end
  end.

(** Value of a digit list, most significant digit first. *)
Definition msbValue (base acc : Z) (ds : list Z) : Z :=
  fold_left (fun a d => a * base + d) ds acc.

Definition isDigit (base d : Z) : Prop := 0 <= d < base.

Definition isWhite (a : ascii) : bool :=
  let c := byteVal a in
  ((9 <=? c) && (c <=? 13)) || (c =? 32).

Fixpoint dropWhile {A} (p : A -> bool) (l : list A) : list A :=
  match l with
  | [] => []
  | a :: l' => if p a then dropWhile p l' else l
  end.

(** [parseInt(s, base)] for [base <= 10] (no [0x] prefix is stripped for these):
    leading white space, an optional sign, then the longest run of digits.
    Bytes above 0x7f count as neither white space nor digits. *)
Definition parseInt (s : Buffer) (base : Z) : jsnum :=
  let s1 := dropWhile isWhite s in
  let '(sign, s2) :=
    match s1 with
    | a :: r => if Ascii.eqb a "-" then (-1, r)
                else if Ascii.eqb a "+" then (1, r) else (1, s1)
    | [] => (1, s1)
    end in
  match parseDigits base None s2 with
  | Some v => JNum (sign * v)
  | None => JNaN
  end.

(** ** Small helpers of headers.ts *)

(** [clamp(input, len, defaultValue)] for a numeric [input]. *)
Definition clamp (input len : Z) : Z :=
  if input >=? len then len
  else if input >=? 0 then input
  else let index := input + len in
       if index >=? 0 then index else 0.

Definition toType (flag : Z) : option string :=
  if flag =? 0 then Some "file"%string
  else if flag =? 1 then Some "link"%string
  else if flag =? 2 then Some "symlink"%string
  else if flag =? 3 then Some "character-device"%string
  else if flag =? 4 then Some "block-device"%string
  else if flag =? 5 then Some "directory"%string
  else if flag =? 6 then Some "fifo"%string
  else if flag =? 7 then Some "contiguous-file"%string
  else if flag =? 72 then Some "pax-header"%string
  else if flag =? 55 then Some "pax-global-header"%string
  else if flag =? 27 then Some "gnu-long-link-path"%string
  else if (flag =? 28) || (flag =? 30) then Some "gnu-long-path"%string
  else None.

Definition toTypeflag (flag : option string) : Z :=
  match flag with
  | None => 0
  | Some s =>
      if String.eqb s "file" then 0
      else if String.eqb s "link" then 1
      else if String.eqb s "symlink" then 2
      else if String.eqb s "character-device" then 3
      else if String.eqb s "block-device" then 4
      else if String.eqb s "directory" then 5
      else if String.eqb s "fifo" then 6
      else if String.eqb s "contiguous-file" then 7
      else if String.eqb s "pax-header" then 72
      else 0
  end.

(** The loop of [indexOf]: [n] is the number of positions left before [end]. *)
Fixpoint indexOfLoop (block : Buffer) (num : Z) (offset n : nat) : nat :=
  match n with
  | O => offset
  | S k =>
      match byteAt block offset with
      | Some v => if v =? num then offset
                  else indexOfLoop block num (S offset) k
      | None => indexOfLoop block num (S offset) k
      end
  end.

Definition indexOf (block : Buffer) (num : Z) (offset e : nat) : nat :=
  if (offset <? e)%nat then indexOfLoop block num offset (e - offset) else e.

Definition sumBytes (l : Buffer) : Z :=
  fold_right (fun a s => byteVal a + s) 0 l.

(** [cksum]: bytes 0..147 and 156..511, the checksum field counted as
    eight spaces. *)
Definition cksum (block : Buffer) : Z :=
  8 * 32 + sumBytes (slice block 0 148) + sumBytes (slice block 156 512).

Definition encodeOct (valNum : Z) (n : nat) : Buffer :=
  let val := toStringRadix 8 valNum in
  if (n <? length val)%nat then firstn n (bytesOf SEVENS) ++ [" "%char]
  else firstn (n - length val) (bytesOf ZEROS) ++ val ++ [" "%char].

Definition bigEndian (l : list Z) : Z :=
  fold_left (fun acc b => acc * 256 + b) l 0.

(** [parse256]: exact over the integers (the source sums in floating
    point, which is exact below 2^53). *)
Definition parse256 (buf : Buffer) : option Z :=
  match byteAt buf 0 with
  | Some b0 =>
      if b0 =? 128 then Some (bigEndian (map byteVal (tl buf)))
      else if b0 =? 255 then
        Some (-1 * bigEndian (map (fun a => 255 - byteVal a) (tl buf)))
      else None
  | None => None
  end.

(** The two scanning loops of [decodeOct]: [while (offset < end &&
    val[offset] === c) offset++]. *)
Fixpoint skipEq (val : Buffer) (c : Z) (offset n : nat) : nat :=
  match n with
  | O => offset
  | S k => if decide (byteAt val offset = Some c)
           then skipEq val c (S offset) k else offset
  end.

Definition decodeOct (buf : Buffer) (offset length : nat) : option jsnum :=
  let val := slice buf offset (offset + length) in
  if negb (Z.land (byteAt0 val 0) 128 =? 0) then JNum <$> parse256 val
  else
    let len := List.length val in
    let offset1 := skipEq val 32 0 len in
    let e := Z.to_nat (clamp (Z.of_nat (indexOf val 32 offset1 len))
                             (Z.of_nat len)) in
    let offset2 := skipEq val 0 offset1 (e - offset1) in
    if (e =? offset2)%nat then Some (JNum 0)
    else Some (parseInt (slice val offset2 e) 8).

Definition decodeStr (val : Buffer) (offset length : nat) : string :=
  strOf (slice val offset (indexOf val 0 offset (offset + length))).

Definition decodeLongPath (buf : Buffer) : string :=
  decodeStr buf 0 (List.length buf).

(** ** PAX records *)

(** [buf.slice(start, end)] with JS index normalisation: a negative index
    counts from the end; both are clipped to the buffer. *)
Definition normIndex (len i : Z) : nat :=
  Z.to_nat (if i <? 0 then Z.max (len + i) 0 else Z.min i len).

Definition sliceZ (buf : Buffer) (s e : Z) : Buffer :=
  let len := Z.of_nat (length buf) in
  slice buf (normIndex len s) (normIndex len e).

(** [addLength]. The number of decimal digits of [len] stands for
    [Math.floor(Math.log(len) / Math.log(10)) + 1]; where the floating-point
    quotient falls just below an integer the source starts one digit lower
    and the test that follows adds it back, with the same result. *)
Definition addLength (str : Buffer) : Buffer :=
  let len := Z.of_nat (length str) in
  let digits := Z.of_nat (length (natDigits 10 len)) in
  let digits := if len + digits >=? 10 ^ digits then digits + 1 else digits in
  toStringRadix 10 (len + digits) ++ str.

Record EncodePaxOpts : Type := {
  pax_name : option string;
  pax_linkname : option string;
  pax_pax : option (list (string * string))  (* in [for..in] order *)
}.

(** The options [encodePax] sees when it is called on an object literal
    with the string-valued properties [props] and the [pax] property [pax]:
    it reads [opts.name], [opts.linkname] and [opts.pax] and nothing else. *)
Definition paxOptsOf (props : list (string * string))
    (pax : option (list (string * string))) : EncodePaxOpts :=
  let obj : gmap string string := list_to_map props in
  {| pax_name := obj !! "name"%string;
     pax_linkname := obj !! "linkname"%string;
     pax_pax := pax |}.

(** Truthiness of an optional string: present and not empty. *)
Definition truthyStr (s : option string) : option string :=
  match s with
  | Some s' => if String.eqb s' "" then None else Some s'
  | None => None
  end.

Definition paxRecord (key value : string) : Buffer :=
  addLength (bytesOf (" " ++ key ++ "=" ++ value)%string ++ ["010"%char]).

Definition encodePax (opts : EncodePaxOpts) : Buffer :=
  let result := [] in
  let result := match truthyStr (pax_name opts) with
                | Some n => result ++ paxRecord "path" n
                | None => result end in
  let result := match truthyStr (pax_linkname opts) with
                | Some n => result ++ paxRecord "linkpath" n
                | None => result end in
  match pax_pax opts with
  | Some pax =>
      fold_left (fun r kv => r ++ paxRecord (fst kv) (snd kv)) pax result
  | None => result
  end.

(** Index of the first byte equal to [c], as [String.prototype.indexOf]
    for a one-byte needle; [None] is -1. *)
Fixpoint findByte (c : ascii) (l : Buffer) : option nat :=
  match l with
  | [] => None
  | a :: l' => if Ascii.eqb a c then Some O else S <$> findByte c l'
  end.

(** The body of the [while (buf.length)] loop of [decodePax]. An iteration
    either returns or leaves a strictly shorter buffer, so a fuel of
    [length buf] iterations is never exhausted. *)
Fixpoint decodePaxLoop (fuel : nat) (buf : Buffer) (result : gmap string string)
  : gmap string string :=
  match fuel with
  | O => result
  | S f =>
      if (length buf =? 0)%nat then result else
      let i := default (length buf) (findByte " " buf) in
      match parseInt (slice buf 0 i) 10 with
      | JNaN => result
      | JNum len =>
          if len =? 0 then result else
          let b := sliceZ buf (Z.of_nat i + 1) (len - 1) in
          match findByte "=" b with
          | None => result
          | Some keyIndex =>
              let result := <[ strOf (firstn keyIndex b)
                               := strOf (skipn (S keyIndex) b) ]> result in
              decodePaxLoop f (sliceZ buf len (Z.of_nat (length buf))) result
          end
      end
  end.

Definition decodePax (buf : Buffer) : gmap string string :=
  decodePaxLoop (S (length buf)) buf ∅.

(** ** encode *)

Record EncodeOpts : Type := {
  name : string;
  typeflag : option Z;
  linkname : option string;
  mode : Z;
  uid : Z;
  gid : Z;
  size : Z;
  mtime : Z;                (* [opts.mtime.getTime()], milliseconds *)
  type : option string;
  uname : option string;
  gname : option string;
  devmajor : option Z;
  devminor : option Z
}.

(** [x | 0] *)
Definition toInt32 (z : Z) : Z := (z + 2 ^ 31) mod 2 ^ 32 - 2 ^ 31.

(** [name[name.length - 1] !== "/"] *)
Definition lacksTrailingSlash (n : Buffer) : bool :=
  match last (A:=ascii) n with
  | Some a => negb (Ascii.eqb a "/")
  | None => true
  end.

(** The [while (b4a.byteLength(name) > 100)] loop of [encode] on an ASCII
    name; [None] is the [return null] inside it. Each iteration drops at
    least one byte of [name], so a fuel of [length name] is never exhausted. *)
Fixpoint splitName (fuel : nat) (prefix name : Buffer)
  : option (Buffer * Buffer) :=
  if (length name <=? 100)%nat then Some (prefix, name) else
  match fuel with
  | O => None
  | S f =>
      match findByte "/" name with
      | None => None
      | Some i =>
          let prefix := match prefix with
                        | [] => firstn i name
                        | _ => prefix ++ "/"%char :: firstn i name
                        end in
          splitName f prefix (skipn (S i) name)
      end
  end.

(** The bytes an optional string contributes: none when it is falsy. *)
Definition optBytes (s : option string) : Buffer :=
  match truthyStr s with
  | Some s' => bytesOf s'
  | None => []
  end.

(** A position of a name where it can be cut: its start, or just after a
    path separator. *)
Definition isBoundary (n : Buffer) (k : nat) : Prop :=
  k = O \/ n !! (k - 1)%nat = Some "/"%char.

Definition writeOpt (buf : Buffer) (s : option string) (off : nat) : Buffer :=
  match truthyStr s with
  | Some s' => write buf (bytesOf s') off
  | None => buf
  end.

(** Lines 257-275 of [encode]: the fields are written into a fresh block.
    [name] and [prefix] are the two parts of the split name. *)
Definition encodeFields (opts : EncodeOpts) (name prefix : Buffer) : Buffer :=
  let buf := alloc 512 in
  let buf := write buf name 0 in
  let buf := write buf (encodeOct (Z.land (mode opts) MASK) 6) 100 in
  let buf := write buf (encodeOct (uid opts) 6) 108 in
  let buf := write buf (encodeOct (gid opts) 6) 116 in
  let buf := write buf (encodeOct (size opts) 11) 124 in
  let buf := write buf (encodeOct (toInt32 (Z.quot (mtime opts) 1000)) 11) 136 in
  let buf := setByte buf 156 (ZERO_OFFSET + toTypeflag (type opts)) in
  let buf := writeOpt buf (linkname opts) 157 in
  let buf := write buf USTAR_MAGIC MAGIC_OFFSET in
  let buf := write buf USTAR_VER VERSION_OFFSET in
  let buf := writeOpt buf (uname opts) 265 in
  let buf := writeOpt buf (gname opts) 297 in
  let buf := write buf (encodeOct (default 0 (devmajor opts)) 6) 329 in
  let buf := write buf (encodeOct (default 0 (devminor opts)) 6) 337 in
  match prefix with [] => buf | _ => write buf prefix 345 end.

(** Line 277: the checksum of the filled block is written last. *)
Definition encodeBlock (opts : EncodeOpts) (name prefix : Buffer) : Buffer :=
  let buf := encodeFields opts name prefix in
  write buf (encodeOct (cksum buf) 6) 148.

(** The name as [encode] sees it after line 244. *)
Definition encodeName (opts : EncodeOpts) : Buffer :=
  let name := bytesOf (name opts) in
  if decide (typeflag opts = Some 5) then
    if lacksTrailingSlash name then name ++ ["/"%char] else name
  else name.

(** [{...opts, name: n}] *)
Definition withName (opts : EncodeOpts) (n : string) : EncodeOpts := {|
  name := n; typeflag := typeflag opts; linkname := linkname opts;
  mode := mode opts; uid := uid opts; gid := gid opts; size := size opts;
  mtime := mtime opts; type := type opts; uname := uname opts;
  gname := gname opts; devmajor := devmajor opts; devminor := devminor opts |}.

Definition encode (opts : EncodeOpts) : option Buffer :=
  let name := encodeName opts in
  if negb (forallb is_ascii_byte name) then None else
  match splitName (length name) [] name with
  | None => None
  | Some (prefix, name) =>
      if ((100 <? length name) || (155 <? length prefix))%nat then None else
      if match truthyStr (linkname opts) with
         | Some l => (100 <? byteLength l)%nat
         | None => false
         end then None else
      Some (encodeBlock opts name prefix)
  end.

(** ** decode *)

Record DecodedHeader : Type := {
  h_name : string;
  h_mode : option jsnum;
  h_uid : option jsnum;
  h_gid : option jsnum;
  h_size : jsnum;
  h_mtime : option jsnum;   (* milliseconds; [None] is the current time *)
  h_type : option string;
  h_linkname : option string;
  h_uname : string;
  h_gname : string;
  h_devmajor : option jsnum;
  h_devminor : option jsnum
}.

Inductive DecodeError : Type :=
  | InvalidChecksum   (* "Invalid tar header. Maybe the tar is corrupted ..." *)
  | UnknownFormat.    (* "Invalid tar header: unknown format." *)

(** What a call of [decode] does: throw, or return a header or [null]. *)
Inductive DecodeResult : Type :=
  | Throws (e : DecodeError)
  | Returns (h : option DecodedHeader).

Definition jsMul (k : Z) (n : jsnum) : jsnum :=
  match n with JNum z => JNum (k * z) | JNaN => JNaN end.

Definition endsWithSlash (s : string) : bool :=
  match last (A:=ascii) (bytesOf s) with
  | Some a => Ascii.eqb a "/"
  | None => false
  end.

(** [decode(buf, filenameEncoding, allowUnknownFormat)] with the default
    (UTF-8) file name encoding. *)
Definition decode (buf : Buffer) (allowUnknownFormat : bool) : DecodeResult :=
  let typeflag := if byteAt0 buf 156 =? 0 then 0
                  else byteAt0 buf 156 - ZERO_OFFSET in
  let name := decodeStr buf 0 100 in
  let mode := decodeOct buf 100 8 in
  let uid := decodeOct buf 108 8 in
  let gid := decodeOct buf 116 8 in
  let size := default (JNum 0) (decodeOct buf 124 12) in
  let mtime := decodeOct buf 136 12 in
  let type := toType typeflag in
  let linkname := if decide (byteAt buf 157 = Some 0) then None
                  else Some (decodeStr buf 157 100) in
  let uname := decodeStr buf 265 32 in
  let gname := decodeStr buf 297 32 in
  let devmajor := decodeOct buf 329 8 in
  let devminor := decodeOct buf 337 8 in
  let c := cksum buf in
  if c =? 8 * 32 then Returns None else
  if negb (bool_decide (Some (JNum c) = decodeOct buf 148 8))
  then Throws InvalidChecksum else
  let format :=
    if bool_decide (USTAR_MAGIC = slice buf MAGIC_OFFSET (MAGIC_OFFSET + 6))
    then inl (if byteAt0 buf 345 =? 0 then name
              else (decodeStr buf 345 155 ++ "/" ++ name)%string)
    else if bool_decide (GNU_MAGIC = slice buf MAGIC_OFFSET (MAGIC_OFFSET + 6))
            && bool_decide (GNU_VER = slice buf VERSION_OFFSET (VERSION_OFFSET + 2))
    then inl name
    else if negb allowUnknownFormat then inr UnknownFormat else inl name in
  match format with
  | inr e => Throws e
  | inl name =>
      (* the reassigned flag is not read again: [type] was computed above *)
      let typeflag := if (typeflag =? 0) && endsWithSlash name then 5
                      else typeflag in
      Returns (Some {|
        h_name := name; h_mode := mode; h_uid := uid; h_gid := gid;
        h_size := size; h_mtime := jsMul 1000 <$> mtime; h_type := type;
        h_linkname := linkname; h_uname := uname; h_gname := gname;
        h_devmajor := devmajor; h_devminor := devminor |})
  end.

(** * The extraction engine (src/extract.ts) *)

(** The continuations of a parse step. *)
Inductive Parser : Type :=
  | OnHeader | OnStreamEnd | OnDrain
  | OnPaxGlobalHeader | OnPaxHeader | OnGnuLongPath | OnGnuLongLinkPath.

#[global] Instance Parser_eq_dec : EqDecision Parser.
Proof. solve_decision. Defined.

(** [DecodedHeader & PaxMixin]: a header, with the PAX mapping mixed in. *)
Record Header : Type := {
  hdr : DecodedHeader;
  hdr_pax : option (gmap string string)
}.

Inductive EngineError : Type :=
  | DecodeFailed (e : DecodeError)   (* thrown by [headers.decode] *)
  | ConsumerError.                   (* the consumer acknowledged with an error *)

(** What happens at the engine's boundary. *)
Inductive Event : Type :=
  | EvDecode (offset : Z)                      (* [headers.decode] on a block *)
  | EvEntry (h : Header) (src : Z) (ended : bool)  (* [emit("entry", ...)] *)
  | EvData (d : Buffer)                        (* bytes given to the source *)
  | EvEnd                                      (* the open source is ended *)
  | EvAck.                                     (* [onunlock] is invoked *)

(** The fields of [Extract], and the state of its surroundings. *)
Record State : Type := {
  _offset : Z;
  _buffer : Buffer;
  _missing : nat;
  _partial : bool;
  _onparse : Parser;
  _header : option Header;
  _stream : option Z;  (* the open source, by the offset it was created at *)
  _overflow : option Buffer;
  _cb : bool;  (* the chunk callback is held ([false]: null or noop) *)
  _locked : bool;
  _pax : option (gmap string string);
  _paxGlobal : option (gmap string string);
  _gnuLongPath : option string;
  _gnuLongLinkPath : option string;
  busy : bool;  (* a chunk was handed to [_write] and its callback not called yet *)
  waitDrain : option bool;  (* a callback waits for the source's drain event *)
  destroyed : option EngineError;  (* [destroy(err)] was called *)
  log : list Event  (* what the consumer and the decoder saw, oldest first *)
}.

(** Field updates. *)
Definition set_offset (v : Z) (s : State) : State :=
  {| _offset := v; _buffer := _buffer s; _missing := _missing s; _partial :=
     _partial s; _onparse := _onparse s; _header := _header s; _stream :=
     _stream s; _overflow := _overflow s; _cb := _cb s; _locked := _locked s;
     _pax := _pax s; _paxGlobal := _paxGlobal s; _gnuLongPath := _gnuLongPath
     s; _gnuLongLinkPath := _gnuLongLinkPath s; busy := busy s; waitDrain :=
     waitDrain s; destroyed := destroyed s; log := log s |}.
Definition set_buffer (v : Buffer) (s : State) : State :=
  {| _offset := _offset s; _buffer := v; _missing := _missing s; _partial :=
     _partial s; _onparse := _onparse s; _header := _header s; _stream :=
     _stream s; _overflow := _overflow s; _cb := _cb s; _locked := _locked s;
     _pax := _pax s; _paxGlobal := _paxGlobal s; _gnuLongPath := _gnuLongPath
     s; _gnuLongLinkPath := _gnuLongLinkPath s; busy := busy s; waitDrain :=
     waitDrain s; destroyed := destroyed s; log := log s |}.
Definition set_missing (v : nat) (s : State) : State :=
  {| _offset := _offset s; _buffer := _buffer s; _missing := v; _partial :=
     _partial s; _onparse := _onparse s; _header := _header s; _stream :=
     _stream s; _overflow := _overflow s; _cb := _cb s; _locked := _locked s;
     _pax := _pax s; _paxGlobal := _paxGlobal s; _gnuLongPath := _gnuLongPath
     s; _gnuLongLinkPath := _gnuLongLinkPath s; busy := busy s; waitDrain :=
     waitDrain s; destroyed := destroyed s; log := log s |}.
Definition set_partial (v : bool) (s : State) : State :=
  {| _offset := _offset s; _buffer := _buffer s; _missing := _missing s;
     _partial := v; _onparse := _onparse s; _header := _header s; _stream :=
     _stream s; _overflow := _overflow s; _cb := _cb s; _locked := _locked s;
     _pax := _pax s; _paxGlobal := _paxGlobal s; _gnuLongPath := _gnuLongPath
     s; _gnuLongLinkPath := _gnuLongLinkPath s; busy := busy s; waitDrain :=
     waitDrain s; destroyed := destroyed s; log := log s |}.
Definition set_onparse (v : Parser) (s : State) : State :=
  {| _offset := _offset s; _buffer := _buffer s; _missing := _missing s;
     _partial := _partial s; _onparse := v; _header := _header s; _stream :=
     _stream s; _overflow := _overflow s; _cb := _cb s; _locked := _locked s;
     _pax := _pax s; _paxGlobal := _paxGlobal s; _gnuLongPath := _gnuLongPath
     s; _gnuLongLinkPath := _gnuLongLinkPath s; busy := busy s; waitDrain :=
     waitDrain s; destroyed := destroyed s; log := log s |}.
Definition set_header (v : option Header) (s : State) : State :=
  {| _offset := _offset s; _buffer := _buffer s; _missing := _missing s;
     _partial := _partial s; _onparse := _onparse s; _header := v; _stream :=
     _stream s; _overflow := _overflow s; _cb := _cb s; _locked := _locked s;
     _pax := _pax s; _paxGlobal := _paxGlobal s; _gnuLongPath := _gnuLongPath
     s; _gnuLongLinkPath := _gnuLongLinkPath s; busy := busy s; waitDrain :=
     waitDrain s; destroyed := destroyed s; log := log s |}.
Definition set_stream (v : option Z) (s : State) : State :=
  {| _offset := _offset s; _buffer := _buffer s; _missing := _missing s;
     _partial := _partial s; _onparse := _onparse s; _header := _header s;
     _stream := v; _overflow := _overflow s; _cb := _cb s; _locked := _locked
     s; _pax := _pax s; _paxGlobal := _paxGlobal s; _gnuLongPath :=
     _gnuLongPath s; _gnuLongLinkPath := _gnuLongLinkPath s; busy := busy s;
     waitDrain := waitDrain s; destroyed := destroyed s; log := log s |}.
Definition set_overflow (v : option Buffer) (s : State) : State :=
  {| _offset := _offset s; _buffer := _buffer s; _missing := _missing s;
     _partial := _partial s; _onparse := _onparse s; _header := _header s;
     _stream := _stream s; _overflow := v; _cb := _cb s; _locked := _locked s;
     _pax := _pax s; _paxGlobal := _paxGlobal s; _gnuLongPath := _gnuLongPath
     s; _gnuLongLinkPath := _gnuLongLinkPath s; busy := busy s; waitDrain :=
     waitDrain s; destroyed := destroyed s; log := log s |}.
Definition set_cb (v : bool) (s : State) : State :=
  {| _offset := _offset s; _buffer := _buffer s; _missing := _missing s;
     _partial := _partial s; _onparse := _onparse s; _header := _header s;
     _stream := _stream s; _overflow := _overflow s; _cb := v; _locked :=
     _locked s; _pax := _pax s; _paxGlobal := _paxGlobal s; _gnuLongPath :=
     _gnuLongPath s; _gnuLongLinkPath := _gnuLongLinkPath s; busy := busy s;
     waitDrain := waitDrain s; destroyed := destroyed s; log := log s |}.
Definition set_locked (v : bool) (s : State) : State :=
  {| _offset := _offset s; _buffer := _buffer s; _missing := _missing s;
     _partial := _partial s; _onparse := _onparse s; _header := _header s;
     _stream := _stream s; _overflow := _overflow s; _cb := _cb s; _locked :=
     v; _pax := _pax s; _paxGlobal := _paxGlobal s; _gnuLongPath :=
     _gnuLongPath s; _gnuLongLinkPath := _gnuLongLinkPath s; busy := busy s;
     waitDrain := waitDrain s; destroyed := destroyed s; log := log s |}.
Definition set_pax (v : option (gmap string string)) (s : State) : State :=
  {| _offset := _offset s; _buffer := _buffer s; _missing := _missing s;
     _partial := _partial s; _onparse := _onparse s; _header := _header s;
     _stream := _stream s; _overflow := _overflow s; _cb := _cb s; _locked :=
     _locked s; _pax := v; _paxGlobal := _paxGlobal s; _gnuLongPath :=
     _gnuLongPath s; _gnuLongLinkPath := _gnuLongLinkPath s; busy := busy s;
     waitDrain := waitDrain s; destroyed := destroyed s; log := log s |}.
Definition set_paxGlobal (v : option (gmap string string)) (s : State) : State :=
  {| _offset := _offset s; _buffer := _buffer s; _missing := _missing s;
     _partial := _partial s; _onparse := _onparse s; _header := _header s;
     _stream := _stream s; _overflow := _overflow s; _cb := _cb s; _locked :=
     _locked s; _pax := _pax s; _paxGlobal := v; _gnuLongPath := _gnuLongPath
     s; _gnuLongLinkPath := _gnuLongLinkPath s; busy := busy s; waitDrain :=
     waitDrain s; destroyed := destroyed s; log := log s |}.
Definition set_gnuLongPath (v : option string) (s : State) : State :=
  {| _offset := _offset s; _buffer := _buffer s; _missing := _missing s;
     _partial := _partial s; _onparse := _onparse s; _header := _header s;
     _stream := _stream s; _overflow := _overflow s; _cb := _cb s; _locked :=
     _locked s; _pax := _pax s; _paxGlobal := _paxGlobal s; _gnuLongPath := v;
     _gnuLongLinkPath := _gnuLongLinkPath s; busy := busy s; waitDrain :=
     waitDrain s; destroyed := destroyed s; log := log s |}.
Definition set_gnuLongLinkPath (v : option string) (s : State) : State :=
  {| _offset := _offset s; _buffer := _buffer s; _missing := _missing s;
     _partial := _partial s; _onparse := _onparse s; _header := _header s;
     _stream := _stream s; _overflow := _overflow s; _cb := _cb s; _locked :=
     _locked s; _pax := _pax s; _paxGlobal := _paxGlobal s; _gnuLongPath :=
     _gnuLongPath s; _gnuLongLinkPath := v; busy := busy s; waitDrain :=
     waitDrain s; destroyed := destroyed s; log := log s |}.
Definition set_busy (v : bool) (s : State) : State :=
  {| _offset := _offset s; _buffer := _buffer s; _missing := _missing s;
     _partial := _partial s; _onparse := _onparse s; _header := _header s;
     _stream := _stream s; _overflow := _overflow s; _cb := _cb s; _locked :=
     _locked s; _pax := _pax s; _paxGlobal := _paxGlobal s; _gnuLongPath :=
     _gnuLongPath s; _gnuLongLinkPath := _gnuLongLinkPath s; busy := v;
     waitDrain := waitDrain s; destroyed := destroyed s; log := log s |}.
Definition set_waitDrain (v : option bool) (s : State) : State :=
  {| _offset := _offset s; _buffer := _buffer s; _missing := _missing s;
     _partial := _partial s; _onparse := _onparse s; _header := _header s;
     _stream := _stream s; _overflow := _overflow s; _cb := _cb s; _locked :=
     _locked s; _pax := _pax s; _paxGlobal := _paxGlobal s; _gnuLongPath :=
     _gnuLongPath s; _gnuLongLinkPath := _gnuLongLinkPath s; busy := busy s;
     waitDrain := v; destroyed := destroyed s; log := log s |}.
Definition set_destroyed (v : option EngineError) (s : State) : State :=
  {| _offset := _offset s; _buffer := _buffer s; _missing := _missing s;
     _partial := _partial s; _onparse := _onparse s; _header := _header s;
     _stream := _stream s; _overflow := _overflow s; _cb := _cb s; _locked :=
     _locked s; _pax := _pax s; _paxGlobal := _paxGlobal s; _gnuLongPath :=
     _gnuLongPath s; _gnuLongLinkPath := _gnuLongLinkPath s; busy := busy s;
     waitDrain := waitDrain s; destroyed := v; log := log s |}.
Definition set_log (v : list Event) (s : State) : State :=
  {| _offset := _offset s; _buffer := _buffer s; _missing := _missing s;
     _partial := _partial s; _onparse := _onparse s; _header := _header s;
     _stream := _stream s; _overflow := _overflow s; _cb := _cb s; _locked :=
     _locked s; _pax := _pax s; _paxGlobal := _paxGlobal s; _gnuLongPath :=
     _gnuLongPath s; _gnuLongLinkPath := _gnuLongLinkPath s; busy := busy s;
     waitDrain := waitDrain s; destroyed := destroyed s; log := v |}.

(** [overflow(size)]: [Number(size) & 511], and [512 - size] unless zero. *)
Definition overflow (sizeInput : option jsnum) : nat :=
  match sizeInput with
  | Some (JNum z) =>
      let size := Z.land z 511 in
      if size =? 0 then O else Z.to_nat (512 - size)
  | _ => O
  end.

Definition headerSize (s : State) : option jsnum :=
  (fun h => h_size (hdr h)) <$> _header s.

(** A size that the byte counters of the model can hold. The source lets
    NaN and negative sizes through to [_parse]; the model stops there. *)
Definition sizeNat (n : jsnum) : option nat :=
  match n with
  | JNum z => if 0 <=? z then Some (Z.to_nat z) else None
  | JNaN => None
  end.

(** [!header.size] *)
Definition falsySize (n : jsnum) : bool :=
  match n with
  | JNum z => z =? 0
  | JNaN => true
  end.

(** Appending to the log. Consecutive pieces of content are kept as one
    piece, so that the log shows the bytes a source received and not how
    they were cut. *)
Definition logEvent (e : Event) (s : State) : State :=
  set_log (log s ++ [e]) s.

Definition appendData (d : Buffer) (l : list Event) : list Event :=
  match d with
  | [] => l
  | _ =>
      match last l with
      | Some (EvData d0) => removelast l ++ [EvData (d0 ++ d)]
      | _ => l ++ [EvData d]
      end
  end.

Definition logData (d : Buffer) (s : State) : State :=
  set_log (appendData d (log s)) s.

(** [mixinPax] *)
Definition paxTruthy (pax : gmap string string) (key : string) : option string :=
  truthyStr (pax !! key).

Definition mixinPax (header : DecodedHeader) (pax : gmap string string) : Header :=
  let name := default (h_name header) (paxTruthy pax "path") in
  let linkname := match paxTruthy pax "linkpath" with
                  | Some l => Some l
                  | None => h_linkname header
                  end in
  let size := match paxTruthy pax "size" with
              | Some sz => parseInt (bytesOf sz) 10
              | None => h_size header
              end in
  {| hdr := {| h_name := name; h_mode := h_mode header; h_uid := h_uid header;
               h_gid := h_gid header; h_size := size;
               h_mtime := h_mtime header; h_type := h_type header;
               h_linkname := linkname; h_uname := h_uname header;
               h_gname := h_gname header; h_devmajor := h_devmajor header;
               h_devminor := h_devminor header |};
     hdr_pax := Some pax |}.

Definition withHName (n : string) (h : DecodedHeader) : DecodedHeader :=
  {| h_name := n; h_mode := h_mode h; h_uid := h_uid h; h_gid := h_gid h;
     h_size := h_size h; h_mtime := h_mtime h; h_type := h_type h;
     h_linkname := h_linkname h; h_uname := h_uname h; h_gname := h_gname h;
     h_devmajor := h_devmajor h; h_devminor := h_devminor h |}.

Definition withHLinkname (l : string) (h : DecodedHeader) : DecodedHeader :=
  {| h_name := h_name h; h_mode := h_mode h; h_uid := h_uid h; h_gid := h_gid h;
     h_size := h_size h; h_mtime := h_mtime h; h_type := h_type h;
     h_linkname := Some l; h_uname := h_uname h; h_gname := h_gname h;
     h_devmajor := h_devmajor h; h_devminor := h_devminor h |}.

(** [_parse(size, onparse)] *)
Definition _parse (size : nat) (onparse : Parser) (s : State) : State :=
  let s := set_offset (_offset s + Z.of_nat size) s in
  let s := set_missing size s in
  let s := if decide (onparse = OnHeader) then set_partial false s else s in
  set_onparse onparse s.

(** How a parse continuation leaves: it called [oncontinue()] last, or it
    returned without; [Unmodelled] is a size the model does not follow. *)
Inductive Step : Type :=
  | Continue (s : State)
  | Return (s : State)
  | Unmodelled.

Definition mapStep (f : State -> State) (r : Step) : Step :=
  match r with
  | Continue s => Continue (f s)
  | Return s => Return (f s)
  | Unmodelled => Unmodelled
  end.

Section Engine.
(** [opts.allowUnknownFormat]; the default file name encoding is used. *)
Variable allowUnknownFormat : bool.
(** The consumer: whether its "entry" handler invokes the acknowledgment
    callback before it returns, and what [source.write(data)] answers. *)
Variable ackNow : Header -> bool.
Variable accept : Z -> Buffer -> bool.

(** [self.destroy(err)]: the first error is kept. *)
Definition destroy (e : EngineError) (s : State) : State :=
  match destroyed s with
  | Some _ => s
  | None => set_destroyed (Some e) s
  end.

(** Calling a write callback: the chunk's own callback frees the writable,
    [noop] does nothing. *)
Definition callCb (cb : bool) (s : State) : State :=
  if cb then set_busy false s else s.

Definition onstreamend (s : State) : Step :=
  let s := set_stream None s in
  let drain := overflow (headerSize s) in
  let s := if (drain =? 0)%nat then _parse 512 OnHeader s
           else _parse drain OnDrain s in
  if _locked s then Return s else Continue s.

Definition ondrain (s : State) : Step :=
  let s := set_buffer (drop (overflow (headerSize s)) (_buffer s)) s in
  Continue (_parse 512 OnHeader s).

(** [self._header?.size ?? 0], as a byte count. *)
Definition bodySize (s : State) : option nat :=
  sizeNat (default (JNum 0) (headerSize s)).

Definition onpaxglobalheader (s : State) : Step :=
  match bodySize s with
  | None => Unmodelled
  | Some size =>
      let s := set_paxGlobal (Some (decodePax (slice (_buffer s) 0 size))) s in
      onstreamend (set_buffer (drop size (_buffer s)) s)
  end.

Definition onpaxheader (s : State) : Step :=
  match bodySize s with
  | None => Unmodelled
  | Some size =>
      let pax := decodePax (slice (_buffer s) 0 size) in
      let pax := match _paxGlobal s with
                 | Some g => pax ∪ g     (* [Object.assign({}, global, pax)] *)
                 | None => pax
                 end in
      let s := set_pax (Some pax) s in
      onstreamend (set_buffer (drop size (_buffer s)) s)
  end.

Definition ongnulongpath (s : State) : Step :=
  match bodySize s with
  | None => Unmodelled
  | Some size =>
      let s := set_gnuLongPath
                 (Some (decodeLongPath (slice (_buffer s) 0 size))) s in
      onstreamend (set_buffer (drop size (_buffer s)) s)
  end.

Definition ongnulonglinkpath (s : State) : Step :=
  match bodySize s with
  | None => Unmodelled
  | Some size =>
      let s := set_gnuLongLinkPath
                 (Some (decodeLongPath (slice (_buffer s) 0 size))) s in
      onstreamend (set_buffer (drop size (_buffer s)) s)
  end.

(** The part of [onheader] that arms the body of an extended header. *)
Definition awaitBody (header : DecodedHeader) (p : Parser) (s : State) : Step :=
  match sizeNat (h_size header) with
  | Some n => Continue (_parse n p s)
  | None => Unmodelled
  end.

(** [onunlock()] as the handler of "entry" calls it, without an error. *)
Definition unlockNow (h : Header) (s : State) : State :=
  if ackNow h then set_locked false (logEvent EvAck s) else s.

(** Lines 185-212 of [onheader]: an entry for the consumer. *)
Definition emitEntry (offset : Z) (header : DecodedHeader) (s : State) : Step :=
  let '(header, s) :=
    match truthyStr (_gnuLongPath s) with
    | Some p => (withHName p header, set_gnuLongPath None s)
    | None => (header, s)
    end in
  let '(header, s) :=
    match truthyStr (_gnuLongLinkPath s) with
    | Some p => (withHLinkname p header, set_gnuLongLinkPath None s)
    | None => (header, s)
    end in
  let '(header, s) :=
    match _pax s with
    | Some pax => (mixinPax header pax, set_pax None s)
    | None => ({| hdr := header; hdr_pax := None |}, s)
    end in
  let s := set_header (Some header) s in
  let s := set_locked true s in
  if falsySize (h_size (hdr header))
     || bool_decide (h_type (hdr header) = Some "directory"%string)
  then
    let s := _parse 512 OnHeader s in
    let s := logEvent (EvEntry header offset true) s in
    let s := unlockNow header s in
    if _locked s then Return s else Continue s
  else
    let s := set_stream (Some offset) s in
    let s := logEvent (EvEntry header offset false) s in
    let s := unlockNow header s in
    match sizeNat (h_size (hdr header)) with
    | Some n => Continue (_parse n OnStreamEnd s)
    | None => Unmodelled
    end.

Definition onheader (s : State) : Step :=
  let offset := _offset s in
  let s := logEvent (EvDecode offset) s in
  let '(header, s) :=
    match decode (slice (_buffer s) 0 512) allowUnknownFormat with
    | Throws e => (None, destroy (DecodeFailed e) s)
    | Returns h =>
        (h, set_header ((fun h => {| hdr := h; hdr_pax := None |}) <$> h) s)
    end in
  let s := set_buffer (drop 512 (_buffer s)) s in
  match header with
  | None => Continue (_parse 512 OnHeader s)
  | Some header =>
      if bool_decide (h_type header = Some "gnu-long-path"%string)
      then awaitBody header OnGnuLongPath s
      else if bool_decide (h_type header = Some "gnu-long-link-path"%string)
      then awaitBody header OnGnuLongLinkPath s
      else if bool_decide (h_type header = Some "pax-global-header"%string)
      then awaitBody header OnPaxGlobalHeader s
      else if bool_decide (h_type header = Some "pax-header"%string)
      then awaitBody header OnPaxHeader s
      else emitEntry offset header s
  end.

(** [this._onparse()] *)
Definition runParser (s : State) : Step :=
  match _onparse s with
  | OnHeader => onheader s
  | OnStreamEnd => onstreamend s
  | OnDrain => ondrain s
  | OnPaxGlobalHeader => onpaxglobalheader s
  | OnPaxHeader => onpaxheader s
  | OnGnuLongPath => ongnulongpath s
  | OnGnuLongLinkPath => ongnulonglinkpath s
  end.

(** The result of running the engine on an input. *)
Inductive Outcome : Type :=
  | Done (s : State)
  | Stuck            (* a size the model does not follow *)
  | OutOfFuel.

(** [if (data.byteLength) this._partial = true] *)
Definition markPartial (data : Buffer) (s : State) : State :=
  if (length data =? 0)%nat then s else set_partial true s.

(** The branch of [_write] for [data.byteLength < missing]: "we do not
    reach end-of-chunk now. just forward it". *)
Definition forward (data : Buffer) (cb : bool) (s : State) : State :=
  let s := set_missing (_missing s - length data) s in
  let s := set_overflow None s in
  match _stream s with
  | Some src =>
      let s := logData data s in
      if accept src data then callCb cb s else set_waitDrain (Some cb) s
  | None => callCb cb (set_buffer (_buffer s ++ data) s)
  end.

(** The other branch, up to the call of [this._onparse()]: "end-of-chunk.
    the parser should call cb". *)
Definition endOfChunk (data : Buffer) (cb : bool) (s : State) : State :=
  let missing := _missing s in
  let s := set_cb cb s in
  let s := set_missing O s in
  let overflow := if (missing <? length data)%nat
                  then Some (drop missing data) else None in
  let data := take missing data in
  let s := match _stream s with
           | Some _ => logEvent EvEnd (logData data s)
           | None => set_buffer (_buffer s ++ data) s
           end in
  set_overflow overflow s.

(** [_write(data, cb)] together with [_continue()], which calls it again on
    the overflow. [cb] tells whether the callback is the chunk's own or
    [noop]. Of three calls in a row at least one consumes a byte of [data]:
    a fuel of [3 * length data + 3] calls is never exhausted. *)
Fixpoint _write (fuel : nat) (data : Buffer) (cb : bool) (s : State) : Outcome :=
  match fuel with
  | O => OutOfFuel
  | S fuel =>
      let s := markPartial data s in
      if (length data <? _missing s)%nat then Done (forward data cb s)
      else
        match runParser (endOfChunk data cb s) with
        | Unmodelled => Stuck
        | Return s => Done s
        | Continue s =>
            (* [_continue()] *)
            let cb := _cb s in
            let s := set_cb false s in
            match _overflow s with
            | Some o => _write fuel o cb s
            | None => Done (callCb cb s)
            end
        end
  end.

(** [_continue()], called from [onunlock]. *)
Definition _continue (s : State) : Outcome :=
  let cb := _cb s in
  let s := set_cb false s in
  match _overflow s with
  | Some o => _write (3 * length o + 3) o cb s
  | None => Done (callCb cb s)
  end.

(** The state after the constructor. *)
Definition initial : State :=
  {| _offset := 512; _buffer := []; _missing := 512; _partial := false;
     _onparse := OnHeader; _header := None; _stream := None;
     _overflow := None; _cb := false; _locked := false;
     _pax := None; _paxGlobal := None;
     _gnuLongPath := None; _gnuLongLinkPath := None;
     busy := false; waitDrain := None; destroyed := None; log := [] |}.

(** What the surroundings do to the engine. *)
Inductive Action : Type :=
  | Write (chunk : Buffer)   (* the writable hands a chunk to [_write] *)
  | Ack (err : bool)         (* the consumer invokes [onunlock(err)] *)
  | Drain.                   (* the open source emits "drain" *)

Definition isEntry (e : Event) : bool :=
  match e with EvEntry _ _ _ => true | _ => false end.

(** The writable hands over a chunk only when the callback of the one
    before has been called and the engine is not destroyed; the consumer
    holds the acknowledgment callback once an entry was emitted. *)
Definition enabled (a : Action) (s : State) : bool :=
  match a with
  | Write _ => negb (busy s) && bool_decide (destroyed s = None)
  | Ack _ => existsb isEntry (log s)
  | Drain => true
  end.

Definition perform (a : Action) (s : State) : Outcome :=
  match a with
  | Write chunk => _write (3 * length chunk + 3) chunk true (set_busy true s)
  | Ack err =>
      (* [onunlock(err)] *)
      let s := logEvent EvAck s in
      let s := set_locked false s in
      if err then Done (destroy ConsumerError s)
      else match _stream s with
           | None => _continue s
           | Some _ => Done s
           end
  | Drain =>
      match waitDrain s with
      | Some cb => Done (callCb cb (set_waitDrain None s))
      | None => Done s
      end
  end.

Definition bindOutcome (o : Outcome) (k : State -> Outcome) : Outcome :=
  match o with
  | Done s => k s
  | Stuck => Stuck
  | OutOfFuel => OutOfFuel
  end.

(** The consumer drains the source when a callback waits for that
    ([perform Drain]). *)
Definition drained (s : State) : State :=
  match waitDrain s with
  | Some cb => callCb cb (set_waitDrain None s)
  | None => s
  end.

(** [_continue()], with [k] for the call of [_write]. *)
Definition resume (k : Buffer -> bool -> State -> Outcome) (s : State) : Outcome :=
  let cb := _cb s in
  let s := set_cb false s in
  match _overflow s with
  | Some o => k o cb s
  | None => Done (callCb cb s)
  end.

(** After the parse continuation: it called [_continue()] itself, or it
    returned and the consumer invokes [onunlock()] ([perform (Ack false)]). *)
Definition afterParse (k : Buffer -> bool -> State -> Outcome) (r : Step)
  : Outcome :=
  match r with
  | Unmodelled => Stuck
  | Continue s => resume k s
  | Return s =>
      let s := logEvent EvAck s in
      let s := set_locked false s in
      match _stream s with
      | Some _ => Done s
      | None => resume k s
      end
  end.

(** The engine with a consumer that lets it run on: [_write] with the
    consumer's drain and acknowledgment put in where the engine waits for
    them. Of three calls in a row at least one consumes a byte: a fuel of
    [3 * length data + 3] calls is never exhausted. *)
Fixpoint run (fuel : nat) (data : Buffer) (cb : bool) (s : State) : Outcome :=
  match fuel with
  | O => OutOfFuel
  | S fuel =>
      let s := markPartial data s in
      if (length data <? _missing s)%nat then Done (drained (forward data cb s))
      else afterParse (run fuel) (runParser (endOfChunk data cb s))
  end.

(** One chunk: handed over, if the writable may, and run to quiescence. *)
Definition push (chunk : Buffer) (s : State) : Outcome :=
  if enabled (Write chunk) s
  then run (3 * length chunk + 3) chunk true (set_busy true s)
  else Done s.

(** The chunks of an input, in order. *)
Fixpoint feed (chunks : list Buffer) (s : State) : Outcome :=
  match chunks with
  | [] => Done s
  | c :: rest => bindOutcome (push c s) (feed rest)
  end.

(** [_final(cb)]: the error it reports, if any. *)
Inductive FinalError : Type := UnexpectedEndOfData.

Definition _final (s : State) : option FinalError :=
  if _partial s then Some UnexpectedEndOfData else None.
End Engine.

(** ** Invariants of the parse cursor *)

(** The continuations that take the body of an extended header. *)
Definition isBodyParser (p : Parser) : bool :=
  match p with
  | OnPaxGlobalHeader | OnPaxHeader | OnGnuLongPath | OnGnuLongLinkPath => true
  | _ => false
  end.

(** A header step is armed and none of its bytes has arrived. *)
Definition atHeaderBoundary (s : State) : Prop :=
  _onparse s = OnHeader /\ _missing s = 512%nat.

Record cursorOk (s : State) : Prop := {
  ck_header : _onparse s = OnHeader -> (1 <= _missing s <= 512)%nat;
  ck_partial : _partial s = false <-> atHeaderBoundary s;
  ck_zero : _missing s = O -> isBodyParser (_onparse s) = true
}.

(** The calls of [_write] that [run] needs at most, less one. *)
Definition stepsNeeded (data : Buffer) (s : State) : nat :=
  3 * length data
  + (if (0 <? _missing s)%nat then 0
     else if isBodyParser (_onparse s) then 1 else 2).

(** ** What a log says about sources and acknowledgments *)

(** Reading a log from its start: whether the last entry still waits for
    its acknowledgment, and whether no header was decoded while one did. *)
Definition lockStep (st : bool * bool) (e : Event) : bool * bool :=
  let '(awaiting, ok) := st in
  match e with
  | EvEntry _ _ _ => (true, ok)
  | EvAck => (false, ok)
  | EvDecode _ => (awaiting, ok && negb awaiting)
  | _ => (awaiting, ok)
  end.

Definition lockTrace (l : list Event) : bool * bool :=
  fold_left lockStep l (false, true).

Definition awaitingAck (l : list Event) : bool := fst (lockTrace l).
Definition lockRespected (l : list Event) : bool := snd (lockTrace l).

(** The number of sources that are open, and whether every entry was
    emitted while none was. *)
Definition sourceStep (st : nat * bool) (e : Event) : nat * bool :=
  let '(open, ok) := st in
  match e with
  | EvEntry _ _ ended =>
      ((if ended then open else S open), ok && (open =? 0)%nat)
  | EvEnd => (pred open, ok)
  | _ => (open, ok)
  end.

Definition sourceTrace (l : list Event) : nat * bool :=
  fold_left sourceStep l (O, true).

Definition openSources (l : list Event) : nat := fst (sourceTrace l).
Definition oneSourceAtATime (l : list Event) : bool := snd (sourceTrace l).

(** An entry comes with an ended source exactly when its size is zero (or
    not a number) or it is a directory. *)
Definition entryShape (e : Event) : Prop :=
  match e with
  | EvEntry h _ ended =>
      ended = falsySize (h_size (hdr h))
              || bool_decide (h_type (hdr h) = Some "directory"%string)
  | _ => True
  end.

Definition openCount (s : State) : nat :=
  match _stream s with Some _ => 1%nat | None => O end.

(** The invariant of the single-entry lock, between two actions: the log
    agrees with the lock and with the source, no header was decoded under
    the lock, and a locked engine without a source holds the chunk callback,
    so that the writable hands over nothing. *)
Record lockOk (s : State) : Prop := {
  lk_lock : lockTrace (log s) = (_locked s, true);
  lk_source : sourceTrace (log s) = (openCount s, true);
  lk_shape : Forall entryShape (log s);
  lk_stream : _stream s <> None -> _onparse s = OnStreamEnd;
  lk_stalled : _locked s = true -> _stream s = None -> _cb s = true;
  lk_cb : _cb s = true -> busy s = true;
  lk_overflow : _cb s = false -> _overflow s = None;
  lk_drain : waitDrain s <> None -> _cb s = false /\ busy s = true
}.

(** The same at the start of a call of [_write] with the chunk callback. *)
Record lockPre (s : State) : Prop := {
  lp_lock : lockTrace (log s) = (_locked s, true);
  lp_source : sourceTrace (log s) = (openCount s, true);
  lp_shape : Forall entryShape (log s);
  lp_stream : _stream s <> None -> _onparse s = OnStreamEnd;
  lp_unlocked : _locked s = true -> _stream s <> None;
  lp_cb : _cb s = false;
  lp_busy : busy s = true;
  lp_drain : waitDrain s = None
}.

(** Between two chunks: the callback of the last one was called, nothing is
    held back. *)
Definition idle (s : State) : Prop :=
  busy s = false /\ waitDrain s = None /\ _cb s = false /\ _overflow s = None.

(** The entries a log shows: each header with the bytes its source got. *)
Fixpoint entriesOf (acc : list (Header * Buffer)) (l : list Event)
  : list (Header * Buffer) :=
  match l with
  | [] => acc
  | EvEntry h _ _ :: l' => entriesOf (acc ++ [(h, [])]) l'
  | EvData d :: l' =>
      match last acc with
      | Some (h, c) => entriesOf (removelast acc ++ [(h, c ++ d)]) l'
      | None => entriesOf acc l'
      end
  | _ :: l' => entriesOf acc l'
  end.

Definition entries (s : State) : list (Header * Buffer) := entriesOf [] (log s).

(** The states the engine reaches from [initial]. *)
Inductive reachable (allow : bool) (ackNow : Header -> bool)
    (accept : Z -> Buffer -> bool) : State -> Prop :=
  | reach_initial : reachable allow ackNow accept initial
  | reach_step s a s' :
      reachable allow ackNow accept s ->
      enabled a s = true ->
      perform allow ackNow accept a s = Done s' ->
      reachable allow ackNow accept s'.

(** ** The loop of [decodePax], counted *)

(** The [while (buf.length)] loop of [decodePax] with a bound on its
    iterations: [None] when the bound is reached before the loop is left.
    [decodePaxLoop] is the same loop without the account. *)
Fixpoint decodePaxRun (fuel : nat) (buf : Buffer) (result : gmap string string)
  : option (gmap string string) :=
  if (length buf =? 0)%nat then Some result else
  match fuel with
  | O => None
  | S f =>
      let i := default (length buf) (findByte " " buf) in
      match parseInt (slice buf 0 i) 10 with
      | JNaN => Some result
      | JNum len =>
          if len =? 0 then Some result else
          let b := sliceZ buf (Z.of_nat i + 1) (len - 1) in
          match findByte "=" b with
          | None => Some result
          | Some keyIndex =>
              let result := <[ strOf (firstn keyIndex b)
                               := strOf (skipn (S keyIndex) b) ]> result in
              decodePaxRun f (sliceZ buf len (Z.of_nat (length buf))) result
          end
      end
  end.

(** ** What the engine holds back, and where blocks start *)

(** The length of the pending parse step, when it is not the content of an
    entry: a header block, the padding after a content, or the body of an
    extended header. *)
Definition stepSize (s : State) : option nat :=
  match _onparse s with
  | OnHeader => Some 512%nat
  | OnDrain => Some (overflow (headerSize s))
  | _ => bodySize s
  end.

(** Headers are decoded, and sources created, at multiples of 512. *)
Definition alignedEvent (e : Event) : Prop :=
  match e with
  | EvDecode offset => offset mod 512 = 0
  | EvEntry _ src _ => src mod 512 = 0
  | _ => True
  end.

(** The buffer holds the bytes of the pending step that have arrived and
    nothing else; content goes to the open source and is never kept. The
    offset is the end of the pending step, which for a header and for
    padding is a multiple of 512, and for a body lies its length after
    one. *)
Record bufferOk (s : State) : Prop := {
  bk_source : _stream s <> None <-> _onparse s = OnStreamEnd;
  bk_content : _onparse s = OnStreamEnd -> _buffer s = [];
  bk_step : _onparse s <> OnStreamEnd ->
            stepSize s = Some (length (_buffer s) + _missing s)%nat;
  bk_align : exists n, stepSize s = Some n /\
             (_offset s - (if decide (_onparse s = OnHeader \/ _onparse s = OnDrain)
                           then 0 else Z.of_nat n)) mod 512 = 0;
  bk_log : Forall alignedEvent (log s)
}.

(** ** Members of an archive *)

(** The header an entry is emitted with (lines 185-198 of [onheader]): a
    pending GNU long name, a pending GNU long link name and a pending PAX
    mapping are applied to the decoded header, in this order. *)
Definition entryHeader (s : State) (header : DecodedHeader) : Header :=
  let header := match truthyStr (_gnuLongPath s) with
                | Some p => withHName p header
                | None => header
                end in
  let header := match truthyStr (_gnuLongLinkPath s) with
                | Some p => withHLinkname p header
                | None => header
                end in
  match _pax s with
  | Some pax => mixinPax header pax
  | None => {| hdr := header; hdr_pax := None |}
  end.

(** The types of the headers that announce a body for the engine itself. *)
Definition isExtendedType (t : option string) : bool :=
  bool_decide (t = Some "gnu-long-path"%string)
  || bool_decide (t = Some "gnu-long-link-path"%string)
  || bool_decide (t = Some "pax-global-header"%string)
  || bool_decide (t = Some "pax-header"%string).

(** Between two members: the engine is idle, a header is pending and none
    of it has arrived. *)
Record betweenMembers (s : State) : Prop := {
  bm_idle : idle s;
  bm_header : atHeaderBoundary s;
  bm_buffer : _buffer s = [];
  bm_stream : _stream s = None;
  bm_locked : _locked s = false
}.

(** Nothing of an extended header waits for the next entry. *)
Definition noPending (s : State) : Prop :=
  _pax s = None /\ truthyStr (_gnuLongPath s) = None /\
  truthyStr (_gnuLongLinkPath s) = None.

(** What is pending of extended headers once it was applied to an entry. *)
Definition clearPending (s : State) : State :=
  let s := match truthyStr (_gnuLongPath s) with
           | Some _ => set_gnuLongPath None s
           | None => s
           end in
  let s := match truthyStr (_gnuLongLinkPath s) with
           | Some _ => set_gnuLongLinkPath None s
           | None => s
           end in
  match _pax s with
  | Some _ => set_pax None s
  | None => s
  end.
(** The dispatch of [onheader] on the type of an extended header (lines
    160-182): the continuation that takes its body. *)
Definition bodyParser (t : option string) : option Parser :=
  if bool_decide (t = Some "gnu-long-path"%string) then Some OnGnuLongPath
  else if bool_decide (t = Some "gnu-long-link-path"%string)
  then Some OnGnuLongLinkPath
  else if bool_decide (t = Some "pax-global-header"%string)
  then Some OnPaxGlobalHeader
  else if bool_decide (t = Some "pax-header"%string) then Some OnPaxHeader
  else None.

(** The mapping a PAX header leaves for the next entry (lines 114-117 of
    [onpaxheader]): its records over those of the global header. *)
Definition mergedPax (global : option (gmap string string)) (body : Buffer)
  : gmap string string :=
  match global with
  | Some g => decodePax body ∪ g
  | None => decodePax body
  end.

(** What the continuation of an extended header keeps of its body. *)
Definition storeBody (p : Parser) (body : Buffer) (s : State) : State :=
  match p with
  | OnPaxGlobalHeader => set_paxGlobal (Some (decodePax body)) s
  | OnPaxHeader => set_pax (Some (mergedPax (_paxGlobal s) body)) s
  | OnGnuLongPath => set_gnuLongPath (Some (decodeLongPath body)) s
  | OnGnuLongLinkPath => set_gnuLongLinkPath (Some (decodeLongPath body)) s
  | _ => s
  end.
(** A member of an archive that stands for itself: the header block, the
    header [decode] finds in it, the content and the padding. *)
Record Member : Type := {
  m_block : Buffer;
  m_header : DecodedHeader;
  m_content : Buffer;
  m_pad : Buffer
}.

Definition memberBytes (m : Member) : Buffer :=
  m_block m ++ m_content m ++ m_pad m.

Definition memberEntry (m : Member) : Header * Buffer :=
  ({| hdr := m_header m; hdr_pax := None |}, m_content m).

(** The block decodes to the header, which is no extended header and states
    the length of the content; a directory has none; the padding fills the
    last block. *)
Definition plainMember (allowUnknownFormat : bool) (m : Member) : Prop :=
  length (m_block m) = 512%nat /\
  decode (m_block m) allowUnknownFormat = Returns (Some (m_header m)) /\
  isExtendedType (h_type (m_header m)) = false /\
  sizeNat (h_size (m_header m)) = Some (length (m_content m)) /\
  (h_type (m_header m) = Some "directory"%string -> m_content m = []) /\
  length (m_pad m) = overflow (Some (h_size (m_header m))).

(** A block that [decode] takes for an empty one. *)
Definition nullBlock (allowUnknownFormat : bool) (b : Buffer) : Prop :=
  length b = 512%nat /\ decode b allowUnknownFormat = Returns None.

(** * The extraction engine for every size (src/extract.ts)

    The engine once more, with [_offset] and [_missing] as JavaScript
    numbers. A header may state a size that is negative or not a number:
    [_parse] takes it as it is and the engine goes on, so this model does as
    well, and none of its steps is left out. What the buffer list answers
    when it is asked for such a length is not fixed by the sources: the
    functions [oddSlice] and [oddConsume] stand for it, and what is proved
    holds whatever they return. *)
Module Total.

(** What happens at the engine's boundary. *)
Inductive Event : Type :=
  | EvDecode (offset : jsnum)                  (* [headers.decode] on a block *)
  | EvEntry (h : Header) (src : jsnum) (ended : bool)  (* [emit("entry", ...)] *)
  | EvData (d : Buffer)                        (* bytes given to the source *)
  | EvEnd                                      (* the open source is ended *)
  | EvAck.                                     (* [onunlock] is invoked *)

(** The fields of [Extract], and the state of its surroundings. *)
Record State : Type := {
  _offset : jsnum;
  _buffer : Buffer;
  _missing : jsnum;
  _partial : bool;
  _onparse : Parser;
  _header : option Header;
  _stream : option jsnum;  (* the open source, by the offset it was created at *)
  _overflow : option Buffer;
  _cb : bool;  (* the chunk callback is held ([false]: null or noop) *)
  _locked : bool;
  _pax : option (gmap string string);
  _paxGlobal : option (gmap string string);
  _gnuLongPath : option string;
  _gnuLongLinkPath : option string;
  busy : bool;  (* a chunk was handed to [_write] and its callback not called yet *)
  waitDrain : option bool;  (* a callback waits for the source's drain event *)
  destroyed : option EngineError;  (* [destroy(err)] was called *)
  log : list Event  (* what the consumer and the decoder saw, oldest first *)
}.

(** Field updates. *)
Definition set_offset (v : jsnum) (s : State) : State :=
  {| _offset := v; _buffer := _buffer s; _missing := _missing s; _partial :=
     _partial s; _onparse := _onparse s; _header := _header s; _stream :=
     _stream s; _overflow := _overflow s; _cb := _cb s; _locked := _locked
     s; _pax := _pax s; _paxGlobal := _paxGlobal s; _gnuLongPath :=
     _gnuLongPath s; _gnuLongLinkPath := _gnuLongLinkPath s; busy := busy s;
     waitDrain := waitDrain s; destroyed := destroyed s; log := log s |}.
Definition set_buffer (v : Buffer) (s : State) : State :=
  {| _offset := _offset s; _buffer := v; _missing := _missing s; _partial :=
     _partial s; _onparse := _onparse s; _header := _header s; _stream :=
     _stream s; _overflow := _overflow s; _cb := _cb s; _locked := _locked
     s; _pax := _pax s; _paxGlobal := _paxGlobal s; _gnuLongPath :=
     _gnuLongPath s; _gnuLongLinkPath := _gnuLongLinkPath s; busy := busy s;
     waitDrain := waitDrain s; destroyed := destroyed s; log := log s |}.
Definition set_missing (v : jsnum) (s : State) : State :=
  {| _offset := _offset s; _buffer := _buffer s; _missing := v; _partial :=
     _partial s; _onparse := _onparse s; _header := _header s; _stream :=
     _stream s; _overflow := _overflow s; _cb := _cb s; _locked := _locked
     s; _pax := _pax s; _paxGlobal := _paxGlobal s; _gnuLongPath :=
     _gnuLongPath s; _gnuLongLinkPath := _gnuLongLinkPath s; busy := busy s;
     waitDrain := waitDrain s; destroyed := destroyed s; log := log s |}.
Definition set_partial (v : bool) (s : State) : State :=
  {| _offset := _offset s; _buffer := _buffer s; _missing := _missing s;
     _partial := v; _onparse := _onparse s; _header := _header s; _stream :=
     _stream s; _overflow := _overflow s; _cb := _cb s; _locked := _locked
     s; _pax := _pax s; _paxGlobal := _paxGlobal s; _gnuLongPath :=
     _gnuLongPath s; _gnuLongLinkPath := _gnuLongLinkPath s; busy := busy s;
     waitDrain := waitDrain s; destroyed := destroyed s; log := log s |}.
Definition set_onparse (v : Parser) (s : State) : State :=
  {| _offset := _offset s; _buffer := _buffer s; _missing := _missing s;
     _partial := _partial s; _onparse := v; _header := _header s; _stream :=
     _stream s; _overflow := _overflow s; _cb := _cb s; _locked := _locked
     s; _pax := _pax s; _paxGlobal := _paxGlobal s; _gnuLongPath :=
     _gnuLongPath s; _gnuLongLinkPath := _gnuLongLinkPath s; busy := busy s;
     waitDrain := waitDrain s; destroyed := destroyed s; log := log s |}.
Definition set_header (v : option Header) (s : State) : State :=
  {| _offset := _offset s; _buffer := _buffer s; _missing := _missing s;
     _partial := _partial s; _onparse := _onparse s; _header := v; _stream
     := _stream s; _overflow := _overflow s; _cb := _cb s; _locked :=
     _locked s; _pax := _pax s; _paxGlobal := _paxGlobal s; _gnuLongPath :=
     _gnuLongPath s; _gnuLongLinkPath := _gnuLongLinkPath s; busy := busy s;
     waitDrain := waitDrain s; destroyed := destroyed s; log := log s |}.
Definition set_stream (v : option jsnum) (s : State) : State :=
  {| _offset := _offset s; _buffer := _buffer s; _missing := _missing s;
     _partial := _partial s; _onparse := _onparse s; _header := _header s;
     _stream := v; _overflow := _overflow s; _cb := _cb s; _locked :=
     _locked s; _pax := _pax s; _paxGlobal := _paxGlobal s; _gnuLongPath :=
     _gnuLongPath s; _gnuLongLinkPath := _gnuLongLinkPath s; busy := busy s;
     waitDrain := waitDrain s; destroyed := destroyed s; log := log s |}.
Definition set_overflow (v : option Buffer) (s : State) : State :=
  {| _offset := _offset s; _buffer := _buffer s; _missing := _missing s;
     _partial := _partial s; _onparse := _onparse s; _header := _header s;
     _stream := _stream s; _overflow := v; _cb := _cb s; _locked := _locked
     s; _pax := _pax s; _paxGlobal := _paxGlobal s; _gnuLongPath :=
     _gnuLongPath s; _gnuLongLinkPath := _gnuLongLinkPath s; busy := busy s;
     waitDrain := waitDrain s; destroyed := destroyed s; log := log s |}.
Definition set_cb (v : bool) (s : State) : State :=
  {| _offset := _offset s; _buffer := _buffer s; _missing := _missing s;
     _partial := _partial s; _onparse := _onparse s; _header := _header s;
     _stream := _stream s; _overflow := _overflow s; _cb := v; _locked :=
     _locked s; _pax := _pax s; _paxGlobal := _paxGlobal s; _gnuLongPath :=
     _gnuLongPath s; _gnuLongLinkPath := _gnuLongLinkPath s; busy := busy s;
     waitDrain := waitDrain s; destroyed := destroyed s; log := log s |}.
Definition set_locked (v : bool) (s : State) : State :=
  {| _offset := _offset s; _buffer := _buffer s; _missing := _missing s;
     _partial := _partial s; _onparse := _onparse s; _header := _header s;
     _stream := _stream s; _overflow := _overflow s; _cb := _cb s; _locked
     := v; _pax := _pax s; _paxGlobal := _paxGlobal s; _gnuLongPath :=
     _gnuLongPath s; _gnuLongLinkPath := _gnuLongLinkPath s; busy := busy s;
     waitDrain := waitDrain s; destroyed := destroyed s; log := log s |}.
Definition set_pax (v : option (gmap string string)) (s : State) : State :=
  {| _offset := _offset s; _buffer := _buffer s; _missing := _missing s;
     _partial := _partial s; _onparse := _onparse s; _header := _header s;
     _stream := _stream s; _overflow := _overflow s; _cb := _cb s; _locked
     := _locked s; _pax := v; _paxGlobal := _paxGlobal s; _gnuLongPath :=
     _gnuLongPath s; _gnuLongLinkPath := _gnuLongLinkPath s; busy := busy s;
     waitDrain := waitDrain s; destroyed := destroyed s; log := log s |}.
Definition set_paxGlobal (v : option (gmap string string)) (s : State) : State :=
  {| _offset := _offset s; _buffer := _buffer s; _missing := _missing s;
     _partial := _partial s; _onparse := _onparse s; _header := _header s;
     _stream := _stream s; _overflow := _overflow s; _cb := _cb s; _locked
     := _locked s; _pax := _pax s; _paxGlobal := v; _gnuLongPath :=
     _gnuLongPath s; _gnuLongLinkPath := _gnuLongLinkPath s; busy := busy s;
     waitDrain := waitDrain s; destroyed := destroyed s; log := log s |}.
Definition set_gnuLongPath (v : option string) (s : State) : State :=
  {| _offset := _offset s; _buffer := _buffer s; _missing := _missing s;
     _partial := _partial s; _onparse := _onparse s; _header := _header s;
     _stream := _stream s; _overflow := _overflow s; _cb := _cb s; _locked
     := _locked s; _pax := _pax s; _paxGlobal := _paxGlobal s; _gnuLongPath
     := v; _gnuLongLinkPath := _gnuLongLinkPath s; busy := busy s; waitDrain
     := waitDrain s; destroyed := destroyed s; log := log s |}.
Definition set_gnuLongLinkPath (v : option string) (s : State) : State :=
  {| _offset := _offset s; _buffer := _buffer s; _missing := _missing s;
     _partial := _partial s; _onparse := _onparse s; _header := _header s;
     _stream := _stream s; _overflow := _overflow s; _cb := _cb s; _locked
     := _locked s; _pax := _pax s; _paxGlobal := _paxGlobal s; _gnuLongPath
     := _gnuLongPath s; _gnuLongLinkPath := v; busy := busy s; waitDrain :=
     waitDrain s; destroyed := destroyed s; log := log s |}.
Definition set_busy (v : bool) (s : State) : State :=
  {| _offset := _offset s; _buffer := _buffer s; _missing := _missing s;
     _partial := _partial s; _onparse := _onparse s; _header := _header s;
     _stream := _stream s; _overflow := _overflow s; _cb := _cb s; _locked
     := _locked s; _pax := _pax s; _paxGlobal := _paxGlobal s; _gnuLongPath
     := _gnuLongPath s; _gnuLongLinkPath := _gnuLongLinkPath s; busy := v;
     waitDrain := waitDrain s; destroyed := destroyed s; log := log s |}.
Definition set_waitDrain (v : option bool) (s : State) : State :=
  {| _offset := _offset s; _buffer := _buffer s; _missing := _missing s;
     _partial := _partial s; _onparse := _onparse s; _header := _header s;
     _stream := _stream s; _overflow := _overflow s; _cb := _cb s; _locked
     := _locked s; _pax := _pax s; _paxGlobal := _paxGlobal s; _gnuLongPath
     := _gnuLongPath s; _gnuLongLinkPath := _gnuLongLinkPath s; busy := busy
     s; waitDrain := v; destroyed := destroyed s; log := log s |}.
Definition set_destroyed (v : option EngineError) (s : State) : State :=
  {| _offset := _offset s; _buffer := _buffer s; _missing := _missing s;
     _partial := _partial s; _onparse := _onparse s; _header := _header s;
     _stream := _stream s; _overflow := _overflow s; _cb := _cb s; _locked
     := _locked s; _pax := _pax s; _paxGlobal := _paxGlobal s; _gnuLongPath
     := _gnuLongPath s; _gnuLongLinkPath := _gnuLongLinkPath s; busy := busy
     s; waitDrain := waitDrain s; destroyed := v; log := log s |}.
Definition set_log (v : list Event) (s : State) : State :=
  {| _offset := _offset s; _buffer := _buffer s; _missing := _missing s;
     _partial := _partial s; _onparse := _onparse s; _header := _header s;
     _stream := _stream s; _overflow := _overflow s; _cb := _cb s; _locked
     := _locked s; _pax := _pax s; _paxGlobal := _paxGlobal s; _gnuLongPath
     := _gnuLongPath s; _gnuLongLinkPath := _gnuLongLinkPath s; busy := busy
     s; waitDrain := waitDrain s; destroyed := destroyed s; log := v |}.

(** [a + b] *)
Definition jsAdd (a b : jsnum) : jsnum :=
  match a, b with
  | JNum x, JNum y => JNum (x + y)
  | _, _ => JNaN
  end.

(** [m - n] for a byte count [n] *)
Definition jsSubNat (m : jsnum) (n : nat) : jsnum :=
  match m with
  | JNum z => JNum (z - Z.of_nat n)
  | JNaN => JNaN
  end.

(** [n < m] and [n > m] for a byte count [n]: both are false of NaN. *)
Definition lessThan (n : nat) (m : jsnum) : bool :=
  match m with
  | JNum z => Z.of_nat n <? z
  | JNaN => false
  end.

Definition moreThan (n : nat) (m : jsnum) : bool :=
  match m with
  | JNum z => z <? Z.of_nat n
  | JNaN => false
  end.

(** Where [data.subarray(m)] and [data.subarray(0, m)] cut [n] bytes: an
    index below zero counts from the end. *)
Definition cutAt (n : nat) (m : jsnum) : nat :=
  match m with
  | JNum z => if z <? 0 then Z.to_nat (Z.max (Z.of_nat n + z) 0) else Z.to_nat z
  | JNaN => O
  end.

Definition headerSize (s : State) : option jsnum :=
  (fun h => h_size (hdr h)) <$> _header s.

Definition logEvent (e : Event) (s : State) : State :=
  set_log (log s ++ [e]) s.

(** [_parse(size, onparse)] *)
Definition _parse (size : jsnum) (onparse : Parser) (s : State) : State :=
  let s := set_offset (jsAdd (_offset s) size) s in
  let s := set_missing size s in
  let s := if decide (onparse = OnHeader) then set_partial false s else s in
  set_onparse onparse s.

(** How a parse continuation leaves: it called [oncontinue()] last, or it
    returned without. *)
Inductive Step : Type :=
  | Continue (s : State)
  | Return (s : State).

Section TotalEngine.
(** [opts.allowUnknownFormat]; the default file name encoding is used. *)
Variable allowUnknownFormat : bool.
(** The consumer: whether its "entry" handler invokes the acknowledgment
    callback before it returns, and what [source.write(data)] answers. *)
Variable ackNow : Header -> bool.
Variable accept : jsnum -> Buffer -> bool.
(** The buffer list asked for a length that is negative or NaN: what
    [b.slice(0, size)] returns and what [b.consume(size)] leaves. *)
Variable oddSlice : Buffer -> jsnum -> Buffer.
Variable oddConsume : Buffer -> jsnum -> Buffer.

(** [self.destroy(err)]: the first error is kept. *)
Definition destroy (e : EngineError) (s : State) : State :=
  match destroyed s with
  | Some _ => s
  | None => set_destroyed (Some e) s
  end.

(** Calling a write callback: the chunk's own callback frees the writable,
    [noop] does nothing. *)
Definition callCb (cb : bool) (s : State) : State :=
  if cb then set_busy false s else s.

Definition onstreamend (s : State) : Step :=
  let s := set_stream None s in
  let drain := overflow (headerSize s) in
  let s := if (drain =? 0)%nat then _parse (JNum 512) OnHeader s
           else _parse (JNum (Z.of_nat drain)) OnDrain s in
  if _locked s then Return s else Continue s.

Definition ondrain (s : State) : Step :=
  let s := set_buffer (drop (overflow (headerSize s)) (_buffer s)) s in
  Continue (_parse (JNum 512) OnHeader s).

(** [self._header?.size ?? 0] *)
Definition bodySize (s : State) : jsnum :=
  default (JNum 0) (headerSize s).

(** [b.slice(0, size)] *)
Definition bufSlice (b : Buffer) (size : jsnum) : Buffer :=
  match size with
  | JNum z => if 0 <=? z then slice b 0 (Z.to_nat z) else oddSlice b size
  | JNaN => oddSlice b size
  end.

(** [b.consume(size)] *)
Definition bufConsume (b : Buffer) (size : jsnum) : Buffer :=
  match size with
  | JNum z => if 0 <=? z then drop (Z.to_nat z) b else oddConsume b size
  | JNaN => oddConsume b size
  end.

Definition onpaxglobalheader (s : State) : Step :=
  let size := bodySize s in
  let s := set_paxGlobal (Some (decodePax (bufSlice (_buffer s) size))) s in
  onstreamend (set_buffer (bufConsume (_buffer s) size) s).

Definition onpaxheader (s : State) : Step :=
  let size := bodySize s in
  let pax := decodePax (bufSlice (_buffer s) size) in
  let pax := match _paxGlobal s with
             | Some g => pax ∪ g     (* [Object.assign({}, global, pax)] *)
             | None => pax
             end in
  let s := set_pax (Some pax) s in
  onstreamend (set_buffer (bufConsume (_buffer s) size) s).

Definition ongnulongpath (s : State) : Step :=
  let size := bodySize s in
  let s := set_gnuLongPath
             (Some (decodeLongPath (bufSlice (_buffer s) size))) s in
  onstreamend (set_buffer (bufConsume (_buffer s) size) s).

Definition ongnulonglinkpath (s : State) : Step :=
  let size := bodySize s in
  let s := set_gnuLongLinkPath
             (Some (decodeLongPath (bufSlice (_buffer s) size))) s in
  onstreamend (set_buffer (bufConsume (_buffer s) size) s).

(** The part of [onheader] that arms the body of an extended header:
    [self._parse(header.size, ...); oncontinue()]. *)
Definition awaitBody (header : DecodedHeader) (p : Parser) (s : State) : Step :=
  Continue (_parse (h_size header) p s).

(** [onunlock()] as the handler of "entry" calls it, without an error. *)
Definition unlockNow (h : Header) (s : State) : State :=
  if ackNow h then set_locked false (logEvent EvAck s) else s.

(** Lines 185-212 of [onheader]: an entry for the consumer. *)
Definition emitEntry (offset : jsnum) (header : DecodedHeader) (s : State)
  : Step :=
  let '(header, s) :=
    match truthyStr (_gnuLongPath s) with
    | Some p => (withHName p header, set_gnuLongPath None s)
    | None => (header, s)
    end in
  let '(header, s) :=
    match truthyStr (_gnuLongLinkPath s) with
    | Some p => (withHLinkname p header, set_gnuLongLinkPath None s)
    | None => (header, s)
    end in
  let '(header, s) :=
    match _pax s with
    | Some pax => (mixinPax header pax, set_pax None s)
    | None => ({| hdr := header; hdr_pax := None |}, s)
    end in
  let s := set_header (Some header) s in
  let s := set_locked true s in
  if falsySize (h_size (hdr header))
     || bool_decide (h_type (hdr header) = Some "directory"%string)
  then
    let s := _parse (JNum 512) OnHeader s in
    let s := logEvent (EvEntry header offset true) s in
    let s := unlockNow header s in
    if _locked s then Return s else Continue s
  else
    let s := set_stream (Some offset) s in
    let s := logEvent (EvEntry header offset false) s in
    let s := unlockNow header s in
    Continue (_parse (h_size (hdr header)) OnStreamEnd s).

Definition onheader (s : State) : Step :=
  let offset := _offset s in
  let s := logEvent (EvDecode offset) s in
  let '(header, s) :=
    match decode (slice (_buffer s) 0 512) allowUnknownFormat with
    | Throws e => (None, destroy (DecodeFailed e) s)
    | Returns h =>
        (h, set_header ((fun h => {| hdr := h; hdr_pax := None |}) <$> h) s)
    end in
  let s := set_buffer (drop 512 (_buffer s)) s in
  match header with
  | None => Continue (_parse (JNum 512) OnHeader s)
  | Some header =>
      if bool_decide (h_type header = Some "gnu-long-path"%string)
      then awaitBody header OnGnuLongPath s
      else if bool_decide (h_type header = Some "gnu-long-link-path"%string)
      then awaitBody header OnGnuLongLinkPath s
      else if bool_decide (h_type header = Some "pax-global-header"%string)
      then awaitBody header OnPaxGlobalHeader s
      else if bool_decide (h_type header = Some "pax-header"%string)
      then awaitBody header OnPaxHeader s
      else emitEntry offset header s
  end.

(** [this._onparse()] *)
Definition runParser (s : State) : Step :=
  match _onparse s with
  | OnHeader => onheader s
  | OnStreamEnd => onstreamend s
  | OnDrain => ondrain s
  | OnPaxGlobalHeader => onpaxglobalheader s
  | OnPaxHeader => onpaxheader s
  | OnGnuLongPath => ongnulongpath s
  | OnGnuLongLinkPath => ongnulonglinkpath s
  end.

(** The result of a call: it returned, or the calls allowed ran out. *)
Inductive Outcome : Type :=
  | Done (s : State)
  | OutOfFuel.

(** [if (data.byteLength) this._partial = true] *)
Definition markPartial (data : Buffer) (s : State) : State :=
  if (length data =? 0)%nat then s else set_partial true s.

(** The branch of [_write] for [data.byteLength < missing]: "we do not
    reach end-of-chunk now. just forward it". *)
Definition forward (data : Buffer) (cb : bool) (s : State) : State :=
  let s := set_missing (jsSubNat (_missing s) (length data)) s in
  let s := set_overflow None s in
  match _stream s with
  | Some src =>
      let s := logEvent (EvData data) s in
      if accept src data then callCb cb s else set_waitDrain (Some cb) s
  | None => callCb cb (set_buffer (_buffer s ++ data) s)
  end.

(** The other branch, up to the call of [this._onparse()]: "end-of-chunk.
    the parser should call cb". *)
Definition endOfChunk (data : Buffer) (cb : bool) (s : State) : State :=
  let missing := _missing s in
  let s := set_cb cb s in
  let s := set_missing (JNum 0) s in
  let over := moreThan (length data) missing in
  let overflow := if over then Some (drop (cutAt (length data) missing) data)
                  else None in
  let data := if over then take (cutAt (length data) missing) data else data in
  let s := match _stream s with
           | Some _ => logEvent EvEnd (logEvent (EvData data) s)
           | None => set_buffer (_buffer s ++ data) s
           end in
  set_overflow overflow s.

(** [_write(data, cb)] together with [_continue()], which calls it again on
    the overflow. [cb] tells whether the callback is the chunk's own or
    [noop]. Of three calls in a row at least one consumes a byte of [data]:
    a fuel of [3 * length data + 3] calls is never exhausted
    ([total_write_fuel]). *)
Fixpoint _write (fuel : nat) (data : Buffer) (cb : bool) (s : State) : Outcome :=
  match fuel with
  | O => OutOfFuel
  | S fuel =>
      let s := markPartial data s in
      if lessThan (length data) (_missing s) then Done (forward data cb s)
      else
        match runParser (endOfChunk data cb s) with
        | Return s => Done s
        | Continue s =>
            (* [_continue()] *)
            let cb := _cb s in
            let s := set_cb false s in
            match _overflow s with
            | Some o => _write fuel o cb s
            | None => Done (callCb cb s)
            end
        end
  end.

(** [_continue()], called from [onunlock]. *)
Definition _continue (s : State) : Outcome :=
  let cb := _cb s in
  let s := set_cb false s in
  match _overflow s with
  | Some o => _write (3 * length o + 3) o cb s
  | None => Done (callCb cb s)
  end.

(** The state after the constructor. *)
Definition initial : State :=
  {| _offset := JNum 512; _buffer := []; _missing := JNum 512;
     _partial := false; _onparse := OnHeader; _header := None;
     _stream := None; _overflow := None; _cb := false; _locked := false;
     _pax := None; _paxGlobal := None;
     _gnuLongPath := None; _gnuLongLinkPath := None;
     busy := false; waitDrain := None; destroyed := None; log := [] |}.

Definition isEntry (e : Event) : bool :=
  match e with EvEntry _ _ _ => true | _ => false end.

(** The writable hands over a chunk only when the callback of the one
    before has been called and the engine is not destroyed; the consumer
    holds the acknowledgment callback once an entry was emitted. *)
Definition enabled (a : Action) (s : State) : bool :=
  match a with
  | Write _ => negb (busy s) && bool_decide (destroyed s = None)
  | Ack _ => existsb isEntry (log s)
  | Drain => true
  end.

Definition perform (a : Action) (s : State) : Outcome :=
  match a with
  | Write chunk => _write (3 * length chunk + 3) chunk true (set_busy true s)
  | Ack err =>
      (* [onunlock(err)] *)
      let s := logEvent EvAck s in
      let s := set_locked false s in
      if err then Done (destroy ConsumerError s)
      else match _stream s with
           | None => _continue s
           | Some _ => Done s
           end
  | Drain =>
      match waitDrain s with
      | Some cb => Done (callCb cb (set_waitDrain None s))
      | None => Done s
      end
  end.

(** [_final(cb)]: the error it reports, if any. *)
Definition _final (s : State) : option FinalError :=
  if _partial s then Some UnexpectedEndOfData else None.
End TotalEngine.

(** The states the engine reaches from [initial]. *)
Inductive reachable (allow : bool) (ackNow : Header -> bool)
    (accept : jsnum -> Buffer -> bool)
    (oddSlice oddConsume : Buffer -> jsnum -> Buffer) : State -> Prop :=
  | reach_initial : reachable allow ackNow accept oddSlice oddConsume initial
  | reach_step s a s' :
      reachable allow ackNow accept oddSlice oddConsume s ->
      enabled a s = true ->
      perform allow ackNow accept oddSlice oddConsume a s = Done s' ->
      reachable allow ackNow accept oddSlice oddConsume s'.

(** A header step is armed and none of its bytes has arrived. *)
Definition atHeaderBoundary (s : State) : Prop :=
  _onparse s = OnHeader /\ _missing s = JNum 512.

(** The parse cursor between two actions. *)
Record cursorOk (s : State) : Prop := {
  ck_header : _onparse s = OnHeader ->
              exists m, _missing s = JNum m /\ 1 <= m <= 512;
  ck_partial : _partial s = false <-> atHeaderBoundary s;
  ck_zero : _missing s = JNum 0 -> isBodyParser (_onparse s) = true
}.

(** A call of [_write] with this count of missing bytes takes at least one
    byte off non-empty data, or takes it all. *)
Definition takesBytes (m : jsnum) : bool :=
  match m with
  | JNum z => 0 <? z
  | JNaN => true
  end.

(** The calls of [_write] that are needed at most, less one. *)
Definition stepsNeeded (data : Buffer) (s : State) : nat :=
  3 * length data
  + (if takesBytes (_missing s) then 0
     else if decide (_onparse s = OnHeader) then 2 else 1).

(** Reading a log from its start: whether the last entry still waits for
    its acknowledgment, and whether no header was decoded while one did. *)
Definition lockStep (st : bool * bool) (e : Event) : bool * bool :=
  let '(awaiting, ok) := st in
  match e with
  | EvEntry _ _ _ => (true, ok)
  | EvAck => (false, ok)
  | EvDecode _ => (awaiting, ok && negb awaiting)
  | _ => (awaiting, ok)
  end.

Definition lockTrace (l : list Event) : bool * bool :=
  fold_left lockStep l (false, true).

Definition awaitingAck (l : list Event) : bool := fst (lockTrace l).
Definition lockRespected (l : list Event) : bool := snd (lockTrace l).

(** The number of sources that are open, and whether every entry was
    emitted while none was. *)
Definition sourceStep (st : nat * bool) (e : Event) : nat * bool :=
  let '(open, ok) := st in
  match e with
  | EvEntry _ _ ended =>
      ((if ended then open else S open), ok && (open =? 0)%nat)
  | EvEnd => (pred open, ok)
  | _ => (open, ok)
  end.

Definition sourceTrace (l : list Event) : nat * bool :=
  fold_left sourceStep l (O, true).

Definition openSources (l : list Event) : nat := fst (sourceTrace l).
Definition oneSourceAtATime (l : list Event) : bool := snd (sourceTrace l).

(** An entry comes with an ended source exactly when its size is zero (or
    not a number) or it is a directory. *)
Definition entryShape (e : Event) : Prop :=
  match e with
  | EvEntry h _ ended =>
      ended = falsySize (h_size (hdr h))
              || bool_decide (h_type (hdr h) = Some "directory"%string)
  | _ => True
  end.

Definition openCount (s : State) : nat :=
  match _stream s with Some _ => 1%nat | None => O end.

(** The invariant of the single-entry lock, between two actions. *)
Record lockOk (s : State) : Prop := {
  lk_lock : lockTrace (log s) = (_locked s, true);
  lk_source : sourceTrace (log s) = (openCount s, true);
  lk_shape : Forall entryShape (log s);
  lk_stream : _stream s <> None -> _onparse s = OnStreamEnd;
  lk_stalled : _locked s = true -> _stream s = None -> _cb s = true;
  lk_cb : _cb s = true -> busy s = true;
  lk_overflow : _cb s = false -> _overflow s = None;
  lk_drain : waitDrain s <> None -> _cb s = false /\ busy s = true
}.

(** The same at the start of a call of [_write] with the chunk callback. *)
Record lockPre (s : State) : Prop := {
  lp_lock : lockTrace (log s) = (_locked s, true);
  lp_source : sourceTrace (log s) = (openCount s, true);
  lp_shape : Forall entryShape (log s);
  lp_stream : _stream s <> None -> _onparse s = OnStreamEnd;
  lp_unlocked : _locked s = true -> _stream s <> None;
  lp_cb : _cb s = false;
  lp_busy : busy s = true;
  lp_drain : waitDrain s = None
}.
End Total.

(** ** Sample inputs *)

Definition helloOpts : EncodeOpts := {|
  name := "hello.txt"; typeflag := None; linkname := None;
  mode := 420; uid := 1000; gid := 1000; size := 5;
  mtime := 1700000000123; type := Some "file"%string;
  uname := Some "root"%string; gname := Some "wheel"%string;
  devmajor := None; devminor := None |}.

Definition helloBlock : Buffer := encodeBlock helloOpts (bytesOf "hello.txt") [].

(** A file entry whose name ends in a path separator. *)
Definition slashFileOpts : EncodeOpts := {|
  name := "dir/"; typeflag := None; linkname := None;
  mode := 493; uid := 0; gid := 0; size := 0;
  mtime := 0; type := Some "file"%string;
  uname := None; gname := None; devmajor := None; devminor := None |}.

Definition slashFileBlock : Buffer := encodeBlock slashFileOpts (bytesOf "dir/") [].

(** A directory given by [type] only, the [typeflag] option left out. *)
Definition dirTypeOpts : EncodeOpts := {|
  name := "dir"; typeflag := None; linkname := None;
  mode := 493; uid := 0; gid := 0; size := 0;
  mtime := 0; type := Some "directory"%string;
  uname := None; gname := None; devmajor := None; devminor := None |}.

(** The same with [typeflag: 5]. *)
Definition dirFlagOpts : EncodeOpts := {|
  name := "dir"; typeflag := Some 5; linkname := None;
  mode := 493; uid := 0; gid := 0; size := 0;
  mtime := 0; type := Some "directory"%string;
  uname := None; gname := None; devmajor := None; devminor := None |}.

(** The fields of a regular file as [stat] reports them: the mode carries
    the file-type bits, 0o100644. *)
Definition statModeOpts : EncodeOpts := {|
  name := "hello.txt"; typeflag := None; linkname := None;
  mode := 33188; uid := 1000; gid := 1000; size := 5;
  mtime := 1700000000123; type := Some "file"%string;
  uname := Some "root"%string; gname := Some "wheel"%string;
  devmajor := Some 0; devminor := Some 0 |}.

(** A name of 150 ASCII bytes: 70 bytes, a separator, 79 bytes. *)
Definition longNameOpts : EncodeOpts :=
  withName helloOpts
    (strOf (replicate 70 "a"%char ++ "/"%char :: replicate 79 "b"%char)).

(** A name of 101 bytes that begins with the separator. *)
Definition leadingSlashOpts : EncodeOpts :=
  withName helloOpts (strOf ("/"%char :: replicate 100 "a"%char)).

(** The archive of the specification's example: the entry "hello.txt" with
    the content "world", padded to a block, and two zero blocks. *)
Definition helloArchive : Buffer :=
  helloBlock ++ bytesOf "world" ++ replicate 507 zero ++ replicate 1024 zero.

(** The same without the zero blocks and with the content cut to 3 bytes. *)
Definition helloTruncated : Buffer := helloBlock ++ bytesOf "wor".

(** A consumer that acknowledges when the engine waits for it and never
    holds the source back. *)
Definition lateAck : Header -> bool := fun _ => false.
Definition alwaysAccept : Z -> Buffer -> bool := fun _ _ => true.

Definition stateOf (o : Outcome) : State :=
  match o with Done s => s | _ => initial end.

(** A PAX extended header with an empty body, and the state after it. *)
Definition emptyPaxOpts : EncodeOpts := {|
  name := "PaxHeader"; typeflag := None; linkname := None;
  mode := 420; uid := 0; gid := 0; size := 0;
  mtime := 0; type := Some "pax-header"%string;
  uname := None; gname := None; devmajor := None; devminor := None |}.

Definition emptyPaxBlock : Buffer :=
  encodeBlock emptyPaxOpts (bytesOf "PaxHeader") [].

Definition afterEmptyPax : State :=
  stateOf (perform false lateAck alwaysAccept (Write emptyPaxBlock) initial).

(** A directory entry, and the state after its block was written. *)
Definition dirBlock : Buffer := encodeBlock dirFlagOpts (bytesOf "dir/") [].

Definition afterDirEntry : State :=
  stateOf (perform false lateAck alwaysAccept (Write dirBlock) initial).

(** The example archive cut inside the header, inside the content and inside
    the padding, and the state after the archive in one chunk. *)
Definition helloChunks : list Buffer :=
  [take 100 helloArchive; take 414 (drop 100 helloArchive);
   take 486 (drop 514 helloArchive); drop 1000 helloArchive].

Definition helloParsed : State :=
  stateOf (feed false lateAck alwaysAccept [helloArchive] initial).

(** The block of an extended header with a body of [n] bytes: the type
    flag is set by hand, as [encode] writes no other than that of
    "pax-header", and the checksum is stamped again. *)
Definition extendedOpts (n : nat) : EncodeOpts := {|
  name := "ext"; typeflag := None; linkname := None;
  mode := 420; uid := 0; gid := 0; size := Z.of_nat n;
  mtime := 0; type := Some "pax-header"%string;
  uname := None; gname := None; devmajor := None; devminor := None |}.

Definition extendedBlock (flag : Z) (n : nat) : Buffer :=
  let b := setByte (encodeBlock (extendedOpts n) (bytesOf "ext") []) 156 flag in
  write b (encodeOct (cksum b) 6) 148.

(** The body of a PAX header that renames the entry, and the body of a GNU
    long name. *)
Definition paxBody : Buffer := paxRecord "path" "renamed.txt".
Definition longNameBody : Buffer := bytesOf "long/name.txt" ++ [zero].

(** The member of the example archive. *)
Definition helloMember : Buffer :=
  helloBlock ++ bytesOf "world" ++ replicate 507 zero.

(** ** Headers with a size that is negative or not a number *)

(** A consumer for the engine of every size that never holds a source
    back, and a buffer list that answers an odd length with nothing and
    leaves its bytes where they are. *)
Definition acceptAll : jsnum -> Buffer -> bool := fun _ _ => true.
Definition sliceNothing : Buffer -> jsnum -> Buffer := fun _ _ => [].
Definition consumeNothing : Buffer -> jsnum -> Buffer := fun b _ => b.

(** The header block of the example with another type flag and another
    size field, its checksum stamped again. *)
Definition sizedBlock (flag : Z) (field : Buffer) : Buffer :=
  let b := write (setByte helloBlock 156 flag) field 124 in
  write b (encodeOct (cksum b) 6) 148.

(** The size -4, in base 256, and a size field that is no number. *)
Definition minusFour : Buffer := replicate 11 "255"%char ++ ["251"%char].
Definition notANumber : Buffer := bytesOf "zzzzzzzzzzz ".

Definition totalStateOf (o : Total.Outcome) : Total.State :=
  match o with Total.Done s => s | Total.OutOfFuel => Total.initial end.

(** The state after a file header of size -4 and eight more bytes, and the
    state after the header of a PAX body whose size is not a number. *)
Definition afterNegativeSize : Total.State :=
  totalStateOf
    (Total.perform false lateAck acceptAll sliceNothing consumeNothing
       (Write (sizedBlock 48 minusFour ++ bytesOf "abcdefgh")) Total.initial).

Definition afterNaNSize : Total.State :=
  totalStateOf
    (Total.perform false lateAck acceptAll sliceNothing consumeNothing
       (Write (sizedBlock 120 notANumber)) Total.initial).

(** * Properties *)

(** ** Buffers *)

Section BufferFacts.
Implicit Types (buf data : Buffer) (i off s e : nat).

Lemma byteVal_range a : 0 <= byteVal a < 256.
Proof.
  unfold byteVal. pose proof (N_ascii_bounded a). lia.
Qed.

Lemma byteOf_byteVal a : byteOf (byteVal a) = a.
Proof.
  unfold byteOf, byteVal. rewrite N2Z.id. apply ascii_N_embedding.
Qed.

Lemma byteVal_byteOf z : 0 <= z < 256 -> byteVal (byteOf z) = z.
Proof.
  intros Hz. unfold byteOf, byteVal.
  rewrite N_ascii_embedding by lia. lia.
Qed.

Lemma byteVal_inj a b : byteVal a = byteVal b -> a = b.
Proof.
  intros H. rewrite <- (byteOf_byteVal a), <- (byteOf_byteVal b). now rewrite H.
Qed.

Lemma strOf_bytesOf (s : string) : strOf (bytesOf s) = s.
Proof. apply string_of_list_ascii_of_string. Qed.

Lemma bytesOf_strOf buf : bytesOf (strOf buf) = buf.
Proof. apply list_ascii_of_string_of_list_ascii. Qed.

Lemma bytesOf_app (s t : string) : bytesOf (s ++ t) = bytesOf s ++ bytesOf t.
Proof. induction s as [|a s IH]; simpl; [done|]. now rewrite <- IH. Qed.

Lemma length_alloc (n : nat) : length (alloc n) = n.
Proof. apply length_replicate. Qed.

Lemma length_write buf data off : length (write buf data off) = length buf.
Proof.
  unfold write. rewrite !length_app, !length_take, length_drop. lia.
Qed.

Lemma lookup_write buf data off i :
  write buf data off !! i =
    if decide (off <= i < off + length data /\ i < length buf)%nat
    then data !! (i - off)%nat else buf !! i.
Proof.
  unfold write. destruct (decide _) as [[[H1 H2] H3]|Hn].
  - rewrite lookup_app_r by (rewrite length_take; lia).
    rewrite length_take_le by lia.
    rewrite lookup_app_l by (rewrite length_take; lia).
    apply lookup_take_lt. lia.
  - destruct (decide (i < off)%nat) as [Hlt|Hge].
    + destruct (decide (i < length buf)%nat).
      * rewrite lookup_app_l by (rewrite length_take; lia).
        apply lookup_take_lt. lia.
      * rewrite (lookup_ge_None_2 buf) by lia.
        apply lookup_ge_None_2.
        rewrite !length_app, !length_take, length_drop. lia.
    + destruct (decide (i < length buf)%nat).
      * rewrite lookup_app_r by (rewrite length_take; lia).
        rewrite length_take_le by lia.
        rewrite lookup_app_r by (rewrite length_take; lia).
        rewrite length_take, lookup_drop. f_equal. lia.
      * rewrite (lookup_ge_None_2 buf) by lia.
        apply lookup_ge_None_2.
        rewrite !length_app, !length_take, length_drop. lia.
Qed.

Lemma lookup_slice buf s e i :
  slice buf s e !! i = if decide (i < e - s)%nat then buf !! (s + i)%nat else None.
Proof.
  unfold slice. destruct (decide _).
  - rewrite lookup_take_lt by lia. apply lookup_drop.
  - apply lookup_take_ge. lia.
Qed.

Lemma length_slice buf s e :
  length (slice buf s e) = Nat.min (e - s) (length buf - s).
Proof. unfold slice. now rewrite length_take, length_drop. Qed.

(** Two buffers that agree on a window have the same slice there. *)
Lemma slice_ext buf buf' s e :
  (forall i, (s <= i < e)%nat -> buf !! i = buf' !! i) ->
  slice buf s e = slice buf' s e.
Proof.
  intros H. apply list_eq. intros i. rewrite !lookup_slice.
  destruct (decide _); [apply H; lia | done].
Qed.

(** A write outside a window does not change the slice of the window. *)
Lemma slice_write_other buf data off s e :
  (e <= off \/ off + length data <= s)%nat ->
  slice (write buf data off) s e = slice buf s e.
Proof.
  intros H. apply slice_ext. intros i Hi. rewrite lookup_write.
  destruct (decide _); [lia | done].
Qed.

(** The slice of exactly what was written. *)
Lemma slice_write_same buf data off e :
  (off + length data <= length buf)%nat -> e = (off + length data)%nat ->
  slice (write buf data off) off e = data.
Proof.
  intros H ->. apply list_eq. intros i. rewrite lookup_slice, lookup_write.
  destruct (decide (i < _)%nat).
  - rewrite decide_True by lia. f_equal. lia.
  - symmetry. apply lookup_ge_None_2. lia.
Qed.

Lemma byteAt_write_other buf data off i :
  (i < off \/ off + length data <= i)%nat ->
  byteAt (write buf data off) i = byteAt buf i.
Proof.
  intros H. unfold byteAt. rewrite lookup_write.
  destruct (decide _); [lia | done].
Qed.

Lemma slice_app_exact (a b : Buffer) n :
  n = length a -> slice (a ++ b) 0 n = a.
Proof.
  intros ->. unfold slice. rewrite Nat.sub_0_r. simpl. apply take_app_length.
Qed.

Lemma sumBytes_app a b : sumBytes (a ++ b) = sumBytes a + sumBytes b.
Proof. induction a as [|x a IH]; simpl; [done|]. rewrite IH. lia. Qed.

Lemma sumBytes_bounds buf : 0 <= sumBytes buf <= 255 * Z.of_nat (length buf).
Proof.
  induction buf as [|a buf IH]; simpl; [lia|].
  pose proof (byteVal_range a). lia.
Qed.

Lemma sumBytes_lookup (l : Buffer) i a :
  l !! i = Some a -> byteVal a <= sumBytes l.
Proof.
  revert i. induction l as [|x l IH]; intros i Hi; [done|].
  pose proof (byteVal_range x). pose proof (sumBytes_bounds l).
  destruct i as [|i]; simpl in *.
  - injection Hi as ->. lia.
  - apply IH in Hi. lia.
Qed.

Lemma cksum_bounds buf : 256 <= cksum buf < 8 ^ 6.
Proof.
  unfold cksum.
  pose proof (sumBytes_bounds (slice buf 0 148)) as H1.
  pose proof (sumBytes_bounds (slice buf 156 512)) as H2.
  rewrite length_slice in H1, H2.
  change (8 ^ 6) with 262144. lia.
Qed.
End BufferFacts.

(** ** Printing and parsing numbers *)

Section Digits.
Variable base : Z.
Hypothesis base_range : 2 <= base <= 10.

Lemma digitsRev_nonempty fuel v : fuel <> O -> digitsRev base fuel v <> [].
Proof. destruct fuel; [done|]. intros _. simpl. now destruct (v <? base). Qed.

Lemma digitsRev_digits fuel v :
  0 <= v -> Forall (isDigit base) (digitsRev base fuel v).
Proof.
  revert v. induction fuel as [|f IH]; intros v Hv; simpl; [constructor|].
  destruct (Z.ltb_spec v base).
  - repeat constructor; lia.
  - constructor.
    + unfold isDigit. apply Z.mod_pos_bound. lia.
    + apply IH. apply Z.div_pos; lia.
Qed.

Lemma digitsRev_value fuel v :
  0 <= v < base ^ Z.of_nat fuel ->
  fold_right (fun d a => d + base * a) 0 (digitsRev base fuel v) = v.
Proof.
  revert v. induction fuel as [|f IH]; intros v Hv.
  - change (base ^ Z.of_nat 0) with 1 in Hv. simpl. lia.
  - cbn [digitsRev]. destruct (Z.ltb_spec v base); cbn [fold_right]; [lia|].
    rewrite IH.
    + pose proof (Z.div_mod v base). lia.
    + rewrite Nat2Z.inj_succ, Z.pow_succ_r in Hv by lia.
      split; [apply Z.div_pos; lia|].
      apply Z.div_lt_upper_bound; lia.
Qed.

Lemma digitsRev_length fuel v (n : nat) :
  0 <= v < base ^ Z.of_nat fuel -> (1 <= n)%nat ->
  (length (digitsRev base fuel v) <= n)%nat <-> v < base ^ Z.of_nat n.
Proof.
  revert v n. induction fuel as [|f IH]; intros v n Hv Hn.
  - change (base ^ Z.of_nat 0) with 1 in Hv. simpl.
    assert (0 < base ^ Z.of_nat n) by (apply Z.pow_pos_nonneg; lia). lia.
  - simpl. destruct (Z.ltb_spec v base) as [Hlt|Hge]; simpl.
    + split; [intros _|lia].
      assert (base ^ 1 <= base ^ Z.of_nat n)
        by (apply Z.pow_le_mono_r; lia).
      lia.
    + rewrite Nat2Z.inj_succ, Z.pow_succ_r in Hv by lia.
      assert (Hq : 0 <= v / base < base ^ Z.of_nat f).
      { split; [apply Z.div_pos; lia|]. apply Z.div_lt_upper_bound; lia. }
      destruct n as [|[|m]]; [lia| |].
      * split; [|simpl; lia].
        intros Hl. exfalso.
        assert (digitsRev base f (v / base) <> []).
        { apply digitsRev_nonempty. intros ->. simpl in Hq. 
          assert (1 <= v / base); [|lia].
          apply Z.div_le_lower_bound; lia. }
        destruct (digitsRev base f (v / base)); [done|simpl in Hl; lia].
      * specialize (IH (v / base) (S m) Hq ltac:(lia)).
        rewrite (Nat2Z.inj_succ (S m)), Z.pow_succ_r by lia.
        split; intros H.
        -- assert (v / base < base ^ Z.of_nat (S m)) by (apply IH; lia).
           pose proof (Z.div_mod v base ltac:(lia)).
           pose proof (Z.mod_pos_bound v base ltac:(lia)). nia.
        -- assert (v / base < base ^ Z.of_nat (S m))
             by (apply Z.div_lt_upper_bound; lia).
           apply IH in H0. lia.
Qed.

Lemma log2_fuel v : 0 <= v -> v < base ^ Z.of_nat (S (Z.to_nat (Z.log2 v))).
Proof.
  intros Hv. rewrite Nat2Z.inj_succ, Z2Nat.id by apply Z.log2_nonneg.
  destruct (Z.eq_dec v 0) as [->|Hne].
  - simpl. lia.
  - pose proof (Z.log2_spec v ltac:(lia)) as [_ H2].
    assert (2 ^ Z.succ (Z.log2 v) <= base ^ Z.succ (Z.log2 v)).
    { apply Z.pow_le_mono_l. lia. }
    lia.
Qed.

Lemma msbValue_rev ds acc :
  msbValue base acc (rev ds) =
  fold_right (fun d a => a * base + d) acc ds.
Proof.
  unfold msbValue. induction ds as [|d ds IH]; simpl; [done|].
  rewrite fold_left_app. simpl. now rewrite IH.
Qed.

Lemma digitVal_digitChar d : isDigit base d -> digitVal base (digitChar d) = Some d.
Proof.
  unfold isDigit, digitVal, digitChar. intros Hd.
  rewrite byteVal_byteOf by lia.
  destruct (Z.leb_spec 48 (48 + d)); [|lia].
  destruct (Z.ltb_spec (48 + d) (48 + base)); [|lia].
  simpl. f_equal. lia.
Qed.

(** Parsing a run of digits that ends the text or is followed by a
    character that is not a digit. *)
Lemma parseDigits_digits ds rest acc :
  Forall (isDigit base) ds -> ds <> [] ->
  match rest with [] => True | a :: _ => digitVal base a = None end ->
  parseDigits base acc (map digitChar ds ++ rest)
  = Some (msbValue base (default 0 acc) ds).
Proof.
  intros Hds Hne Hrest. revert acc Hne.
  induction Hds as [|d ds Hd Hds IH]; intros acc Hne; [done|].
  simpl. rewrite digitVal_digitChar by done.
  destruct ds as [|d' ds'].
  - simpl. destruct rest as [|a rest]; simpl; [done|]. now rewrite Hrest.
  - rewrite IH by done. done.
Qed.

Lemma natDigits_spec v :
  0 <= v ->
  exists ds, natDigits base v = map digitChar ds /\ ds <> [] /\
    Forall (isDigit base) ds /\ msbValue base 0 ds = v /\
    forall n : nat, (1 <= n)%nat ->
      ((length ds <= n)%nat <-> v < base ^ Z.of_nat n).
Proof.
  intros Hv. unfold natDigits.
  set (fuel := S (Z.to_nat (Z.log2 v))).
  pose proof (log2_fuel v Hv) as Hfuel. fold fuel in Hfuel.
  exists (rev (digitsRev base fuel v)). split; [done|].
  split.
  { intros H. apply (f_equal (@length Z)) in H.
    rewrite length_rev in H.
    pose proof (digitsRev_nonempty fuel v ltac:(done)).
    destruct (digitsRev base fuel v); [done|simpl in H; lia]. }
  split. { apply Forall_rev, digitsRev_digits. lia. }
  split.
  { rewrite msbValue_rev.
    rewrite <- (digitsRev_value fuel v) at 2 by lia.
    generalize (digitsRev base fuel v). intros l.
    induction l as [|d l IH]; cbn [fold_right]; [done|]. rewrite IH. lia. }
  intros n Hn. rewrite length_rev. apply digitsRev_length; [lia|done].
Qed.
End Digits.

(** ** Octal fields *)

Section OctalFields.
Implicit Types (buf val rest : Buffer) (ds : list Z).

Lemma take_ZEROS (k : nat) :
  (k <= 19)%nat -> take k (bytesOf ZEROS) = map digitChar (replicate k 0).
Proof.
  intros Hk. do 20 (destruct k as [|k]; [reflexivity|]). lia.
Qed.

Lemma length_take_SEVENS (k : nat) :
  (k <= 19)%nat -> length (take k (bytesOf SEVENS)) = k.
Proof. intros Hk. rewrite length_take. simpl. lia. Qed.

Lemma length_encodeOct v (n : nat) :
  (n <= 19)%nat -> length (encodeOct v n) = S n.
Proof.
  intros Hn. unfold encodeOct.
  destruct (Nat.ltb_spec n (length (toStringRadix 8 v))).
  - rewrite length_app, length_take_SEVENS by done. simpl. lia.
  - rewrite !length_app, length_take. simpl. lia.
Qed.

Lemma msbValue_zeros base (k : nat) ds :
  msbValue base 0 (replicate k 0 ++ ds) = msbValue base 0 ds.
Proof.
  unfold msbValue. rewrite fold_left_app. f_equal.
  induction k as [|k IH]; simpl; [done|]. exact IH.
Qed.

(** A value that fits is written as exactly [n] octal digits and a space. *)
Lemma encodeOct_digits v (n : nat) :
  0 <= v < 8 ^ Z.of_nat n -> (1 <= n <= 19)%nat ->
  exists ds, encodeOct v n = map digitChar ds ++ [" "%char] /\
    length ds = n /\ Forall (isDigit 8) ds /\ msbValue 8 0 ds = v.
Proof.
  intros Hv Hn. unfold encodeOct, toStringRadix.
  destruct (Z.ltb_spec v 0); [lia|].
  destruct (natDigits_spec 8 ltac:(lia) v ltac:(lia))
    as (ds0 & -> & Hne & Hds & Hval & Hlen).
  rewrite length_map.
  assert (length ds0 <= n)%nat by (apply Hlen; lia).
  destruct (Nat.ltb_spec n (length ds0)); [lia|].
  exists (replicate (n - length ds0) 0 ++ ds0).
  rewrite take_ZEROS by lia. rewrite map_app, <- app_assoc.
  split; [done|]. split. { rewrite length_app, length_replicate. lia. }
  split.
  - apply Forall_app. split; [|done].
    apply Forall_replicate. unfold isDigit. lia.
  - now rewrite msbValue_zeros.
Qed.

Lemma digit8_cases d :
  isDigit 8 d ->
  d = 0 \/ d = 1 \/ d = 2 \/ d = 3 \/ d = 4 \/ d = 5 \/ d = 6 \/ d = 7.
Proof. unfold isDigit. lia. Qed.

Lemma indexOfLoop_found (pre : Buffer) c rest num (off n : nat) :
  (off <= length pre)%nat -> (length pre - off < n)%nat ->
  (forall i a, (off <= i)%nat -> pre !! i = Some a -> byteVal a <> num) ->
  byteVal c = num ->
  indexOfLoop (pre ++ c :: rest) num off n = length pre.
Proof.
  intros Hoff Hn Hpre Hc.
  remember (length pre - off)%nat as k eqn:Hk.
  revert off n Hoff Hn Hpre Hk.
  induction k as [|k IH]; intros off n Hoff Hn Hpre Hk.
  - assert (off = length pre) by lia. subst off.
    destruct n as [|n]; [lia|]. simpl. unfold byteAt.
    rewrite list_lookup_middle by done. simpl.
    rewrite Hc, Z.eqb_refl. done.
  - destruct n as [|n]; [lia|]. simpl. unfold byteAt.
    destruct (lookup_lt_is_Some_2 pre off ltac:(lia)) as [a Ha].
    rewrite (lookup_app_l_Some _ _ _ _ Ha). simpl.
    destruct (Z.eqb_spec (byteVal a) num) as [He|_].
    { exfalso. eapply Hpre; [|exact Ha|exact He]. lia. }
    apply IH; try lia. intros i b Hi. apply Hpre. lia.
Qed.

Lemma skipEq_stop val c (off n : nat) :
  byteAt val off <> Some c -> skipEq val c off n = off.
Proof. intros H. destruct n; simpl; [done|]. now rewrite decide_False. Qed.

(** Reading back a field of octal digits closed by a space. *)
Lemma decodeOct_digits buf (off len : nat) ds rest :
  slice buf off (off + len) = map digitChar ds ++ " "%char :: rest ->
  ds <> [] -> Forall (isDigit 8) ds ->
  decodeOct buf off len = Some (JNum (msbValue 8 0 ds)).
Proof.
  intros Hslice Hne Hds. unfold decodeOct. rewrite Hslice.
  set (val := map digitChar ds ++ " "%char :: rest).
  destruct ds as [|d ds']; [done|].
  assert (Hd : isDigit 8 d) by (now inversion Hds).
  assert (H0 : byteAt val 0 = Some (48 + d)).
  { unfold val, byteAt. simpl. f_equal. unfold digitChar.
    apply byteVal_byteOf. unfold isDigit in Hd. lia. }
  assert (Hland : Z.land (byteAt0 val 0) 128 = 0).
  { unfold byteAt0. rewrite H0. simpl.
    destruct (digit8_cases d Hd) as [->|[->|[->|[->|[->|[->|[->| ->]]]]]]];
      reflexivity. }
  rewrite Hland. simpl negb. cbv iota.
  rewrite (skipEq_stop val 32 0).
  2:{ rewrite H0. unfold isDigit in Hd. intros [=]. lia. }
  assert (Hidx : indexOf val 32 0 (length val) = length (map digitChar (d :: ds'))).
  { unfold indexOf.
    assert (Hlen : (length (map digitChar (d :: ds')) < length val)%nat).
    { unfold val. rewrite length_app. simpl. lia. }
    destruct (Nat.ltb_spec 0 (length val)); [|lia].
    unfold val. apply indexOfLoop_found; try lia.
    - fold val. lia.
    - intros i a _ Hi. apply list_lookup_fmap_Some in Hi as (x & -> & Hx).
      assert (isDigit 8 x).
      { eapply Forall_lookup_1 in Hds; [exact Hds|exact Hx]. }
      unfold digitChar. rewrite byteVal_byteOf; unfold isDigit in *; lia.
    - reflexivity. }
  rewrite Hidx.
  assert (Hclamp : Z.to_nat (clamp (Z.of_nat (length (map digitChar (d :: ds'))))
                               (Z.of_nat (length val)))
                   = length (map digitChar (d :: ds'))).
  { unfold clamp.
    assert (length (map digitChar (d :: ds')) < length val)%nat
      by (unfold val; rewrite length_app; simpl; lia).
    destruct (Z.geb_spec (Z.of_nat (length (map digitChar (d :: ds'))))
               (Z.of_nat (length val))); [lia|].
    destruct (Z.geb_spec (Z.of_nat (length (map digitChar (d :: ds')))) 0);
      lia. }
  rewrite Hclamp.
  rewrite (skipEq_stop val 0 0).
  2:{ rewrite H0. unfold isDigit in Hd. intros [=]. lia. }
  destruct (Nat.eqb_spec (length (map digitChar (d :: ds'))) 0) as [He|_].
  { simpl in He. lia. }
  unfold val. rewrite slice_app_exact by done.
  f_equal. unfold parseInt.
  assert (Hw : isWhite (digitChar d) = false
               /\ Ascii.eqb (digitChar d) "-" = false
               /\ Ascii.eqb (digitChar d) "+" = false).
  { destruct (digit8_cases d Hd) as [->|[->|[->|[->|[->|[->|[->| ->]]]]]]];
      repeat split; reflexivity. }
  destruct Hw as (Hw1 & Hw2 & Hw3).
  cbn [map dropWhile]. rewrite Hw1, Hw2, Hw3.
  change (digitChar d :: map digitChar ds') with (map digitChar (d :: ds')).
  rewrite <- (app_nil_r (map digitChar (d :: ds'))).
  rewrite parseDigits_digits; [|lia|done|done|done].
  simpl default. f_equal. lia.
Qed.
End OctalFields.

(** ** Reading fields back *)

Lemma decodeOct_written (buf : Buffer) (off len : nat) v (n : nat) (rest : Buffer) :
  slice buf off (off + len) = encodeOct v n ++ rest ->
  0 <= v < 8 ^ Z.of_nat n -> (1 <= n <= 19)%nat ->
  decodeOct buf off len = Some (JNum v).
Proof.
  intros Hs Hv Hn.
  destruct (encodeOct_digits v n Hv Hn) as (ds & Henc & Hlen & Hds & Hval).
  rewrite <- Hval.
  apply (decodeOct_digits buf off len ds rest); [|intros ->; simpl in Hlen; lia|done].
  rewrite Hs, Henc, <- app_assoc. done.
Qed.

Lemma indexOfLoop_spec (buf : Buffer) num (off n k : nat) :
  (k <= n)%nat ->
  (forall j, (off <= j < off + k)%nat -> byteAt buf j <> Some num) ->
  (k = n \/ byteAt buf (off + k) = Some num) ->
  indexOfLoop buf num off n = (off + k)%nat.
Proof.
  revert off n. induction k as [|k IH]; intros off n Hk Hpre Hend.
  - rewrite Nat.add_0_r in *. destruct n as [|n]; [done|]. simpl.
    destruct Hend as [|Hend]; [done|]. rewrite Hend, Z.eqb_refl. done.
  - destruct n as [|n]; [lia|]. simpl.
    assert (Hoff : byteAt buf off <> Some num) by (apply Hpre; lia).
    replace (off + S k)%nat with (S off + k)%nat in * by lia.
    destruct (byteAt buf off) as [v|] eqn:Hb.
    + destruct (Z.eqb_spec v num) as [->|_]; [done|].
      apply IH; [lia| |destruct Hend; [left; lia|by right]].
      intros j Hj. apply Hpre. lia.
    + apply IH; [lia| |destruct Hend; [left; lia|by right]].
      intros j Hj. apply Hpre. lia.
Qed.

Lemma byteVal_zero a : byteVal a = 0 -> a = zero.
Proof. intros H. apply byteVal_inj. rewrite H. reflexivity. Qed.

(** A string field: the text up to the first NUL, or the whole field. *)
Lemma decodeStr_field (buf : Buffer) (off len : nat) (s rest : Buffer) :
  slice buf off (off + len) = s ++ rest ->
  length (s ++ rest) = len ->
  Forall (fun a => a <> zero) s ->
  (rest = [] \/ exists r, rest = zero :: r) ->
  decodeStr buf off len = strOf s.
Proof.
  intros Hs Hlen Hnz Hrest. unfold decodeStr. f_equal.
  assert (Hlook : forall i, (i < len)%nat -> buf !! (off + i)%nat = (s ++ rest) !! i).
  { intros i Hi. rewrite <- Hs, lookup_slice, decide_True by lia. done. }
  assert (Hidx : indexOf buf 0 off (off + len) = (off + length s)%nat).
  { unfold indexOf. rewrite length_app in Hlen.
    destruct (Nat.ltb_spec off (off + len)) as [Hlt|Hge].
    - apply indexOfLoop_spec; [lia| |].
      + intros j Hj. unfold byteAt.
        replace j with (off + (j - off))%nat by lia.
        rewrite Hlook by lia. rewrite lookup_app_l by lia.
        destruct (s !! (j - off)%nat) as [a|] eqn:Ha; [|done].
        simpl. intros [= Hz]. apply byteVal_zero in Hz. subst a.
        eapply Forall_lookup_1 in Hnz; [|exact Ha]. done.
      + destruct Hrest as [->|[r ->]]; [left; simpl in Hlen; lia|right].
        unfold byteAt. rewrite Hlook by (simpl in Hlen; lia).
        rewrite list_lookup_middle by done. done.
    - lia. }
  rewrite Hidx.
  transitivity (take (length s) (slice buf off (off + len))).
  - unfold slice. rewrite take_take. f_equal.
    rewrite length_app in Hlen. lia.
  - rewrite Hs. apply take_app_length.
Qed.

(** ** The layout of an encoded block *)

Section BlockLayout.
Variable opts : EncodeOpts.
Variables nm pre : Buffer.

Lemma write_nil (buf : Buffer) off : write buf [] off = buf.
Proof.
  unfold write. simpl. rewrite Nat.add_0_r. destruct (length buf - off)%nat;
    apply take_drop.
Qed.

Lemma writeOpt_write (buf : Buffer) s off :
  writeOpt buf s off = write buf (optBytes s) off.
Proof.
  unfold writeOpt, optBytes. destruct (truthyStr s); [done|].
  now rewrite write_nil.
Qed.

(** The filled block as a chain of sixteen writes. *)
Lemma encodeFields_chain :
  encodeFields opts nm pre =
  write (write (write (write (write (write (write (write (write (write
    (write (write (write (write (write (alloc 512)
      nm 0)
      (encodeOct (Z.land (mode opts) MASK) 6) 100)
      (encodeOct (uid opts) 6) 108)
      (encodeOct (gid opts) 6) 116)
      (encodeOct (size opts) 11) 124)
      (encodeOct (toInt32 (Z.quot (mtime opts) 1000)) 11) 136)
      [byteOf (ZERO_OFFSET + toTypeflag (type opts))] 156)
      (optBytes (linkname opts)) 157)
      USTAR_MAGIC 257)
      USTAR_VER 263)
      (optBytes (uname opts)) 265)
      (optBytes (gname opts)) 297)
      (encodeOct (default 0 (devmajor opts)) 6) 329)
      (encodeOct (default 0 (devminor opts)) 6) 337)
      pre 345.
Proof.
  unfold encodeFields, setByte, MAGIC_OFFSET, VERSION_OFFSET.
  cbv zeta. rewrite !writeOpt_write.
  destruct pre; [now rewrite write_nil|done].
Qed.

Lemma length_encodeFields : length (encodeFields opts nm pre) = 512%nat.
Proof. rewrite encodeFields_chain, !length_write. apply length_alloc. Qed.

Lemma length_encodeBlock : length (encodeBlock opts nm pre) = 512%nat.
Proof. unfold encodeBlock. rewrite length_write. apply length_encodeFields. Qed.

Lemma slice_write_prefix (buf data : Buffer) off e :
  (off + length data <= e)%nat -> (off + length data <= length buf)%nat ->
  slice (write buf data off) off e = data ++ slice buf (off + length data) e.
Proof.
  intros He Hl. apply list_eq. intros i.
  rewrite lookup_slice, lookup_write.
  destruct (decide (i < length data)%nat).
  - rewrite lookup_app_l by done. rewrite !decide_True by lia. f_equal. lia.
  - rewrite lookup_app_r by lia. rewrite lookup_slice.
    destruct (decide (i < e - off)%nat).
    + rewrite decide_False by lia. rewrite decide_True by lia. f_equal. lia.
    + now rewrite decide_False by lia.
Qed.

Lemma slice_alloc (n s e : nat) :
  (s <= e <= n)%nat -> slice (alloc n) s e = replicate (e - s) zero.
Proof.
  intros H. apply list_eq. intros i. rewrite lookup_slice. unfold alloc.
  destruct (decide (i < e - s)%nat).
  - rewrite !lookup_replicate_2 by lia. done.
  - symmetry. apply lookup_replicate_None. lia.
Qed.

Lemma length_USTAR_MAGIC : length USTAR_MAGIC = 6%nat.
Proof. reflexivity. Qed.

Lemma length_USTAR_VER : length USTAR_VER = 2%nat.
Proof. reflexivity. Qed.
End BlockLayout.

(** Reading a window of the block below the writes that do not touch it. *)
Ltac field_len :=
  rewrite ?length_encodeOct by lia;
  rewrite ?length_USTAR_MAGIC, ?length_USTAR_VER, ?length_write, ?length_alloc;
  cbn [length]; lia.

Ltac peel_writes := repeat (rewrite slice_write_other by field_len).

Section BlockFields.
Variable opts : EncodeOpts.
Variables nm pre : Buffer.
Hypothesis nm_fits : (length nm <= 100)%nat.

Let B := encodeBlock opts nm pre.
Let F := encodeFields opts nm pre.

Lemma cksum_encodeBlock : cksum B = cksum F.
Proof.
  unfold B, encodeBlock. fold F. unfold cksum.
  rewrite !slice_write_other; [done| |];
    rewrite length_encodeOct by lia; lia.
Qed.

Lemma field_cksum : slice B 148 156 = encodeOct (cksum F) 6 ++ [zero].
Proof.
  unfold B, encodeBlock. fold F.
  rewrite slice_write_prefix;
    [|rewrite length_encodeOct by lia; lia
     |rewrite length_encodeOct by lia; unfold F;
      rewrite length_encodeFields; lia].
  f_equal. rewrite length_encodeOct by lia.
  unfold F. rewrite encodeFields_chain. peel_writes.
  now rewrite slice_alloc by lia.
Qed.

Lemma field_magic : slice B 257 263 = USTAR_MAGIC.
Proof.
  unfold B, encodeBlock. rewrite encodeFields_chain. peel_writes.
  apply slice_write_same; [field_len|done].
Qed.

Lemma field_mode :
  slice B 100 108 = encodeOct (Z.land (mode opts) MASK) 6 ++ [zero].
Proof.
  unfold B, encodeBlock. rewrite encodeFields_chain. peel_writes.
  rewrite slice_write_prefix by field_len.
  f_equal. rewrite length_encodeOct by lia. peel_writes.
  now rewrite slice_alloc by lia.
Qed.

Lemma cksum_encodeBlock_gt : 8 * 32 < cksum B.
Proof.
  assert (Hu : B !! 257%nat = Some "u"%char).
  { pose proof (f_equal (fun l => l !! 0%nat) field_magic) as H.
    simpl in H. rewrite lookup_slice in H. exact H. }
  assert (Hs : slice B 156 512 !! 101%nat = Some "u"%char).
  { rewrite lookup_slice. exact Hu. }
  apply sumBytes_lookup in Hs. unfold cksum.
  pose proof (sumBytes_bounds (slice B 0 148)).
  change (byteVal "u") with 117 in Hs. lia.
Qed.

Lemma decodeOct_cksum : decodeOct B 148 8 = Some (JNum (cksum B)).
Proof.
  pose proof (cksum_bounds F) as Hb.
  destruct (encodeOct_digits (cksum F) 6 ltac:(simpl; lia) ltac:(lia))
    as (ds & Henc & Hlen & Hds & Hval).
  rewrite cksum_encodeBlock, <- Hval.
  apply (decodeOct_digits B 148 8 ds [zero]); [|by destruct ds|done].
  change (148 + 8)%nat with 156%nat.
  rewrite field_cksum, Henc, <- app_assoc. done.
Qed.

(** An encoded block always decodes to a header: the checksum matches and
    the magic is USTAR. The fields are what the field decoders read. *)
Lemma decode_encodeBlock allow :
  decode B allow = Returns (Some {|
    h_name := if byteAt0 B 345 =? 0 then decodeStr B 0 100
              else (decodeStr B 345 155 ++ "/" ++ decodeStr B 0 100)%string;
    h_mode := decodeOct B 100 8;
    h_uid := decodeOct B 108 8;
    h_gid := decodeOct B 116 8;
    h_size := default (JNum 0) (decodeOct B 124 12);
    h_mtime := jsMul 1000 <$> decodeOct B 136 12;
    h_type := toType (if byteAt0 B 156 =? 0 then 0
                      else byteAt0 B 156 - ZERO_OFFSET);
    h_linkname := if decide (byteAt B 157 = Some 0) then None
                  else Some (decodeStr B 157 100);
    h_uname := decodeStr B 265 32;
    h_gname := decodeStr B 297 32;
    h_devmajor := decodeOct B 329 8;
    h_devminor := decodeOct B 337 8 |}).
Proof.
  unfold decode.
  pose proof cksum_encodeBlock_gt as Hgt.
  destruct (Z.eqb_spec (cksum B) (8 * 32)) as [He|_]; [lia|].
  rewrite decodeOct_cksum, bool_decide_eq_true_2 by done.
  cbn [negb]. unfold MAGIC_OFFSET. change (257 + 6)%nat with 263%nat.
  rewrite field_magic, bool_decide_eq_true_2 by done.
  reflexivity.
Qed.
End BlockFields.

(** ** Splitting a long name *)

Section SplitName.
Implicit Types (n m p pre nm : Buffer) (i k : nat).

Lemma findByte_Some c n i :
  findByte c n = Some i ->
  n !! i = Some c /\ forall j, (j < i)%nat -> n !! j <> Some c.
Proof.
  revert i. induction n as [|a n IH]; intros i H; [done|]. simpl in H.
  destruct (Ascii.eqb_spec a c) as [->|Hne].
  - injection H as <-. split; [done|]. intros j Hj. lia.
  - destruct (findByte c n) as [i'|]; [|done]. injection H as <-.
    destruct (IH i' eq_refl) as [H1 H2]. split; [done|].
    intros [|j] Hj; simpl; [congruence|]. apply H2. lia.
Qed.

Lemma findByte_None c n : findByte c n = None -> forall j, n !! j <> Some c.
Proof.
  induction n as [|a n IH]; intros H j; [done|]. simpl in H.
  destruct (Ascii.eqb_spec a c) as [->|Hne]; [done|].
  destruct (findByte c n); [done|].
  destruct j as [|j]; simpl; [congruence|]. now apply IH.
Qed.

Lemma findByte_split c n i :
  findByte c n = Some i -> n = take i n ++ c :: drop (S i) n.
Proof.
  intros H. apply findByte_Some in H as [H _].
  symmetry. now apply take_drop_middle.
Qed.

(** The loop stops at the first boundary whose remainder fits in the name
    field, and gives up exactly when no boundary has such a remainder. *)
Lemma splitName_spec fuel p m :
  (length m <= fuel)%nat ->
  match splitName fuel p m with
  | Some (pre, nm) =>
      exists k, isBoundary m k /\ nm = drop k m /\ (length nm <= 100)%nat /\
        forall k', (k' < k)%nat -> isBoundary m k' -> (100 < length (drop k' m))%nat
  | None => forall k, isBoundary m k -> (100 < length (drop k m))%nat
  end.
Proof.
  revert p m. induction fuel as [|f IH]; intros p m Hfuel.
  - simpl. destruct (Nat.leb_spec (length m) 100); [|lia].
    exists 0%nat. repeat split; [by left|done|lia].
  - simpl. destruct (Nat.leb_spec (length m) 100) as [Hle|Hgt].
    { exists 0%nat. repeat split; [by left|done|lia]. }
    destruct (findByte "/" m) as [i|] eqn:Hfind.
    + pose proof (findByte_Some _ _ _ Hfind) as [Hi Hfirst].
      assert (Hilt : (i < length m)%nat) by (apply lookup_lt_is_Some; eauto).
      set (p' := match p with [] => take i m | _ => p ++ "/"%char :: take i m end).
      specialize (IH p' (drop (S i) m) ltac:(rewrite length_drop; lia)).
      assert (Hb : forall k, isBoundary m k ->
                 k = 0%nat \/ exists k2, k = (S i + k2)%nat /\ isBoundary (drop (S i) m) k2).
      { intros k [->|Hk]; [by left|].
        destruct (decide (k = 0%nat)) as [->|Hk0]; [by left|right].
        assert (i <= k - 1)%nat.
        { destruct (decide (i <= k - 1)%nat); [done|]. exfalso.
          apply (Hfirst (k - 1)%nat); [lia|done]. }
        exists (k - S i)%nat. split; [lia|].
        destruct (decide (k = S i)) as [->|Hne]; [left; lia|right].
        rewrite lookup_drop. rewrite <- Hk. f_equal. lia. }
      destruct (splitName f p' (drop (S i) m)) as [[pre nm]|].
      * destruct IH as (k2 & Hk2 & -> & Hlen & Hleast).
        exists (S i + k2)%nat. split; [|split; [|split]].
        -- right. destruct k2 as [|k2].
           ++ rewrite <- Hi. f_equal. lia.
           ++ destruct Hk2 as [Hk2|Hk2]; [lia|].
              rewrite lookup_drop in Hk2. rewrite <- Hk2. f_equal. lia.
        -- rewrite drop_drop. done.
        -- done.
        -- intros k' Hk' Hbk'. destruct (Hb k' Hbk') as [->|(k3 & -> & Hb3)].
           ++ rewrite drop_0. lia.
           ++ rewrite <- drop_drop. apply Hleast; [lia|done].
      * intros k Hbk. destruct (Hb k Hbk) as [->|(k3 & -> & Hb3)].
        -- rewrite drop_0. lia.
        -- rewrite <- drop_drop. now apply IH.
    + intros k [->|Hk]; [rewrite drop_0; lia|].
      exfalso. eapply findByte_None; eauto.
Qed.
End SplitName.

(** Unless an empty first segment is dropped, prefix, separator and
    remainder make up the name again. *)
Lemma splitName_reassemble fuel (p m pre nm : Buffer) :
  splitName fuel p m = Some (pre, nm) ->
  p <> [] \/ head m <> Some "/"%char ->
  match pre with [] => nm | _ => pre ++ "/"%char :: nm end
  = match p with [] => m | _ => p ++ "/"%char :: m end.
Proof.
  revert p m. induction fuel as [|f IH]; intros p m H Hp; simpl in H.
  - destruct (length m <=? 100)%nat; [|done]. now injection H as <- <-.
  - destruct (length m <=? 100)%nat; [now injection H as <- <-|].
    destruct (findByte "/" m) as [i|] eqn:Hfind; [|done].
    pose proof (findByte_split _ _ _ Hfind) as Hm.
    pose proof (findByte_Some _ _ _ Hfind) as [Hi _].
    destruct p as [|a p].
    + assert (Hne : take i m <> []).
      { destruct Hp as [|Hp]; [done|]. destruct i as [|i]; [|].
        - destruct m; [done|]. simpl in *. congruence.
        - destruct m; done. }
      rewrite (IH _ _ H (or_introl Hne)).
      destruct (take i m) eqn:Ht; [done|]. exact (eq_sym Hm).
    + rewrite (IH _ _ H); [|left; by destruct p].
      rewrite <- app_assoc. f_equal. cbn [app]. f_equal. exact (eq_sym Hm).
Qed.

(** ** What a successful [encode] is *)

Lemma encode_Some opts b :
  encode opts = Some b ->
  exists nm pre,
    forallb is_ascii_byte (encodeName opts) = true /\
    splitName (length (encodeName opts)) [] (encodeName opts) = Some (pre, nm) /\
    (length nm <= 100)%nat /\ (length pre <= 155)%nat /\
    (length (optBytes (linkname opts)) <= 100)%nat /\
    b = encodeBlock opts nm pre.
Proof.
  unfold encode. intros H.
  destruct (forallb is_ascii_byte (encodeName opts)) eqn:Hascii; [|done].
  cbn [negb] in H.
  destruct (splitName _ _ _) as [[pre nm]|] eqn:Hsplit; [|done].
  destruct (Nat.ltb_spec 100 (length nm)); [done|].
  destruct (Nat.ltb_spec 155 (length pre)); [done|].
  cbn [orb] in H.
  exists nm, pre. repeat split; try done; try lia.
  - unfold optBytes. destruct (truthyStr (linkname opts)) as [l|]; [|simpl; lia].
    unfold byteLength in H. destruct (Nat.ltb_spec 100 (length (bytesOf l))); [done|lia].
  - destruct (truthyStr (linkname opts)) as [l|].
    + destruct (100 <? byteLength l)%nat; congruence.
    + congruence.
Qed.

Lemma land_MASK_id m : Z.land m MASK = m <-> 0 <= m < 4096.
Proof.
  change MASK with (Z.ones 12). rewrite Z.land_ones by lia.
  change (2 ^ 12) with 4096. split; intros H.
  - rewrite <- H. apply Z.mod_pos_bound. lia.
  - apply Z.mod_small. lia.
Qed.

Lemma land_MASK_range m : 0 <= Z.land m MASK < 8 ^ 6.
Proof.
  change MASK with (Z.ones 12). rewrite Z.land_ones by lia.
  pose proof (Z.mod_pos_bound m (2 ^ 12) ltac:(lia)).
  change (2 ^ 12) with 4096 in *. change (8 ^ 6) with 262144. lia.
Qed.

Lemma decodeOct_mode opts nm pre :
  (length nm <= 100)%nat ->
  decodeOct (encodeBlock opts nm pre) 100 8
  = Some (JNum (Z.land (mode opts) MASK)).
Proof.
  intros Hnm. pose proof (land_MASK_range (mode opts)) as Hr.
  destruct (encodeOct_digits (Z.land (mode opts) MASK) 6 ltac:(simpl; lia) ltac:(lia))
    as (ds & Henc & Hlen & Hds & Hval).
  rewrite <- Hval.
  apply (decodeOct_digits _ 100 8 ds [zero]); [|by destruct ds|done].
  change (100 + 8)%nat with 108%nat.
  rewrite field_mode, Henc, <- app_assoc by done. done.
Qed.

(** ** One byte changed *)

Section Mutation.
Implicit Types (buf : Buffer) (i : nat) (v old : ascii).

Lemma sumBytes_insert buf i v old :
  buf !! i = Some old ->
  sumBytes (<[i:=v]> buf) = sumBytes buf - byteVal old + byteVal v.
Proof.
  revert i. induction buf as [|a buf IH]; intros i Hi; [done|].
  destruct i as [|i]; simpl in *.
  - injection Hi as ->. lia.
  - rewrite (IH i Hi). lia.
Qed.

Lemma slice_insert_out buf i v s e :
  (i < s \/ e <= i)%nat -> slice (<[i:=v]> buf) s e = slice buf s e.
Proof.
  intros H. apply slice_ext. intros j Hj.
  apply list_lookup_insert_ne. lia.
Qed.

Lemma slice_insert_in buf i v s e :
  (s <= i < e)%nat -> slice (<[i:=v]> buf) s e = <[(i - s)%nat:=v]> (slice buf s e).
Proof.
  intros H. unfold slice.
  rewrite drop_insert_ge by lia. apply take_insert_lt. lia.
Qed.

(** Changing a byte outside the checksum field moves the sum by the
    difference of the two values. *)
Lemma cksum_insert buf i v old :
  buf !! i = Some old -> (i < 512)%nat -> ~ (148 <= i <= 155)%nat ->
  cksum (<[i:=v]> buf) = cksum buf - byteVal old + byteVal v.
Proof.
  intros Hold Hi Hout. unfold cksum.
  destruct (decide (i < 148)%nat).
  - rewrite (slice_insert_out buf i v 156 512) by lia.
    rewrite slice_insert_in by lia.
    rewrite (sumBytes_insert _ _ _ old).
    + lia.
    + rewrite lookup_slice, decide_True by lia. rewrite <- Hold. f_equal. lia.
  - rewrite (slice_insert_out buf i v 0 148) by lia.
    rewrite slice_insert_in by lia.
    rewrite (sumBytes_insert _ _ _ old).
    + lia.
    + rewrite lookup_slice, decide_True by lia. rewrite <- Hold. f_equal. lia.
Qed.

Lemma cksum_lookup_lower buf j a :
  buf !! j = Some a -> (156 <= j < 512)%nat -> 8 * 32 + byteVal a <= cksum buf.
Proof.
  intros Hj Hr. unfold cksum.
  assert (Hs : slice buf 156 512 !! (j - 156)%nat = Some a).
  { rewrite lookup_slice, decide_True by lia. rewrite <- Hj. f_equal. lia. }
  apply sumBytes_lookup in Hs.
  pose proof (sumBytes_bounds (slice buf 0 148)). lia.
Qed.

Lemma decodeOct_slice_eq buf buf' off len :
  slice buf off (off + len) = slice buf' off (off + len) ->
  decodeOct buf off len = decodeOct buf' off len.
Proof. intros H. unfold decodeOct. now rewrite H. Qed.
End Mutation.

(** ** The name field *)

Lemma field_name opts nm pre :
  (length nm <= 100)%nat ->
  slice (encodeBlock opts nm pre) 0 100 = nm ++ replicate (100 - length nm) zero.
Proof.
  intros Hnm. unfold encodeBlock. rewrite encodeFields_chain. peel_writes.
  rewrite slice_write_prefix by field_len.
  f_equal. now rewrite slice_alloc by lia.
Qed.

(** What is left of a name after splitting is a suffix of it. *)
Lemma splitName_suffix fuel p n pre nm :
  splitName fuel p n = Some (pre, nm) -> exists k, nm = drop k n.
Proof.
  revert p n. induction fuel as [|f IH]; intros p n H; simpl in H.
  - destruct (length n <=? 100)%nat; [|done].
    injection H as _ <-. now exists 0%nat.
  - destruct (length n <=? 100)%nat.
    { injection H as _ <-. now exists 0%nat. }
    destruct (findByte "/" n) as [i|]; [|done].
    apply IH in H as [k ->]. exists (S i + k)%nat. apply drop_drop.
Qed.

Lemma splitName_short fuel p n :
  (length n <= 100)%nat -> splitName fuel p n = Some (p, n).
Proof.
  intros H. destruct fuel; simpl;
    destruct (Nat.leb_spec (length n) 100); done || lia.
Qed.

Lemma last_drop (l : Buffer) k :
  drop k l = [] \/ last (drop k l) = last l.
Proof.
  destruct (decide (k < length l)%nat) as [Hlt|Hge].
  - right. rewrite !last_lookup, lookup_drop, length_drop. f_equal. lia.
  - left. apply drop_ge. lia.
Qed.

Lemma encodeBlock_withName opts n nm pre :
  encodeBlock (withName opts n) nm pre = encodeBlock opts nm pre.
Proof. reflexivity. Qed.

(** ** The length prefix of a PAX record *)

Lemma pow10_gt (d : nat) : Z.of_nat d + 1 <= 10 ^ Z.of_nat d.
Proof.
  induction d as [|d IH]; [simpl; lia|].
  rewrite Nat2Z.inj_succ, Z.pow_succ_r by lia. lia.
Qed.

(** The number written in front of a record counts the record and its own
    digits. *)
Lemma addLength_self_describing (str : Buffer) :
  str <> [] ->
  addLength str = toStringRadix 10 (Z.of_nat (length (addLength str))) ++ str.
Proof.
  intros Hne. unfold addLength.
  set (len := Z.of_nat (length str)).
  assert (Hlen : 1 <= len) by (destruct str; [done|unfold len; simpl length; lia]).
  destruct (natDigits_spec 10 ltac:(lia) len ltac:(lia))
    as (ds0 & Hds0 & Hne0 & _ & _ & Hl0).
  rewrite Hds0. rewrite !List.length_map.
  set (d := length ds0) in *.
  assert (Hd1 : (1 <= d)%nat) by (unfold d; destruct ds0; [done|simpl; lia]).
  assert (Hup : len < 10 ^ Z.of_nat d) by (apply Hl0; lia).
  assert (Hlow : (2 <= d)%nat -> 10 ^ Z.of_nat (d - 1) <= len).
  { intros H2. destruct (Z.lt_ge_cases len (10 ^ Z.of_nat (d - 1))) as [Hlt|]; [|done].
    apply Hl0 in Hlt; lia. }
  pose proof (pow10_gt d) as Hpow.
  set (D := if len + Z.of_nat d >=? 10 ^ Z.of_nat d
            then Z.of_nat d + 1 else Z.of_nat d).
  assert (HD : exists D' : nat, D = Z.of_nat D' /\ (1 <= D')%nat /\
               len + D < 10 ^ Z.of_nat D' /\
               ((2 <= D')%nat -> 10 ^ Z.of_nat (D' - 1) <= len + D)).
  { unfold D. destruct (Z.geb_spec (len + Z.of_nat d) (10 ^ Z.of_nat d)) as [Hge|Hlt].
    - exists (S d). rewrite Nat2Z.inj_succ. split; [lia|]. split; [lia|].
      rewrite Z.pow_succ_r by lia. split; [lia|].
      intros _. replace (S d - 1)%nat with d by lia. lia.
    - exists d. split; [done|]. split; [done|]. split; [lia|].
      intros H2. specialize (Hlow H2). lia. }
  destruct HD as (D' & HDeq & HD1 & HDup & HDlow).
  assert (HT : 0 <= len + D) by lia.
  destruct (natDigits_spec 10 ltac:(lia) (len + D) HT)
    as (ds1 & Hds1 & Hne1 & _ & _ & Hl1).
  assert (Htr : toStringRadix 10 (len + D) = map digitChar ds1).
  { unfold toStringRadix. destruct (Z.ltb_spec (len + D) 0); [lia|done]. }
  assert (Hlen1 : length ds1 = D').
  { assert (length ds1 <= D')%nat by (apply Hl1; lia).
    destruct (decide (2 <= D')%nat) as [H2|H2].
    - assert (~ (length ds1 <= D' - 1)%nat); [|lia].
      intros Hc. apply Hl1 in Hc; [|lia]. specialize (HDlow H2). lia.
    - destruct ds1; [done|simpl in *; lia]. }
  rewrite Htr at 2.
  rewrite length_app, List.length_map, Hlen1, Nat2Z.inj_add. fold len.
  rewrite <- HDeq. replace (D + len) with (len + D) by lia.
  done.
Qed.

(** ** Decoding an encoded block, field by field *)

Lemma strOf_app (a b : Buffer) : strOf (a ++ b) = (strOf a ++ strOf b)%string.
Proof. induction a as [|x a IH]; simpl; [done|]. now rewrite IH. Qed.

Lemma toTypeflag_range t : 0 <= toTypeflag t <= 72.
Proof.
  unfold toTypeflag. destruct t as [s|]; [|lia].
  repeat match goal with
         | |- context [if ?c then _ else _] => destruct c; [lia|]
         end; lia.
Qed.

Section OctFields.
Variable opts : EncodeOpts.
Variables nm pre : Buffer.

Let B := encodeBlock opts nm pre.

Ltac oct_field :=
  unfold B, encodeBlock; rewrite encodeFields_chain; peel_writes;
  rewrite slice_write_prefix by field_len; eexists; reflexivity.

Lemma field_uid : exists rest, slice B 108 116 = encodeOct (uid opts) 6 ++ rest.
Proof. oct_field. Qed.

Lemma field_gid : exists rest, slice B 116 124 = encodeOct (gid opts) 6 ++ rest.
Proof. oct_field. Qed.

Lemma field_size : exists rest, slice B 124 136 = encodeOct (size opts) 11 ++ rest.
Proof. oct_field. Qed.

Lemma field_mtime :
  exists rest, slice B 136 148
               = encodeOct (toInt32 (Z.quot (mtime opts) 1000)) 11 ++ rest.
Proof. oct_field. Qed.

Lemma field_devmajor :
  exists rest, slice B 329 337 = encodeOct (default 0 (devmajor opts)) 6 ++ rest.
Proof. oct_field. Qed.

Lemma field_devminor :
  exists rest, slice B 337 345 = encodeOct (default 0 (devminor opts)) 6 ++ rest.
Proof. oct_field. Qed.

Lemma field_typeflag :
  slice B 156 157 = [byteOf (ZERO_OFFSET + toTypeflag (type opts))].
Proof.
  unfold B, encodeBlock. rewrite encodeFields_chain. peel_writes.
  apply slice_write_same; [field_len|done].
Qed.

Lemma byteAt_typeflag : byteAt B 156 = Some (ZERO_OFFSET + toTypeflag (type opts)).
Proof.
  pose proof (f_equal (fun l => l !! 0%nat) field_typeflag) as H.
  cbn [lookup list_lookup] in H. rewrite lookup_slice, decide_True in H by lia.
  change (156 + 0)%nat with 156%nat in H.
  unfold byteAt. rewrite H. simpl. f_equal.
  pose proof (toTypeflag_range (type opts)).
  apply byteVal_byteOf. unfold ZERO_OFFSET. lia.
Qed.

Lemma decoded_type :
  toType (if byteAt0 B 156 =? 0 then 0 else byteAt0 B 156 - ZERO_OFFSET)
  = toType (toTypeflag (type opts)).
Proof.
  unfold byteAt0. rewrite byteAt_typeflag. simpl default.
  pose proof (toTypeflag_range (type opts)).
  destruct (Z.eqb_spec (ZERO_OFFSET + toTypeflag (type opts)) 0) as [He|_].
  - unfold ZERO_OFFSET in He. lia.
  - f_equal. lia.
Qed.
End OctFields.

Lemma replicate_zero_cases (k : nat) :
  replicate k zero = [] \/ exists r, replicate k zero = zero :: r.
Proof. destruct k; [by left|right; by eexists]. Qed.

Lemma truthyStr_bytes s l : truthyStr s = Some l -> bytesOf l <> [].
Proof.
  unfold truthyStr. destruct s as [s'|]; [|done].
  destruct (String.eqb_spec s' ""); [done|]. intros [= <-].
  destruct s'; done.
Qed.

Section StrFields.
Variable opts : EncodeOpts.
Variables nm pre : Buffer.
Hypothesis nm_fits : (length nm <= 100)%nat.
Hypothesis pre_fits : (length pre <= 155)%nat.
Hypothesis link_fits : (length (optBytes (linkname opts)) <= 100)%nat.
Hypothesis uname_fits : (length (optBytes (uname opts)) <= 80)%nat.
Hypothesis gname_fits : (length (optBytes (gname opts)) <= 48)%nat.

Let B := encodeBlock opts nm pre.

Lemma field_linkname :
  slice B 157 257 = optBytes (linkname opts)
                    ++ replicate (100 - length (optBytes (linkname opts))) zero.
Proof.
  unfold B, encodeBlock. rewrite encodeFields_chain. peel_writes.
  rewrite slice_write_prefix by field_len. f_equal. peel_writes.
  rewrite slice_alloc by lia. f_equal; lia.
Qed.

Lemma field_prefix :
  slice B 345 500 = pre ++ replicate (155 - length pre) zero.
Proof.
  unfold B, encodeBlock. rewrite encodeFields_chain. peel_writes.
  rewrite slice_write_prefix by field_len. f_equal. peel_writes.
  rewrite slice_alloc by lia. f_equal; lia.
Qed.

Lemma decodeStr_name : noNul nm -> decodeStr B 0 100 = strOf nm.
Proof.
  intros Hnz.
  apply (decodeStr_field B 0 100 nm (replicate (100 - length nm) zero)).
  - apply field_name. done.
  - rewrite length_app, length_replicate. lia.
  - done.
  - apply replicate_zero_cases.
Qed.

Lemma decodeStr_prefix : noNul pre -> decodeStr B 345 155 = strOf pre.
Proof.
  intros Hnz.
  apply (decodeStr_field B 345 155 pre (replicate (155 - length pre) zero)).
  - apply field_prefix.
  - rewrite length_app, length_replicate. lia.
  - done.
  - apply replicate_zero_cases.
Qed.

Lemma byteAt_first (s e : nat) (data : Buffer) :
  (s < e)%nat -> slice B s e = data -> byteAt B s = byteVal <$> data !! 0%nat.
Proof.
  intros Hse <-. rewrite lookup_slice, decide_True by lia.
  unfold byteAt. do 2 f_equal. lia.
Qed.

Lemma decoded_name :
  noNul nm -> noNul pre ->
  (if byteAt0 B 345 =? 0 then decodeStr B 0 100
   else (decodeStr B 345 155 ++ "/" ++ decodeStr B 0 100)%string)
  = strOf (match pre with [] => nm | _ => pre ++ "/"%char :: nm end).
Proof.
  intros Hnm Hpre. rewrite decodeStr_name, decodeStr_prefix by done.
  unfold byteAt0. rewrite (byteAt_first 345 500 _ ltac:(lia) field_prefix).
  destruct pre as [|a p].
  - reflexivity.
  - rewrite strOf_app.
    cbn [app lookup list_lookup fmap option_fmap option_map default id].
    destruct (Z.eqb_spec (byteVal a) 0) as [Hz|_].
    + apply byteVal_zero in Hz. inversion Hpre; done.
    + reflexivity.
Qed.

Lemma decoded_linkname :
  noNul (optBytes (linkname opts)) ->
  (if decide (byteAt B 157 = Some 0) then None
   else Some (decodeStr B 157 100)) = truthyStr (linkname opts).
Proof.
  intros Hnz. rewrite (byteAt_first 157 257 _ ltac:(lia) field_linkname).
  pose proof field_linkname as Hf. unfold optBytes in *.
  destruct (truthyStr (linkname opts)) as [l|] eqn:Hl.
  - pose proof (truthyStr_bytes _ _ Hl) as Hne.
    destruct (bytesOf l) as [|a r] eqn:Hb; [done|].
    cbn [app lookup list_lookup fmap option_fmap option_map].
    rewrite decide_False.
    2:{ intros [= Hz]. apply byteVal_zero in Hz. inversion Hnz; done. }
    f_equal. rewrite <- (strOf_bytesOf l), Hb.
    apply (decodeStr_field B 157 100 (a :: r) (replicate (100 - length (a :: r)) zero)).
    + exact Hf.
    + rewrite length_app, length_replicate. lia.
    + done.
    + apply replicate_zero_cases.
  - change (100 - length (@nil ascii))%nat with 100%nat.
    cbn [app replicate lookup list_lookup fmap option_fmap option_map].
    rewrite decide_True; done.
Qed.
End StrFields.

Lemma toInt32_small z : - 2 ^ 31 <= z < 2 ^ 31 -> toInt32 z = z.
Proof.
  intros H. unfold toInt32. rewrite Z.mod_small; lia.
Qed.

Lemma optBytes_Some_ne s :
  s <> Some ""%string -> truthyStr s = s.
Proof.
  unfold truthyStr. destruct s as [s'|]; [|done].
  destruct (String.eqb_spec s' ""); [now subst|done].
Qed.

(** * Claims about the header codec *)

(** C10. For every field set that [encode] accepts, the mode field of the
    block (bytes 100..106) holds the octal text of [mode & 0o7777], so the
    bits above the low twelve are dropped; decoding the block returns a
    header whose mode is [mode & 0o7777], and that is the input mode exactly
    when the input mode lies in [0, 0o10000). *)
Theorem encode_mode_masked opts b allow :
  encode opts = Some b ->
  slice b 100 107 = encodeOct (Z.land (mode opts) MASK) 6 /\
  exists h, decode b allow = Returns (Some h) /\
    h_mode h = Some (JNum (Z.land (mode opts) MASK)) /\
    (h_mode h = Some (JNum (mode opts)) <-> 0 <= mode opts < 4096).
Proof.
  intros Henc.
  destruct (encode_Some _ _ Henc) as (nm & pre & _ & _ & Hnm & _ & _ & ->).
  split.
  - pose proof (field_mode opts nm pre Hnm) as Hf.
    apply (f_equal (take 7)) in Hf.
    rewrite take_app_length' in Hf by (now rewrite length_encodeOct by lia).
    rewrite <- Hf. unfold slice. rewrite take_take. done.
  - eexists. split; [apply decode_encodeBlock; done|]. cbn [h_mode].
    rewrite decodeOct_mode by done. split; [done|].
    rewrite <- land_MASK_id. split; [congruence|intros ->; done].
Qed.

Lemma encode_mode_masked_witness :
  encode helloOpts = Some helloBlock /\
  slice helloBlock 100 107 = encodeOct (Z.land (mode helloOpts) MASK) 6 /\
  exists h, decode helloBlock false = Returns (Some h) /\
    h_mode h = Some (JNum (Z.land (mode helloOpts) MASK)) /\
    (h_mode h = Some (JNum (mode helloOpts)) <-> 0 <= mode helloOpts < 4096).
Proof.
  split; [vm_compute; reflexivity|].
  apply (encode_mode_masked helloOpts helloBlock false).
  vm_compute; reflexivity.
Defined.

(** C4. For every block produced by [encode], replacing the byte at any one
    offset outside the checksum field (148..155) by a different value makes
    [decode] throw the invalid-checksum error; it returns neither a header
    nor [null]. *)
Theorem decode_mutated_block opts b (i : nat) (old v : ascii) allow :
  encode opts = Some b ->
  b !! i = Some old -> ~ (148 <= i <= 155)%nat -> v <> old ->
  decode (<[i:=v]> b) allow = Throws InvalidChecksum.
Proof.
  intros Henc Hold Hout Hv.
  destruct (encode_Some _ _ Henc) as (nm & pre & _ & _ & Hnm & _ & _ & ->).
  set (B := encodeBlock opts nm pre) in *.
  assert (Hi : (i < 512)%nat).
  { rewrite <- (length_encodeBlock opts nm pre). apply lookup_lt_is_Some. eauto. }
  assert (Hc : cksum (<[i:=v]> B) = cksum B - byteVal old + byteVal v)
    by (apply cksum_insert; done).
  assert (Hne : cksum (<[i:=v]> B) <> cksum B).
  { rewrite Hc. intros He. apply Hv, byteVal_inj. lia. }
  assert (Hmagic : forall j, (j < 2)%nat -> B !! (257 + j)%nat = USTAR_MAGIC !! j).
  { intros j Hj. pose proof (field_magic opts nm pre Hnm) as Hm. fold B in Hm.
    rewrite <- Hm, lookup_slice, decide_True by lia. done. }
  assert (Hgt : 8 * 32 < cksum (<[i:=v]> B)).
  { destruct (decide (i = 257%nat)) as [->|Hi257].
    - pose proof (cksum_lookup_lower (<[257%nat:=v]> B) 258 "s"%char) as Hl.
      rewrite list_lookup_insert_ne in Hl by lia.
      specialize (Hl (Hmagic 1%nat ltac:(lia)) ltac:(lia)).
      change (byteVal "s") with 115 in Hl. lia.
    - pose proof (cksum_lookup_lower (<[i:=v]> B) 257 "u"%char) as Hl.
      rewrite list_lookup_insert_ne in Hl by lia.
      specialize (Hl (Hmagic 0%nat ltac:(lia)) ltac:(lia)).
      change (byteVal "u") with 117 in Hl. lia. }
  assert (Hfield : decodeOct (<[i:=v]> B) 148 8 = Some (JNum (cksum B))).
  { unfold B. rewrite <- (decodeOct_cksum opts nm pre Hnm).
    apply decodeOct_slice_eq, slice_insert_out. lia. }
  unfold decode.
  destruct (Z.eqb_spec (cksum (<[i:=v]> B)) (8 * 32)) as [He|_]; [lia|].
  rewrite Hfield, bool_decide_eq_false_2; [done|].
  intros [=]. done.
Qed.

Lemma decode_mutated_block_witness :
  decode (<[0%nat:="j"%char]> helloBlock) false = Throws InvalidChecksum.
Proof.
  apply (decode_mutated_block helloOpts helloBlock 0 "h"%char "j"%char false).
  - vm_compute; reflexivity.
  - vm_compute; reflexivity.
  - lia.
  - discriminate.
Defined.

(** The type of a decoded header is read off the flag byte alone: the
    reassignment of the flag for names with a trailing separator comes after
    [type] was computed and is never read. *)
Lemma decode_type_from_flag buf allow h :
  decode buf allow = Returns (Some h) ->
  h_type h = toType (if byteAt0 buf 156 =? 0 then 0
                     else byteAt0 buf 156 - ZERO_OFFSET).
Proof.
  unfold decode. intros H.
  destruct (cksum buf =? 8 * 32); [done|].
  destruct (negb _); [done|].
  repeat match type of H with
         | context [if ?c then _ else _] => destruct c
         end; try done; injection H as <-; done.
Qed.

(** C7. On the block of a file entry named "dir/" (flag byte '0', USTAR
    magic, valid checksum) [decode] returns a header whose name ends in the
    separator and whose type is still "file", not "directory". *)
Theorem decode_trailing_slash_keeps_file :
  encode slashFileOpts = Some slashFileBlock /\
  exists h, decode slashFileBlock false = Returns (Some h) /\
    byteAt slashFileBlock 156 = Some 48 /\
    endsWithSlash (h_name h) = true /\
    h_type h = Some "file"%string.
Proof.
  split; [vm_compute; reflexivity|].
  eexists. split; [vm_compute; reflexivity|].
  repeat split; vm_compute; reflexivity.
Qed.

(** C8, as stated, fails: with [type: "directory"] and no [typeflag] the
    name "dir" is written unchanged, and the name field does not end in the
    separator. *)
Lemma encode_type_directory_no_slash :
  type dirTypeOpts = Some "directory"%string /\
  exists b, encode dirTypeOpts = Some b /\
    slice b 0 100 = bytesOf "dir" ++ replicate 97 zero /\
    endsWithSlash (decodeStr b 0 100) = false.
Proof.
  split; [reflexivity|]. eexists. split; [reflexivity|].
  split; vm_compute; reflexivity.
Qed.

(** C8, amended. When [encode] is called with the option [typeflag] equal to
    5 and a name that lacks a trailing separator, one separator is appended
    before the length checks and before the name is written: the result is
    that of encoding the extended name. The name field of the block holds
    what the split leaves of the extended name, padded with NULs; it ends
    in the separator, or is empty when the whole extended name went into the
    prefix; it is the extended name itself when that has at most 100 bytes. *)
Theorem encode_typeflag5_appends_slash opts :
  typeflag opts = Some 5 ->
  lacksTrailingSlash (bytesOf (name opts)) = true ->
  let ext := bytesOf (name opts) ++ ["/"%char] in
  encode opts = encode (withName opts (name opts ++ "/")) /\
  forall b, encode opts = Some b ->
    exists pre nm,
      splitName (length ext) [] ext = Some (pre, nm) /\
      b = encodeBlock opts nm pre /\
      slice b 0 100 = nm ++ replicate (100 - length nm) zero /\
      (nm = [] \/ last nm = Some "/"%char) /\
      ((length ext <= 100)%nat -> nm = ext).
Proof.
  intros Hflag Hlacks ext.
  assert (Hname : encodeName opts = ext).
  { unfold encodeName. rewrite decide_True by done. now rewrite Hlacks. }
  assert (Hname' : encodeName (withName opts (name opts ++ "/")) = ext).
  { unfold encodeName. cbn [typeflag name withName].
    rewrite decide_True by done. rewrite bytesOf_app.
    change (bytesOf "/") with ["/"%char].
    unfold lacksTrailingSlash. rewrite last_snoc. done. }
  split.
  { unfold encode. rewrite Hname, Hname'. done. }
  intros b Hb.
  destruct (encode_Some _ _ Hb) as (nm & pre & _ & Hsplit & Hnm & _ & _ & ->).
  rewrite Hname in Hsplit. exists pre, nm.
  split; [done|]. split; [done|]. split; [now apply field_name|].
  split.
  - destruct (splitName_suffix _ _ _ _ _ Hsplit) as [k ->].
    destruct (last_drop ext k) as [Hd|Hd]; [now left|right].
    rewrite Hd. unfold ext. apply last_snoc.
  - intros Hle. rewrite splitName_short in Hsplit by done. congruence.
Qed.

Lemma encode_typeflag5_appends_slash_witness :
  encode dirFlagOpts = encode (withName dirFlagOpts "dir/") /\
  forall b, encode dirFlagOpts = Some b ->
    exists pre nm,
      splitName 4 [] (bytesOf "dir/") = Some (pre, nm) /\
      b = encodeBlock dirFlagOpts nm pre /\
      slice b 0 100 = nm ++ replicate (100 - length nm) zero /\
      (nm = [] \/ last nm = Some "/"%char) /\
      ((4 <= 100)%nat -> nm = bytesOf "dir/").
Proof.
  apply (encode_typeflag5_appends_slash dirFlagOpts); reflexivity.
Defined.

(** C9, as stated, fails: [encodePax] reads the path from the property
    [name]; a property called [path] is not read, so the input
    [{path: "a/b", pax: {x: "y"}}] encodes the record of [x] only and the
    decoded mapping has no [path]. *)
Lemma pax_roundtrip_path_property :
  encodePax (paxOptsOf [("path", "a/b")] (Some [("x", "y")]))%string
    = bytesOf "6 x=y" ++ ["010"%char] /\
  decodePax (encodePax (paxOptsOf [("path", "a/b")] (Some [("x", "y")])))%string
    = {[ "x" := "y" ]}%string /\
  decodePax (encodePax (paxOptsOf [("path", "a/b")] (Some [("x", "y")])))%string
    <> {[ "path" := "a/b"; "x" := "y" ]}%string.
Proof.
  split; [vm_compute; reflexivity|].
  assert (H : decodePax (encodePax
                (paxOptsOf [("path", "a/b")] (Some [("x", "y")])))%string
              = {[ "x" := "y" ]}%string) by (vm_compute; reflexivity).
  split; [exact H|]. rewrite H. intros Heq.
  apply (f_equal (fun m : gmap string string => m !! "path"%string)) in Heq.
  vm_compute in Heq. discriminate.
Qed.

(** C9, amended. With the path given as [name], [decodePax] of [encodePax]
    of [{name: "a/b", pax: {x: "y"}}] is exactly [{path: "a/b", x: "y"}].
    The bytes are the two records "12 path=a/b\n" and "6 x=y\n"; the
    decimal number that opens a record, here and for every key and value,
    is the byte count of the whole record, its own digits included. *)
Theorem pax_roundtrip_name_property :
  let opts := paxOptsOf [("name", "a/b")]%string (Some [("x", "y")]%string) in
  let r1 := paxRecord "path" "a/b" in
  let r2 := paxRecord "x" "y" in
  decodePax (encodePax opts) = {[ "path" := "a/b"; "x" := "y" ]}%string /\
  encodePax opts = r1 ++ r2 /\
  r1 = bytesOf "12 path=a/b" ++ ["010"%char] /\
  r2 = bytesOf "6 x=y" ++ ["010"%char] /\
  length r1 = 12%nat /\ length r2 = 6%nat /\
  forall key value : string,
    paxRecord key value
    = toStringRadix 10 (Z.of_nat (length (paxRecord key value)))
      ++ bytesOf (" " ++ key ++ "=" ++ value) ++ ["010"%char].
Proof.
  cbv zeta. do 6 (split; [vm_compute; reflexivity|]).
  intros key value. unfold paxRecord.
  apply addLength_self_describing. now destruct (bytesOf _).
Qed.

(** C1, as stated, fails: the mode 0o100644 of a regular file comes back
    as 0o644, although the name is short and plain. *)
Lemma roundtrip_mode_stat_bits :
  (byteLength (name statModeOpts) <= 100)%nat /\
  is_ascii_str (name statModeOpts) = true /\
  exists b h, encode statModeOpts = Some b /\
    decode b false = Returns (Some h) /\
    h_mode h = Some (JNum 420) /\
    h_mode h <> Some (JNum (mode statModeOpts)).
Proof.
  split; [vm_compute; lia|]. split; [reflexivity|].
  eexists. eexists. split; [reflexivity|].
  split; [vm_compute; reflexivity|]. split; [reflexivity|]. discriminate.
Qed.

(** C1, amended. Take a field set whose name has at most 100 bytes, all
    ASCII and none NUL, and is not extended by [encode] (the [typeflag]
    option is not 5, or the name already ends in the separator); whose
    mode is below 0o10000, uid, gid, devmajor and devminor below 8^6, size
    below 8^11, all non-negative; whose mtime is between the epoch and 2^31
    seconds; whose type is one of the nine names [encode] knows; whose
    linkname, if given, is not empty, has at most 100 bytes and no NUL; and
    whose uname and gname stay out of the prefix field (at most 80 and 48
    bytes). Then [encode] produces a block, and [decode] of it returns a
    header with the same name, mode, uid, gid, size, type and linkname,
    with devmajor and devminor equal to the input (0 when left out), and
    with the mtime cut to whole seconds. *)
Theorem decode_encode_roundtrip opts allow :
  (byteLength (name opts) <= 100)%nat ->
  is_ascii_str (name opts) = true ->
  noNul (bytesOf (name opts)) ->
  encodeName opts = bytesOf (name opts) ->
  0 <= mode opts < 4096 ->
  0 <= uid opts < 8 ^ 6 -> 0 <= gid opts < 8 ^ 6 ->
  0 <= size opts < 8 ^ 11 ->
  0 <= mtime opts < 2 ^ 31 * 1000 ->
  toType (toTypeflag (type opts)) = type opts ->
  linkname opts <> Some ""%string ->
  (length (optBytes (linkname opts)) <= 100)%nat ->
  noNul (optBytes (linkname opts)) ->
  (length (optBytes (uname opts)) <= 80)%nat ->
  (length (optBytes (gname opts)) <= 48)%nat ->
  0 <= default 0 (devmajor opts) < 8 ^ 6 ->
  0 <= default 0 (devminor opts) < 8 ^ 6 ->
  exists b h,
    encode opts = Some b /\ decode b allow = Returns (Some h) /\
    h_name h = name opts /\
    h_mode h = Some (JNum (mode opts)) /\
    h_uid h = Some (JNum (uid opts)) /\
    h_gid h = Some (JNum (gid opts)) /\
    h_size h = JNum (size opts) /\
    h_type h = type opts /\
    h_linkname h = linkname opts /\
    h_devmajor h = Some (JNum (default 0 (devmajor opts))) /\
    h_devminor h = Some (JNum (default 0 (devminor opts))) /\
    h_mtime h = Some (JNum (1000 * Z.quot (mtime opts) 1000)).
Proof.
  intros Hlen Hascii Hnul Hname Hmode Huid Hgid Hsize Hmtime Htype
         Hlne Hllen Hlnul Hun Hgn Hmaj Hmin.
  set (nm := bytesOf (name opts)).
  exists (encodeBlock opts nm []). eexists.
  split.
  { unfold encode. rewrite Hname. fold nm.
    unfold is_ascii_str in Hascii. fold nm in Hascii. rewrite Hascii.
    cbn [negb]. rewrite splitName_short by exact Hlen.
    destruct (Nat.ltb_spec 100 (length nm)); [unfold byteLength in Hlen; fold nm in Hlen; lia|].
    change (155 <? length (@nil ascii))%nat with false. cbn [orb].
    unfold optBytes in Hllen. unfold byteLength.
    destruct (truthyStr (linkname opts)) as [l|]; [|done].
    destruct (Nat.ltb_spec 100 (length (bytesOf l))); [lia|done]. }
  split; [apply decode_encodeBlock; exact Hlen|].
  cbn [h_name h_mode h_uid h_gid h_size h_type h_linkname h_devmajor
       h_devminor h_mtime].
  assert (Hq : 0 <= Z.quot (mtime opts) 1000 < 2 ^ 31).
  { rewrite Z.quot_div_nonneg by lia. split; [apply Z.div_pos; lia|].
    apply Z.div_lt_upper_bound; lia. }
  split.
  { rewrite (decoded_name opts nm []); try done; try (simpl; lia).
    - apply strOf_bytesOf.
    - constructor. }
  split.
  { rewrite decodeOct_mode by exact Hlen. do 2 f_equal. now apply land_MASK_id. }
  split.
  { destruct (field_uid opts nm []) as [r Hr].
    apply (decodeOct_written _ _ _ _ 6 r Hr); [simpl; lia|lia]. }
  split.
  { destruct (field_gid opts nm []) as [r Hr].
    apply (decodeOct_written _ _ _ _ 6 r Hr); [simpl; lia|lia]. }
  split.
  { destruct (field_size opts nm []) as [r Hr].
    rewrite (decodeOct_written _ _ _ _ 11 r Hr); [done|simpl; lia|lia]. }
  split.
  { rewrite decoded_type. exact Htype. }
  split.
  { rewrite decoded_linkname; try done; try (simpl; lia).
    now apply optBytes_Some_ne. }
  split.
  { destruct (field_devmajor opts nm []) as [r Hr].
    apply (decodeOct_written _ _ _ _ 6 r Hr); [simpl; lia|lia]. }
  split.
  { destruct (field_devminor opts nm []) as [r Hr].
    apply (decodeOct_written _ _ _ _ 6 r Hr); [simpl; lia|lia]. }
  destruct (field_mtime opts nm []) as [r Hr].
  rewrite toInt32_small in Hr by lia.
  rewrite (decodeOct_written _ _ _ _ 11 r Hr); [done| |lia].
  change (8 ^ Z.of_nat 11) with 8589934592. lia.
Qed.

Lemma decode_encode_roundtrip_witness :
  exists b h,
    encode helloOpts = Some b /\ decode b false = Returns (Some h) /\
    h_name h = name helloOpts /\
    h_mode h = Some (JNum (mode helloOpts)) /\
    h_uid h = Some (JNum (uid helloOpts)) /\
    h_gid h = Some (JNum (gid helloOpts)) /\
    h_size h = JNum (size helloOpts) /\
    h_type h = type helloOpts /\
    h_linkname h = linkname helloOpts /\
    h_devmajor h = Some (JNum (default 0 (devmajor helloOpts))) /\
    h_devminor h = Some (JNum (default 0 (devminor helloOpts))) /\
    h_mtime h = Some (JNum (1000 * Z.quot (mtime helloOpts) 1000)).
Proof.
  apply (decode_encode_roundtrip helloOpts false).
  - vm_compute; lia.
  - reflexivity.
  - repeat (constructor; [discriminate|]). constructor.
  - reflexivity.
  - simpl; lia.
  - simpl; lia.
  - simpl; lia.
  - simpl; lia.
  - simpl; lia.
  - reflexivity.
  - discriminate.
  - simpl; lia.
  - constructor.
  - simpl; lia.
  - simpl; lia.
  - simpl; lia.
  - simpl; lia.
Defined.

(** C6, as stated, fails: the 101-byte name "/aaa...a" is split at its
    first byte, the empty leading segment leaves the prefix empty, and
    [decode] returns the name without its leading separator. *)
Lemma long_name_leading_slash_lost :
  byteLength (name leadingSlashOpts) = 101%nat /\
  exists b h, encode leadingSlashOpts = Some b /\
    decode b false = Returns (Some h) /\
    h_name h = strOf (replicate 100 "a"%char) /\
    h_name h <> name leadingSlashOpts.
Proof.
  split; [reflexivity|]. eexists. eexists.
  split; [vm_compute; reflexivity|].
  split; [vm_compute; reflexivity|].
  split; [reflexivity|]. discriminate.
Qed.

(** C6, amended. Let the name, as [encode] sees it, be ASCII and longer
    than 100 bytes, and the linkname absent or at most 100 bytes. [encode]
    cuts the name at the first boundary (a position just after a separator)
    whose remainder has at most 100 bytes. It returns no result exactly
    when no boundary has such a remainder (in particular when the name has
    no separator), or the accumulated prefix exceeds 155 bytes. When it
    succeeds, the name field holds that remainder; and if the name does not
    begin with the separator, the name is prefix, separator, remainder, the
    prefix field holds the prefix (uname and gname staying out of it), and
    for a name without NUL [decode] returns the original name. *)
Theorem encode_long_name opts allow :
  let n := encodeName opts in
  forallb is_ascii_byte n = true ->
  (100 < length n)%nat ->
  (length (optBytes (linkname opts)) <= 100)%nat ->
  (encode opts = None <->
     (forall k, isBoundary n k -> (100 < length (drop k n))%nat) \/
     (exists pre nm, splitName (length n) [] n = Some (pre, nm) /\
                     (155 < length pre)%nat)) /\
  (forall b, encode opts = Some b ->
     exists pre nm k,
       b = encodeBlock opts nm pre /\
       (length nm <= 100)%nat /\ (length pre <= 155)%nat /\
       isBoundary n k /\ nm = drop k n /\
       (forall k', (k' < k)%nat -> isBoundary n k' ->
                   (100 < length (drop k' n))%nat) /\
       slice b 0 100 = nm ++ replicate (100 - length nm) zero /\
       (head n <> Some "/"%char ->
          n = pre ++ "/"%char :: nm /\
          ((length (optBytes (uname opts)) <= 80)%nat ->
           (length (optBytes (gname opts)) <= 48)%nat ->
           slice b 345 500 = pre ++ replicate (155 - length pre) zero /\
           (noNul n ->
            exists h, decode b allow = Returns (Some h) /\ h_name h = strOf n)))).
Proof.
  intros n Hascii Hlong Hlink.
  pose proof (splitName_spec (length n) [] n (le_n _)) as Hspec.
  assert (Hlinkb : match truthyStr (linkname opts) with
                   | Some l => (100 <? byteLength l)%nat
                   | None => false
                   end = false).
  { unfold optBytes in Hlink. unfold byteLength.
    destruct (truthyStr (linkname opts)) as [l|]; [|done].
    apply Nat.ltb_ge. exact Hlink. }
  split.
  - unfold encode. fold n. rewrite Hascii. cbn [negb].
    destruct (splitName (length n) [] n) as [[pre nm]|] eqn:Hsplit.
    + destruct Hspec as (k & Hbk & -> & Hlen & Hleast).
      destruct (Nat.ltb_spec 100 (length (drop k n))); [lia|]. cbn [orb].
      rewrite Hlinkb.
      destruct (Nat.ltb_spec 155 (length pre)) as [Hbig|Hfit].
      * split; [intros _|done]. right. by exists pre, (drop k n).
      * split; [done|]. intros [Hall|(pre' & nm' & [= <- _] & Hbig)]; [|lia].
        specialize (Hall k Hbk). lia.
    + split; [intros _; by left|done].
  - intros b Hb.
    destruct (encode_Some _ _ Hb) as (nm & pre & _ & Hsplit & Hnm & Hpre & _ & ->).
    fold n in Hsplit. rewrite Hsplit in Hspec.
    destruct Hspec as (k & Hbk & Hnmk & _ & Hleast).
    exists pre, nm, k.
    split; [done|]. split; [done|]. split; [done|]. split; [done|].
    split; [done|]. split; [done|]. split; [now apply field_name|].
    intros Hhead.
    pose proof (splitName_reassemble _ _ _ _ _ Hsplit (or_intror Hhead)) as Hre.
    cbn [app] in Hre.
    assert (Hpne : pre <> []).
    { intros ->. subst nm. rewrite Hre in Hnm. lia. }
    assert (Hn : n = pre ++ "/"%char :: nm) by (destruct pre; [done|by rewrite Hre]).
    split; [exact Hn|]. intros Hun Hgn.
    assert (Hlk : (length (optBytes (linkname opts)) <= 100)%nat) by exact Hlink.
    split; [now apply field_prefix|].
    intros Hnul. eexists. split; [apply decode_encodeBlock; exact Hnm|].
    cbn [h_name].
    assert (Hnuls : noNul pre /\ noNul nm).
    { unfold noNul in *. rewrite Hn in Hnul.
      apply Forall_app in Hnul as [H1 H2]. split; [done|].
      now apply Forall_cons in H2 as [_ H2]. }
    rewrite decoded_name; try done; try tauto.
    destruct pre; [done|]. now rewrite Hn.
Qed.

Lemma encode_long_name_witness :
  let opts := longNameOpts in
  let n := encodeName opts in
  (encode opts = None <->
     (forall k, isBoundary n k -> (100 < length (drop k n))%nat) \/
     (exists pre nm, splitName (length n) [] n = Some (pre, nm) /\
                     (155 < length pre)%nat)) /\
  (forall b, encode opts = Some b ->
     exists pre nm k,
       b = encodeBlock opts nm pre /\
       (length nm <= 100)%nat /\ (length pre <= 155)%nat /\
       isBoundary n k /\ nm = drop k n /\
       (forall k', (k' < k)%nat -> isBoundary n k' ->
                   (100 < length (drop k' n))%nat) /\
       slice b 0 100 = nm ++ replicate (100 - length nm) zero /\
       (head n <> Some "/"%char ->
          n = pre ++ "/"%char :: nm /\
          ((length (optBytes (uname opts)) <= 80)%nat ->
           (length (optBytes (gname opts)) <= 48)%nat ->
           slice b 345 500 = pre ++ replicate (155 - length pre) zero /\
           (noNul n ->
            exists h, decode b false = Returns (Some h) /\ h_name h = strOf n)))).
Proof.
  intros opts n.
  apply (encode_long_name longNameOpts false).
  - vm_compute; reflexivity.
  - vm_compute; lia.
  - simpl; lia.
Defined.

(** The 150-byte name of the specification's example: 70 bytes go to the
    prefix, 79 stay in the name field, and [decode] gives the name back;
    150 bytes without a separator are refused. *)
Example long_name_150 :
  (exists b h, encode longNameOpts = Some b /\
     slice b 345 416 = replicate 70 "a"%char ++ [zero] /\
     slice b 0 80 = replicate 79 "b"%char ++ [zero] /\
     decode b false = Returns (Some h) /\ h_name h = name longNameOpts) /\
  encode (withName helloOpts (strOf (replicate 150 "a"%char))) = None.
Proof.
  split; [|vm_compute; reflexivity].
  eexists. eexists. split; [vm_compute; reflexivity|].
  repeat split; vm_compute; reflexivity.
Qed.

(** * Properties of the extraction engine *)

Section EngineFacts.
Variable allow : bool.
Variable ackNow : Header -> bool.
Variable accept : Z -> Buffer -> bool.

Local Abbreviation runP := (runParser allow ackNow).
Local Abbreviation writeL := (_write allow ackNow accept).
Local Abbreviation performA := (perform allow ackNow accept).
Local Abbreviation reach := (reachable allow ackNow accept).

(** Unfolding the parse continuations down to field updates. *)
Ltac unfold_parsers :=
  unfold runParser, onheader, emitEntry, awaitBody,
    onpaxglobalheader, onpaxheader, ongnulongpath, ongnulonglinkpath,
    ondrain, onstreamend, unlockNow, destroy, logEvent, bodySize in *.

Lemma overflow_lt (sz : option jsnum) : (overflow sz <= 511)%nat.
Proof.
  unfold overflow. destruct sz as [[z|]|]; try lia.
  change 511 with (Z.ones 9). rewrite Z.land_ones by lia.
  pose proof (Z.mod_pos_bound z (2 ^ 9) ltac:(lia)).
  change (2 ^ 9) with 512 in *.
  destruct (Z.eqb_spec (z mod 512) 0); lia.
Qed.

Lemma sizeNat_pos n k : sizeNat n = Some k -> falsySize n = false -> (1 <= k)%nat.
Proof.
  destruct n as [z|]; simpl; [|done].
  destruct (Z.leb_spec 0 z); [|done]. intros [= <-].
  destruct (Z.eqb_spec z 0); [done|]. lia.
Qed.

(** A parse continuation, started with the partial flag set, leaves the
    cursor in order. *)
Lemma runParser_cursor s s' :
  _partial s = true ->
  runP s = Continue s' \/ runP s = Return s' ->
  cursorOk s'.
Proof.
  intros Hp H. unfold_parsers.
  destruct H as [H|H];
    repeat case_match; simplify_eq; simpl in *;
    repeat match goal with
      | H : _ || _ = false |- _ => apply orb_false_elim in H as [? ?]
      | H1 : sizeNat ?x = Some ?n, H2 : falsySize ?x = false |- _ =>
          pose proof (sizeNat_pos _ _ H1 H2); clear H2
      | H : (overflow ?sz =? 0)%nat = false |- _ => apply Nat.eqb_neq in H
      end;
    (split; unfold atHeaderBoundary; simpl;
     [ intros; first [lia | done]
     | split; [intros; first [done | congruence]
              | intros [? ?]; first [done | congruence | lia]]
     | intros; first [lia | done] ]).
Qed.

Lemma cursorOk_frame s s' :
  _onparse s' = _onparse s -> _missing s' = _missing s ->
  _partial s' = _partial s -> cursorOk s -> cursorOk s'.
Proof.
  intros H1 H2 H3 [Ha Hb Hc]. unfold atHeaderBoundary in *.
  split; unfold atHeaderBoundary; rewrite ?H1, ?H2, ?H3; done.
Qed.

Lemma cursorOk_callCb cb s : cursorOk s -> cursorOk (callCb cb s).
Proof. apply cursorOk_frame; unfold callCb; destruct cb; done. Qed.

Lemma cursorOk_initial : cursorOk initial.
Proof.
  split; unfold atHeaderBoundary; simpl; [lia|done|done].
Qed.

(** With the cursor in order, the partial flag is set when a step
    completes: bytes arrived, or the step was a body of length zero. *)
Lemma endOfChunk_partial data cb s :
  cursorOk s -> (_missing (markPartial data s) <= length data)%nat ->
  _partial (endOfChunk data cb (markPartial data s)) = true.
Proof.
  intros [Ha Hb Hc] Hlen. unfold endOfChunk, markPartial, logEvent, logData in *.
  destruct (Nat.eqb_spec (length data) 0) as [He|Hne].
  - assert (Hz : _missing s = O) by lia.
    assert (Hp : _partial s <> false).
    { intros Hf. apply Hb in Hf as [Ho _]. specialize (Hc Hz).
      rewrite Ho in Hc. done. }
    repeat case_match; simpl; by destruct (_partial s).
  - repeat case_match; done.
Qed.

Lemma forward_cursor data cb s :
  cursorOk s -> (length data < _missing (markPartial data s))%nat ->
  cursorOk (forward accept data cb (markPartial data s)).
Proof.
  intros [Ha Hb Hc] Hlen.
  assert (Hf : forall s0 : State,
    let s1 := forward accept data cb s0 in
    _onparse s1 = _onparse s0 /\ _partial s1 = _partial s0 /\
    _missing s1 = (_missing s0 - length data)%nat).
  { intros s0. unfold forward, callCb, logData.
    repeat case_match; simpl; done. }
  destruct (Hf (markPartial data s)) as (H1 & H2 & H3).
  unfold markPartial in *.
  destruct (Nat.eqb_spec (length data) 0) as [He|Hne].
  - split; unfold atHeaderBoundary; rewrite ?H1, ?H2, ?H3, ?He, ?Nat.sub_0_r; done.
  - simpl in *.
    split; unfold atHeaderBoundary; rewrite ?H1, ?H2, ?H3; simpl.
    + intros Ho. specialize (Ha Ho). lia.
    + split; [done|]. intros [Ho Hm]. specialize (Ha Ho). lia.
    + intros Hz. lia.
Qed.

(** The write loop keeps the cursor in order. *)
Lemma _write_cursor fuel data cb s s' :
  cursorOk s -> writeL fuel data cb s = Done s' -> cursorOk s'.
Proof.
  revert data cb s. induction fuel as [|fuel IH]; intros data cb s Hok H; [done|].
  simpl in H.
  destruct (Nat.ltb_spec (length data) (_missing (markPartial data s))) as [Hlt|Hge].
  - injection H as <-. now apply forward_cursor.
  - pose proof (endOfChunk_partial data cb s Hok Hge) as Hp.
    destruct (runParser _ _ _) as [s1|s1|] eqn:Hrun; [| |done].
    + pose proof (runParser_cursor _ _ Hp (or_introl Hrun)) as Hok1.
      assert (Hok2 : cursorOk (set_cb false s1)) by (revert Hok1; apply cursorOk_frame; done).
      destruct (_overflow s1) as [o|].
      * eapply IH; eauto.
      * injection H as <-. now apply cursorOk_callCb.
    + injection H as <-. exact (runParser_cursor _ _ Hp (or_intror Hrun)).
Qed.

Lemma perform_cursor a s s' :
  cursorOk s -> performA a s = Done s' -> cursorOk s'.
Proof.
  intros Hok H. destruct a as [chunk|err|]; simpl in H.
  - eapply _write_cursor; [|exact H]. revert Hok. apply cursorOk_frame; done.
  - assert (Hok1 : cursorOk (set_locked false (logEvent EvAck s)))
      by (revert Hok; apply cursorOk_frame; done).
    destruct err.
    + injection H as <-. revert Hok1. apply cursorOk_frame; unfold destroy;
        by destruct (destroyed _).
    + destruct (_stream _); [by injection H as <-|].
      unfold _continue in H.
      destruct (_overflow _) as [o|].
      * eapply _write_cursor; [|exact H]. revert Hok1. apply cursorOk_frame; done.
      * injection H as <-. apply cursorOk_callCb.
        revert Hok1. apply cursorOk_frame; done.
  - destruct (waitDrain s) as [cb|]; injection H as <-; [|done].
    apply cursorOk_callCb. revert Hok. apply cursorOk_frame; done.
Qed.

(** The cursor is in order in every state the engine reaches. *)
Lemma reachable_cursor s : reach s -> cursorOk s.
Proof.
  induction 1 as [|s a s' _ IH _ Hstep]; [apply cursorOk_initial|].
  eapply perform_cursor; eauto.
Qed.

(** ** The single-entry lock *)

Lemma lockTrace_snoc l e : lockTrace (l ++ [e]) = lockStep (lockTrace l) e.
Proof. unfold lockTrace. now rewrite fold_left_app. Qed.

Lemma sourceTrace_snoc l e : sourceTrace (l ++ [e]) = sourceStep (sourceTrace l) e.
Proof. unfold sourceTrace. now rewrite fold_left_app. Qed.

Lemma last_removelast {A} (l : list A) x :
  last l = Some x -> l = removelast l ++ [x].
Proof.
  intros H. apply last_Some in H as [l' ->].
  now rewrite removelast_last.
Qed.

(** Content added to the log changes neither reading of it. *)
Lemma appendData_traces d l :
  lockTrace (appendData d l) = lockTrace l /\
  sourceTrace (appendData d l) = sourceTrace l /\
  (Forall entryShape l -> Forall entryShape (appendData d l)).
Proof.
  unfold appendData. destruct d as [|a d]; [done|].
  destruct (last l) as [[| | d0| |]|] eqn:Hlast; simpl;
    rewrite ?lockTrace_snoc, ?sourceTrace_snoc;
    try (split; [by destruct (lockTrace l)|
                 split; [by destruct (sourceTrace l)|
                         intros; apply Forall_app; split; [done|by constructor]]]).
  apply last_removelast in Hlast.
  split; [|split].
  - rewrite Hlast at 2. rewrite lockTrace_snoc.
    by destruct (lockTrace (removelast l)).
  - rewrite Hlast at 2. rewrite sourceTrace_snoc.
    by destruct (sourceTrace (removelast l)).
  - intros HF. rewrite Hlast in HF. apply Forall_app in HF as [HF _].
    apply Forall_app. split; [done|by constructor].
Qed.

Ltac lock_fields Hlk Hsrc :=
  unfold openCount, _parse; simpl; rewrite ?lockTrace_snoc, ?sourceTrace_snoc, ?Hlk, ?Hsrc; simpl;
  first [ done | congruence
        | repeat (apply Forall_app; split); try done;
          repeat constructor; simpl; first [done | congruence] ].

(** A parse continuation that starts with the chunk callback held, no
    source open in the log and no lock without a source, keeps the lock's
    invariant: it continues into the next call of [_write], or it returns
    with the engine locked and the callback still held. *)
Lemma runParser_lock e s1 :
  _cb e = true -> busy e = true -> waitDrain e = None ->
  lockTrace (log e) = (_locked e, true) ->
  sourceTrace (log e) = (O, true) ->
  Forall entryShape (log e) ->
  (_stream e <> None -> _onparse e = OnStreamEnd) ->
  (_locked e = true -> _stream e <> None) ->
  (runP e = Continue s1 ->
     lockPre (set_cb false s1) /\ _cb s1 = true /\ _overflow s1 = _overflow e) /\
  (runP e = Return s1 ->
     lockOk s1 /\ _stream s1 = None /\ _locked s1 = true /\ _cb s1 = true).
Proof.
  intros Hcb Hbusy Hdrain Hlk Hsrc Hshape Hstream Hlocked.
  assert (Hcases : (_stream e = None /\ _locked e = false) \/
                   (_stream e <> None /\ _onparse e = OnStreamEnd)).
  { destruct (_stream e) eqn:Hs; [right; split; [done|by apply Hstream]|left].
    split; [done|]. destruct (_locked e); [|done]. by destruct Hlocked. }
  clear Hstream Hlocked.
  split; intros H; unfold_parsers;
    repeat case_match; simplify_eq; simpl in *;
    destruct Hcases as [[Hs Hl]|[Hs Ho]]; try congruence;
    try rewrite Hl in *;
    repeat split; unfold openCount, _parse; simpl; try rewrite Hs;
    lock_fields Hlk Hsrc.
Qed.

Lemma forward_lock data s :
  lockPre s -> lockOk (forward accept data true (markPartial data s)).
Proof.
  intros [Hlk Hsrc Hshape Hstream Hunl Hcb Hbusy Hdrain].
  destruct (appendData_traces data (log s)) as (Hd1 & Hd2 & Hd3).
  unfold forward, logData, callCb, markPartial, openCount in *.
  destruct (_stream s) as [src|] eqn:Hs;
    destruct (length data =? 0)%nat; simpl in *; rewrite ?Hs in *; simpl in *;
    repeat case_match; split; unfold openCount; simpl; rewrite ?Hs;
    rewrite ?Hd1, ?Hd2; try done; try (by apply Hd3);
    try (intros ?; exfalso; by apply Hunl); try congruence.
Qed.

Lemma endOfChunk_lock data s :
  lockPre s ->
  let e := endOfChunk data true (markPartial data s) in
  _cb e = true /\ busy e = true /\ waitDrain e = None /\
  lockTrace (log e) = (_locked e, true) /\
  sourceTrace (log e) = (O, true) /\
  Forall entryShape (log e) /\
  (_stream e <> None -> _onparse e = OnStreamEnd) /\
  (_locked e = true -> _stream e <> None).
Proof.
  intros [Hlk Hsrc Hshape Hstream Hunl Hcb Hbusy Hdrain].
  destruct (appendData_traces (take (_missing (markPartial data s)) data) (log s))
    as (Hd1 & Hd2 & Hd3).
  unfold endOfChunk, logData, markPartial, logEvent, openCount in *.
  destruct (_stream s) as [src|] eqn:Hs;
    destruct (length data =? 0)%nat; simpl in *; rewrite ?Hs in *; simpl in *;
    rewrite ?lockTrace_snoc, ?sourceTrace_snoc, ?Hd1, ?Hd2, ?Hlk, ?Hsrc;
    repeat split; try done;
    try (apply Forall_app; split; [by apply Hd3|by repeat constructor]);
    try (rewrite Hs; assumption).
Qed.

Lemma lockPre_done s :
  lockPre s -> _overflow s = None -> lockOk (callCb true s).
Proof.
  intros [Hlk Hsrc Hshape Hstream Hunl Hcb Hbusy Hdrain] Ho.
  split; unfold openCount in *; simpl; try done; try congruence.
  intros Hl Hs. exfalso. by apply Hunl.
Qed.

(** The write loop, entered with the chunk callback, keeps the lock. *)
Lemma _write_lock fuel data s s' :
  lockPre s -> writeL fuel data true s = Done s' -> lockOk s'.
Proof.
  revert data s. induction fuel as [|fuel IH]; intros data s Hpre H; [done|].
  cbn [_write] in H.
  destruct (length data <? _missing (markPartial data s))%nat.
  - injection H as <-. now apply forward_lock.
  - destruct (endOfChunk_lock data s Hpre)
      as (H1 & H2 & H3 & H4 & H5 & H6 & H7 & H8).
    destruct (runParser _ _ _) as [s1|s1|] eqn:Hrun; [| |done].
    + destruct (runParser_lock _ s1 H1 H2 H3 H4 H5 H6 H7 H8) as [Hcont _].
      destruct (Hcont Hrun) as (Hpre1 & Hcb1 & _).
      rewrite Hcb1 in H.
      destruct (_overflow (set_cb false s1)) as [o|] eqn:Ho.
      * eapply IH; eauto.
      * injection H as <-. now apply lockPre_done.
    + injection H as <-.
      destruct (runParser_lock _ s1 H1 H2 H3 H4 H5 H6 H7 H8) as [_ Hret].
      now apply Hret.
Qed.

Lemma lockOk_initial : lockOk initial.
Proof. split; simpl; try done. Qed.

(** No chunk is handed over while the engine is locked without a source. *)
Lemma lockOk_write_disabled s chunk :
  lockOk s -> _locked s = true -> _stream s = None ->
  enabled (Write chunk) s = false.
Proof.
  intros Hok Hl Hs. simpl.
  rewrite (lk_cb _ Hok (lk_stalled _ Hok Hl Hs)). done.
Qed.

Lemma lockOk_write_pre s :
  lockOk s -> busy s = false -> lockPre (set_busy true s).
Proof.
  intros [Hlk Hsrc Hshape Hstream Hst Hcb Hov Hdr] Hb.
  assert (Hcb0 : _cb s = false).
  { destruct (_cb s); [|done]. rewrite Hcb in Hb; done. }
  split; unfold openCount in *; simpl; try done.
  - intros Hl Hs. specialize (Hst Hl Hs). congruence.
  - destruct (waitDrain s) eqn:Hw; [|done].
    destruct Hdr as [_ Hdr]; [done|congruence].
Qed.

Lemma perform_lock a s s' :
  lockOk s -> enabled a s = true -> performA a s = Done s' -> lockOk s'.
Proof.
  intros Hok Hen H. destruct a as [chunk|err|].
  - simpl in H, Hen.
    apply andb_true_iff in Hen as [Hb _]. apply negb_true_iff in Hb.
    eapply _write_lock; [|exact H]. now apply lockOk_write_pre.
  - destruct Hok as [Hlk Hsrc Hshape Hstream Hst Hcb Hov Hdr].
    change (performA (Ack err) s) with
      (let s1 := set_locked false (logEvent EvAck s) in
       if err then Done (destroy ConsumerError s1)
       else match _stream s1 with
            | None => _continue allow ackNow accept s1
            | Some _ => Done s1
            end) in H.
    cbv zeta in H.
    set (s1 := set_locked false (logEvent EvAck s)) in *.
    assert (Hok1 : lockOk s1).
    { split; unfold s1, logEvent, openCount in *; simpl;
        rewrite ?lockTrace_snoc, ?sourceTrace_snoc, ?Hlk, ?Hsrc; try done.
      apply Forall_app. split; [done|by repeat constructor]. }
    assert (Hl1 : _locked s1 = false) by done.
    clearbody s1. clear Hlk Hsrc Hshape Hstream Hst Hcb Hov Hdr Hen.
    destruct err.
    + injection H as <-. destruct Hok1. unfold destroy.
      destruct (destroyed s1); [by split|]. split; done.
    + destruct (_stream s1) eqn:Hs1; [by injection H as <-|].
      unfold _continue in H.
      destruct Hok1 as [Hlk1 Hsrc1 Hshape1 Hstream1 Hst1 Hcb1 Hov1 Hdr1].
      change (_overflow (set_cb false s1)) with (_overflow s1) in H.
      destruct (_overflow s1) as [o|] eqn:Ho.
      * assert (Hc : _cb s1 = true).
        { destruct (_cb s1) eqn:Hc; [done|]. specialize (Hov1 eq_refl). congruence. }
        rewrite Hc in H. eapply _write_lock; [|exact H].
        split; unfold openCount in *; simpl; try done.
        -- intros; congruence.
        -- by apply Hcb1.
        -- destruct (waitDrain s1) eqn:Hw; [|done].
           destruct Hdr1 as [Hd _]; [first [done|by rewrite Hw]|first [congruence|done]].
      * injection H as <-. unfold callCb.
        destruct (_cb s1) eqn:Hc; split; unfold openCount in *; simpl;
          try done; try congruence.
        intros Hw. destruct (Hdr1 Hw) as [? _]. done.
  - simpl in H.
    destruct Hok as [Hlk Hsrc Hshape Hstream Hst Hcb Hov Hdr].
    destruct (waitDrain s) as [cb|] eqn:Hw; injection H as <-.
    + destruct Hdr as [Hc Hb]; [done|].
      unfold callCb. destruct cb; split; unfold openCount in *; simpl;
        try done; try congruence.
    + split; done.
Qed.

(** The lock's invariant holds in every state the engine reaches. *)
Lemma reachable_lock s : reach s -> lockOk s.
Proof.
  induction 1 as [|s a s' _ IH Hen Hstep]; [apply lockOk_initial|].
  eapply perform_lock; eauto.
Qed.


(** ** What a parse continuation leaves alone, and its progress *)

Lemma runParser_frame s s' :
  runP s = Continue s' \/ runP s = Return s' ->
  _cb s' = _cb s /\ _overflow s' = _overflow s /\
  busy s' = busy s /\ waitDrain s' = waitDrain s /\
  (destroyed s' = None -> destroyed s = None) /\
  (_missing s' = O -> isBodyParser (_onparse s') = true) /\
  (isBodyParser (_onparse s) = true -> _missing s' <> O).
Proof.
  intros H. unfold_parsers.
  destruct H as [H|H];
    repeat case_match; simplify_eq; unfold _parse; simpl in *;
    repeat match goal with
      | H : _ || _ = false |- _ => apply orb_false_elim in H as [? ?]
      | H1 : sizeNat ?x = Some ?n, H2 : falsySize ?x = false |- _ =>
          pose proof (sizeNat_pos _ _ H1 H2); clear H2
      | H : (overflow ?sz =? 0)%nat = false |- _ => apply Nat.eqb_neq in H
      end;
    repeat split; intros; first [done | congruence | lia].
Qed.

(** The overflow is not read and not written by a parse continuation. *)
Ltac split_match :=
  match goal with
  | |- context [match ?x with _ => _ end] =>
      lazymatch x with
      | context [match _ with _ => _ end] => fail
      | _ => destruct x eqn:?
      end
  end.

Lemma _parse_overflow x n p s :
  _parse n p (set_overflow x s) = set_overflow x (_parse n p s).
Proof. destruct s. unfold _parse. destruct (decide _); reflexivity. Qed.

Lemma onstreamend_overflow x s :
  onstreamend (set_overflow x s) = mapStep (set_overflow x) (onstreamend s).
Proof.
  destruct s. unfold onstreamend, _parse, headerSize. simpl.
  repeat (split_match; simpl); reflexivity.
Qed.

Lemma runParser_overflow x s :
  runP (set_overflow x s) = mapStep (set_overflow x) (runP s).
Proof.
  unfold runParser. change (_onparse (set_overflow x s)) with (_onparse s).
  destruct (_onparse s).
  - destruct s. unfold onheader, emitEntry, awaitBody, unlockNow, destroy,
      logEvent, _parse. simpl.
    repeat (split_match; simpl); reflexivity.
  - apply onstreamend_overflow.
  - destruct s. unfold ondrain, _parse, headerSize. simpl. reflexivity.
  - destruct s. unfold onpaxglobalheader, bodySize, headerSize. simpl.
    split_match; [|reflexivity]. rewrite <- (onstreamend_overflow x). reflexivity.
  - destruct s. unfold onpaxheader, bodySize, headerSize. simpl.
    split_match; [|reflexivity]. rewrite <- (onstreamend_overflow x). reflexivity.
  - destruct s. unfold ongnulongpath, bodySize, headerSize. simpl.
    split_match; [|reflexivity]. rewrite <- (onstreamend_overflow x). reflexivity.
  - destruct s. unfold ongnulonglinkpath, bodySize, headerSize. simpl.
    split_match; [|reflexivity]. rewrite <- (onstreamend_overflow x). reflexivity.
Qed.

(** ** Fuel *)

Lemma markPartial_fields d s :
  _missing (markPartial d s) = _missing s /\
  _onparse (markPartial d s) = _onparse s.
Proof. unfold markPartial. by destruct (length d =? 0)%nat. Qed.

Lemma endOfChunk_fields d cb s :
  _overflow (endOfChunk d cb s)
  = (if (_missing s <? length d)%nat then Some (drop (_missing s) d) else None) /\
  _onparse (endOfChunk d cb s) = _onparse s.
Proof. unfold endOfChunk, logEvent, logData. simpl. by destruct (_stream s). Qed.

(** What is left over after a parse step needs fewer calls. *)
Lemma steps_decrease d cb s s1 o s2 :
  (length d <? _missing (markPartial d s))%nat = false ->
  runP (endOfChunk d cb (markPartial d s)) = Continue s1 \/
  runP (endOfChunk d cb (markPartial d s)) = Return s1 ->
  _overflow s1 = Some o ->
  _missing s2 = _missing s1 -> _onparse s2 = _onparse s1 ->
  (stepsNeeded o s2 < stepsNeeded d s)%nat.
Proof.
  intros Hge Hrun Ho Hm Hp.
  destruct (runParser_frame _ _ Hrun) as (_ & Hov & _ & _ & _ & Hzero & Hbody).
  destruct (endOfChunk_fields d cb (markPartial d s)) as [Hov' Hp'].
  destruct (markPartial_fields d s) as [Hm0 Hp0].
  rewrite Hm0 in *. rewrite Hp', Hp0 in Hbody. rewrite Hov', Ho in Hov.
  apply Nat.ltb_ge in Hge.
  destruct (Nat.ltb_spec (_missing s) (length d)) as [Hlt|]; [|done].
  injection Hov as ->. unfold stepsNeeded. rewrite length_drop, Hm, Hp.
  destruct (Nat.ltb_spec 0 (_missing s)) as [Hpos|Hz].
  - destruct (0 <? _missing s1)%nat; [lia|].
    destruct (isBodyParser (_onparse s1)); lia.
  - assert (Hz' : _missing s = O) by lia. rewrite Hz', Nat.sub_0_r.
    destruct (isBodyParser (_onparse s)) eqn:Hb.
    + specialize (Hbody eq_refl).
      destruct (Nat.ltb_spec 0 (_missing s1)); lia.
    + destruct (Nat.ltb_spec 0 (_missing s1)) as [|Hz1]; [lia|].
      rewrite Hzero by lia. lia.
Qed.

Local Abbreviation runL := (run allow ackNow accept).

(** Enough fuel is as good as more. *)
Lemma run_fuel f d cb s :
  (stepsNeeded d s < f)%nat ->
  runL f d cb s <> OutOfFuel /\
  forall f', (stepsNeeded d s < f')%nat -> runL f d cb s = runL f' d cb s.
Proof.
  revert d cb s. induction f as [|f IH]; intros d cb s Hf; [lia|].
  assert (Hres : forall s1 f',
    runP (endOfChunk d cb (markPartial d s)) = Continue s1 \/
    runP (endOfChunk d cb (markPartial d s)) = Return s1 ->
    (length d <? _missing (markPartial d s))%nat = false ->
    (stepsNeeded d s <= f')%nat ->
    forall s2, _missing s2 = _missing s1 -> _onparse s2 = _onparse s1 ->
               _overflow s2 = _overflow s1 ->
    resume (runL f) s2 <> OutOfFuel /\
    resume (runL f) s2 = resume (runL f') s2).
  { intros s1 f' Hrun Hge Hf' s2 Hm Hp Ho. unfold resume. simpl.
    destruct (_overflow s2) as [o|] eqn:Hov; [|done].
    pose proof (steps_decrease d cb s s1 o (set_cb false s2) Hge Hrun
                  (eq_sym Ho) Hm Hp).
    destruct (IH o (_cb s2) (set_cb false s2) ltac:(lia)) as [H1 H2].
    split; [done|]. apply H2. lia. }
  simpl.
  destruct (length d <? _missing (markPartial d s))%nat eqn:Hlt.
  { split; [done|]. intros [|f'] Hf'; [lia|]. simpl. now rewrite Hlt. }
  split.
  - destruct (runParser _ _ _) as [s1|s1|] eqn:Hrun; simpl; [| |done].
    + apply (Hres s1 f (or_introl eq_refl) eq_refl ltac:(lia) s1); done.
    + destruct (_stream _); [done|].
      apply (Hres s1 f (or_intror eq_refl) eq_refl ltac:(lia)); done.
  - intros [|f'] Hf'; [lia|]. simpl. rewrite Hlt.
    destruct (runParser _ _ _) as [s1|s1|] eqn:Hrun; simpl; [| |done].
    + apply (Hres s1 f' (or_introl eq_refl) eq_refl ltac:(lia) s1); done.
    + destruct (_stream _); [done|].
      apply (Hres s1 f' (or_intror eq_refl) eq_refl ltac:(lia)); done.
Qed.
(** ** The run loop keeps the lock and ends idle *)

Lemma ack_lockPre s :
  lockOk s -> _stream s = None -> _cb s = true ->
  lockPre (set_cb false (set_locked false (logEvent EvAck s))).
Proof.
  intros [Hlk Hsrc Hshape Hstream Hst Hcb Hov Hdr] Hs Hc.
  split; unfold logEvent, openCount in *; simpl;
    rewrite ?lockTrace_snoc, ?sourceTrace_snoc, ?Hlk, ?Hsrc; try done.
  - apply Forall_app. split; [done|by repeat constructor].
  - by apply Hcb.
  - destruct (waitDrain s) eqn:Hw; [|done].
    destruct Hdr as [Hd _]; [done|congruence].
Qed.

Lemma forward_idle data s :
  lockPre s ->
  lockOk (drained (forward accept data true (markPartial data s))) /\
  idle (drained (forward accept data true (markPartial data s))).
Proof.
  intros Hpre. pose proof (forward_lock data s Hpre) as Hok.
  destruct Hpre as [_ _ _ _ _ Hcb Hbusy Hdrain].
  revert Hok. unfold idle, drained, forward, callCb, logData, markPartial.
  destruct (_stream s) as [src|] eqn:Hs;
    destruct (length data =? 0)%nat; simpl; rewrite ?Hs; simpl;
    repeat case_match; simpl; rewrite ?Hdrain, ?Hcb;
    intros [Hlk Hsrc Hshape Hstream Hst Hcb1 Hov Hdr];
    (split; [split; unfold openCount in *; simpl in *; try done;
             rewrite ?Hs in *; simpl in *; try done; try congruence
            | repeat split; simpl; try done; try congruence]).
Qed.

Lemma resume_lock f s s' :
  (forall d s0 s1, lockPre s0 -> runL f d true s0 = Done s1 -> lockOk s1 /\ idle s1) ->
  lockPre (set_cb false s) -> _cb s = true ->
  resume (runL f) s = Done s' -> lockOk s' /\ idle s'.
Proof.
  intros IH Hpre Hc H. unfold resume in H. rewrite Hc in H.
  destruct (_overflow (set_cb false s)) as [o|] eqn:Ho.
  - eapply IH; eauto.
  - injection H as <-. split; [now apply lockPre_done|].
    destruct Hpre as [_ _ _ _ _ Hcb Hbusy Hdrain].
    repeat split; simpl in *; done.
Qed.

Lemma run_lock f d s s' :
  lockPre s -> runL f d true s = Done s' -> lockOk s' /\ idle s'.
Proof.
  revert d s s'. induction f as [|f IH]; intros d s s' Hpre H; [done|].
  simpl in H.
  destruct (length d <? _missing (markPartial d s))%nat.
  - injection H as <-. now apply forward_idle.
  - destruct (endOfChunk_lock d s Hpre)
      as (H1 & H2 & H3 & H4 & H5 & H6 & H7 & H8).
    destruct (runParser _ _ _) as [s1|s1|] eqn:Hrun; [| |done].
    + destruct (runParser_lock _ s1 H1 H2 H3 H4 H5 H6 H7 H8) as [Hcont _].
      destruct (Hcont Hrun) as (Hpre1 & Hcb1 & _).
      simpl in H. eapply resume_lock; eauto.
    + destruct (runParser_lock _ s1 H1 H2 H3 H4 H5 H6 H7 H8) as [_ Hret].
      destruct (Hret Hrun) as (Hok1 & Hs1 & Hl1 & Hc1).
      simpl in H. rewrite Hs1 in H.
      eapply (resume_lock f (set_locked false (logEvent EvAck s1)));
        [exact IH| |exact Hc1|exact H].
      now apply ack_lockPre.
Qed.
(** ** Cutting the input *)

Ltac open_state s :=
  destruct s as [off buf mis par onp hd str ovf cb0 lck px pxg glp gllp
                 bsy wd dst lg].

Lemma appendData_app a b l : appendData b (appendData a l) = appendData (a ++ b) l.
Proof.
  destruct a as [|a0 a]; [done|]. destruct b as [|b0 b].
  { simpl. now rewrite app_nil_r. }
  unfold appendData at 2 3. cbn [app].
  destruct (last l) as [[| | d0| |]|] eqn:Hl; unfold appendData;
    rewrite last_snoc, removelast_last; try done.
  now rewrite <- app_assoc.
Qed.

Lemma markPartial_nonempty d s : d <> [] -> markPartial d s = set_partial true s.
Proof. unfold markPartial. by destruct d. Qed.

(** The overflow a call of [run] finds is not read. *)
Lemma run_overflow f d cb x s : runL f d cb (set_overflow x s) = runL f d cb s.
Proof.
  open_state s. destruct f; [done|].
  simpl. unfold markPartial, endOfChunk, forward.
  destruct str;
    destruct (length d =? 0)%nat; simpl; destruct (length d <? mis)%nat;
    reflexivity.
Qed.

(** Two pieces forwarded one after the other. *)
Lemma forward_forward a b s :
  waitDrain s = None -> busy s = true ->
  (length (a ++ b) < _missing s)%nat ->
  drained (forward accept b true
             (set_partial true
                (set_busy true (drained (forward accept a true (set_partial true s))))))
  = drained (forward accept (a ++ b) true (set_partial true s)).
Proof.
  intros Hw Hb Hlen. open_state s. simpl in *. subst.
  unfold drained, forward, logData, callCb. simpl.
  destruct str as [src|]; simpl.
  - rewrite length_app, Nat.sub_add_distr.
    destruct (accept src a); simpl; destruct (accept src b); simpl;
      destruct (accept src (a ++ b)); simpl;
      rewrite appendData_app; reflexivity.
  - rewrite length_app, Nat.sub_add_distr, <- app_assoc. reflexivity.
Qed.

(** A piece forwarded, and the next one completing the step. *)
Lemma forward_endOfChunk a b s :
  waitDrain s = None -> busy s = true ->
  (length a < _missing s)%nat -> (_missing s <= length (a ++ b))%nat ->
  endOfChunk b true
    (set_partial true
       (set_busy true (drained (forward accept a true (set_partial true s)))))
  = endOfChunk (a ++ b) true (set_partial true s).
Proof.
  intros Hw Hb Hlt Hge. open_state s. simpl in *. subst.
  rewrite length_app in Hge.
  assert (Htake : take mis (a ++ b) = a ++ take (mis - length a) b).
  { rewrite take_app, take_ge by lia. done. }
  assert (Hdrop : drop mis (a ++ b) = drop (mis - length a) b).
  { rewrite drop_app, drop_ge by lia. done. }
  assert (Hltb : (mis <? length (a ++ b))%nat
                 = (mis - length a <? length b)%nat).
  { rewrite length_app.
    destruct (Nat.ltb_spec mis (length a + length b)),
             (Nat.ltb_spec (mis - length a) (length b)); lia. }
  unfold endOfChunk, drained, forward, logData, logEvent, callCb. simpl.
  rewrite Htake, Hdrop, Hltb.
  destruct str as [src|]; simpl.
  - destruct (accept src a); simpl; rewrite appendData_app; reflexivity.
  - rewrite <- app_assoc. reflexivity.
Qed.

(** A step completed inside the first piece: the rest goes to the overflow. *)
Lemma endOfChunk_app a b s :
  b <> [] -> (_missing s <= length a)%nat ->
  endOfChunk (a ++ b) true s
  = set_overflow (Some (drop (_missing s) a ++ b)) (endOfChunk a true s).
Proof.
  intros Hb Hge. open_state s. simpl in *.
  assert (Hlt : (mis <? length (a ++ b))%nat = true).
  { apply Nat.ltb_lt. rewrite length_app. destruct b; [done|simpl; lia]. }
  unfold endOfChunk, logData, logEvent. simpl.
  rewrite Hlt, take_app_le, drop_app_le by lia.
  destruct str; reflexivity.
Qed.

Lemma callCb_busy s : busy s = true -> set_busy true (callCb true s) = s.
Proof. destruct s; simpl; intros ->; done. Qed.

Lemma overflow_drop (a : Buffer) m :
  (if (m <? length a)%nat then Some (drop m a) else None)
  = match drop m a with [] => None | _ => Some (drop m a) end.
Proof.
  destruct (Nat.ltb_spec m (length a)) as [Hlt|Hge].
  - destruct (drop m a) eqn:Hd; [|done].
    apply (f_equal length) in Hd. rewrite length_drop in Hd. simpl in Hd. lia.
  - now rewrite drop_ge.
Qed.

(** [_continue()] on what is left of the first piece, then the second piece,
    is [_continue()] on what is left of both. *)
Lemma resume_app f fa fb a b s :
  (forall a0 s0 fa0, a0 <> [] -> lockPre s0 ->
     (stepsNeeded (a0 ++ b) s0 < f)%nat -> (stepsNeeded a0 s0 < fa0)%nat ->
     runL f (a0 ++ b) true s0
     = bindOutcome (runL fa0 a0 true s0)
         (fun s' => runL fb b true (set_busy true s'))) ->
  b <> [] -> lockPre (set_cb false s) -> _cb s = true ->
  _overflow s = match a with [] => None | _ => Some a end ->
  (stepsNeeded (a ++ b) (set_cb false s) < f)%nat ->
  (a <> [] -> stepsNeeded a (set_cb false s) < fa)%nat ->
  (3 * length b + 2 < fb)%nat ->
  resume (runL f) (set_overflow (Some (a ++ b)) s)
  = bindOutcome (resume (runL fa) s)
      (fun s' => runL fb b true (set_busy true s')).
Proof.
  intros IH Hb Hpre Hcb Ho Hf Hfa Hfb. unfold resume. cbv zeta.
  change (_cb (set_overflow (Some (a ++ b)) s)) with (_cb s).
  change (_overflow (set_cb false (set_overflow (Some (a ++ b)) s)))
    with (Some (a ++ b)).
  change (set_cb false (set_overflow (Some (a ++ b)) s))
    with (set_overflow (Some (a ++ b)) (set_cb false s)).
  change (_overflow (set_cb false s)) with (_overflow s).
  cbv beta iota. rewrite run_overflow, Hcb, Ho.
  destruct a as [|a0 a].
  - cbn [bindOutcome app]. rewrite callCb_busy by apply Hpre.
    cbn [app] in Hf.
    destruct (run_fuel f b true (set_cb false s) Hf) as [_ Heq].
    apply Heq. unfold stepsNeeded. repeat case_match; lia.
  - apply IH; try done. now apply Hfa.
Qed.

Lemma forward_missing a cb s :
  _missing (drained (forward accept a cb s)) = (_missing s - length a)%nat.
Proof.
  unfold drained, forward, logData, callCb.
  open_state s; destruct str; simpl; repeat case_match; simpl in *; done.
Qed.

Lemma run_S f d cb s :
  d <> [] ->
  runL (S f) d cb s
  = if (length d <? _missing s)%nat
    then Done (drained (forward accept d cb (set_partial true s)))
    else afterParse (runL f) (runP (endOfChunk d cb (set_partial true s))).
Proof. intros Hd. cbn [run]. now rewrite markPartial_nonempty. Qed.

(** Two pieces one after the other are the two pieces in one. *)
Lemma run_app f fa fb a b s :
  a <> [] -> b <> [] -> lockPre s ->
  (stepsNeeded (a ++ b) s < f)%nat -> (stepsNeeded a s < fa)%nat ->
  (3 * length b + 2 < fb)%nat ->
  runL f (a ++ b) true s
  = bindOutcome (runL fa a true s)
      (fun s' => runL fb b true (set_busy true s')).
Proof.
  intros Ha Hb. revert a fa s Ha.
  induction f as [|f IH]; intros a fa s Ha Hpre Hf Hfa Hfb; [lia|].
  destruct fa as [|fa]; [lia|]. destruct fb as [|fb]; [lia|].
  assert (Hab : a ++ b <> []) by (by destruct a).
  pose proof (lp_busy _ Hpre) as Hbusy. pose proof (lp_drain _ Hpre) as Hdrain.
  assert (Hsteps : (3 * length a + 3 * length b <= stepsNeeded (a ++ b) s)%nat).
  { unfold stepsNeeded. rewrite length_app. lia. }
  rewrite (run_S f (a ++ b)), (run_S fa a) by done.
  destruct (Nat.ltb_spec (length (a ++ b)) (_missing s)) as [Hlt|Hge].
  - (* everything is forwarded *)
    pose proof Hlt as Hlt'. rewrite length_app in Hlt'.
    destruct (Nat.ltb_spec (length a) (_missing s)); [|lia].
    cbn [bindOutcome]. rewrite run_S by done.
    change (_missing (set_busy true ?x)) with (_missing x).
    rewrite forward_missing.
    change (_missing (set_partial true s)) with (_missing s).
    destruct (Nat.ltb_spec (length b) (_missing s - length a)); [|lia].
    f_equal. symmetry. now apply forward_forward.
  - destruct (Nat.ltb_spec (length a) (_missing s)) as [Hlta|Hgea].
    + (* the second piece completes the step *)
      pose proof Hge as Hge'. rewrite length_app in Hge'.
      set (mid := set_busy true
                    (drained (forward accept a true (set_partial true s)))).
      assert (Hmid : _missing mid = (_missing s - length a)%nat)
        by exact (forward_missing a true (set_partial true s)).
      assert (Hn : (stepsNeeded b mid < S f)%nat).
      { unfold stepsNeeded. rewrite Hmid.
        destruct (Nat.ltb_spec 0 (_missing s - length a)); lia. }
      destruct (run_fuel (S f) b true mid Hn) as [_ Heq].
      assert (Hn' : (stepsNeeded b mid < S fb)%nat).
      { unfold stepsNeeded. rewrite Hmid.
        destruct (Nat.ltb_spec 0 (_missing s - length a)); lia. }
      specialize (Heq (S fb) Hn').
      cbn [bindOutcome]. fold mid. rewrite <- Heq, run_S, Hmid by done.
      destruct (Nat.ltb_spec (length b) (_missing s - length a)); [lia|].
      unfold mid. now rewrite forward_endOfChunk.
    + (* the step is completed inside the first piece *)
      rewrite endOfChunk_app by done.
      change (_missing (set_partial true s)) with (_missing s).
      rewrite runParser_overflow.
      pose proof (endOfChunk_lock a s Hpre) as He.
      pose proof (endOfChunk_fields a true (markPartial a s)) as [Hov _].
      rewrite markPartial_nonempty in He, Hov by done. cbv zeta in He.
      change (_missing (set_partial true s)) with (_missing s) in Hov.
      rewrite overflow_drop in Hov.
      destruct He as (H1 & H2 & H3 & H4 & H5 & H6 & H7 & H8).
      assert (Hge0 : (length (a ++ b) <? _missing (markPartial (a ++ b) s))%nat
                     = false).
      { rewrite markPartial_nonempty by done. apply Nat.ltb_ge. exact Hge. }
      assert (Hge1 : (length a <? _missing (markPartial a s))%nat = false).
      { rewrite markPartial_nonempty by done. apply Nat.ltb_ge. exact Hgea. }
      assert (Hrun0 : runP (endOfChunk (a ++ b) true (markPartial (a ++ b) s))
                = mapStep (set_overflow (Some (drop (_missing s) a ++ b)))
                    (runP (endOfChunk a true (set_partial true s)))).
      { rewrite markPartial_nonempty, endOfChunk_app by done.
        apply runParser_overflow. }
      destruct (runP (endOfChunk a true (set_partial true s)))
        as [s1|s1|] eqn:Hrun; cbn [mapStep afterParse bindOutcome]; [| |done].
      * destruct (runParser_lock _ s1 H1 H2 H3 H4 H5 H6 H7 H8) as [Hcont _].
        destruct (Hcont Hrun) as (Hpre1 & Hcb1 & Ho1).
        apply resume_app; try done.
        -- intros a0 s0 fa0 Ha0 Hp0 Hf0 Hfa0. now apply IH.
        -- congruence.
        -- pose proof (steps_decrease (a ++ b) true s _
                         (drop (_missing s) a ++ b) (set_cb false s1)
                         Hge0 (or_introl Hrun0) eq_refl eq_refl eq_refl). lia.
        -- intros Hne.
           rewrite <- (markPartial_nonempty a s Ha) in Hrun.
           assert (Hs1 : _overflow s1 = Some (drop (_missing s) a)).
           { rewrite Ho1, Hov. by destruct (drop (_missing s) a). }
           pose proof (steps_decrease a true s s1 _ (set_cb false s1)
                         Hge1 (or_introl Hrun) Hs1 eq_refl eq_refl). lia.
      * destruct (runParser_lock _ s1 H1 H2 H3 H4 H5 H6 H7 H8) as [_ Hret].
        destruct (Hret Hrun) as (Hok1 & Hst1 & Hl1 & Hcb1).
        destruct (runParser_frame _ _ (or_intror Hrun)) as (_ & Ho1 & _).
        change (_stream (set_locked false (logEvent EvAck
                  (set_overflow (Some (drop (_missing s) a ++ b)) s1))))
          with (_stream s1).
        change (_stream (set_locked false (logEvent EvAck s1)))
          with (_stream s1).
        rewrite Hst1.
        change (set_locked false (logEvent EvAck
                  (set_overflow (Some (drop (_missing s) a ++ b)) s1)))
          with (set_overflow (Some (drop (_missing s) a ++ b))
                  (set_locked false (logEvent EvAck s1))).
        apply resume_app; try done.
        -- intros a0 s0 fa0 Ha0 Hp0 Hf0 Hfa0. now apply IH.
        -- now apply ack_lockPre.
        -- change (_overflow s1 = match drop (_missing s) a with
                                   | [] => None | _ => Some (drop (_missing s) a)
                                   end). congruence.
        -- pose proof (steps_decrease (a ++ b) true s _
                         (drop (_missing s) a ++ b)
                         (set_cb false (set_locked false (logEvent EvAck s1)))
                         Hge0 (or_intror Hrun0) eq_refl eq_refl eq_refl). lia.
        -- intros Hne.
           rewrite <- (markPartial_nonempty a s Ha) in Hrun.
           assert (Hs1 : _overflow s1 = Some (drop (_missing s) a)).
           { rewrite Ho1, Hov. by destruct (drop (_missing s) a). }
           pose proof (steps_decrease a true s s1 _
                         (set_cb false (set_locked false (logEvent EvAck s1)))
                         Hge1 (or_intror Hrun) Hs1 eq_refl eq_refl). lia.
Qed.

(** ** Chunks *)

Lemma forward_destroyed d cb s :
  destroyed (drained (forward accept d cb s)) = destroyed s.
Proof.
  unfold drained, forward, logData, callCb.
  open_state s; destruct str; simpl; repeat case_match; simpl in *; done.
Qed.

Lemma endOfChunk_destroyed d cb s : destroyed (endOfChunk d cb s) = destroyed s.
Proof. unfold endOfChunk, logEvent, logData. simpl. by destruct (_stream s). Qed.

Lemma markPartial_destroyed d s : destroyed (markPartial d s) = destroyed s.
Proof. unfold markPartial. by destruct (length d =? 0)%nat. Qed.

(** An error is never taken back. *)
Lemma run_destroyed f d cb s s' :
  runL f d cb s = Done s' -> destroyed s' = None -> destroyed s = None.
Proof.
  revert d cb s. induction f as [|f IH]; intros d cb s H Hd; [done|].
  assert (Hres : forall s1, resume (runL f) s1 = Done s' -> destroyed s1 = None).
  { intros s1 Hr. unfold resume in Hr. cbv zeta in Hr.
    destruct (_overflow (set_cb false s1)) as [o|].
    - exact (IH _ _ _ Hr Hd).
    - injection Hr as <-. revert Hd. unfold callCb. by destruct (_cb s1). }
  cbn [run] in H.
  destruct (length d <? _missing (markPartial d s))%nat.
  - injection H as <-.
    now rewrite forward_destroyed, markPartial_destroyed in Hd.
  - rewrite <- (markPartial_destroyed d s), <- (endOfChunk_destroyed d cb).
    destruct (runParser _ _ _) as [s1|s1|] eqn:Hrun; [| |done].
    + destruct (runParser_frame _ _ (or_introl Hrun)) as (_ & _ & _ & _ & Hm & _).
      apply Hm, Hres, H.
    + destruct (runParser_frame _ _ (or_intror Hrun)) as (_ & _ & _ & _ & Hm & _).
      apply Hm. cbn [afterParse] in H. cbv zeta in H.
      destruct (_stream _).
      * by injection H as <-.
      * exact (Hres _ H).
Qed.

Local Abbreviation feedL := (feed allow ackNow accept).

Lemma push_enabled d s :
  busy s = false -> destroyed s = None ->
  push allow ackNow accept d s = runL (3 * length d + 3) d true (set_busy true s).
Proof. intros Hb Hd. unfold push, enabled. now rewrite Hd, Hb. Qed.

(** Chunk by chunk the engine ends where the whole input takes it. *)
Lemma feed_concat chunks s s1 :
  lockOk s -> idle s -> chunks <> [] -> Forall (fun c => c <> []) chunks ->
  feedL [concat chunks] s = Done s1 -> destroyed s1 = None ->
  feedL chunks s = Done s1.
Proof.
  revert s. induction chunks as [|c rest IH]; intros s Hok Hidle Hne Hall H Hd;
    [done|].
  apply Forall_cons in Hall as [Hc Hrest].
  destruct rest as [|c' rest'].
  { simpl in H |- *. now rewrite app_nil_r in H. }
  assert (HR : concat (c' :: rest') <> []).
  { pose proof (Forall_inv Hrest) as Hc'. simpl in Hc' |- *. by destruct c'. }
  set (rest := c' :: rest') in *.
  destruct Hidle as (Hbusy & Hdrain & Hcb & Hov).
  assert (Hds : destroyed s = None).
  { destruct (destroyed s) eqn:Hds; [|done]. revert H.
    cbn [feed bindOutcome]. unfold push, enabled. rewrite Hds, Hbusy. simpl.
    intros [= <-]. congruence. }
  pose proof (lockOk_write_pre s Hok Hbusy) as Hpre.
  revert H. cbn [feed concat]. rewrite !push_enabled by done.
  rewrite (run_app _ (3 * length c + 3) (3 * length (concat rest) + 3));
    try done; try lia;
    try (unfold stepsNeeded; repeat case_match; lia).
  destruct (runL (3 * length c + 3) c true (set_busy true s)) as [m| |] eqn:Hrun;
    cbn [bindOutcome]; [|done|done].
  destruct (runL (3 * length (concat rest) + 3) _ true (set_busy true m))
    as [s2| |] eqn:Hrun2; cbn [bindOutcome]; [|done|done].
  intros [= ->].
  destruct (run_lock _ _ _ _ Hpre Hrun) as [Hokm Hidlem].
  pose proof (run_destroyed _ _ _ _ _ Hrun2 Hd) as Hdm.
  apply IH; try done.
  cbn [feed]. rewrite push_enabled, Hrun2; [done|apply Hidlem|exact Hdm].
Qed.

(** ** The run loop stays within the engine's reach *)

Lemma lockTrace_entry l : (lockTrace l).1 = true -> existsb isEntry l = true.
Proof.
  induction l as [|e l IH] using rev_ind; [done|].
  rewrite lockTrace_snoc, existsb_app. destruct (lockTrace l) as [aw ok].
  destruct e; simpl in *; intros H; rewrite ?orb_true_r, ?orb_false_r;
    try discriminate; auto.
Qed.

Lemma reach_drained s : reach s -> reach (drained s).
Proof.
  intros Hr. apply (reach_step _ _ _ s Drain); [done|reflexivity|].
  unfold perform, drained. by destruct (waitDrain s).
Qed.

(** What [run] adds to a call of [_write] are actions of the consumer. *)
Lemma run_reach f F d s s' :
  lockPre s -> (stepsNeeded d s < F)%nat ->
  (forall x, writeL F d true s = Done x -> reach x) ->
  runL f d true s = Done s' -> reach s'.
Proof.
  revert F d s. induction f as [|f IH]; intros F d s Hpre HF Hctx H; [done|].
  destruct F as [|F]; [lia|].
  cbn [run] in H. cbn [_write] in Hctx.
  destruct (length d <? _missing (markPartial d s))%nat eqn:Hlt.
  { injection H as <-. apply reach_drained, Hctx. reflexivity. }
  destruct (endOfChunk_lock d s Hpre) as (H1 & H2 & H3 & H4 & H5 & H6 & H7 & H8).
  destruct (runParser _ _ _) as [s1|s1|] eqn:Hrun; [| |done].
  - destruct (runParser_lock _ s1 H1 H2 H3 H4 H5 H6 H7 H8) as [Hcont _].
    destruct (Hcont Hrun) as (Hpre1 & Hcb1 & Ho1).
    cbn [afterParse] in H. unfold resume in H. cbv zeta in H, Hctx.
    rewrite Hcb1 in H, Hctx.
    destruct (_overflow (set_cb false s1)) as [o|] eqn:Ho.
    + apply (IH F o (set_cb false s1)); [done| |exact Hctx|exact H].
      pose proof (steps_decrease d true s s1 o (set_cb false s1) Hlt
                    (or_introl Hrun) Ho eq_refl eq_refl). lia.
    + injection H as <-. now apply Hctx.
  - destruct (runParser_lock _ s1 H1 H2 H3 H4 H5 H6 H7 H8) as [_ Hret].
    destruct (Hret Hrun) as (Hok1 & Hs1 & Hl1 & Hc1).
    assert (Hr1 : reach s1) by now apply Hctx.
    assert (Hen : enabled (Ack false) s1 = true).
    { apply lockTrace_entry. now rewrite (lk_lock _ Hok1), Hl1. }
    assert (Hack : forall x,
      resume (fun o cb => writeL (3 * length o + 3) o cb)
        (set_locked false (logEvent EvAck s1)) = Done x -> reach x).
    { intros x Hx. apply (reach_step _ _ _ s1 (Ack false)); [done|exact Hen|].
      cbn [perform]. cbv zeta.
      change (_stream (set_locked false (logEvent EvAck s1))) with (_stream s1).
      rewrite Hs1. exact Hx. }
    cbn [afterParse] in H. cbv zeta in H.
    change (_stream (set_locked false (logEvent EvAck s1))) with (_stream s1) in H.
    rewrite Hs1 in H. unfold resume in H, Hack. cbv zeta in H, Hack.
    change (_cb (set_locked false (logEvent EvAck s1))) with (_cb s1) in H, Hack.
    rewrite Hc1 in H, Hack.
    destruct (_overflow (set_cb false (set_locked false (logEvent EvAck s1))))
      as [o|] eqn:Ho.
    + apply (IH (3 * length o + 3)%nat o
               (set_cb false (set_locked false (logEvent EvAck s1))));
        [now apply ack_lockPre| |exact Hack|exact H].
      unfold stepsNeeded. repeat case_match; lia.
    + injection H as <-. now apply Hack.
Qed.

(** A chunk pushed leaves the engine in a state it reaches. *)
Lemma push_reach d s s' :
  reach s -> push allow ackNow accept d s = Done s' -> reach s'.
Proof.
  intros Hr. unfold push. destruct (enabled (Write d) s) eqn:Hen; [|congruence].
  pose proof (reachable_lock _ Hr) as Hok.
  assert (Hb : busy s = false).
  { unfold enabled in Hen. by destruct (busy s). }
  apply (run_reach _ (3 * length d + 3)%nat).
  - now apply lockOk_write_pre.
  - unfold stepsNeeded. repeat case_match; lia.
  - intros x Hx. now apply (reach_step _ _ _ s (Write d)).
Qed.

Lemma feed_reach chunks s s' : reach s -> feedL chunks s = Done s' -> reach s'.
Proof.
  revert s. induction chunks as [|c rest IH]; intros s Hr H.
  - by injection H as <-.
  - cbn [feed] in H. destruct (push _ _ _ c s) as [m| |] eqn:Hp; [|done|done].
    apply (IH m); [|exact H]. exact (push_reach _ _ _ Hr Hp).
Qed.
End EngineFacts.

(** * The engine for every size: its invariants *)

Section TotalFacts.
Import Total.
Variable allow : bool.
Variable ackNow : Header -> bool.
Variable accept : jsnum -> Buffer -> bool.
Variable oddSlice : Buffer -> jsnum -> Buffer.
Variable oddConsume : Buffer -> jsnum -> Buffer.

Local Abbreviation runP := (runParser allow ackNow oddSlice oddConsume).
Local Abbreviation writeL := (_write allow ackNow accept oddSlice oddConsume).
Local Abbreviation performA := (perform allow ackNow accept oddSlice oddConsume).
Local Abbreviation reach := (reachable allow ackNow accept oddSlice oddConsume).

(** Unfolding the parse continuations down to field updates. *)
Ltac unfold_parsers :=
  unfold runParser, onheader, emitEntry, awaitBody,
    onpaxglobalheader, onpaxheader, ongnulongpath, ongnulonglinkpath,
    ondrain, onstreamend, unlockNow, destroy, logEvent, bodySize in *.

(** ** The parse cursor *)

(** A parse continuation, started with the partial flag set, leaves the
    cursor in order. *)
Lemma total_runParser_cursor s s' :
  _partial s = true ->
  runP s = Continue s' \/ runP s = Return s' ->
  cursorOk s'.
Proof.
  intros Hp H. unfold_parsers.
  destruct H as [H|H];
    repeat case_match; simplify_eq; simpl in *;
    repeat match goal with
      | H : _ || _ = false |- _ => apply orb_false_elim in H as [? ?]
      | H : (overflow ?sz =? 0)%nat = false |- _ => apply Nat.eqb_neq in H
      end;
    (split; unfold atHeaderBoundary; simpl;
     [ intros; first [by exists 512 | done]
     | split; [intros; first [done | congruence]
              | intros [? ?]; first [done | congruence]]
     | intros Hz; first [done | injection Hz as Hz; lia
                        | rewrite Hz in *; done ] ]).
Qed.

Lemma total_cursorOk_frame s s' :
  _onparse s' = _onparse s -> _missing s' = _missing s ->
  _partial s' = _partial s -> cursorOk s -> cursorOk s'.
Proof.
  intros H1 H2 H3 [Ha Hb Hc]. unfold atHeaderBoundary in *.
  split; unfold atHeaderBoundary; rewrite ?H1, ?H2, ?H3; done.
Qed.

Lemma total_cursorOk_callCb cb s : cursorOk s -> cursorOk (callCb cb s).
Proof. apply total_cursorOk_frame; unfold callCb; destruct cb; done. Qed.

Lemma total_cursorOk_initial : cursorOk initial.
Proof.
  split; unfold atHeaderBoundary; simpl; [intros _; exists 512; split; [done|lia]|done|done].
Qed.

(** With the cursor in order, the partial flag is set when a step
    completes: bytes arrived, or the step was armed with no byte to take. *)
Lemma total_endOfChunk_partial data cb s :
  cursorOk s -> lessThan (length data) (_missing (markPartial data s)) = false ->
  _partial (endOfChunk data cb (markPartial data s)) = true.
Proof.
  intros [Ha Hb Hc] Hlen. unfold endOfChunk, markPartial, logEvent in *.
  destruct (Nat.eqb_spec (length data) 0) as [He|Hne].
  - assert (Hp : _partial s <> false).
    { intros Hf. apply Hb in Hf as [_ Hm]. rewrite Hm, He in Hlen. done. }
    repeat case_match; simpl; by destruct (_partial s).
  - repeat case_match; done.
Qed.

Lemma total_forward_cursor data cb s :
  cursorOk s -> lessThan (length data) (_missing (markPartial data s)) = true ->
  cursorOk (forward accept data cb (markPartial data s)).
Proof.
  intros [Ha Hb Hc] Hlen.
  assert (Hf : forall s0 : State,
    let s1 := forward accept data cb s0 in
    _onparse s1 = _onparse s0 /\ _partial s1 = _partial s0 /\
    _missing s1 = jsSubNat (_missing s0) (length data)).
  { intros s0. unfold forward, callCb, logEvent.
    repeat case_match; simpl; done. }
  destruct (Hf (markPartial data s)) as (H1 & H2 & H3).
  assert (Hm : _missing (markPartial data s) = _missing s)
    by (unfold markPartial; by destruct (_ =? _)%nat).
  assert (Ho : _onparse (markPartial data s) = _onparse s)
    by (unfold markPartial; by destruct (_ =? _)%nat).
  rewrite Hm in *. rewrite Ho in *.
  destruct (_missing s) as [z|] eqn:Hz; [|done].
  simpl in Hlen, H3. apply Z.ltb_lt in Hlen.
  split; unfold atHeaderBoundary; rewrite ?H1, ?H2, ?H3.
  - intros Hh. destruct (Ha Hh) as (m & [= ->] & Hr). eexists; split; [done|lia].
  - unfold markPartial. destruct (Nat.eqb_spec (length data) 0) as [He|Hne].
    + rewrite He, Z.sub_0_r. simpl. rewrite Hb.
      unfold atHeaderBoundary. now rewrite Hz.
    + simpl. split; [done|]. intros [Hh [= Hm']].
      destruct (Ha Hh) as (m & [= ->] & Hr). lia.
  - intros [= Hz']. lia.
Qed.

(** The write loop keeps the cursor in order. *)
Lemma total_write_cursor fuel data cb s s' :
  cursorOk s -> writeL fuel data cb s = Done s' -> cursorOk s'.
Proof.
  revert data cb s. induction fuel as [|fuel IH]; intros data cb s Hok H; [done|].
  simpl in H.
  destruct (lessThan (length data) (_missing (markPartial data s))) eqn:Hlt.
  - injection H as <-. now apply total_forward_cursor.
  - pose proof (total_endOfChunk_partial data cb s Hok Hlt) as Hp.
    destruct (runParser _ _ _ _ _) as [s1|s1] eqn:Hrun.
    + pose proof (total_runParser_cursor _ _ Hp (or_introl Hrun)) as Hok1.
      assert (Hok2 : cursorOk (set_cb false s1))
        by (revert Hok1; apply total_cursorOk_frame; done).
      destruct (_overflow s1) as [o|].
      * eapply IH; eauto.
      * injection H as <-. now apply total_cursorOk_callCb.
    + injection H as <-. exact (total_runParser_cursor _ _ Hp (or_intror Hrun)).
Qed.

Lemma total_perform_cursor a s s' :
  cursorOk s -> performA a s = Done s' -> cursorOk s'.
Proof.
  intros Hok H. destruct a as [chunk|err|]; simpl in H.
  - eapply total_write_cursor; [|exact H]. revert Hok.
    apply total_cursorOk_frame; done.
  - assert (Hok1 : cursorOk (set_locked false (logEvent EvAck s)))
      by (revert Hok; apply total_cursorOk_frame; done).
    destruct err.
    + injection H as <-. revert Hok1. apply total_cursorOk_frame; unfold destroy;
        by destruct (destroyed _).
    + destruct (_stream _); [by injection H as <-|].
      unfold _continue in H.
      destruct (_overflow _) as [o|].
      * eapply total_write_cursor; [|exact H]. revert Hok1.
        apply total_cursorOk_frame; done.
      * injection H as <-. apply total_cursorOk_callCb.
        revert Hok1. apply total_cursorOk_frame; done.
  - destruct (waitDrain s) as [cb|]; injection H as <-; [|done].
    apply total_cursorOk_callCb. revert Hok. apply total_cursorOk_frame; done.
Qed.

(** The cursor is in order in every state the engine reaches. *)
Lemma total_reachable_cursor s : reach s -> cursorOk s.
Proof.
  induction 1 as [|s a s' _ IH _ Hstep]; [apply total_cursorOk_initial|].
  eapply total_perform_cursor; eauto.
Qed.

(** ** The single-entry lock *)

Lemma total_lockTrace_snoc l e : lockTrace (l ++ [e]) = lockStep (lockTrace l) e.
Proof. unfold lockTrace. now rewrite fold_left_app. Qed.

Lemma total_sourceTrace_snoc l e :
  sourceTrace (l ++ [e]) = sourceStep (sourceTrace l) e.
Proof. unfold sourceTrace. now rewrite fold_left_app. Qed.

Ltac lock_fields Hlk Hsrc :=
  unfold openCount, _parse; simpl;
  rewrite ?total_lockTrace_snoc, ?total_sourceTrace_snoc, ?Hlk, ?Hsrc; simpl;
  first [ done | congruence
        | repeat (apply Forall_app; split); try done;
          repeat constructor; simpl; first [done | congruence] ].

(** A parse continuation that starts with the chunk callback held, no
    source open in the log and no lock without a source, keeps the lock's
    invariant: it continues into the next call of [_write], or it returns
    with the engine locked and the callback still held. *)
Lemma total_runParser_lock e s1 :
  _cb e = true -> busy e = true -> waitDrain e = None ->
  lockTrace (log e) = (_locked e, true) ->
  sourceTrace (log e) = (O, true) ->
  Forall entryShape (log e) ->
  (_stream e <> None -> _onparse e = OnStreamEnd) ->
  (_locked e = true -> _stream e <> None) ->
  (runP e = Continue s1 ->
     lockPre (set_cb false s1) /\ _cb s1 = true /\ _overflow s1 = _overflow e) /\
  (runP e = Return s1 ->
     lockOk s1 /\ _stream s1 = None /\ _locked s1 = true /\ _cb s1 = true).
Proof.
  intros Hcb Hbusy Hdrain Hlk Hsrc Hshape Hstream Hlocked.
  assert (Hcases : (_stream e = None /\ _locked e = false) \/
                   (_stream e <> None /\ _onparse e = OnStreamEnd)).
  { destruct (_stream e) eqn:Hs; [right; split; [done|by apply Hstream]|left].
    split; [done|]. destruct (_locked e); [|done]. by destruct Hlocked. }
  clear Hstream Hlocked.
  split; intros H; unfold_parsers;
    repeat case_match; simplify_eq; simpl in *;
    destruct Hcases as [[Hs Hl]|[Hs Ho]]; try congruence;
    try rewrite Hl in *;
    repeat split; unfold openCount, _parse; simpl; try rewrite Hs;
    lock_fields Hlk Hsrc.
Qed.

Lemma total_forward_lock data s :
  lockPre s -> lockOk (forward accept data true (markPartial data s)).
Proof.
  intros [Hlk Hsrc Hshape Hstream Hunl Hcb Hbusy Hdrain].
  unfold forward, logEvent, callCb, markPartial, openCount in *.
  destruct (_stream s) as [src|] eqn:Hs;
    destruct (length data =? 0)%nat; simpl in *; rewrite ?Hs in *; simpl in *;
    repeat case_match; split; unfold openCount; simpl; rewrite ?Hs;
    rewrite ?total_lockTrace_snoc, ?total_sourceTrace_snoc, ?Hlk, ?Hsrc;
    try done; try (apply Forall_app; split; [done|by repeat constructor]);
    try (intros ?; exfalso; by apply Hunl); try congruence.
Qed.

Lemma total_endOfChunk_lock data s :
  lockPre s ->
  let e := endOfChunk data true (markPartial data s) in
  _cb e = true /\ busy e = true /\ waitDrain e = None /\
  lockTrace (log e) = (_locked e, true) /\
  sourceTrace (log e) = (O, true) /\
  Forall entryShape (log e) /\
  (_stream e <> None -> _onparse e = OnStreamEnd) /\
  (_locked e = true -> _stream e <> None).
Proof.
  intros [Hlk Hsrc Hshape Hstream Hunl Hcb Hbusy Hdrain].
  unfold endOfChunk, markPartial, logEvent, openCount in *.
  destruct (_stream s) as [src|] eqn:Hs;
    destruct (length data =? 0)%nat; simpl in *; rewrite ?Hs in *; simpl in *;
    rewrite ?total_lockTrace_snoc, ?total_sourceTrace_snoc, ?Hlk, ?Hsrc;
    repeat split; try done;
    try (repeat (apply Forall_app; split); first [done|by repeat constructor]);
    try (rewrite Hs; assumption).
Qed.

Lemma total_lockPre_done s :
  lockPre s -> _overflow s = None -> lockOk (callCb true s).
Proof.
  intros [Hlk Hsrc Hshape Hstream Hunl Hcb Hbusy Hdrain] Ho.
  split; unfold openCount in *; simpl; try done; try congruence.
  intros Hl Hs. exfalso. by apply Hunl.
Qed.

(** The write loop, entered with the chunk callback, keeps the lock. *)
Lemma total_write_lock fuel data s s' :
  lockPre s -> writeL fuel data true s = Done s' -> lockOk s'.
Proof.
  revert data s. induction fuel as [|fuel IH]; intros data s Hpre H; [done|].
  cbn [_write] in H.
  destruct (lessThan (length data) (_missing (markPartial data s))).
  - injection H as <-. now apply total_forward_lock.
  - destruct (total_endOfChunk_lock data s Hpre)
      as (H1 & H2 & H3 & H4 & H5 & H6 & H7 & H8).
    destruct (runParser _ _ _ _ _) as [s1|s1] eqn:Hrun.
    + destruct (total_runParser_lock _ s1 H1 H2 H3 H4 H5 H6 H7 H8) as [Hcont _].
      destruct (Hcont Hrun) as (Hpre1 & Hcb1 & _).
      rewrite Hcb1 in H.
      destruct (_overflow (set_cb false s1)) as [o|] eqn:Ho.
      * eapply IH; eauto.
      * injection H as <-. now apply total_lockPre_done.
    + injection H as <-.
      destruct (total_runParser_lock _ s1 H1 H2 H3 H4 H5 H6 H7 H8) as [_ Hret].
      now apply Hret.
Qed.

Lemma total_lockOk_initial : lockOk initial.
Proof. split; simpl; try done. Qed.

(** No chunk is handed over while the engine is locked without a source. *)
Lemma total_lockOk_write_disabled s chunk :
  lockOk s -> _locked s = true -> _stream s = None ->
  enabled (Write chunk) s = false.
Proof.
  intros Hok Hl Hs. simpl.
  rewrite (lk_cb _ Hok (lk_stalled _ Hok Hl Hs)). done.
Qed.

Lemma total_lockOk_write_pre s :
  lockOk s -> busy s = false -> lockPre (set_busy true s).
Proof.
  intros [Hlk Hsrc Hshape Hstream Hst Hcb Hov Hdr] Hb.
  assert (Hcb0 : _cb s = false).
  { destruct (_cb s); [|done]. rewrite Hcb in Hb; done. }
  split; unfold openCount in *; simpl; try done.
  - intros Hl Hs. specialize (Hst Hl Hs). congruence.
  - destruct (waitDrain s) eqn:Hw; [|done].
    destruct Hdr as [_ Hdr]; [done|congruence].
Qed.

Lemma total_perform_lock a s s' :
  lockOk s -> enabled a s = true -> performA a s = Done s' -> lockOk s'.
Proof.
  intros Hok Hen H. destruct a as [chunk|err|].
  - simpl in H, Hen.
    apply andb_true_iff in Hen as [Hb _]. apply negb_true_iff in Hb.
    eapply total_write_lock; [|exact H]. now apply total_lockOk_write_pre.
  - destruct Hok as [Hlk Hsrc Hshape Hstream Hst Hcb Hov Hdr].
    change (performA (Ack err) s) with
      (let s1 := set_locked false (logEvent EvAck s) in
       if err then Done (destroy ConsumerError s1)
       else match _stream s1 with
            | None => _continue allow ackNow accept oddSlice oddConsume s1
            | Some _ => Done s1
            end) in H.
    cbv zeta in H.
    set (s1 := set_locked false (logEvent EvAck s)) in *.
    assert (Hok1 : lockOk s1).
    { split; unfold s1, logEvent, openCount in *; simpl;
        rewrite ?total_lockTrace_snoc, ?total_sourceTrace_snoc, ?Hlk, ?Hsrc;
        try done.
      apply Forall_app. split; [done|by repeat constructor]. }
    assert (Hl1 : _locked s1 = false) by done.
    clearbody s1. clear Hlk Hsrc Hshape Hstream Hst Hcb Hov Hdr Hen.
    destruct err.
    + injection H as <-. destruct Hok1. unfold destroy.
      destruct (destroyed s1); [by split|]. split; done.
    + destruct (_stream s1) eqn:Hs1; [by injection H as <-|].
      unfold _continue in H.
      destruct Hok1 as [Hlk1 Hsrc1 Hshape1 Hstream1 Hst1 Hcb1 Hov1 Hdr1].
      change (_overflow (set_cb false s1)) with (_overflow s1) in H.
      destruct (_overflow s1) as [o|] eqn:Ho.
      * assert (Hc : _cb s1 = true).
        { destruct (_cb s1) eqn:Hc; [done|]. specialize (Hov1 eq_refl). congruence. }
        rewrite Hc in H. eapply total_write_lock; [|exact H].
        split; unfold openCount in *; simpl; try done.
        -- intros; congruence.
        -- by apply Hcb1.
        -- destruct (waitDrain s1) eqn:Hw; [|done].
           destruct Hdr1 as [Hd _]; [first [done|by rewrite Hw]|first [congruence|done]].
      * injection H as <-. unfold callCb.
        destruct (_cb s1) eqn:Hc; split; unfold openCount in *; simpl;
          try done; try congruence.
        intros Hw. destruct (Hdr1 Hw) as [? _]. done.
  - simpl in H.
    destruct Hok as [Hlk Hsrc Hshape Hstream Hst Hcb Hov Hdr].
    destruct (waitDrain s) as [cb|] eqn:Hw; injection H as <-.
    + destruct Hdr as [Hc Hb]; [done|].
      unfold callCb. destruct cb; split; unfold openCount in *; simpl;
        try done; try congruence.
    + split; done.
Qed.

(** The lock's invariant holds in every state the engine reaches. *)
Lemma total_reachable_lock s : reach s -> lockOk s.
Proof.
  induction 1 as [|s a s' _ IH Hen Hstep]; [apply total_lockOk_initial|].
  eapply total_perform_lock; eauto.
Qed.

(** ** The calls come to an end *)

(** What a parse continuation arms: a header step has all of its 512
    bytes missing, and after any other step than a header at least one
    byte is missing. The overflow is left alone. *)
Lemma total_runParser_frame s s' :
  runP s = Continue s' \/ runP s = Return s' ->
  _overflow s' = _overflow s /\
  (_onparse s' = OnHeader -> _missing s' = JNum 512) /\
  (_onparse s <> OnHeader -> takesBytes (_missing s') = true).
Proof.
  intros H. unfold_parsers.
  destruct H as [H|H];
    repeat case_match; simplify_eq; unfold _parse; simpl in *;
    repeat match goal with
      | H : (overflow ?sz =? 0)%nat = false |- _ => apply Nat.eqb_neq in H
      end;
    repeat split; intros; first [done | congruence | apply Z.ltb_lt; lia].
Qed.

Lemma total_markPartial_fields d s :
  _missing (markPartial d s) = _missing s /\
  _onparse (markPartial d s) = _onparse s.
Proof. unfold markPartial. by destruct (length d =? 0)%nat. Qed.

Lemma total_endOfChunk_fields d cb s :
  _overflow (endOfChunk d cb s)
  = (if moreThan (length d) (_missing s)
     then Some (drop (cutAt (length d) (_missing s)) d) else None) /\
  _onparse (endOfChunk d cb s) = _onparse s.
Proof. unfold endOfChunk, logEvent. simpl. by destruct (_stream s). Qed.

(** What is left over after a parse step needs fewer calls. *)
Lemma total_steps_decrease d cb s s1 o s2 :
  runP (endOfChunk d cb (markPartial d s)) = Continue s1 \/
  runP (endOfChunk d cb (markPartial d s)) = Return s1 ->
  _overflow s1 = Some o ->
  _missing s2 = _missing s1 -> _onparse s2 = _onparse s1 ->
  (stepsNeeded o s2 < stepsNeeded d s)%nat.
Proof.
  intros Hrun Ho Hm Hp.
  destruct (total_runParser_frame _ _ Hrun) as (Hov & Hhead & Hbody).
  destruct (total_endOfChunk_fields d cb (markPartial d s)) as [Hov' Hp'].
  destruct (total_markPartial_fields d s) as [Hm0 Hp0].
  rewrite Hm0 in *. rewrite Hp', Hp0 in Hbody. rewrite Hov', Ho in Hov.
  unfold stepsNeeded. rewrite Hm, Hp.
  assert (Hw : ((if takesBytes (_missing s1) then 0
                 else if decide (_onparse s1 = OnHeader) then 2 else 1) <= 2)%nat)
    by (repeat case_match; lia).
  destruct (_missing s) as [z|] eqn:Hz; [|done].
  simpl in Hov. destruct (Z.ltb_spec z (Z.of_nat (length d))) as [Hlt|]; [|done].
  injection Hov as ->. rewrite length_drop. simpl.
  destruct (Z.ltb_spec 0 z) as [Hpos|Hnp].
  - destruct (Z.ltb_spec z 0); lia.
  - destruct (Z.ltb_spec z 0) as [Hneg|Hzero].
    + destruct (decide (Z.of_nat (length d) + z <= 0)) as [Hle|Hgt].
      * rewrite Z.max_r by lia. simpl. rewrite Nat.sub_0_r.
        destruct (decide (_onparse s = OnHeader)) as [Hh|Hh].
        -- destruct (decide (_onparse s1 = OnHeader)) as [Hh1|Hh1].
           ++ rewrite (Hhead Hh1). simpl. lia.
           ++ destruct (takesBytes _); lia.
        -- rewrite (Hbody Hh). lia.
      * destruct (decide (_onparse s = OnHeader)); lia.
    + assert (z = 0) as -> by lia. simpl. rewrite Nat.sub_0_r.
      destruct (decide (_onparse s = OnHeader)) as [Hh|Hh].
      * destruct (decide (_onparse s1 = OnHeader)) as [Hh1|Hh1].
        -- rewrite (Hhead Hh1). simpl. lia.
        -- destruct (takesBytes _); lia.
      * rewrite (Hbody Hh). lia.
Qed.

Lemma total_write_fuel f d cb s :
  (stepsNeeded d s < f)%nat -> writeL f d cb s <> OutOfFuel.
Proof.
  revert d cb s. induction f as [|f IH]; intros d cb s Hf; [lia|].
  cbn [_write].
  destruct (lessThan (length d) (_missing (markPartial d s))) eqn:Hlt; [done|].
  destruct (runParser _ _ _ _ _) as [s1|s1] eqn:Hrun; [|done].
  cbv zeta. destruct (_overflow (set_cb false s1)) as [o|] eqn:Ho; [|done].
  apply IH.
  pose proof (total_steps_decrease d cb s s1 o (set_cb false s1)
                (or_introl Hrun) Ho eq_refl eq_refl). lia.
Qed.

Lemma total_stepsNeeded_bound d s : (stepsNeeded d s < 3 * length d + 3)%nat.
Proof. unfold stepsNeeded. repeat case_match; lia. Qed.

(** Every action of the engine returns. *)
Lemma total_perform_returns a s : exists s', performA a s = Done s'.
Proof.
  assert (Hw : forall d cb s0, exists s',
            writeL (3 * length d + 3) d cb s0 = Done s').
  { intros d cb s0.
    pose proof (total_write_fuel _ d cb s0 (total_stepsNeeded_bound d s0)) as Hne.
    destruct (_write _ _ _ _ _ _ _ _ _) as [s'|]; [by exists s'|done]. }
  destruct a as [d|err|]; cbn [perform].
  - apply Hw.
  - cbv zeta. destruct err; [by eexists|]. destruct (_stream _); [by eexists|].
    unfold _continue. destruct (_overflow _); [apply Hw|by eexists].
  - destruct (waitDrain s); by eexists.
Qed.
End TotalFacts.

(** * Claims about the extraction engine *)

(** C5, as stated, fails: after the block of a PAX header that declares an
    empty body the engine is idle with no byte missing, and [_final] still
    reports "Unexpected end of data": the partial flag alone decides. *)
Lemma final_fails_with_nothing_missing :
  reachable false lateAck alwaysAccept afterEmptyPax /\
  busy afterEmptyPax = false /\
  _missing afterEmptyPax = O /\
  _partial afterEmptyPax = true /\
  _final afterEmptyPax = Some UnexpectedEndOfData.
Proof.
  split; [|repeat split; vm_compute; reflexivity].
  apply (reach_step _ _ _ initial (Write emptyPaxBlock)).
  - apply reach_initial.
  - reflexivity.
  - vm_compute. reflexivity.
Qed.

(** C5, amended. In every state the engine reaches, whatever sizes the
    headers it met have stated, [_final] fails with "Unexpected end of
    data" exactly when the partial flag is set, and that is exactly when
    the engine is not at a header boundary (a header step armed, none of
    its 512 bytes received). The count of missing bytes is then not zero,
    except while the empty body of an extended header is pending. Every
    action on such a state returns. With the sample consumer: the archive
    cut inside its content fails this way, and the completely delivered
    and acknowledged archive finalizes. *)
Theorem final_unexpected_end allow ackNow accept oddSlice oddConsume s :
  Total.reachable allow ackNow accept oddSlice oddConsume s ->
  (Total._final s = Some UnexpectedEndOfData <-> Total._partial s = true) /\
  (Total._final s = None <-> Total.atHeaderBoundary s) /\
  (Total._final s <> None -> Total._missing s = JNum 0 ->
   isBodyParser (Total._onparse s) = true) /\
  (forall a, exists s',
     Total.perform allow ackNow accept oddSlice oddConsume a s = Total.Done s') /\
  (exists s1,
     Total.perform false lateAck acceptAll sliceNothing consumeNothing
       (Write helloTruncated) Total.initial = Total.Done s1 /\
     Total._final s1 = Some UnexpectedEndOfData) /\
  (exists s2 s3,
     Total.perform false lateAck acceptAll sliceNothing consumeNothing
       (Write helloArchive) Total.initial = Total.Done s2 /\
     Total.perform false lateAck acceptAll sliceNothing consumeNothing
       (Ack false) s2 = Total.Done s3 /\
     Total._final s3 = None).
Proof.
  intros Hr.
  pose proof (total_reachable_cursor _ _ _ _ _ _ Hr) as [Ha Hb Hc].
  unfold Total._final.
  split; [destruct (Total._partial s); split; congruence|].
  split.
  { rewrite <- Hb. destruct (Total._partial s); split; congruence. }
  split; [intros _; exact Hc|].
  split; [intros a; apply total_perform_returns|].
  split.
  - eexists. split; [vm_compute; reflexivity|reflexivity].
  - eexists. eexists. split; [vm_compute; reflexivity|].
    split; [vm_compute; reflexivity|reflexivity].
Qed.

Lemma total_reach_afterNaNSize :
  Total.reachable false lateAck acceptAll sliceNothing consumeNothing afterNaNSize.
Proof.
  apply (Total.reach_step _ _ _ _ _ Total.initial
           (Write (sizedBlock 120 notANumber))).
  - apply Total.reach_initial.
  - reflexivity.
  - vm_compute. reflexivity.
Qed.

Lemma final_unexpected_end_witness :
  Total._missing afterNaNSize = JNaN /\
  Total._final afterNaNSize = Some UnexpectedEndOfData /\
  (Total._final afterNaNSize = None <-> Total.atHeaderBoundary afterNaNSize) /\
  forall a, exists s',
    Total.perform false lateAck acceptAll sliceNothing consumeNothing a
      afterNaNSize = Total.Done s'.
Proof.
  destruct (final_unexpected_end false lateAck acceptAll sliceNothing
              consumeNothing afterNaNSize total_reach_afterNaNSize)
    as (_ & H2 & _ & H4 & _).
  split; [reflexivity|]. split; [reflexivity|]. split; [exact H2|exact H4].
Defined.

(** C3. In every state the engine reaches, whatever sizes the headers it
    met have stated: the log never shows an entry emitted while a source
    was open, so at most one source is open, the one in [_stream]; no
    header was decoded between the emission of an entry and the invocation
    of the acknowledgment callback; the engine is locked exactly while the
    last entry waits for that; entries of size zero and directories come
    with an ended source and lock the engine like the others; while the
    engine is locked with no source open the writable cannot hand over a
    chunk, so that only the acknowledgment lets the parse proceed; and
    every action on such a state returns. *)
Theorem single_entry_lock allow ackNow accept oddSlice oddConsume s :
  Total.reachable allow ackNow accept oddSlice oddConsume s ->
  Total.oneSourceAtATime (Total.log s) = true /\
  Total.openSources (Total.log s) = Total.openCount s /\
  (Total.openSources (Total.log s) <= 1)%nat /\
  Total.lockRespected (Total.log s) = true /\
  Total.awaitingAck (Total.log s) = Total._locked s /\
  Forall Total.entryShape (Total.log s) /\
  (Total._locked s = true -> Total._stream s = None ->
   forall chunk, Total.enabled (Write chunk) s = false) /\
  (forall a, exists s',
     Total.perform allow ackNow accept oddSlice oddConsume a s = Total.Done s').
Proof.
  intros Hr. pose proof (total_reachable_lock _ _ _ _ _ _ Hr) as Hok.
  pose proof Hok as [Hlk Hsrc Hshape Hstream Hst Hcb Hov Hdr].
  unfold Total.oneSourceAtATime, Total.openSources, Total.lockRespected,
    Total.awaitingAck.
  rewrite Hlk, Hsrc. cbn [fst snd].
  split; [done|]. split; [done|].
  split; [unfold Total.openCount; destruct (Total._stream s); lia|].
  split; [done|]. split; [done|]. split; [done|]. split.
  - intros Hl Hs chunk. now apply total_lockOk_write_disabled.
  - intros a. apply total_perform_returns.
Qed.

Lemma total_reach_afterNegativeSize :
  Total.reachable false lateAck acceptAll sliceNothing consumeNothing
    afterNegativeSize.
Proof.
  apply (Total.reach_step _ _ _ _ _ Total.initial
           (Write (sizedBlock 48 minusFour ++ bytesOf "abcdefgh"))).
  - apply Total.reach_initial.
  - reflexivity.
  - vm_compute. reflexivity.
Qed.

Lemma single_entry_lock_witness :
  Total._missing afterNegativeSize = JNum 4 /\
  Total.oneSourceAtATime (Total.log afterNegativeSize) = true /\
  Total.lockRespected (Total.log afterNegativeSize) = true /\
  Total.awaitingAck (Total.log afterNegativeSize) = true /\
  (forall chunk, Total.enabled (Write chunk) afterNegativeSize = false) /\
  exists s',
    Total.perform false lateAck acceptAll sliceNothing consumeNothing
      (Ack false) afterNegativeSize = Total.Done s'.
Proof.
  destruct (single_entry_lock false lateAck acceptAll sliceNothing
              consumeNothing afterNegativeSize total_reach_afterNegativeSize)
    as (H1 & _ & _ & H4 & H5 & _ & H7 & H8).
  split; [reflexivity|]. split; [exact H1|]. split; [exact H4|].
  split; [exact H5|]. split; [apply H7; reflexivity|apply H8].
Defined.

(** The header of size -4 of the example: the source is given the first
    four of the eight bytes that follow and is ended, the other four are
    taken for padding once the entry is acknowledged, and the engine is
    back at a header boundary. *)
Example negative_size_entry :
  (exists h, Total.log afterNegativeSize
     = [Total.EvDecode (JNum 512); Total.EvEntry h (JNum 512) false;
        Total.EvData (bytesOf "abcd"); Total.EvEnd] /\
     h_size (hdr h) = JNum (-4)) /\
  Total._overflow afterNegativeSize = Some (bytesOf "efgh") /\
  exists s,
    Total.perform false lateAck acceptAll sliceNothing consumeNothing
      (Ack false) afterNegativeSize = Total.Done s /\
    Total.atHeaderBoundary s /\ Total._buffer s = [] /\
    Total._offset s = JNum 1024.
Proof.
  split; [eexists; split; [vm_compute; reflexivity|reflexivity]|].
  split; [vm_compute; reflexivity|].
  eexists. split; [vm_compute; reflexivity|]. by repeat split.
Qed.

(** The directory entry of the specification: it is emitted with an ended
    source, the engine is locked and takes no chunk; the acknowledgment
    unlocks it and frees the writable. *)
Example directory_entry_waits_for_ack :
  (exists h, log afterDirEntry = [EvDecode 512; EvEntry h 512 true] /\
     h_name (hdr h) = "dir/"%string /\
     h_type (hdr h) = Some "directory"%string) /\
  _locked afterDirEntry = true /\ _stream afterDirEntry = None /\
  enabled (Write helloBlock) afterDirEntry = false /\
  exists s, perform false lateAck alwaysAccept (Ack false) afterDirEntry = Done s /\
    _locked s = false /\ enabled (Write helloBlock) s = true.
Proof.
  split; [eexists; split; [vm_compute; reflexivity|split; reflexivity]|].
  do 3 (split; [vm_compute; reflexivity|]).
  eexists. split; [vm_compute; reflexivity|]. split; reflexivity.
Qed.

(** C2. Take an input cut into consecutive non-empty chunks, at any byte
    positions, and a consumer that acknowledges each entry (at once or when
    the engine waits for it) and drains its source when asked. If the engine,
    given the whole input as one chunk, runs to the end of it without an
    error, then given the chunks one after the other it ends in the very
    same state: the same log of decoded headers, entries, content bytes and
    acknowledgments, hence the same sequence of (header, content) pairs, and
    the same answer of [_final]. That state is one the engine reaches by
    chunk writes, acknowledgments and drain events. *)
Theorem streaming_equivalence allow ackNow accept chunks s1 :
  chunks <> [] -> Forall (fun c => c <> []) chunks ->
  feed allow ackNow accept [concat chunks] initial = Done s1 ->
  destroyed s1 = None ->
  exists s2, feed allow ackNow accept chunks initial = Done s2 /\
    reachable allow ackNow accept s2 /\
    entries s2 = entries s1 /\ log s2 = log s1 /\ _final s2 = _final s1.
Proof.
  intros Hne Hall H Hd.
  assert (Hfeed : feed allow ackNow accept chunks initial = Done s1).
  { apply feed_concat; first [done | apply lockOk_initial | by repeat split]. }
  exists s1. split; [exact Hfeed|]. split; [|done].
  apply (feed_reach _ _ _ chunks initial); [apply reach_initial|exact Hfeed].
Qed.

Lemma streaming_equivalence_witness :
  exists s2, feed false lateAck alwaysAccept helloChunks initial = Done s2 /\
    reachable false lateAck alwaysAccept s2 /\
    entries s2 = entries helloParsed /\ log s2 = log helloParsed /\
    _final s2 = _final helloParsed.
Proof.
  apply (streaming_equivalence false lateAck alwaysAccept helloChunks helloParsed).
  - discriminate.
  - repeat constructor; vm_compute; discriminate.
  - vm_compute. reflexivity.
  - vm_compute. reflexivity.
Defined.

(** The entries of the example archive, whole or in chunks. *)
Example hello_entries :
  map (fun e => (h_name (hdr e.1), h_size (hdr e.1), strOf e.2))
    (entries (stateOf (feed false lateAck alwaysAccept helloChunks initial)))
  = [("hello.txt"%string, JNum 5, "world"%string)] /\
  entries helloParsed
  = entries (stateOf (feed false lateAck alwaysAccept helloChunks initial)).
Proof. split; vm_compute; reflexivity. Qed.

(** * Further properties of the header codec *)

(** ** Type names and flags *)

(** X1. The nine type names [encode] knows come back from the flag it
    writes for them; every other type, and a missing one, is written as
    flag 0 and so comes back as "file". The other way round, a flag
    survives [toType] followed by [toTypeflag] exactly when it is one of
    0..7 and 72: the flags of "pax-global-header" (55), "gnu-long-link-path"
    (27) and "gnu-long-path" (28, 30) are read but never written. *)
Theorem type_flag_roundtrip :
  (forall t : string,
     t ∈ ["file"; "link"; "symlink"; "character-device"; "block-device";
          "directory"; "fifo"; "contiguous-file"; "pax-header"]%string ->
     toType (toTypeflag (Some t)) = Some t) /\
  (forall t : string,
     t ∉ ["file"; "link"; "symlink"; "character-device"; "block-device";
          "directory"; "fifo"; "contiguous-file"; "pax-header"]%string ->
     toTypeflag (Some t) = 0) /\
  toTypeflag None = 0 /\ toType 0 = Some "file"%string /\
  (forall f : Z,
     toTypeflag (toType f) = f <-> f ∈ [0; 1; 2; 3; 4; 5; 6; 7; 72]) /\
  (forall f : Z, f ∈ [55; 27; 28; 30] -> toType f <> None /\ toTypeflag (toType f) = 0).
Proof.
  split; [|split; [|split; [done|split; [done|split]]]].
  - intros t Ht. repeat (apply elem_of_cons in Ht as [->|Ht]; [reflexivity|]).
    by apply elem_of_nil in Ht.
  - intros t Ht. unfold toTypeflag.
    repeat match goal with
    | |- context [String.eqb t ?s] =>
        destruct (String.eqb_spec t s) as [->|_];
        [exfalso; apply Ht; by repeat constructor|]
    end. reflexivity.
  - intros f. split.
    + unfold toType.
      repeat match goal with
      | |- context [?a =? ?b] =>
          destruct (Z.eqb_spec a b) as [->|?];
          [vm_compute; first [intros _; by repeat constructor | discriminate]|]
      end.
      simpl. intros <-. done.
    + intros Hf. repeat (apply elem_of_cons in Hf as [->|Hf]; [reflexivity|]).
      by apply elem_of_nil in Hf.
  - intros f Hf. repeat (apply elem_of_cons in Hf as [->|Hf]; [by split|]).
    by apply elem_of_nil in Hf.
Qed.

(** ** Searching a block *)

Lemma indexOfLoop_sound block num (n off : nat) :
  (off <= indexOfLoop block num off n <= off + n)%nat /\
  (forall j, (off <= j < indexOfLoop block num off n)%nat ->
             byteAt block j <> Some num) /\
  (indexOfLoop block num off n = (off + n)%nat \/
   byteAt block (indexOfLoop block num off n) = Some num).
Proof.
  revert off. induction n as [|n IH]; intros off; simpl.
  { split; [lia|]. split; [intros j; lia|left; lia]. }
  destruct (IH (S off)) as (Hr & Hno & Hend).
  assert (Hstep : byteAt block off <> Some num ->
    (off <= indexOfLoop block num (S off) n <= off + S n)%nat /\
    (forall j, (off <= j < indexOfLoop block num (S off) n)%nat ->
               byteAt block j <> Some num) /\
    (indexOfLoop block num (S off) n = (off + S n)%nat \/
     byteAt block (indexOfLoop block num (S off) n) = Some num)).
  { intros Hne. split; [lia|]. split.
    - intros j Hj. destruct (decide (j = off)) as [->|]; [done|]. apply Hno. lia.
    - destruct Hend as [->|Hend]; [left; lia|by right]. }
  destruct (byteAt block off) as [v|] eqn:Hv; [|by apply Hstep].
  destruct (Z.eqb_spec v num) as [->|Hne].
  - split; [lia|]. split; [intros j; lia|by right].
  - apply Hstep. congruence.
Qed.

(** X2. [indexOf(block, num, offset, end)] is the first position from
    [offset] on, below [end], whose byte is [num], and [end] when there is
    none (positions past the end of the block hold no byte). When [offset]
    is not below [end] the result is [end]. *)
Theorem indexOf_first_occurrence block num (off e : nat) :
  (off <= e)%nat ->
  (off <= indexOf block num off e <= e)%nat /\
  (forall j, (off <= j < indexOf block num off e)%nat ->
             byteAt block j <> Some num) /\
  (indexOf block num off e = e \/
   byteAt block (indexOf block num off e) = Some num).
Proof.
  intros Hle. unfold indexOf. destruct (Nat.ltb_spec off e) as [Hlt|Hge].
  - destruct (indexOfLoop_sound block num (e - off) off) as (Hr & Hno & Hend).
    split; [lia|]. split; [exact Hno|].
    destruct Hend as [->|Hend]; [left; lia|by right].
  - split; [lia|]. split; [intros j; lia|by left].
Qed.

Lemma indexOf_first_occurrence_witness :
  (2 <= indexOf (bytesOf "ab c d") 32 2 6 <= 6)%nat /\
  (forall j, (2 <= j < indexOf (bytesOf "ab c d") 32 2 6)%nat ->
             byteAt (bytesOf "ab c d") j <> Some 32) /\
  (indexOf (bytesOf "ab c d") 32 2 6 = 6%nat \/
   byteAt (bytesOf "ab c d") (indexOf (bytesOf "ab c d") 32 2 6) = Some 32).
Proof. apply (indexOf_first_occurrence (bytesOf "ab c d") 32 2 6). lia. Defined.

(** ** The checksum *)

(** X3. The checksum does not depend on the eight bytes of its own field,
    and always fits the six octal digits [encode] gives it. So stamping any
    512-byte block with its checksum, as the last line of [encode] does,
    gives a block whose checksum field reads back as the checksum of the
    stamped block: the test [decode] applies. *)
Theorem cksum_stamp_verifies block :
  length block = 512%nat ->
  256 <= cksum block < 8 ^ 6 /\
  (forall field, (length field <= 8)%nat ->
     cksum (write block field 148) = cksum block) /\
  decodeOct (write block (encodeOct (cksum block) 6) 148) 148 8
  = Some (JNum (cksum (write block (encodeOct (cksum block) 6) 148))).
Proof.
  intros Hlen.
  assert (Hfield : forall field, (length field <= 8)%nat ->
            cksum (write block field 148) = cksum block).
  { intros field Hf. unfold cksum.
    rewrite !slice_write_other by lia. reflexivity. }
  split; [apply cksum_bounds|]. split; [exact Hfield|].
  pose proof (cksum_bounds block) as Hb.
  assert (Hl : length (encodeOct (cksum block) 6) = 7%nat)
    by (apply length_encodeOct; lia).
  rewrite Hfield by lia.
  apply (decodeOct_written _ 148 8 (cksum block) 6 (slice block 155 156));
    [|lia|lia].
  rewrite (slice_write_prefix _ _ 148 156) by lia. now rewrite Hl.
Qed.

Lemma cksum_stamp_verifies_witness :
  256 <= cksum (alloc 512) < 8 ^ 6 /\
  (forall field, (length field <= 8)%nat ->
     cksum (write (alloc 512) field 148) = cksum (alloc 512)) /\
  decodeOct (write (alloc 512) (encodeOct (cksum (alloc 512)) 6) 148) 148 8
  = Some (JNum (cksum (write (alloc 512) (encodeOct (cksum (alloc 512)) 6) 148))).
Proof. apply (cksum_stamp_verifies (alloc 512)). reflexivity. Defined.

(** ** Text fields *)

Lemma split_at_nul (l : Buffer) :
  exists s rest, l = s ++ rest /\ noNul s /\ (rest = [] \/ exists r, rest = zero :: r).
Proof.
  induction l as [|a l (s & rest & -> & Hs & Hr)].
  - exists [], []. repeat split; [constructor|by left].
  - destruct (decide (a = zero)) as [->|Hne].
    + exists [], (zero :: s ++ rest). repeat split; [constructor|right; eauto].
    + exists (a :: s), rest. repeat split; [by constructor|done].
Qed.

(** X4. With the default (UTF-8) encoding and a field of ASCII bytes,
    which the decoder of the text leaves as they are, [decodeStr] returns
    the bytes of the field that come before its first NUL, and the whole
    field when it holds none: the result never contains a NUL and is never
    longer than the field. [decodeLongPath] reads a whole buffer the same
    way. *)
Theorem decodeStr_until_nul buf (off len : nat) :
  (off + len <= length buf)%nat ->
  forallb is_ascii_byte (slice buf off (off + len)) = true ->
  exists s rest,
    slice buf off (off + len) = s ++ rest /\
    noNul s /\ (rest = [] \/ exists r, rest = zero :: r) /\
    decodeStr buf off len = strOf s /\
    (length s <= len)%nat /\
    (off = O -> len = length buf -> decodeLongPath buf = strOf s).
Proof.
  intros Hfit _.
  destruct (split_at_nul (slice buf off (off + len))) as (s & rest & Heq & Hs & Hr).
  assert (Hl : length (s ++ rest) = len).
  { rewrite <- Heq, length_slice. lia. }
  exists s, rest. split; [exact Heq|]. split; [exact Hs|]. split; [exact Hr|].
  assert (Hd : decodeStr buf off len = strOf s)
    by (now apply (decodeStr_field buf off len s rest)).
  split; [exact Hd|]. split.
  - rewrite length_app in Hl. lia.
  - intros -> ->. exact Hd.
Qed.

Lemma decodeStr_until_nul_witness :
  exists s rest,
    slice (bytesOf "ab" ++ [zero; "c"%char]) 0 (0 + 4) = s ++ rest /\
    noNul s /\ (rest = [] \/ exists r, rest = zero :: r) /\
    decodeStr (bytesOf "ab" ++ [zero; "c"%char]) 0 4 = strOf s /\
    (length s <= 4)%nat /\
    (0%nat = O -> 4%nat = length (bytesOf "ab" ++ [zero; "c"%char]) ->
     decodeLongPath (bytesOf "ab" ++ [zero; "c"%char]) = strOf s).
Proof.
  apply (decodeStr_until_nul (bytesOf "ab" ++ [zero; "c"%char]) 0 4).
  - simpl. lia.
  - reflexivity.
Defined.

(** ** Octal fields *)

Lemma take_SEVENS (k : nat) :
  (k <= 19)%nat -> take k (bytesOf SEVENS) = map digitChar (replicate k 7).
Proof.
  intros Hk. do 20 (destruct k as [|k]; [reflexivity|]). lia.
Qed.

Lemma msbValue_sevens (k : nat) acc :
  msbValue 8 acc (replicate k 7) = (acc + 1) * 8 ^ Z.of_nat k - 1.
Proof.
  revert acc. induction k as [|k IH]; intros acc.
  - simpl. lia.
  - cbn [replicate]. unfold msbValue in *. cbn [fold_left]. rewrite IH.
    rewrite Nat2Z.inj_succ, Z.pow_succ_r by lia. lia.
Qed.

Lemma decodeOct_saturated buf (off len : nat) v (n : nat) rest :
  slice buf off (off + len) = encodeOct v n ++ rest ->
  0 <= v -> (1 <= n <= 19)%nat ->
  decodeOct buf off len = Some (JNum (Z.min v (8 ^ Z.of_nat n - 1))).
Proof.
  intros Hslice Hv Hn.
  destruct (Z.lt_ge_cases v (8 ^ Z.of_nat n)) as [Hlt|Hge].
  - rewrite Z.min_l by lia.
    apply (decodeOct_written _ off len v n rest); [exact Hslice|lia|lia].
  - rewrite Z.min_r by lia.
    destruct (natDigits_spec 8 ltac:(lia) v Hv) as (ds & Hds & _ & _ & _ & Hcount).
    assert (Hsat : encodeOct v n = map digitChar (replicate n 7) ++ [" "%char]).
    { unfold encodeOct, toStringRadix.
      destruct (Z.ltb_spec v 0); [lia|]. rewrite Hds, length_map.
      destruct (Nat.ltb_spec n (length ds)) as [_|Hle].
      - now rewrite take_SEVENS by lia.
      - apply Hcount in Hle; lia. }
    replace (8 ^ Z.of_nat n - 1) with (msbValue 8 0 (replicate n 7))
      by (rewrite msbValue_sevens; lia).
    apply (decodeOct_digits _ off len (replicate n 7) rest).
    + rewrite Hslice, Hsat, <- app_assoc. reflexivity.
    + destruct n; [lia|done].
    + apply Forall_replicate. unfold isDigit. lia.
Qed.

(** X5. A numeric field written by [encodeOct] is [n] octal digits and a
    space. [decodeOct] reads a value back unchanged as long as it fits the
    digits; a larger value is written as all sevens and reads back as the
    largest value that fits: the field saturates, it never wraps or
    fails. This is for fields of at most 17 digits and values below 2^53,
    where the numbers of the source are exact. *)
Theorem octal_field_saturates v (n : nat) rest :
  0 <= v < 2 ^ 53 -> (1 <= n <= 17)%nat ->
  length (encodeOct v n) = S n /\
  last (encodeOct v n) = Some " "%char /\
  decodeOct (encodeOct v n ++ rest) 0 (S n + length rest)
  = Some (JNum (Z.min v (8 ^ Z.of_nat n - 1))).
Proof.
  intros [Hv _] Hn.
  split; [apply length_encodeOct; lia|].
  split.
  { unfold encodeOct. destruct (_ <? _)%nat; rewrite ?app_assoc; apply last_snoc. }
  pose proof (length_encodeOct v n ltac:(lia)) as Hlen.
  apply (decodeOct_saturated _ 0 _ v n rest); [|lia|lia].
  unfold slice. rewrite drop_0, take_ge; [done|]. rewrite length_app. lia.
Qed.

Lemma octal_field_saturates_witness :
  length (encodeOct (8 ^ 11) 11) = 12%nat /\
  last (encodeOct (8 ^ 11) 11) = Some " "%char /\
  decodeOct (encodeOct (8 ^ 11) 11 ++ []) 0 (12 + length (@nil ascii))
  = Some (JNum (Z.min (8 ^ 11) (8 ^ Z.of_nat 11 - 1))).
Proof. apply (octal_field_saturates (8 ^ 11) 11 []); lia. Defined.

(** ** Blocks *)

(** X6. Every block [encode] returns is accepted by [decode], with or
    without [allowUnknownFormat]: it has 512 bytes, the ustar magic and
    version, and a checksum field that verifies. The decoded type is the
    one of the flag written, "file" for a type [encode] does not know; and
    a size, uid or gid too large for its field comes back as the largest
    value the field holds (8^11 - 1 for the size) instead of an error. *)
Theorem encode_output_decodes opts b allow :
  encode opts = Some b ->
  length b = 512%nat /\
  slice b 257 263 = USTAR_MAGIC /\ slice b 263 265 = USTAR_VER /\
  decodeOct b 148 8 = Some (JNum (cksum b)) /\
  exists h, decode b allow = Returns (Some h) /\
    h_type h = toType (toTypeflag (type opts)) /\
    (0 <= size opts -> h_size h = JNum (Z.min (size opts) (8 ^ 11 - 1))) /\
    (0 <= uid opts -> h_uid h = Some (JNum (Z.min (uid opts) (8 ^ 6 - 1)))) /\
    (0 <= gid opts -> h_gid h = Some (JNum (Z.min (gid opts) (8 ^ 6 - 1)))).
Proof.
  intros He.
  destruct (encode_Some opts b He) as (nm & pre & _ & _ & Hnm & _ & _ & ->).
  split; [apply length_encodeBlock|].
  split; [now apply field_magic|].
  split.
  { unfold encodeBlock.
    rewrite slice_write_other by (rewrite length_encodeOct by lia; lia).
    rewrite encodeFields_chain.
    rewrite !slice_write_other by (rewrite ?length_encodeOct by lia; simpl; lia).
    apply slice_write_same; [|reflexivity].
    rewrite !length_write, length_alloc. simpl. lia. }
  split; [now apply decodeOct_cksum|].
  eexists. split; [now apply decode_encodeBlock|].
  cbv beta iota delta [h_type h_size h_uid h_gid].
  split; [apply decoded_type|].
  split; [|split]; intros Hv.
  - destruct (field_size opts nm pre) as [rest Hr].
    now rewrite (decodeOct_saturated _ 124 12 _ 11 rest Hr Hv) by lia.
  - destruct (field_uid opts nm pre) as [rest Hr].
    now rewrite (decodeOct_saturated _ 108 8 _ 6 rest Hr Hv) by lia.
  - destruct (field_gid opts nm pre) as [rest Hr].
    now rewrite (decodeOct_saturated _ 116 8 _ 6 rest Hr Hv) by lia.
Qed.

Lemma encode_output_decodes_witness :
  length helloBlock = 512%nat /\
  slice helloBlock 257 263 = USTAR_MAGIC /\ slice helloBlock 263 265 = USTAR_VER /\
  decodeOct helloBlock 148 8 = Some (JNum (cksum helloBlock)) /\
  exists h, decode helloBlock false = Returns (Some h) /\
    h_type h = toType (toTypeflag (type helloOpts)) /\
    (0 <= size helloOpts -> h_size h = JNum (Z.min (size helloOpts) (8 ^ 11 - 1))) /\
    (0 <= uid helloOpts -> h_uid h = Some (JNum (Z.min (uid helloOpts) (8 ^ 6 - 1)))) /\
    (0 <= gid helloOpts -> h_gid h = Some (JNum (Z.min (gid helloOpts) (8 ^ 6 - 1)))).
Proof.
  apply (encode_output_decodes helloOpts helloBlock false).
  vm_compute. reflexivity.
Defined.

Lemma sumBytes_zero (l : Buffer) :
  sumBytes l = 0 <-> Forall (fun a => a = zero) l.
Proof.
  induction l as [|a l IH]; simpl.
  - split; [constructor|done].
  - pose proof (byteVal_range a). pose proof (sumBytes_bounds l). split.
    + intros Hs. constructor; [apply byteVal_zero; lia|apply IH; lia].
    + intros Hs. apply Forall_cons in Hs as [-> Hs]. apply IH in Hs.
      rewrite Hs. reflexivity.
Qed.

Lemma decode_null_iff buf allow :
  decode buf allow = Returns None <-> cksum buf = 256.
Proof.
  unfold decode. destruct (Z.eqb_spec (cksum buf) (8 * 32)) as [Hc|Hc].
  - split; [intros _; lia|done].
  - split; [|lia]. repeat case_match; discriminate.
Qed.

(** X7. [decode] returns null, the answer for an empty block such as the
    two that end an archive, exactly when every byte of the block outside
    the checksum field is zero; the checksum field itself and
    [allowUnknownFormat] play no part. *)
Theorem decode_null_block buf allow :
  length buf = 512%nat ->
  (decode buf allow = Returns None <->
   forall i, (i < 512)%nat -> (i < 148 \/ 156 <= i)%nat -> byteAt buf i = Some 0).
Proof.
  intros Hlen. rewrite decode_null_iff. unfold cksum.
  pose proof (sumBytes_bounds (slice buf 0 148)).
  pose proof (sumBytes_bounds (slice buf 156 512)).
  split.
  - intros Hc i Hi Hout.
    assert (H1 : sumBytes (slice buf 0 148) = 0) by lia.
    assert (H2 : sumBytes (slice buf 156 512) = 0) by lia.
    apply sumBytes_zero in H1, H2.
    destruct (lookup_lt_is_Some_2 buf i ltac:(lia)) as [a Ha].
    unfold byteAt. rewrite Ha. simpl. f_equal.
    destruct Hout as [Hlo|Hhi].
    + assert (Hs : slice buf 0 148 !! i = Some a).
      { rewrite lookup_slice. destruct (decide _); [exact Ha|lia]. }
      now rewrite (Forall_lookup_1 _ _ _ _ H1 Hs).
    + assert (Hs : slice buf 156 512 !! (i - 156)%nat = Some a).
      { rewrite lookup_slice. destruct (decide _); [|lia].
        now replace (156 + (i - 156))%nat with i by lia. }
      now rewrite (Forall_lookup_1 _ _ _ _ H2 Hs).
  - intros Hz.
    assert (H1 : sumBytes (slice buf 0 148) = 0).
    { apply sumBytes_zero, Forall_lookup_2. intros j a Hj.
      rewrite lookup_slice in Hj. destruct (decide _); [|done].
      specialize (Hz j ltac:(lia) ltac:(lia)). unfold byteAt in Hz.
      simpl in Hj. rewrite Hj in Hz. simpl in Hz.
      apply byteVal_zero. congruence. }
    assert (H2 : sumBytes (slice buf 156 512) = 0).
    { apply sumBytes_zero, Forall_lookup_2. intros j a Hj.
      rewrite lookup_slice in Hj. destruct (decide _); [|done].
      specialize (Hz (156 + j)%nat ltac:(lia) ltac:(lia)). unfold byteAt in Hz.
      rewrite Hj in Hz. simpl in Hz.
      apply byteVal_zero. congruence. }
    lia.
Qed.

Lemma decode_null_block_witness :
  decode (write (alloc 512) (bytesOf "garbage!") 148) false = Returns None <->
  forall i, (i < 512)%nat -> (i < 148 \/ 156 <= i)%nat ->
    byteAt (write (alloc 512) (bytesOf "garbage!") 148) i = Some 0.
Proof.
  apply (decode_null_block (write (alloc 512) (bytesOf "garbage!") 148) false).
  reflexivity.
Defined.

(** X8. Turning [allowUnknownFormat] on changes the answer of [decode]
    only for a block that is thrown out as of unknown format without it:
    that block, whose checksum verifies and whose magic is neither ustar
    nor GNU, is then returned as a header with the name field alone as its
    name. Whatever is returned without the option is returned with it, and
    a checksum that does not verify is an error either way. *)
Theorem allowUnknownFormat_only_adds buf :
  (forall h, decode buf false = Returns h -> decode buf true = Returns h) /\
  (forall e, decode buf true = Throws e ->
     e = InvalidChecksum /\ decode buf false = Throws InvalidChecksum) /\
  (decode buf false = Throws UnknownFormat ->
     decodeOct buf 148 8 = Some (JNum (cksum buf)) /\
     slice buf 257 263 <> USTAR_MAGIC /\
     (slice buf 257 263 <> GNU_MAGIC \/ slice buf 263 265 <> GNU_VER) /\
     exists h, decode buf true = Returns (Some h) /\
       h_name h = decodeStr buf 0 100).
Proof.
  unfold decode.
  destruct (cksum buf =? 8 * 32); [repeat split; intros; try done|].
  destruct (bool_decide (Some (JNum (cksum buf)) = decodeOct buf 148 8)) eqn:Hck;
    cbn [negb]; [|repeat split; intros; try done; congruence].
  apply bool_decide_eq_true in Hck.
  change (MAGIC_OFFSET + 6)%nat with 263%nat.
  change (VERSION_OFFSET + 2)%nat with 265%nat.
  change MAGIC_OFFSET with 257%nat. change VERSION_OFFSET with 263%nat.
  destruct (bool_decide (USTAR_MAGIC = slice buf 257 263)) eqn:Hu;
    [repeat split; intros; try done|].
  apply bool_decide_eq_false in Hu.
  destruct (bool_decide (GNU_MAGIC = slice buf 257 263)) eqn:Hg;
    destruct (bool_decide (GNU_VER = slice buf 263 265)) eqn:Hv;
    cbn [andb negb];
    try (repeat split; intros; done).
  all: apply bool_decide_eq_false in Hv || apply bool_decide_eq_false in Hg.
  all: split; [intros h [=]|]; split; [intros e [=]|]; intros _.
  all: split; [done|]; split; [congruence|]; split; [auto|eexists; split; reflexivity].
Qed.

(** ** PAX records *)

Lemma findByte_app c (pre rest : Buffer) :
  c ∉ pre -> findByte c (pre ++ c :: rest) = Some (length pre).
Proof.
  induction pre as [|a pre IH]; intros Hc; simpl.
  - now rewrite Ascii.eqb_refl.
  - destruct (Ascii.eqb_spec a c) as [->|_].
    + exfalso. apply Hc. by constructor.
    + rewrite IH; [done|]. intros Hin. apply Hc. by constructor.
Qed.

Lemma digitChar_val d : isDigit 10 d -> byteVal (digitChar d) = 48 + d.
Proof. intros Hd. unfold digitChar. apply byteVal_byteOf. unfold isDigit in Hd. lia. Qed.

Lemma digitChar_not c ds :
  Forall (isDigit 10) ds -> ~ (48 <= byteVal c < 58) -> c ∉ map digitChar ds.
Proof.
  intros Hds Hc Hin. apply list_elem_of_fmap in Hin as (d & -> & Hd).
  eapply Forall_forall in Hds; [|exact Hd].
  rewrite digitChar_val in Hc by done. unfold isDigit in Hds. lia.
Qed.

(** [parseInt] on a text of decimal digits. *)
Lemma parseInt_digits ds :
  Forall (isDigit 10) ds -> ds <> [] ->
  parseInt (map digitChar ds) 10 = JNum (msbValue 10 0 ds).
Proof.
  intros Hds Hne. destruct ds as [|d ds]; [done|].
  assert (Hd : isDigit 10 d) by (now inversion Hds).
  pose proof (digitChar_val d Hd) as Hv. unfold isDigit in Hd.
  unfold parseInt. cbn [map dropWhile].
  assert (Hw : isWhite (digitChar d) = false).
  { unfold isWhite. rewrite Hv.
    destruct (Z.leb_spec 9 (48 + d)), (Z.leb_spec (48 + d) 13),
      (Z.eqb_spec (48 + d) 32); simpl; try done; lia. }
  rewrite Hw.
  destruct (Ascii.eqb_spec (digitChar d) "-") as [He|_].
  { apply (f_equal byteVal) in He. rewrite Hv in He.
    change (byteVal "-") with 45 in He. lia. }
  destruct (Ascii.eqb_spec (digitChar d) "+") as [He|_].
  { apply (f_equal byteVal) in He. rewrite Hv in He.
    change (byteVal "+") with 43 in He. lia. }
  pose proof (parseDigits_digits 10 ltac:(lia) (d :: ds) [] None Hds Hne I) as Hp.
  rewrite app_nil_r in Hp. cbn [map] in Hp. rewrite Hp. simpl. f_equal. lia.
Qed.

(** One iteration of [decodePax] on a record written by [encodePax]. *)
Lemma decodePax_record f (key value : string) rest m :
  "="%char ∉ bytesOf key ->
  decodePaxLoop (S f) (paxRecord key value ++ rest) m
  = decodePaxLoop f rest (<[key := value]> m).
Proof.
  intros Hkey. unfold paxRecord.
  set (body := bytesOf (" " ++ key ++ "=" ++ value) ++ ["010"%char]).
  assert (Hbody : body = " "%char :: bytesOf key ++ "="%char :: bytesOf value ++ ["010"%char]).
  { unfold body. rewrite !bytesOf_app. cbn. now rewrite <- !app_assoc. }
  assert (Hne : body <> []) by (rewrite Hbody; done).
  pose proof (addLength_self_describing body Hne) as Hself.
  set (rec := addLength body) in *.
  set (N := Z.of_nat (length rec)) in *.
  destruct (natDigits_spec 10 ltac:(lia) N ltac:(lia))
    as (ds & Hds & Hdne & Hdig & Hval & _).
  assert (Htr : toStringRadix 10 N = map digitChar ds).
  { unfold toStringRadix. destruct (Z.ltb_spec N 0); [lia|done]. }
  rewrite Htr in Hself.
  assert (Hlen : length rec = (length ds + length body)%nat).
  { rewrite Hself at 1. now rewrite length_app, length_map. }
  assert (Hlb : length body = (length (bytesOf key) + length (bytesOf value) + 3)%nat).
  { rewrite Hbody. cbn [length]. rewrite length_app. cbn [length].
    rewrite length_app. simpl. lia. }
  assert (Hd1 : (1 <= length ds)%nat) by (destruct ds; [done|simpl; lia]).
  cbn [decodePaxLoop].
  assert (Hnz : (length (rec ++ rest) =? 0)%nat = false).
  { apply Nat.eqb_neq. rewrite length_app. lia. }
  rewrite Hnz.
  assert (Hsp : findByte " " (rec ++ rest) = Some (length ds)).
  { rewrite Hself, Hbody. rewrite <- app_assoc. cbn [app].
    rewrite <- (length_map digitChar ds). apply findByte_app.
    apply digitChar_not; [done|]. vm_compute. intros [? ?]. done. }
  rewrite Hsp. cbn [default].
  assert (Hpre : slice (rec ++ rest) 0 (length ds) = map digitChar ds).
  { rewrite Hself, <- app_assoc. apply slice_app_exact. now rewrite length_map. }
  unfold id. rewrite Hpre, parseInt_digits, Hval by done.
  destruct (Z.eqb_spec N 0); [lia|].
  assert (HL : Z.of_nat (length (rec ++ rest)) = N + Z.of_nat (length rest)).
  { rewrite length_app. lia. }
  assert (Hshape : rec ++ rest
            = (map digitChar ds ++ [" "%char])
              ++ (bytesOf key ++ "="%char :: bytesOf value) ++ "010"%char :: rest).
  { rewrite Hself, Hbody. rewrite <- !app_assoc. cbn [app].
    rewrite <- !app_assoc. cbn [app]. rewrite <- !app_assoc. reflexivity. }
  assert (Hb : sliceZ (rec ++ rest) (Z.of_nat (length ds) + 1) (N - 1)
               = bytesOf key ++ "="%char :: bytesOf value).
  { unfold sliceZ, normIndex. rewrite HL.
    destruct (Z.ltb_spec (Z.of_nat (length ds) + 1) 0); [lia|].
    destruct (Z.ltb_spec (N - 1) 0); [lia|].
    rewrite !Z.min_l by lia.
    unfold slice. rewrite Hshape.
    rewrite drop_app_length' by (rewrite length_app, length_map; simpl; lia).
    apply take_app_length'. rewrite length_app. simpl. lia. }
  rewrite Hb, (findByte_app "=" (bytesOf key) (bytesOf value)) by done.
  rewrite take_app_length.
  assert (Hdrop : drop (S (length (bytesOf key)))
                    (bytesOf key ++ "="%char :: bytesOf value) = bytesOf value).
  { rewrite cons_middle, app_assoc. apply drop_app_length'.
    rewrite length_app. simpl. lia. }
  rewrite Hdrop, !strOf_bytesOf.
  assert (Hnext : sliceZ (rec ++ rest) N (Z.of_nat (length (rec ++ rest))) = rest).
  { unfold sliceZ, normIndex. rewrite HL.
    destruct (Z.ltb_spec N 0); [lia|].
    destruct (Z.ltb_spec (N + Z.of_nat (length rest)) 0); [lia|].
    rewrite Z.min_l, Z.min_r by lia.
    unfold slice. replace (Z.to_nat N) with (length rec) by lia.
    rewrite drop_app_length. apply take_ge. lia. }
  now rewrite Hnext.
Qed.

Lemma fold_records (kvs : list (string * string)) acc :
  fold_left (fun r kv => r ++ paxRecord kv.1 kv.2) kvs acc
  = acc ++ concat (map (fun kv => paxRecord kv.1 kv.2) kvs).
Proof.
  revert acc. induction kvs as [|kv kvs IH]; intros acc; simpl.
  - now rewrite app_nil_r.
  - now rewrite IH, app_assoc.
Qed.

Lemma decodePax_concat f (kvs : list (string * string)) m :
  Forall (fun kv => "="%char ∉ bytesOf kv.1) kvs ->
  (length kvs <= f)%nat ->
  decodePaxLoop f (concat (map (fun kv => paxRecord kv.1 kv.2) kvs)) m
  = fold_left (fun m kv => <[kv.1 := kv.2]> m) kvs m.
Proof.
  revert f m. induction kvs as [|[k v] kvs IH]; intros f m Hk Hf.
  - simpl. by destruct f.
  - apply Forall_cons in Hk as [Hk1 Hk]. simpl in Hf.
    destruct f as [|f]; [lia|]. cbn [map concat fold_left fst snd].
    rewrite decodePax_record by exact Hk1. apply IH; [exact Hk|lia].
Qed.

Lemma paxRecord_nonempty k v : (1 <= length (paxRecord k v))%nat.
Proof.
  unfold paxRecord, addLength. rewrite length_app, length_app. simpl. lia.
Qed.

Lemma length_records (kvs : list (string * string)) :
  (length kvs <= length (concat (map (fun kv => paxRecord kv.1 kv.2) kvs)))%nat.
Proof.
  induction kvs as [|[k v] kvs IH]; simpl; [lia|].
  rewrite length_app. pose proof (paxRecord_nonempty k v). lia.
Qed.

(** X9. [decodePax] undoes [encodePax], for every path, link path and
    list of further records whose keys hold no "=": the decoded mapping
    has "path" for a non-empty [name], "linkpath" for a non-empty
    [linkname], and then every record of [pax] in order, a later record
    replacing an earlier one of the same key (so a "path" in [pax]
    overrides [name]). Values may hold any bytes, line feeds and "="
    included; empty [name] and [linkname] are left out. (The key
    "__proto__" is set aside: assigning it on a JS object stores no
    property, which the mapping of the model does not follow.) *)
Theorem pax_records_roundtrip (nm lnk : option string)
    (pax : list (string * string)) :
  Forall (fun kv => ("="%char ∉ bytesOf kv.1) /\ kv.1 <> "__proto__"%string) pax ->
  decodePax (encodePax {| pax_name := nm; pax_linkname := lnk;
                          pax_pax := Some pax |})
  = fold_left (fun m kv => <[kv.1 := kv.2]> m)
      (match truthyStr nm with Some n => [("path"%string, n)] | None => [] end
       ++ match truthyStr lnk with Some l => [("linkpath"%string, l)] | None => [] end
       ++ pax) ∅.
Proof.
  intros Hpax0.
  assert (Hpax : Forall (fun kv => "="%char ∉ bytesOf kv.1) pax).
  { eapply Forall_impl; [exact Hpax0|]. by intros kv [H _]. }
  set (kvs := match truthyStr nm with Some n => [("path"%string, n)] | None => [] end
       ++ match truthyStr lnk with Some l => [("linkpath"%string, l)] | None => [] end
       ++ pax).
  assert (Henc : encodePax {| pax_name := nm; pax_linkname := lnk;
                              pax_pax := Some pax |}
                 = concat (map (fun kv => paxRecord kv.1 kv.2) kvs)).
  { unfold encodePax, kvs. cbn [pax_name pax_linkname pax_pax].
    rewrite fold_records.
    destruct (truthyStr nm), (truthyStr lnk); cbn [app map concat fst snd];
      rewrite ?app_nil_r, <- ?app_assoc; reflexivity. }
  assert (Hkeys : Forall (fun kv => "="%char ∉ bytesOf kv.1) kvs).
  { unfold kvs. repeat apply Forall_app_2; try exact Hpax.
    - destruct (truthyStr nm); repeat constructor. vm_compute.
      intros Hin.
      repeat (apply elem_of_cons in Hin as [Hin|Hin]; [discriminate|]).
      by apply elem_of_nil in Hin.
    - destruct (truthyStr lnk); repeat constructor. vm_compute.
      intros Hin.
      repeat (apply elem_of_cons in Hin as [Hin|Hin]; [discriminate|]).
      by apply elem_of_nil in Hin. }
  unfold decodePax. rewrite Henc.
  apply decodePax_concat; [exact Hkeys|].
  pose proof (length_records kvs). lia.
Qed.

Lemma pax_records_roundtrip_witness :
  decodePax (encodePax {| pax_name := Some "dir/file"%string;
                          pax_linkname := Some ""%string;
                          pax_pax := Some [("comment", "a=b"); ("path", "other")]%string |})
  = fold_left (fun m kv => <[kv.1 := kv.2]> m)
      (match truthyStr (Some "dir/file"%string) with
       | Some n => [("path"%string, n)] | None => [] end
       ++ match truthyStr (Some ""%string) with
          | Some l => [("linkpath"%string, l)] | None => [] end
       ++ [("comment", "a=b"); ("path", "other")]%string) ∅.
Proof.
  apply (pax_records_roundtrip (Some "dir/file"%string) (Some ""%string)
           [("comment", "a=b"); ("path", "other")]%string).
  repeat constructor; try discriminate; vm_compute; intros Hin;
    repeat (apply elem_of_cons in Hin as [Hin|Hin]; [discriminate|]);
    by apply elem_of_nil in Hin.
Defined.

Lemma decodePaxLoop_fuel (n : nat) : forall buf m f1 f2,
  (length buf <= n)%nat -> (n <= f1)%nat -> (n <= f2)%nat ->
  decodePaxLoop f1 buf m = decodePaxLoop f2 buf m.
Proof.
  induction n as [|n IH]; intros buf m f1 f2 Hn H1 H2.
  - destruct buf; [|simpl in Hn; lia]. by destruct f1, f2.
  - destruct f1 as [|f1]; [lia|]. destruct f2 as [|f2]; [lia|].
    cbn [decodePaxLoop].
    destruct (length buf =? 0)%nat eqn:Hz; [done|]. apply Nat.eqb_neq in Hz.
    destruct (parseInt _ 10) as [len|]; [|done].
    destruct (Z.eqb_spec len 0); [done|].
    destruct (findByte "=" _) as [k|] eqn:Hk; [|done].
    apply IH; [|lia|lia].
    destruct (Z.le_gt_cases (Z.of_nat (length buf) + len) 0) as [Hall|Hsome].
    + (* the length reaches before the start: no "=" is found *)
      exfalso.
      assert (He : normIndex (Z.of_nat (length buf)) (len - 1) = O).
      { unfold normIndex. destruct (Z.ltb_spec (len - 1) 0); lia. }
      unfold sliceZ, slice in Hk. rewrite He in Hk. simpl in Hk. discriminate.
    + unfold sliceZ, slice, normIndex.
      rewrite length_take, length_drop.
      destruct (Z.ltb_spec len 0), (Z.ltb_spec (Z.of_nat (length buf)) 0); lia.
Qed.

Lemma decodePaxRun_returns (n : nat) : forall buf m,
  (length buf <= n)%nat ->
  decodePaxRun n buf m = Some (decodePaxLoop (S n) buf m).
Proof.
  induction n as [|n IH]; intros buf m Hn.
  - destruct buf; [done|simpl in Hn; lia].
  - cbn [decodePaxRun]. rewrite (decodePaxLoop_fuel (S n) buf m (S (S n)) (S n))
      by lia.
    cbn [decodePaxLoop].
    destruct (length buf =? 0)%nat eqn:Hz; [done|]. apply Nat.eqb_neq in Hz.
    destruct (parseInt _ 10) as [len|]; [|done].
    destruct (Z.eqb_spec len 0); [done|].
    destruct (findByte "=" _) as [k|] eqn:Hk; [|done].
    assert (Hshort : (length (sliceZ buf len (Z.of_nat (length buf))) <= n)%nat).
    { destruct (Z.le_gt_cases (Z.of_nat (length buf) + len) 0) as [Hall|Hsome].
      - exfalso.
        assert (He : normIndex (Z.of_nat (length buf)) (len - 1) = O).
        { unfold normIndex. destruct (Z.ltb_spec (len - 1) 0); lia. }
        unfold sliceZ, slice in Hk. rewrite He in Hk. simpl in Hk. discriminate.
      - unfold sliceZ, slice, normIndex.
        rewrite length_take, length_drop.
        destruct (Z.ltb_spec len 0), (Z.ltb_spec (Z.of_nat (length buf)) 0); lia. }
    rewrite IH by exact Hshort.
    f_equal. apply (decodePaxLoop_fuel n); lia.
Qed.

(** X10. The loop of [decodePax] is left on every input, well formed or
    not, after at most as many iterations as the buffer has bytes: an
    iteration that does not return goes on with a strictly shorter
    buffer, also when the length that opens a record is negative or larger
    than what is left. The mapping it is left with is that of
    [decodePax]. *)
Theorem decodePax_terminates buf :
  decodePaxRun (length buf) buf ∅ = Some (decodePax buf).
Proof. unfold decodePax. now apply decodePaxRun_returns. Qed.

(** ** What [encode] refuses *)

(** X11. [encode] refuses every name that holds a byte outside ASCII,
    whatever its length. For an ASCII name of at most 100 bytes (counted
    after the "/" that [typeflag: 5] may append) the only other refusal is
    a link name of more than 100 bytes: no value of the numeric fields
    makes [encode] fail. The name is then written whole into the name
    field, padded with NUL bytes. *)
Theorem encode_refusals opts :
  (forallb is_ascii_byte (encodeName opts) = false -> encode opts = None) /\
  (forallb is_ascii_byte (encodeName opts) = true ->
   (length (encodeName opts) <= 100)%nat ->
   (encode opts = None <-> (100 < length (optBytes (linkname opts)))%nat) /\
   forall b, encode opts = Some b ->
     slice b 0 100
     = encodeName opts ++ replicate (100 - length (encodeName opts)) zero).
Proof.
  unfold encode. split.
  - now intros ->.
  - intros -> Hlen. cbn [negb].
    rewrite splitName_short by exact Hlen.
    destruct (Nat.ltb_spec 100 (length (encodeName opts))); [lia|].
    cbn [orb length]. change (155 <? 0)%nat with false.
    unfold optBytes, byteLength.
    destruct (truthyStr (linkname opts)) as [l|].
    + destruct (Nat.ltb_spec 100 (length (bytesOf l))) as [Hl|Hl].
      * split; [done|]. intros b [=].
      * split; [split; [done|lia]|]. intros b [= <-]. now apply field_name.
    + split; [split; [done|simpl; lia]|]. intros b [= <-]. now apply field_name.
Qed.

Lemma encode_refusals_witness :
  (encode helloOpts = None <-> (100 < length (optBytes (linkname helloOpts)))%nat) /\
  forall b, encode helloOpts = Some b ->
    slice b 0 100
    = encodeName helloOpts ++ replicate (100 - length (encodeName helloOpts)) zero.
Proof.
  apply (proj2 (encode_refusals helloOpts)); [reflexivity|simpl; lia].
Defined.

(** ** Numbers in base 256 *)

Lemma bigEndian_snoc l x : bigEndian (l ++ [x]) = bigEndian l * 256 + x.
Proof. unfold bigEndian. now rewrite fold_left_app. Qed.

Lemma bigEndian_complement (l : Buffer) :
  bigEndian (map (fun a => 255 - byteVal a) l)
  = 256 ^ Z.of_nat (length l) - 1 - bigEndian (map byteVal l).
Proof.
  induction l as [|x l IH] using rev_ind; [reflexivity|].
  rewrite !map_app, length_app, Nat2Z.inj_add, Z.pow_add_r by lia.
  cbn [map length]. rewrite !bigEndian_snoc, IH.
  change (256 ^ Z.of_nat 1) with 256. lia.
Qed.

Lemma slice_head_tail buf offset len :
  (1 <= len)%nat -> (offset + len <= length buf)%nat ->
  exists a,
    buf !! offset = Some a /\
    slice buf offset (offset + len) = a :: slice buf (S offset) (offset + len).
Proof.
  intros Hl Hb. unfold slice.
  replace (offset + len - offset)%nat with (S (len - 1)) by lia.
  replace (offset + len - S offset)%nat with (len - 1)%nat by lia.
  destruct (drop offset buf) as [|a rest] eqn:Hd.
  { apply (f_equal length) in Hd. rewrite length_drop in Hd. simpl in Hd. lia. }
  exists a. split.
  - rewrite <- (Nat.add_0_r offset), <- lookup_drop, Hd. reflexivity.
  - cbn [take]. f_equal. f_equal.
    change (S offset) with (1 + offset)%nat.
    rewrite Nat.add_comm, <- drop_drop, Hd. reflexivity.
Qed.

(** X28. A numeric field whose first byte has the high bit set is read in
    base 256, not in octal. After 0x80 the value is that of the other
    bytes, most significant first. After 0xFF the other bytes are
    complemented one by one, with no carry: the result is one more than the
    number the field holds in two's complement, so that a field of 0xFF
    bytes reads as 0 and not as -1. Any other first byte of 0x80 and above
    gives null. The sums are taken below 2^53, where the floating-point
    additions of the source are exact. *)
Theorem base256_field buf offset len :
  (1 <= len)%nat -> (offset + len <= length buf)%nat ->
  (byteAt buf offset = Some 128 ->
   bigEndian (map byteVal (slice buf (S offset) (offset + len))) < 2 ^ 53 ->
   decodeOct buf offset len
   = Some (JNum (bigEndian (map byteVal (slice buf (S offset) (offset + len)))))) /\
  (byteAt buf offset = Some 255 ->
   256 ^ Z.of_nat (len - 1) - 1
   - bigEndian (map byteVal (slice buf (S offset) (offset + len))) < 2 ^ 53 ->
   decodeOct buf offset len
   = Some (JNum (bigEndian (map byteVal (slice buf (S offset) (offset + len)))
                 - 256 ^ Z.of_nat (len - 1) + 1))) /\
  (forall b, byteAt buf offset = Some b -> 128 < b < 255 ->
   decodeOct buf offset len = None).
Proof.
  intros Hl Hb.
  destruct (slice_head_tail buf offset len Hl Hb) as (a & Ha & Hs).
  assert (Hlen : length (slice buf (S offset) (offset + len)) = (len - 1)%nat).
  { rewrite length_slice. lia. }
  assert (Hdec : decodeOct buf offset len
    = if negb (Z.land (byteVal a) 128 =? 0)
      then JNum <$> (if byteVal a =? 128
                     then Some (bigEndian (map byteVal
                                  (slice buf (S offset) (offset + len))))
                     else if byteVal a =? 255
                     then Some (-1 * bigEndian (map (fun a => 255 - byteVal a)
                                  (slice buf (S offset) (offset + len))))
                     else None)
      else decodeOct buf offset len).
  { unfold decodeOct at 1. cbv zeta. rewrite Hs.
    change (byteAt0 (a :: ?r) 0) with (byteVal a).
    destruct (negb (Z.land (byteVal a) 128 =? 0)) eqn:Hhigh; [reflexivity|].
    unfold decodeOct. cbv zeta. rewrite Hs.
    change (byteAt0 (a :: ?r) 0) with (byteVal a). now rewrite Hhigh. }
  unfold byteAt. rewrite Ha. cbn [fmap option_fmap option_map].
  pose proof (byteVal_range a) as Hr.
  split; [|split].
  - intros [= Hv] _. rewrite Hdec, Hv. reflexivity.
  - intros [= Hv] _. rewrite Hdec, Hv. cbn [negb Z.eqb Z.land Pos.land Pos.eqb
      fmap option_fmap option_map]. change (Z.land 255 128 =? 0) with false.
    cbn [negb]. change (255 =? 128) with false. change (255 =? 255) with true.
    cbv iota. cbn [fmap option_fmap option_map].
    rewrite bigEndian_complement, Hlen. do 2 f_equal. lia.
  - intros b [= <-] Hb'.
    assert (Hbit : Z.land (byteVal a) 128 = 128).
    { apply Z.bits_inj'. intros n Hn. rewrite Z.land_spec.
      change 128 with (2 ^ 7). rewrite Z.pow2_bits_eqb by lia.
      destruct (Z.eqb_spec 7 n) as [<-|]; [|apply andb_false_r].
      rewrite andb_true_r. apply Z.testbit_true; [lia|].
      change (2 ^ 7) with 128.
      replace (byteVal a / 128) with 1; [reflexivity|].
      apply Z.div_unique with (byteVal a - 128); lia. }
    rewrite Hdec, Hbit. change (negb (128 =? 0)) with true. cbv iota.
    destruct (Z.eqb_spec (byteVal a) 128); [lia|].
    destruct (Z.eqb_spec (byteVal a) 255); [lia|]. reflexivity.
Qed.

Lemma base256_field_witness :
  decodeOct ("128"%char :: replicate 9 zero ++ ["001"%char; zero]) 0 12
  = Some (JNum 256) /\
  decodeOct (replicate 12 "255"%char) 0 12 = Some (JNum 0) /\
  decodeOct ("129"%char :: replicate 11 zero) 0 12 = None.
Proof.
  split; [|split].
  - apply (proj1 (base256_field
             ("128"%char :: replicate 9 zero ++ ["001"%char; zero]) 0 12
             ltac:(lia) ltac:(simpl; lia))); reflexivity.
  - apply (proj1 (proj2 (base256_field (replicate 12 "255"%char) 0 12
             ltac:(lia) ltac:(simpl; lia)))); reflexivity.
  - apply (proj2 (proj2 (base256_field ("129"%char :: replicate 11 zero) 0 12
             ltac:(lia) ltac:(simpl; lia))) 129); [reflexivity|lia].
Defined.

(** * Further properties of the extraction engine *)

(** ** Padding *)

Lemma land_511 z : Z.land z 511 = z mod 512.
Proof. change 511 with (Z.ones 9). now rewrite Z.land_ones by lia. Qed.

Lemma overflow_pads sz (n : nat) :
  sizeNat (default (JNum 0) sz) = Some n ->
  (Z.of_nat n + Z.of_nat (overflow sz)) mod 512 = 0 /\
  (overflow sz = O -> Z.of_nat n mod 512 = 0).
Proof.
  destruct sz as [[z|]|]; simpl; [| done |].
  - destruct (Z.leb_spec 0 z) as [Hz|]; [|done]. intros [= <-].
    rewrite land_511, Z2Nat.id by lia.
    pose proof (Z.mod_pos_bound z 512 ltac:(lia)) as Hr.
    pose proof (Z.div_mod z 512 ltac:(lia)) as Hq.
    destruct (Z.eqb_spec (z mod 512) 0) as [H0|H0].
    + split; [now rewrite Z.add_0_r|done].
    + split; [|lia]. rewrite Z2Nat.id by lia.
      replace (z + (512 - z mod 512)) with ((z / 512 + 1) * 512) by lia.
      apply Z.mod_mul. lia.
  - intros [= <-]. done.
Qed.

(** X12. [overflow(size)] is the padding that follows [size] bytes of
    content: between 0 and 511, zero exactly when the size is a multiple
    of 512, and otherwise what the size lacks to the next multiple. This
    holds for every integer, negative ones included; for a size that is
    missing or not a number it is 0. *)
Theorem overflow_is_padding z :
  (overflow (Some (JNum z)) <= 511)%nat /\
  (z + Z.of_nat (overflow (Some (JNum z)))) mod 512 = 0 /\
  (overflow (Some (JNum z)) = O <-> z mod 512 = 0) /\
  overflow None = O /\ overflow (Some JNaN) = O.
Proof.
  split; [apply overflow_lt|]. split; [|split; [|done]].
  - unfold overflow. rewrite land_511.
    pose proof (Z.mod_pos_bound z 512 ltac:(lia)) as Hr.
    pose proof (Z.div_mod z 512 ltac:(lia)) as Hq.
    destruct (Z.eqb_spec (z mod 512) 0) as [H0|H0].
    + now rewrite Z.add_0_r.
    + rewrite Z2Nat.id by lia.
      replace (z + (512 - z mod 512)) with ((z / 512 + 1) * 512) by lia.
      apply Z.mod_mul. lia.
  - unfold overflow. rewrite land_511.
    pose proof (Z.mod_pos_bound z 512 ltac:(lia)) as Hr.
    destruct (Z.eqb_spec (z mod 512) 0) as [H0|H0]; split; try done; lia.
Qed.

Section Termination.
Variable allow : bool.
Variable ackNow : Header -> bool.
Variable accept : Z -> Buffer -> bool.
Local Abbreviation runP := (runParser allow ackNow).
Local Abbreviation writeL := (_write allow ackNow accept).
Local Abbreviation performA := (perform allow ackNow accept).
Local Abbreviation runL := (run allow ackNow accept).
Local Abbreviation pushL := (push allow ackNow accept).
Local Abbreviation feedL := (feed allow ackNow accept).
Local Abbreviation reach := (reachable allow ackNow accept).

(** ** Termination *)

Lemma _write_fuel f d cb s :
  (stepsNeeded d s < f)%nat -> writeL f d cb s <> OutOfFuel.
Proof.
  revert d cb s. induction f as [|f IH]; intros d cb s Hf; [lia|].
  cbn [_write].
  destruct (length d <? _missing (markPartial d s))%nat eqn:Hlt; [done|].
  destruct (runParser _ _ _) as [s1|s1|] eqn:Hrun; [|done|done].
  cbv zeta. destruct (_overflow (set_cb false s1)) as [o|] eqn:Ho; [|done].
  apply IH.
  pose proof (steps_decrease allow ackNow d cb s s1 o (set_cb false s1) Hlt
                (or_introl Hrun) Ho eq_refl eq_refl). lia.
Qed.

Lemma stepsNeeded_bound d s : (stepsNeeded d s < 3 * length d + 3)%nat.
Proof. unfold stepsNeeded. repeat case_match; lia. Qed.

End Termination.

Section BufferParse.
Variable allow : bool.
Variable ackNow : Header -> bool.
Variable accept : Z -> Buffer -> bool.
Local Abbreviation runP := (runParser allow ackNow).
Local Abbreviation writeL := (_write allow ackNow accept).
Local Abbreviation performA := (perform allow ackNow accept).
Local Abbreviation reach := (reachable allow ackNow accept).

(** ** The buffer and the block grid *)

Lemma bufferOk_initial : bufferOk initial.
Proof.
  split; simpl; try done. by exists 512%nat.
Qed.

(** The end of a content or of a body: padding, or the next header. *)
Lemma onstreamend_buffer s r (n : nat) :
  _buffer s = [] -> bodySize s = Some n ->
  (_offset s - Z.of_nat n) mod 512 = 0 ->
  Forall alignedEvent (log s) ->
  onstreamend s = Continue r \/ onstreamend s = Return r ->
  bufferOk r.
Proof.
  intros Hbuf Hsize Hal Hlog Hr.
  destruct (overflow_pads (headerSize s) n Hsize) as [Hpad Hzero].
  assert (Hr' : r = (if (overflow (headerSize s) =? 0)%nat
                     then _parse 512 OnHeader (set_stream None s)
                     else _parse (overflow (headerSize s)) OnDrain
                            (set_stream None s))).
  { unfold onstreamend in Hr. cbv zeta in Hr.
    change (headerSize (set_stream None s)) with (headerSize s) in Hr.
    destruct Hr as [Hr|Hr]; destruct (_locked _); congruence. }
  subst r. destruct (Nat.eqb_spec (overflow (headerSize s)) 0) as [H0|H0].
  - specialize (Hzero H0).
    split; unfold stepSize, _parse; simpl; rewrite ?Hbuf; try done.
    eexists. split; [reflexivity|].
    replace (_offset s + Z.of_nat 512 - 0)
      with ((_offset s - Z.of_nat n) + Z.of_nat n + 1 * 512) by lia.
    rewrite Z.mod_add by lia. rewrite Z.add_mod, Hal, Hzero by lia. done.
  - split; unfold stepSize, _parse; simpl; rewrite ?Hbuf; try done.
    eexists. split; [reflexivity|].
    replace (_offset s + Z.of_nat (overflow (headerSize s)) - 0)
      with ((_offset s - Z.of_nat n) + (Z.of_nat n + Z.of_nat (overflow (headerSize s))))
      by lia.
    rewrite Z.add_mod, Hal, Hpad by lia. done.
Qed.

Ltac buffer_fields Hdrop Hal :=
  split; unfold stepSize, _parse, bodySize, headerSize; simpl;
  rewrite ?Hdrop; simpl;
  [ first [ done | split; [done|discriminate] | split; [congruence|done] ]
  | first [ done | congruence ]
  | first [ done | congruence | intros _; simpl; f_equal; lia ]
  | eexists; (split; [first [reflexivity | eassumption]|]); simpl;
    rewrite ?Z.sub_0_r; first [ exact Hal | idtac ]
  | repeat (apply Forall_app; split); try done;
    repeat constructor; simpl; first [exact Hal | done] ].

(** A header block: the engine arms the next step, with nothing kept. *)
Lemma onheader_buffer e r :
  length (_buffer e) = 512%nat -> _stream e = None ->
  _offset e mod 512 = 0 -> Forall alignedEvent (log e) ->
  onheader allow ackNow e = Continue r \/ onheader allow ackNow e = Return r ->
  bufferOk r.
Proof.
  intros Hlen Hs Hal Hlog Hr.
  assert (Hdrop : drop 512 (_buffer e) = []) by (apply drop_ge; lia).
  assert (Hal512 : (_offset e + 512) mod 512 = 0).
  { replace (_offset e + 512) with (_offset e + 1 * 512) by lia.
    now rewrite Z.mod_add by lia. }
  assert (Haln : forall n : nat, (_offset e + Z.of_nat n - Z.of_nat n) mod 512 = 0).
  { intros n. now replace (_offset e + Z.of_nat n - Z.of_nat n) with (_offset e) by lia. }
  unfold onheader, emitEntry, awaitBody, unlockNow, destroy, logEvent in Hr.
  destruct Hr as [Hr|Hr]; repeat case_match; simplify_eq.
  all: buffer_fields Hdrop Hal512.
  all: apply Haln.
Qed.
End BufferParse.

Section BufferReach.
Variable allow : bool.
Variable ackNow : Header -> bool.
Variable accept : Z -> Buffer -> bool.
Local Abbreviation runP := (runParser allow ackNow).
Local Abbreviation writeL := (_write allow ackNow accept).
Local Abbreviation performA := (perform allow ackNow accept).
Local Abbreviation reach := (reachable allow ackNow accept).
Local Abbreviation onheader_buffer := (onheader_buffer allow ackNow).
Lemma bufferOk_complete e :
  _missing e = O -> bufferOk e ->
  (_stream e <> None <-> _onparse e = OnStreamEnd) /\
  Forall alignedEvent (log e) /\
  match _onparse e with
  | OnHeader => length (_buffer e) = 512%nat /\ _offset e mod 512 = 0
  | OnDrain => length (_buffer e) = overflow (headerSize e) /\ _offset e mod 512 = 0
  | OnStreamEnd =>
      _buffer e = [] /\
      exists n, bodySize e = Some n /\ (_offset e - Z.of_nat n) mod 512 = 0
  | _ => bodySize e = Some (length (_buffer e)) /\
         (_offset e - Z.of_nat (length (_buffer e))) mod 512 = 0
  end.
Proof.
  intros Hm [Hsrc Hcont Hstep (n & Hn & Hal) Hlog].
  split; [exact Hsrc|]. split; [exact Hlog|].
  unfold stepSize in *. rewrite Hm, Nat.add_0_r in Hstep.
  destruct (_onparse e) eqn:Hp;
    try (specialize (Hstep ltac:(done)); rewrite Hstep in Hn;
         injection Hn as <-);
    try destruct (decide _) as [Hd|Hd];
    try (destruct Hd; done); try (exfalso; apply Hd; by auto);
    rewrite ?Z.sub_0_r in Hal.
  - split; [congruence|done].
  - split; [by apply Hcont|]. by exists n.
  - split; [congruence|done].
  - done.
  - done.
  - done.
  - done.
Qed.

(** A completed step leaves the buffer and the offsets in order. *)
Lemma runParser_buffer e r :
  _missing e = O -> bufferOk e ->
  runP e = Continue r \/ runP e = Return r -> bufferOk r.
Proof.
  intros Hm Hok Hr.
  destruct (bufferOk_complete e Hm Hok) as (Hsrc & Hlog & Hcase).
  assert (Hbody : forall f : State -> State,
    (forall s, bodySize (f s) = bodySize s /\ _offset (f s) = _offset s /\
               log (f s) = log s /\ _buffer (f s) = _buffer s) ->
    bodySize e = Some (length (_buffer e)) ->
    (_offset e - Z.of_nat (length (_buffer e))) mod 512 = 0 ->
    match bodySize e with
    | Some size => onstreamend (set_buffer (drop size (_buffer (f e))) (f e))
    | None => Unmodelled
    end = Continue r \/
    match bodySize e with
    | Some size => onstreamend (set_buffer (drop size (_buffer (f e))) (f e))
    | None => Unmodelled
    end = Return r -> bufferOk r).
  { intros f Hf Hsize Hal H. rewrite Hsize in H.
    destruct (Hf e) as (H1 & H2 & H3 & H4).
    apply (onstreamend_buffer _ r (length (_buffer e))) in H; try done.
    - simpl. rewrite H4. apply drop_all.
    - change (bodySize (set_buffer ?b ?s)) with (bodySize s). congruence.
    - simpl. congruence.
    - simpl. congruence. }
  assert (Hnone : _onparse e <> OnStreamEnd -> _stream e = None).
  { intros Hp. destruct (_stream e) eqn:Hs; [|done].
    exfalso. apply Hp, Hsrc. done. }
  clear Hsrc.
  unfold runParser in Hr. destruct (_onparse e) eqn:Hp.
  - destruct Hcase as [Hlen Hal]. apply (onheader_buffer e r); try done.
    now apply Hnone.
  - destruct Hcase as (Hbuf & n & Hn & Hal).
    now apply (onstreamend_buffer e r n).
  - destruct Hcase as [Hlen Hal]. unfold ondrain in Hr. cbv zeta in Hr.
    assert (r = _parse 512 OnHeader
                  (set_buffer (drop (overflow (headerSize e)) (_buffer e)) e))
      by (destruct Hr; congruence).
    subst r.
    assert (Hd : drop (overflow (headerSize e)) (_buffer e) = [])
      by (apply drop_ge; lia).
    assert (Hs : _stream e = None) by now apply Hnone.
    split; unfold stepSize, _parse; simpl; rewrite ?Hd, ?Hs; try done;
      try (split; [congruence|discriminate]).
    eexists. split; [reflexivity|].
    replace (_offset e + Z.of_nat 512 - 0) with (_offset e + 1 * 512) by lia.
    now rewrite Z.mod_add by lia.
  - destruct Hcase as [Hsize Hal]. unfold onpaxglobalheader in Hr.
    apply (Hbody (fun s => set_paxGlobal
             (Some (decodePax (slice (_buffer s) 0 (length (_buffer e))))) s));
      try done.
    rewrite Hsize in Hr |- *. exact Hr.
  - destruct Hcase as [Hsize Hal]. unfold onpaxheader in Hr.
    apply (Hbody (fun s => set_pax
             (Some (match _paxGlobal s with
                    | Some g => decodePax (slice (_buffer s) 0 (length (_buffer e))) ∪ g
                    | None => decodePax (slice (_buffer s) 0 (length (_buffer e)))
                    end)) s));
      try done.
    rewrite Hsize in Hr |- *. exact Hr.
  - destruct Hcase as [Hsize Hal]. unfold ongnulongpath in Hr.
    apply (Hbody (fun s => set_gnuLongPath
             (Some (decodeLongPath (slice (_buffer s) 0 (length (_buffer e))))) s));
      try done.
    rewrite Hsize in Hr |- *. exact Hr.
  - destruct Hcase as [Hsize Hal]. unfold ongnulonglinkpath in Hr.
    apply (Hbody (fun s => set_gnuLongLinkPath
             (Some (decodeLongPath (slice (_buffer s) 0 (length (_buffer e))))) s));
      try done.
    rewrite Hsize in Hr |- *. exact Hr.
Qed.

Lemma bufferOk_frame s s' :
  _stream s' = _stream s -> _onparse s' = _onparse s ->
  _buffer s' = _buffer s -> _missing s' = _missing s ->
  _offset s' = _offset s -> _header s' = _header s ->
  (Forall alignedEvent (log s) -> Forall alignedEvent (log s')) ->
  bufferOk s -> bufferOk s'.
Proof.
  intros H1 H2 H3 H4 H5 H6 H7 [Hsrc Hcont Hstep Hal Hlog].
  assert (Hsz : stepSize s' = stepSize s).
  { unfold stepSize, bodySize, headerSize. now rewrite H2, H6. }
  split; rewrite ?H1, ?H2, ?H3, ?H4, ?H5, ?Hsz; auto.
Qed.

Lemma appendData_aligned d l :
  Forall alignedEvent l -> Forall alignedEvent (appendData d l).
Proof.
  intros Hl. unfold appendData. destruct d as [|a d]; [done|].
  destruct (last l) as [[| | d0| |]|] eqn:Hlast;
    try (apply Forall_app; split; [done|by repeat constructor]).
  apply Forall_app. split; [|by repeat constructor].
  rewrite (last_removelast l _ Hlast) in Hl.
  now apply Forall_app in Hl as [Hl _].
Qed.

Lemma forward_buffer data cb s :
  bufferOk s -> (length data < _missing s)%nat ->
  bufferOk (forward accept data cb (markPartial data s)).
Proof.
  intros Hok Hlt.
  assert (Hmark : bufferOk (markPartial data s)).
  { revert Hok. apply bufferOk_frame; unfold markPartial;
      by destruct (length data =? 0)%nat. }
  assert (Hm : _missing (markPartial data s) = _missing s).
  { unfold markPartial. by destruct (length data =? 0)%nat. }
  rewrite <- Hm in Hlt. revert Hlt Hmark. generalize (markPartial data s).
  clear Hok Hm s. intros s Hlt [Hsrc Hcont Hstep Hal Hlog].
  unfold forward. cbv zeta.
  change (_stream (set_overflow None (set_missing (_missing s - length data) s)))
    with (_stream s).
  assert (Hsz : forall s', _onparse s' = _onparse s -> _header s' = _header s ->
            stepSize s' = stepSize s).
  { intros s' H2 H6. unfold stepSize, bodySize, headerSize. now rewrite H2, H6. }
  destruct (_stream s) as [src|] eqn:Hs.
  - assert (Hp : _onparse s = OnStreamEnd) by (apply Hsrc; done).
    assert (Hgoal : forall s', _stream s' = _stream s -> _onparse s' = _onparse s ->
              _buffer s' = _buffer s -> _offset s' = _offset s ->
              _header s' = _header s ->
              log s' = appendData data (log s) -> bufferOk s').
    { intros s' H1 H2 H3 H5 H6 H7.
      split; rewrite ?H1, ?H2, ?H3, ?H5, ?H7, ?(Hsz s' H2 H6), ?Hs;
        [exact Hsrc|exact Hcont|intros Hn; done|exact Hal
        |now apply appendData_aligned]. }
    unfold logData, callCb. repeat case_match; by apply Hgoal.
  - assert (Hp : _onparse s <> OnStreamEnd).
    { intros Hp. apply Hsrc in Hp. done. }
    assert (Hgoal : forall s', _stream s' = _stream s -> _onparse s' = _onparse s ->
              _buffer s' = _buffer s ++ data ->
              _missing s' = (_missing s - length data)%nat ->
              _offset s' = _offset s -> _header s' = _header s ->
              log s' = log s -> bufferOk s').
    { intros s' H1 H2 H3 H4 H5 H6 H7.
      split; rewrite ?H1, ?H2, ?H3, ?H4, ?H5, ?H7, ?(Hsz s' H2 H6), ?Hs;
        [exact Hsrc|intros Hn; done| |exact Hal|exact Hlog].
      intros _. rewrite (Hstep Hp), length_app. f_equal. lia. }
    unfold callCb. repeat case_match; by apply Hgoal.
Qed.

Lemma endOfChunk_buffer data cb s :
  bufferOk s -> (_missing s <= length data)%nat ->
  bufferOk (endOfChunk data cb (markPartial data s)) /\
  _missing (endOfChunk data cb (markPartial data s)) = O.
Proof.
  intros Hok Hge.
  assert (Hmark : bufferOk (markPartial data s)).
  { revert Hok. apply bufferOk_frame; unfold markPartial;
      by destruct (length data =? 0)%nat. }
  assert (Hm : _missing (markPartial data s) = _missing s).
  { unfold markPartial. by destruct (length data =? 0)%nat. }
  rewrite <- Hm in Hge. revert Hge Hmark. generalize (markPartial data s).
  clear Hok Hm s. intros s Hge [Hsrc Hcont Hstep Hal Hlog].
  assert (Hsz : forall s', _onparse s' = _onparse s -> _header s' = _header s ->
            stepSize s' = stepSize s).
  { intros s' H2 H6. unfold stepSize, bodySize, headerSize. now rewrite H2, H6. }
  split; [|unfold endOfChunk; by destruct (_stream _)].
  unfold endOfChunk. cbv zeta.
  change (_stream (set_missing 0 (set_cb cb s))) with (_stream s).
  destruct (_stream s) as [src|] eqn:Hs.
  - assert (Hp : _onparse s = OnStreamEnd) by (apply Hsrc; done).
    split; simpl; rewrite ?Hs, ?Hsz by done;
      [exact Hsrc|exact Hcont|intros Hn; done|exact Hal|].
    apply Forall_app. split; [|by repeat constructor].
    now apply appendData_aligned.
  - assert (Hp : _onparse s <> OnStreamEnd).
    { intros Hp. apply Hsrc in Hp. done. }
    split; simpl; rewrite ?Hs, ?Hsz by done;
      [exact Hsrc|intros Hn; done| |exact Hal|exact Hlog].
    intros _. rewrite (Hstep Hp), length_app, length_take. f_equal. lia.
Qed.

Lemma bufferOk_callCb cb s : bufferOk s -> bufferOk (callCb cb s).
Proof. apply bufferOk_frame; unfold callCb; by destruct cb. Qed.

Lemma _write_buffer fuel data cb s s' :
  bufferOk s -> writeL fuel data cb s = Done s' -> bufferOk s'.
Proof.
  revert data cb s. induction fuel as [|fuel IH]; intros data cb s Hok H; [done|].
  cbn [_write] in H.
  assert (Hm : _missing (markPartial data s) = _missing s).
  { unfold markPartial. by destruct (length data =? 0)%nat. }
  rewrite Hm in H.
  destruct (Nat.ltb_spec (length data) (_missing s)) as [Hlt|Hge].
  - injection H as <-. now apply forward_buffer.
  - destruct (endOfChunk_buffer data cb s Hok Hge) as [Hok0 Hz].
    destruct (runParser _ _ _) as [s1|s1|] eqn:Hrun; [| |done].
    + pose proof (runParser_buffer _ _ Hz Hok0 (or_introl Hrun)) as Hok1.
      assert (Hok2 : bufferOk (set_cb false s1))
        by (revert Hok1; apply bufferOk_frame; done).
      cbv zeta in H. destruct (_overflow (set_cb false s1)) as [o|].
      * eapply IH; eauto.
      * injection H as <-. now apply bufferOk_callCb.
    + injection H as <-. exact (runParser_buffer _ _ Hz Hok0 (or_intror Hrun)).
Qed.

Lemma perform_buffer a s s' :
  bufferOk s -> performA a s = Done s' -> bufferOk s'.
Proof.
  intros Hok H. destruct a as [chunk|err|]; cbn [perform] in H.
  - eapply _write_buffer; [|exact H]. revert Hok. apply bufferOk_frame; done.
  - assert (Hok1 : bufferOk (set_locked false (logEvent EvAck s))).
    { revert Hok. apply bufferOk_frame; try done. simpl. intros Hl.
      apply Forall_app. split; [done|by repeat constructor]. }
    cbv zeta in H. destruct err.
    + injection H as <-. revert Hok1. apply bufferOk_frame; unfold destroy;
        by destruct (destroyed _).
    + destruct (_stream _); [by injection H as <-|].
      unfold _continue in H. cbv zeta in H.
      destruct (_overflow _) as [o|].
      * eapply _write_buffer; [|exact H]. revert Hok1. apply bufferOk_frame; done.
      * injection H as <-. apply bufferOk_callCb.
        revert Hok1. apply bufferOk_frame; done.
  - destruct (waitDrain s) as [cb|]; injection H as <-; [|done].
    apply bufferOk_callCb. revert Hok. apply bufferOk_frame; done.
Qed.

Lemma reachable_buffer s : reach s -> bufferOk s.
Proof.
  induction 1 as [|s a s' _ IH _ Hstep]; [apply bufferOk_initial|].
  eapply perform_buffer; eauto.
Qed.
End BufferReach.

Section OffsetParse.
Variable allow : bool.
Variable ackNow : Header -> bool.
Variable accept : Z -> Buffer -> bool.
Local Abbreviation runP := (runParser allow ackNow).
Local Abbreviation runL := (run allow ackNow accept).
Local Abbreviation pushL := (push allow ackNow accept).
Local Abbreviation feedL := (feed allow ackNow accept).
Local Abbreviation reach := (reachable allow ackNow accept).
(** ** The offset *)

(** A parse continuation arms exactly one step, and moves the offset to
    its end. *)
Lemma runParser_offset e r :
  runP e = Continue r \/ runP e = Return r ->
  _offset r = _offset e + Z.of_nat (_missing r).
Proof.
  intros H.
  unfold runParser, onheader, emitEntry, awaitBody,
    onpaxglobalheader, onpaxheader, ongnulongpath, ongnulonglinkpath,
    ondrain, onstreamend, unlockNow, destroy, logEvent, bodySize in H.
  destruct H as [H|H];
    repeat case_match; simplify_eq; unfold _parse; simpl; reflexivity.
Qed.
End OffsetParse.

Section OffsetRun.
Variable allow : bool.
Variable ackNow : Header -> bool.
Variable accept : Z -> Buffer -> bool.
Local Abbreviation runP := (runParser allow ackNow).
Local Abbreviation runL := (run allow ackNow accept).
Local Abbreviation pushL := (push allow ackNow accept).
Local Abbreviation feedL := (feed allow ackNow accept).
Local Abbreviation reach := (reachable allow ackNow accept).
Local Abbreviation runParser_offset := (runParser_offset allow ackNow).
Local Abbreviation runParser_lock := (runParser_lock allow ackNow).
Local Abbreviation runParser_frame := (runParser_frame allow ackNow).
Local Abbreviation run_lock := (run_lock allow ackNow accept).
Local Abbreviation run_destroyed := (run_destroyed allow ackNow accept).
Local Abbreviation push_enabled := (push_enabled allow ackNow accept).
Local Abbreviation forward_missing := (forward_missing accept).
(** The position in the input at which the pending step began, less what
    of it has arrived: the number of bytes taken so far. *)
Lemma run_offset f d s s' :
  lockPre s -> runL f d true s = Done s' ->
  _offset s' - Z.of_nat (_missing s')
  = _offset s - Z.of_nat (_missing s) + Z.of_nat (length d).
Proof.
  revert d s. induction f as [|f IH]; intros d s Hpre H; [done|].
  cbn [run] in H.
  assert (Hm : _missing (markPartial d s) = _missing s).
  { unfold markPartial. by destruct (length d =? 0)%nat. }
  assert (Hoff : _offset (markPartial d s) = _offset s).
  { unfold markPartial. by destruct (length d =? 0)%nat. }
  rewrite Hm in H.
  destruct (Nat.ltb_spec (length d) (_missing s)) as [Hlt|Hge].
  { injection H as <-. rewrite forward_missing, Hm.
    replace (_offset (drained (forward accept d true (markPartial d s))))
      with (_offset s); [lia|].
    rewrite <- Hoff. unfold drained, forward, logData, callCb.
    repeat case_match; reflexivity. }
  destruct (endOfChunk_lock d s Hpre) as (H1 & H2 & H3 & H4 & H5 & H6 & H7 & H8).
  destruct (endOfChunk_fields d true (markPartial d s)) as [Hov _].
  rewrite Hm in Hov.
  assert (Hoe : _offset (endOfChunk d true (markPartial d s)) = _offset s).
  { rewrite <- Hoff. unfold endOfChunk, logEvent, logData. simpl.
    by destruct (_stream (markPartial d s)). }
  assert (Hres : forall r,
    lockPre (set_cb false r) -> _cb r = true ->
    _offset r = _offset s + Z.of_nat (_missing r) ->
    _overflow r = _overflow (endOfChunk d true (markPartial d s)) ->
    resume (runL f) r = Done s' ->
    _offset s' - Z.of_nat (_missing s')
    = _offset s - Z.of_nat (_missing s) + Z.of_nat (length d)).
  { intros r Hpr Hcb Hor Hovr Hr. unfold resume in Hr. cbv zeta in Hr.
    change (_overflow (set_cb false r)) with (_overflow r) in Hr.
    rewrite Hovr, Hov, Hcb in Hr.
    destruct (Nat.ltb_spec (_missing s) (length d)) as [Hl|Hl].
    - rewrite (IH _ _ Hpr Hr). simpl. rewrite Hor, length_drop. lia.
    - injection Hr as <-. unfold callCb. simpl. lia. }
  destruct (runParser _ _ _) as [s1|s1|] eqn:Hrun; [| |done].
  - destruct (runParser_lock _ s1 H1 H2 H3 H4 H5 H6 H7 H8) as [Hcont _].
    destruct (Hcont Hrun) as (Hpre1 & Hcb1 & Ho1).
    pose proof (runParser_offset _ _ (or_introl Hrun)) as Hor.
    rewrite Hoe in Hor. cbn [afterParse] in H. now apply (Hres s1).
  - destruct (runParser_lock _ s1 H1 H2 H3 H4 H5 H6 H7 H8) as [_ Hret].
    destruct (Hret Hrun) as (Hok1 & Hs1 & Hl1 & Hc1).
    destruct (runParser_frame _ _ (or_intror Hrun)) as (_ & Ho1 & _).
    pose proof (runParser_offset _ _ (or_intror Hrun)) as Hor.
    rewrite Hoe in Hor. cbn [afterParse] in H. cbv zeta in H.
    change (_stream (set_locked false (logEvent EvAck s1))) with (_stream s1) in H.
    rewrite Hs1 in H.
    apply (Hres (set_locked false (logEvent EvAck s1))); try done.
    now apply ack_lockPre.
Qed.

Lemma feed_offset chunks s s' :
  lockOk s -> idle s -> feedL chunks s = Done s' -> destroyed s' = None ->
  _offset s' - Z.of_nat (_missing s')
  = _offset s - Z.of_nat (_missing s) + Z.of_nat (length (concat chunks)).
Proof.
  revert s. induction chunks as [|c rest IH]; intros s Hok Hidle H Hd.
  { injection H as <-. simpl. lia. }
  cbn [feed] in H.
  destruct (pushL c s) as [m| |] eqn:Hp; cbn [bindOutcome] in H; [|done|done].
  destruct Hidle as (Hbusy & Hdrain & Hcb & Hov).
  assert (Hen : enabled (Write c) s = true).
  { destruct (enabled (Write c) s) eqn:Hen; [done|].
    unfold push in Hp. rewrite Hen in Hp. injection Hp as <-.
    unfold enabled in Hen. rewrite Hbusy in Hen. simpl in Hen.
    apply bool_decide_eq_false in Hen.
    clear IH. exfalso. apply Hen.
    assert (Hmono : forall l x y, feedL l x = Done y -> destroyed y = None ->
                      destroyed x = None).
    { induction l as [|c0 l IHl]; intros x y Hxy Hy; [by injection Hxy as <-|].
      cbn [feed] in Hxy. unfold push in Hxy.
      destruct (enabled (Write c0) x) eqn:Hex; cbn [bindOutcome] in Hxy.
      - apply andb_prop in Hex as [_ Hex]. now apply bool_decide_eq_true in Hex.
      - eauto. }
    eauto. }
  unfold push in Hp. rewrite Hen in Hp.
  pose proof (lockOk_write_pre s Hok Hbusy) as Hpre.
  destruct (run_lock _ _ _ _ Hpre Hp) as [Hokm Hidlem].
  rewrite (IH m Hokm Hidlem H Hd), (run_offset _ _ _ _ Hpre Hp).
  cbn [concat]. rewrite length_app. simpl. lia.
Qed.
End OffsetRun.

Section Rechunking.
Variable allow : bool.
Variable ackNow : Header -> bool.
Variable accept : Z -> Buffer -> bool.
Local Abbreviation runP := (runParser allow ackNow).
Local Abbreviation runL := (run allow ackNow accept).
Local Abbreviation pushL := (push allow ackNow accept).
Local Abbreviation feedL := (feed allow ackNow accept).
Local Abbreviation reach := (reachable allow ackNow accept).
Local Abbreviation run_lock := (run_lock allow ackNow accept).
Local Abbreviation run_app := (run_app allow ackNow accept).
Local Abbreviation push_enabled := (push_enabled allow ackNow accept).
Local Abbreviation feed_concat := (feed_concat allow ackNow accept).
(** ** Cutting the input another way *)

Lemma feed_destroyed chunks s s' :
  feedL chunks s = Done s' -> destroyed s' = None -> destroyed s = None.
Proof.
  revert s. induction chunks as [|c rest IH]; intros s H Hd; [by injection H as <-|].
  cbn [feed] in H. unfold push in H.
  destruct (enabled (Write c) s) eqn:Hen; cbn [bindOutcome] in H.
  - apply andb_prop in Hen as [_ Hen]. now apply bool_decide_eq_true in Hen.
  - eauto.
Qed.

(** The chunks put together again take the engine where they took it. *)
Lemma feed_whole chunks s s1 :
  lockOk s -> idle s -> chunks <> [] -> Forall (fun c => c <> []) chunks ->
  feedL chunks s = Done s1 -> destroyed s1 = None ->
  feedL [concat chunks] s = Done s1.
Proof.
  revert s. induction chunks as [|c rest IH]; intros s Hok Hidle Hne Hall H Hd;
    [done|].
  apply Forall_cons in Hall as [Hc Hrest].
  destruct rest as [|c' rest'].
  { simpl in H |- *. now rewrite app_nil_r. }
  assert (HR : concat (c' :: rest') <> []).
  { pose proof (Forall_inv Hrest) as Hc'. simpl in Hc' |- *. by destruct c'. }
  set (rest := c' :: rest') in *.
  pose proof (feed_destroyed _ _ _ H Hd) as Hds.
  destruct Hidle as (Hbusy & Hdrain & Hcb & Hov).
  pose proof (lockOk_write_pre s Hok Hbusy) as Hpre.
  cbn [feed] in H. rewrite push_enabled in H by done.
  destruct (runL (3 * length c + 3) c true (set_busy true s)) as [m| |] eqn:Hrun;
    cbn [bindOutcome] in H; [|done|done].
  destruct (run_lock _ _ _ _ Hpre Hrun) as [Hokm Hidlem].
  pose proof (feed_destroyed _ _ _ H Hd) as Hdm.
  pose proof (IH m Hokm Hidlem ltac:(done) Hrest H Hd) as Hw.
  cbn [feed] in Hw. rewrite push_enabled in Hw; [|apply Hidlem|exact Hdm].
  cbn [feed concat]. rewrite push_enabled by done.
  rewrite (run_app _ (3 * length c + 3) (3 * length (concat rest) + 3));
    try done; try lia; try (unfold stepsNeeded; repeat case_match; lia).
  rewrite Hrun. cbn [bindOutcome].
  destruct (runL _ (concat rest) true (set_busy true m)); done.
Qed.
End Rechunking.

Section Members.
Variable allow : bool.
Variable ackNow : Header -> bool.
Variable accept : Z -> Buffer -> bool.
Local Abbreviation runP := (runParser allow ackNow).
Local Abbreviation runL := (run allow ackNow accept).
Local Abbreviation pushL := (push allow ackNow accept).
Local Abbreviation feedL := (feed allow ackNow accept).
Local Abbreviation reach := (reachable allow ackNow accept).
(** ** One member at a time *)

Lemma entriesOf_app acc l l' :
  entriesOf acc (l ++ l') = entriesOf (entriesOf acc l) l'.
Proof.
  revert acc. induction l as [|e l IH]; intros acc; [done|].
  destruct e; simpl; try apply IH. destruct (last acc) as [[h c]|]; apply IH.
Qed.

Ltac open_state s :=
  destruct s as [off buf mis par onp hd str ovf cb0 lck px pxg glp gllp
                 bsy wd dst lg].

Ltac state_simpl :=
  cbn [_offset _buffer _missing _partial _onparse _header _stream _overflow
       _cb _locked _pax _paxGlobal _gnuLongPath _gnuLongLinkPath busy
       waitDrain destroyed log set_offset set_buffer set_missing set_partial
       set_onparse set_header set_stream set_overflow set_cb set_locked
       set_pax set_paxGlobal set_gnuLongPath set_gnuLongLinkPath set_busy
       set_waitDrain set_destroyed set_log app].

(** The state of a pending call, written out as a record. *)
Ltac norm_state :=
  match goal with
  | |- context [run _ _ _ _ _ _ ?s] =>
      let s' := eval cbv [_offset _buffer _missing _partial _onparse _header
        _stream _overflow _cb _locked _pax _paxGlobal _gnuLongPath
        _gnuLongLinkPath busy waitDrain destroyed log set_offset set_buffer
        set_missing set_partial set_onparse set_header set_stream set_overflow
        set_cb set_locked set_pax set_paxGlobal set_gnuLongPath
        set_gnuLongLinkPath set_busy set_waitDrain set_destroyed set_log] in s in
      change s with s'
  end.

Lemma truthyStr_cleared (x : option string) :
  truthyStr (match truthyStr x with Some _ => None | None => x end) = None.
Proof. by destruct (truthyStr x) eqn:E. Qed.

Lemma fuel_three (n : nat) : exists f, (3 * n + 3 = S (S (S f)))%nat.
Proof. exists (3 * n)%nat. lia. Qed.

Lemma slice_whole (b : Buffer) n : n = length b -> slice b 0 n = b.
Proof. intros ->. unfold slice. now rewrite drop_0, Nat.sub_0_r, take_ge. Qed.

(** A call of [_write] that completes the pending step. *)
Lemma run_parse f d s :
  d <> [] -> (_missing s <= length d)%nat ->
  runL (S f) d true s
  = afterParse (runL f) (runP (endOfChunk d true (set_partial true s))).
Proof.
  intros Hd Hm. rewrite run_S by done.
  destruct (Nat.ltb_spec (length d) (_missing s)); [lia|done].
Qed.

Lemma resume_none (k : Buffer -> bool -> State -> Outcome) s :
  _overflow s = None -> resume k s = Done (callCb (_cb s) (set_cb false s)).
Proof. intros H. unfold resume. cbv zeta. simpl. now rewrite H. Qed.

Lemma resume_some (k : Buffer -> bool -> State -> Outcome) s o :
  _overflow s = Some o -> resume k s = k o (_cb s) (set_cb false s).
Proof. intros H. unfold resume. cbv zeta. simpl. now rewrite H. Qed.

(** A block that gives no header, such as those that end an archive, is
    passed over: the engine goes on to the next block. *)
Lemma run_null_block s block :
  betweenMembers s -> length block = 512%nat ->
  decode block allow = Returns None ->
  exists s1,
    runL (3 * length block + 3) block true (set_busy true s) = Done s1 /\
    betweenMembers s1 /\ destroyed s1 = destroyed s /\ _partial s1 = false /\
    log s1 = log s ++ [EvDecode (_offset s)] /\
    _offset s1 = _offset s + 512 /\
    _pax s1 = _pax s /\ _paxGlobal s1 = _paxGlobal s /\
    _gnuLongPath s1 = _gnuLongPath s /\
    _gnuLongLinkPath s1 = _gnuLongLinkPath s.
Proof.
  intros [(Hbusy & Hdrain & Hcb & Hov) [Hp Hm] Hbuf Hstr Hlck] Hlen Hdec.
  open_state s. simpl in Hbusy, Hdrain, Hcb, Hov, Hp, Hm, Hbuf, Hstr, Hlck.
  subst. state_simpl.
  destruct (fuel_three (length block)) as [f ->].
  assert (Hne : block <> []) by (destruct block; [simpl in Hlen; lia|done]).
  rewrite run_parse by (try done; simpl; lia).
  unfold endOfChunk. state_simpl.
  rewrite Hlen. change (512 <? 512)%nat with false.
  rewrite take_ge by lia.
  unfold runParser. state_simpl.
  unfold onheader, logEvent. state_simpl.
  rewrite slice_whole, Hdec by done.
  cbv beta iota. state_simpl. rewrite drop_ge by lia.
  unfold _parse. state_simpl. cbn [afterParse].
  rewrite resume_none by reflexivity.
  eexists. split; [reflexivity|].
  repeat split.
Qed.

(** A block that [decode] refuses destroys the engine, and is passed over
    like an empty one. *)
Lemma run_bad_block s block e :
  betweenMembers s -> length block = 512%nat ->
  decode block allow = Throws e ->
  exists s1,
    runL (3 * length block + 3) block true (set_busy true s) = Done s1 /\
    betweenMembers s1 /\
    destroyed s1 = Some (default (DecodeFailed e) (destroyed s)) /\
    _partial s1 = false /\
    log s1 = log s ++ [EvDecode (_offset s)] /\
    _offset s1 = _offset s + 512 /\
    _pax s1 = _pax s /\ _paxGlobal s1 = _paxGlobal s /\
    _gnuLongPath s1 = _gnuLongPath s /\
    _gnuLongLinkPath s1 = _gnuLongLinkPath s.
Proof.
  intros [(Hbusy & Hdrain & Hcb & Hov) [Hp Hm] Hbuf Hstr Hlck] Hlen Hdec.
  open_state s. simpl in Hbusy, Hdrain, Hcb, Hov, Hp, Hm, Hbuf, Hstr, Hlck.
  subst. state_simpl.
  destruct (fuel_three (length block)) as [f ->].
  assert (Hne : block <> []) by (destruct block; [simpl in Hlen; lia|done]).
  rewrite run_parse by (try done; simpl; lia).
  unfold endOfChunk. state_simpl.
  rewrite Hlen. change (512 <? 512)%nat with false.
  rewrite take_ge by lia.
  unfold runParser. state_simpl.
  unfold onheader, logEvent. state_simpl.
  rewrite slice_whole, Hdec by done.
  cbv beta iota. unfold destroy. state_simpl.
  destruct dst; state_simpl; rewrite drop_ge by lia;
    unfold _parse; state_simpl; cbn [afterParse];
    rewrite resume_none by reflexivity;
    (eexists; split; [reflexivity|]); repeat split.
Qed.

(** [emitEntry] in two parts: what is pending is applied, then the entry
    is emitted. *)
Lemma emitEntry_file off h s (n : nat) :
  falsySize (h_size (hdr (entryHeader s h))) = false ->
  h_type (hdr (entryHeader s h)) <> Some "directory"%string ->
  sizeNat (h_size (hdr (entryHeader s h))) = Some n ->
  emitEntry ackNow off h s
  = Continue (_parse n OnStreamEnd
      (unlockNow ackNow (entryHeader s h)
         (logEvent (EvEntry (entryHeader s h) off false)
            (set_stream (Some off)
               (set_locked true
                  (set_header (Some (entryHeader s h)) (clearPending s))))))).
Proof.
  unfold emitEntry, entryHeader, clearPending. intros Hf Hd Hn.
  destruct (truthyStr (_gnuLongPath s)); cbn [_gnuLongLinkPath set_gnuLongPath];
    destruct (truthyStr (_gnuLongLinkPath s));
    cbn [_pax set_gnuLongPath set_gnuLongLinkPath];
    destruct (_pax s); cbv zeta in *;
    rewrite Hf, bool_decide_eq_false_2 by exact Hd; cbn [orb];
    rewrite Hn; reflexivity.
Qed.

Lemma emitEntry_empty off h s :
  falsySize (h_size (hdr (entryHeader s h)))
  || bool_decide (h_type (hdr (entryHeader s h)) = Some "directory"%string) = true ->
  emitEntry ackNow off h s
  = (fun s' => if _locked s' then Return s' else Continue s')
      (unlockNow ackNow (entryHeader s h)
         (logEvent (EvEntry (entryHeader s h) off true)
            (_parse 512 OnHeader
               (set_locked true
                  (set_header (Some (entryHeader s h)) (clearPending s)))))).
Proof.
  unfold emitEntry, entryHeader, clearPending. intros Hf.
  destruct (truthyStr (_gnuLongPath s)); cbn [_gnuLongLinkPath set_gnuLongPath];
    destruct (truthyStr (_gnuLongLinkPath s));
    cbn [_pax set_gnuLongPath set_gnuLongLinkPath];
    destruct (_pax s); cbv zeta in *; rewrite Hf; reflexivity.
Qed.

Lemma clearPending_fields s :
  clearPending s
  = set_pax None
      (set_gnuLongLinkPath
         (match truthyStr (_gnuLongLinkPath s) with
          | Some _ => None | None => _gnuLongLinkPath s end)
         (set_gnuLongPath
            (match truthyStr (_gnuLongPath s) with
             | Some _ => None | None => _gnuLongPath s end) s)).
Proof.
  unfold clearPending. open_state s. state_simpl.
  destruct (truthyStr glp); state_simpl; destruct (truthyStr gllp); state_simpl;
    destruct px; reflexivity.
Qed.

Lemma onheader_entry e h :
  decode (slice (_buffer e) 0 512) allow = Returns (Some h) ->
  isExtendedType (h_type h) = false ->
  onheader allow ackNow e
  = emitEntry ackNow (_offset e) h
      (set_buffer (drop 512 (_buffer e))
         (set_header (Some {| hdr := h; hdr_pax := None |})
            (logEvent (EvDecode (_offset e)) e))).
Proof.
  intros Hdec Hext. unfold isExtendedType in Hext.
  apply orb_false_elim in Hext as [Hext H4].
  apply orb_false_elim in Hext as [Hext H3].
  apply orb_false_elim in Hext as [H1 H2].
  unfold onheader. cbv zeta.
  change (_buffer (logEvent (EvDecode (_offset e)) e)) with (_buffer e).
  rewrite Hdec. cbv beta iota. rewrite H1, H2, H3, H4. reflexivity.
Qed.

Lemma sizeNat_JNum sz (n : nat) : sizeNat sz = Some n -> sz = JNum (Z.of_nat n).
Proof.
  destruct sz as [z|]; simpl; [|done].
  destruct (Z.leb_spec 0 z); [|done]. intros [= <-]. f_equal. lia.
Qed.

Lemma appendData_new d l e :
  d <> [] -> (forall d0, e <> EvData d0) ->
  appendData d (l ++ [e]) = l ++ [e; EvData d].
Proof.
  intros Hd He. unfold appendData. destruct d; [done|].
  rewrite last_snoc. destruct e; try (now rewrite <- app_assoc).
  by destruct (He d0).
Qed.

Lemma entriesOf_member acc H o b c (a1 a2 : list Event) :
  Forall (fun e => e = EvAck) a1 -> Forall (fun e => e = EvAck) a2 ->
  entriesOf acc ([EvDecode o; EvEntry H o b] ++ a1 ++ [EvData c; EvEnd] ++ a2)
  = acc ++ [(H, c)].
Proof.
  intros H1 H2. cbn [app entriesOf].
  assert (Hack : forall a acc', Forall (fun e => e = EvAck) a ->
            forall l, entriesOf acc' (a ++ l) = entriesOf acc' l).
  { induction a as [|e a IH]; intros acc' Ha l; [done|].
    apply Forall_cons in Ha as [-> Ha]. simpl. now apply IH. }
  rewrite Hack by done. cbn [app entriesOf].
  rewrite last_snoc, removelast_last. cbn [app].
  rewrite <- (app_nil_r a2), Hack by done. reflexivity.
Qed.

Lemma _parse_header n s :
  _parse n OnHeader s
  = set_onparse OnHeader
      (set_partial false (set_missing n (set_offset (_offset s + Z.of_nat n) s))).
Proof. reflexivity. Qed.

Lemma _parse_other n p s :
  p <> OnHeader ->
  _parse n p s
  = set_onparse p (set_missing n (set_offset (_offset s + Z.of_nat n) s)).
Proof. intros Hp. unfold _parse. by destruct (decide (p = OnHeader)). Qed.

(** What is left to show once a member is through. *)
Ltac member_done :=
  eexists; split; [reflexivity|]; unfold callCb; state_simpl;
  unfold noPending; state_simpl;
  repeat split; try reflexivity; try apply truthyStr_cleared;
  rewrite <- ?app_assoc; cbn [app]; rewrite entriesOf_app;
  first [ apply (entriesOf_member _ _ _ _ _ [] [])
        | apply (entriesOf_member _ _ _ _ _ [EvAck] [])
        | apply (entriesOf_member _ _ _ _ _ [] [EvAck]) ];
  by repeat constructor.

(** A member with content: its header block, the content, the padding. *)
Lemma run_file_entry s block content pad h :
  betweenMembers s -> length block = 512%nat ->
  decode block allow = Returns (Some h) ->
  isExtendedType (h_type h) = false ->
  falsySize (h_size (hdr (entryHeader s h))) = false ->
  h_type (hdr (entryHeader s h)) <> Some "directory"%string ->
  sizeNat (h_size (hdr (entryHeader s h))) = Some (length content) ->
  length pad = overflow (Some (h_size (hdr (entryHeader s h)))) ->
  exists s1,
    runL (3 * length (block ++ content ++ pad) + 3) (block ++ content ++ pad)
      true (set_busy true s) = Done s1 /\
    betweenMembers s1 /\ destroyed s1 = destroyed s /\ _partial s1 = false /\
    entries s1 = entries s ++ [(entryHeader s h, content)] /\
    noPending s1 /\ _paxGlobal s1 = _paxGlobal s.
Proof.
  intros [(Hbusy & Hdrain & Hcb & Hov) [Hp Hm] Hbuf Hstr Hlck]
    Hlen Hdec Hext Hfalsy Hdir Hsize Hpad.
  pose proof (sizeNat_pos _ _ Hsize Hfalsy) as Hn1.
  pose proof (sizeNat_JNum _ _ Hsize) as Hsz.
  rewrite Hsz in Hpad.
  assert (Hc : content <> []) by (destruct content; [simpl in Hn1; lia|done]).
  set (data := block ++ content ++ pad).
  assert (Hdata : (512 < length data)%nat).
  { unfold data. rewrite !length_app. lia. }
  assert (Htake : take 512 data = block) by (apply take_app_length'; done).
  assert (Hdrop : drop 512 data = content ++ pad) by (apply drop_app_length'; done).
  assert (Htake2 : take (length content) (content ++ pad) = content)
    by apply take_app_length.
  assert (Hdrop2 : drop (length content) (content ++ pad) = pad)
    by apply drop_app_length.
  assert (Hcp : content ++ pad <> []) by (by destruct content).
  unfold entries.
  open_state s. simpl in Hbusy, Hdrain, Hcb, Hov, Hp, Hm, Hbuf, Hstr, Hlck.
  subst bsy wd cb0 ovf onp mis buf str lck.
  set (H := entryHeader _ h) in *.
  state_simpl.
  destruct (fuel_three (length data)) as [f ->].
  assert (Hne : data <> []) by (destruct data; [simpl in Hdata; lia|done]).
  (* the header block *)
  rewrite run_parse by (try done; simpl; lia).
  unfold endOfChunk. state_simpl.
  destruct (Nat.ltb_spec 512 (length data)) as [_|]; [|lia].
  rewrite Htake, Hdrop.
  unfold runParser. state_simpl.
  rewrite (onheader_entry _ h)
    by first [exact Hext | state_simpl; rewrite slice_whole; done].
  state_simpl. rewrite drop_ge by lia.
  rewrite (emitEntry_file _ _ _ (length content));
    change (entryHeader _ h) with H; [|assumption..].
  rewrite clearPending_fields, _parse_other by done. unfold unlockNow, logEvent.
  cbn [afterParse].
  destruct (ackNow H) eqn:Hack;
    rewrite (resume_some _ _ (content ++ pad)) by reflexivity; state_simpl;
    norm_state;
    (rewrite run_parse
       by first [exact Hcp | state_simpl; rewrite length_app; lia]);
    unfold endOfChunk, logData, logEvent; state_simpl;
    rewrite Htake2, Hdrop2, length_app;
    (rewrite appendData_new by done);
    unfold runParser; state_simpl;
    unfold onstreamend, headerSize; state_simpl;
    cbn [fmap option_fmap option_map hdr]; rewrite Hsz, <- Hpad;
    (destruct (Nat.eqb_spec (length pad) 0) as [Hp0|Hp0];
     [ rewrite Hp0, Nat.add_0_r, Nat.ltb_irrefl, _parse_header; state_simpl;
       cbn [afterParse]; unfold unlockNow, logEvent; state_simpl;
       rewrite resume_none by reflexivity
     | destruct (Nat.ltb_spec (length content) (length content + length pad));
       [|lia];
       rewrite _parse_other by done; state_simpl;
       cbn [afterParse]; unfold unlockNow, logEvent; state_simpl;
       rewrite (resume_some _ _ pad) by reflexivity; state_simpl;
       norm_state;
       (rewrite run_parse by first [by destruct pad | state_simpl; lia]);
       unfold endOfChunk; state_simpl;
       rewrite Nat.ltb_irrefl, take_ge by lia;
       unfold runParser; state_simpl;
       unfold ondrain, headerSize; state_simpl;
       cbn [fmap option_fmap option_map hdr]; rewrite Hsz, <- Hpad;
       rewrite drop_all, _parse_header; state_simpl; cbn [afterParse];
       unfold unlockNow, logEvent; state_simpl;
       rewrite resume_none by reflexivity ]).
  all: member_done.
Qed.
(** A member without content: its header block alone. *)
Lemma run_empty_entry s block h :
  betweenMembers s -> length block = 512%nat ->
  decode block allow = Returns (Some h) ->
  isExtendedType (h_type h) = false ->
  falsySize (h_size (hdr (entryHeader s h)))
  || bool_decide (h_type (hdr (entryHeader s h)) = Some "directory"%string)
  = true ->
  exists s1,
    runL (3 * length block + 3) block true (set_busy true s) = Done s1 /\
    betweenMembers s1 /\ destroyed s1 = destroyed s /\ _partial s1 = false /\
    entries s1 = entries s ++ [(entryHeader s h, [])] /\
    noPending s1 /\ _paxGlobal s1 = _paxGlobal s.
Proof.
  intros [(Hbusy & Hdrain & Hcb & Hov) [Hp Hm] Hbuf Hstr Hlck]
    Hlen Hdec Hext Hempty.
  unfold entries.
  open_state s. simpl in Hbusy, Hdrain, Hcb, Hov, Hp, Hm, Hbuf, Hstr, Hlck.
  subst bsy wd cb0 ovf onp mis buf str lck.
  set (H := entryHeader _ h) in *.
  state_simpl.
  destruct (fuel_three (length block)) as [f ->].
  assert (Hne : block <> []) by (destruct block; [simpl in Hlen; lia|done]).
  rewrite run_parse by (try done; simpl; lia).
  unfold endOfChunk. state_simpl.
  rewrite Hlen. change (512 <? 512)%nat with false.
  rewrite take_ge by lia.
  unfold runParser. state_simpl.
  rewrite (onheader_entry _ h)
    by first [exact Hext | state_simpl; rewrite slice_whole; done].
  state_simpl. rewrite drop_ge by lia.
  rewrite emitEntry_empty; change (entryHeader _ h) with H; [|assumption].
  cbv beta. rewrite clearPending_fields, _parse_header.
  unfold unlockNow, logEvent.
  destruct (ackNow H) eqn:Hack; state_simpl; cbn [afterParse];
    unfold logEvent; state_simpl; rewrite resume_none by reflexivity;
    (eexists; split; [reflexivity|]); unfold callCb, noPending; state_simpl;
    repeat split; try reflexivity; try apply truthyStr_cleared;
    rewrite <- ?app_assoc; cbn [app]; rewrite entriesOf_app; reflexivity.
Qed.
Lemma onheader_extended e h p :
  decode (slice (_buffer e) 0 512) allow = Returns (Some h) ->
  bodyParser (h_type h) = Some p ->
  onheader allow ackNow e
  = awaitBody h p
      (set_buffer (drop 512 (_buffer e))
         (set_header (Some {| hdr := h; hdr_pax := None |})
            (logEvent (EvDecode (_offset e)) e))).
Proof.
  intros Hdec Hp. unfold onheader. cbv zeta.
  change (_buffer (logEvent (EvDecode (_offset e)) e)) with (_buffer e).
  rewrite Hdec. cbv beta iota. unfold bodyParser in Hp.
  repeat case_match; try done; by injection Hp as <-.
Qed.

Lemma bodySize_header s h :
  _header s = Some h -> bodySize s = sizeNat (h_size (hdr h)).
Proof. intros H. unfold bodySize, headerSize. now rewrite H. Qed.

Lemma bodyParser_isBody t p : bodyParser t = Some p -> isBodyParser p = true.
Proof. unfold bodyParser. repeat case_match; by intros [= <-]. Qed.

(** An extended header: its header block, the body, the padding. What
    the body says is kept for later, no entry is emitted. *)
Lemma run_extended s block body pad h p :
  betweenMembers s -> length block = 512%nat ->
  decode block allow = Returns (Some h) ->
  bodyParser (h_type h) = Some p ->
  sizeNat (h_size h) = Some (length body) -> body <> [] ->
  length pad = overflow (Some (h_size h)) ->
  exists s1,
    runL (3 * length (block ++ body ++ pad) + 3) (block ++ body ++ pad)
      true (set_busy true s) = Done s1 /\
    betweenMembers s1 /\ destroyed s1 = destroyed s /\ _partial s1 = false /\
    log s1 = log s ++ [EvDecode (_offset s)] /\
    _pax s1 = _pax (storeBody p body s) /\
    _paxGlobal s1 = _paxGlobal (storeBody p body s) /\
    _gnuLongPath s1 = _gnuLongPath (storeBody p body s) /\
    _gnuLongLinkPath s1 = _gnuLongLinkPath (storeBody p body s).
Proof.
  intros [(Hbusy & Hdrain & Hcb & Hov) [Hp Hm] Hbuf Hstr Hlck]
    Hlen Hdec Hty Hsize Hc Hpad.
  pose proof (bodyParser_isBody _ _ Hty) as Hbody.
  pose proof (sizeNat_JNum _ _ Hsize) as Hsz.
  rewrite Hsz in Hpad.
  set (data := block ++ body ++ pad).
  assert (Hdata : (512 < length data)%nat).
  { unfold data. rewrite !length_app. destruct body; [done|simpl; lia]. }
  assert (Htake : take 512 data = block) by (apply take_app_length'; done).
  assert (Hdrop : drop 512 data = body ++ pad) by (apply drop_app_length'; done).
  assert (Htake2 : take (length body) (body ++ pad) = body)
    by apply take_app_length.
  assert (Hdrop2 : drop (length body) (body ++ pad) = pad)
    by apply drop_app_length.
  assert (Hcp : body ++ pad <> []) by (by destruct body).
  assert (Hne : data <> []) by (destruct data; [simpl in Hdata; lia|done]).
  assert (Hnh : p <> OnHeader) by (by destruct p).
  open_state s. simpl in Hbusy, Hdrain, Hcb, Hov, Hp, Hm, Hbuf, Hstr, Hlck.
  subst bsy wd cb0 ovf onp mis buf str lck.
  state_simpl.
  destruct (fuel_three (length data)) as [f ->].
  (* the header block *)
  rewrite run_parse by (try done; simpl; lia).
  unfold endOfChunk. state_simpl.
  destruct (Nat.ltb_spec 512 (length data)) as [_|]; [|lia].
  rewrite Htake, Hdrop.
  unfold runParser. state_simpl.
  rewrite (onheader_extended _ h p)
    by first [exact Hty | state_simpl; rewrite slice_whole; done].
  state_simpl. rewrite drop_ge by lia.
  unfold awaitBody. rewrite Hsize, _parse_other by done.
  unfold logEvent. state_simpl. cbn [afterParse].
  rewrite (resume_some _ _ (body ++ pad)) by reflexivity. state_simpl.
  norm_state.
  (* the body *)
  rewrite run_parse by first [exact Hcp | state_simpl; rewrite length_app; lia].
  unfold endOfChunk. state_simpl.
  rewrite Htake2, Hdrop2, length_app.
  unfold runParser. state_simpl.
  destruct p; try discriminate Hbody;
    unfold onpaxglobalheader, onpaxheader, ongnulongpath, ongnulonglinkpath;
    rewrite (bodySize_header _ {| hdr := h; hdr_pax := None |}) by reflexivity;
    cbn [hdr]; rewrite Hsize; cbv zeta; state_simpl;
    rewrite slice_whole, drop_all by reflexivity;
    unfold onstreamend, headerSize; state_simpl;
    cbn [fmap option_fmap option_map hdr]; rewrite Hsz, <- Hpad;
    (destruct (Nat.eqb_spec (length pad) 0) as [Hp0|Hp0];
     [ rewrite Hp0, Nat.add_0_r, Nat.ltb_irrefl, _parse_header; state_simpl;
       cbn [afterParse]; state_simpl;
       rewrite resume_none by reflexivity
     | destruct (Nat.ltb_spec (length body) (length body + length pad));
       [|lia];
       rewrite _parse_other by done; state_simpl;
       cbn [afterParse]; state_simpl;
       rewrite (resume_some _ _ pad) by reflexivity; state_simpl;
       norm_state;
       (rewrite run_parse by first [by destruct pad | state_simpl; lia]);
       unfold endOfChunk; state_simpl;
       rewrite Nat.ltb_irrefl, take_ge by lia;
       unfold runParser; state_simpl;
       unfold ondrain, headerSize; state_simpl;
       cbn [fmap option_fmap option_map hdr]; rewrite Hsz, <- Hpad;
       rewrite drop_all, _parse_header; state_simpl; cbn [afterParse];
       rewrite resume_none by reflexivity ]);
    (eexists; split; [reflexivity|]); unfold callCb; state_simpl;
    repeat split.
Qed.
(** ** From one member to the next *)

Lemma push_run d s :
  betweenMembers s -> destroyed s = None ->
  pushL d s = runL (3 * length d + 3) d true (set_busy true s).
Proof. intros [(Hb & _) _ _ _ _] Hd. now apply push_enabled. Qed.

Lemma entryHeader_ext s s' h :
  _pax s' = _pax s -> _gnuLongPath s' = _gnuLongPath s ->
  _gnuLongLinkPath s' = _gnuLongLinkPath s ->
  entryHeader s' h = entryHeader s h.
Proof. intros H1 H2 H3. unfold entryHeader. now rewrite H1, H2, H3. Qed.

Lemma entryHeader_plain s h :
  noPending s -> entryHeader s h = {| hdr := h; hdr_pax := None |}.
Proof. intros (H1 & H2 & H3). unfold entryHeader. now rewrite H1, H2, H3. Qed.

Lemma falsySize_content sz (c : Buffer) :
  sizeNat sz = Some (length c) -> c <> [] -> falsySize sz = false.
Proof.
  destruct sz as [z|]; simpl; [|done].
  destruct (Z.leb_spec 0 z); [|done]. intros [= Hz] Hc.
  destruct (Z.eqb_spec z 0) as [->|]; [|done]. by destruct c.
Qed.

Lemma falsySize_empty sz : sizeNat sz = Some O -> falsySize sz = true.
Proof.
  destruct sz as [z|]; simpl; [|done].
  destruct (Z.leb_spec 0 z); [|done]. intros [= Hz].
  destruct (Z.eqb_spec z 0); [done|lia].
Qed.

Lemma final_partial s : _partial s = false -> _final s = None.
Proof. unfold _final. now intros ->. Qed.

Lemma push_destroyed d s e : destroyed s = Some e -> pushL d s = Done s.
Proof.
  intros Hd. unfold push, enabled. rewrite Hd.
  now rewrite bool_decide_eq_false_2, andb_false_r by done.
Qed.

Lemma feed_destroyed_stays chunks s e :
  destroyed s = Some e -> feedL chunks s = Done s.
Proof.
  intros Hd. induction chunks as [|c rest IH]; [done|].
  cbn [feed]. now rewrite (push_destroyed _ _ e).
Qed.
(** An extended header and the member after it. *)
Lemma feed_extended_then_file s xblock xh p body xpad block h content pad :
  betweenMembers s -> destroyed s = None ->
  length xblock = 512%nat ->
  decode xblock allow = Returns (Some xh) ->
  bodyParser (h_type xh) = Some p ->
  sizeNat (h_size xh) = Some (length body) -> body <> [] ->
  length xpad = overflow (Some (h_size xh)) ->
  length block = 512%nat ->
  decode block allow = Returns (Some h) ->
  isExtendedType (h_type h) = false ->
  h_type (hdr (entryHeader (storeBody p body s) h)) <> Some "directory"%string ->
  sizeNat (h_size (hdr (entryHeader (storeBody p body s) h)))
  = Some (length content) ->
  content <> [] ->
  length pad
  = overflow (Some (h_size (hdr (entryHeader (storeBody p body s) h)))) ->
  exists s1,
    feedL [xblock ++ body ++ xpad; block ++ content ++ pad] s = Done s1 /\
    betweenMembers s1 /\ destroyed s1 = None /\ _final s1 = None /\
    entries s1 = entries s ++ [(entryHeader (storeBody p body s) h, content)] /\
    noPending s1 /\ _paxGlobal s1 = _paxGlobal (storeBody p body s).
Proof.
  intros Hbm Hd Hxl Hxd Hxp Hxs Hb Hxpad Hlen Hdec Hext Hdir Hsize Hc Hpad.
  destruct (run_extended s xblock body xpad xh p)
    as (m & Hrun & Hbm1 & Hd1 & _ & Hlog & H1 & Hg & H2 & H3); try done.
  assert (Hem : entries m = entries s).
  { unfold entries. now rewrite Hlog, entriesOf_app. }
  pose proof (entryHeader_ext _ m h H1 H2 H3) as Hh.
  destruct (run_file_entry m block content pad h)
    as (s1 & Hrun1 & Hbm2 & Hd2 & Hp2 & He & Hno & Hg2); rewrite ?Hh; try done.
  { now apply (falsySize_content _ content). }
  exists s1. cbn [feed]. rewrite push_run, Hrun by done. cbn [bindOutcome].
  rewrite push_run by congruence. rewrite Hrun1.
  split; [done|]. split; [done|]. split; [congruence|].
  split; [now apply final_partial|].
  split; [now rewrite He, Hem, Hh|]. split; [done|congruence].
Qed.
(** ** Archives of plain members *)

Lemma feed_app (a b : list Buffer) s :
  feedL (a ++ b) s = bindOutcome (feedL a s) (feedL b).
Proof.
  revert s. induction a as [|c a IH]; intros s; [done|].
  cbn [feed app]. destruct (push _ _ _ c s); cbn [bindOutcome]; [apply IH|done..].
Qed.

Lemma push_member s m :
  betweenMembers s -> destroyed s = None -> noPending s ->
  plainMember allow m ->
  exists s1,
    pushL (memberBytes m) s = Done s1 /\
    betweenMembers s1 /\ destroyed s1 = None /\ noPending s1 /\
    _partial s1 = false /\
    entries s1 = entries s ++ [memberEntry m].
Proof.
  intros Hbm Hd Hno (Hlen & Hdec & Hext & Hsize & Hdir & Hpad).
  pose proof (entryHeader_plain s (m_header m) Hno) as Hh.
  unfold memberBytes, memberEntry. rewrite push_run by done.
  destruct (m_content m) as [|c0 content] eqn:Hc.
  - assert (Hp : m_pad m = []).
    { rewrite (sizeNat_JNum _ _ Hsize) in Hpad. by destruct (m_pad m). }
    rewrite Hp. cbn [app]. rewrite app_nil_r.
    destruct (run_empty_entry s (m_block m) (m_header m))
      as (s1 & Hrun & Hbm1 & Hd1 & Hp1 & He & Hno1 & _); rewrite ?Hh; try done.
    { cbn [hdr]. now rewrite (falsySize_empty _ Hsize). }
    exists s1. rewrite Hh in He.
    split; [exact Hrun|]. split; [exact Hbm1|]. split; [congruence|]. done.
  - destruct (run_file_entry s (m_block m) (c0 :: content) (m_pad m) (m_header m))
      as (s1 & Hrun & Hbm1 & Hd1 & Hp1 & He & Hno1 & _); rewrite ?Hh; try done.
    { now apply (falsySize_content _ (c0 :: content)). }
    { cbn [hdr]. intros Ht. by specialize (Hdir Ht). }
    exists s1. rewrite Hh in He.
    split; [exact Hrun|]. split; [exact Hbm1|]. split; [congruence|]. done.
Qed.
Lemma feed_members ms s :
  betweenMembers s -> destroyed s = None -> noPending s ->
  _partial s = false ->
  Forall (plainMember allow) ms ->
  exists s1,
    feedL (map memberBytes ms) s = Done s1 /\
    betweenMembers s1 /\ destroyed s1 = None /\ noPending s1 /\
    _partial s1 = false /\
    entries s1 = entries s ++ map memberEntry ms.
Proof.
  revert s. induction ms as [|m ms IH]; intros s Hbm Hd Hno Hp Hall.
  { exists s. cbn [map feed]. now rewrite app_nil_r. }
  apply Forall_cons in Hall as [Hm Hall].
  destruct (push_member s m Hbm Hd Hno Hm)
    as (s1 & Hpush & Hbm1 & Hd1 & Hno1 & Hp1 & He1).
  destruct (IH s1 Hbm1 Hd1 Hno1 Hp1 Hall)
    as (s2 & Hfeed & Hbm2 & Hd2 & Hno2 & Hp2 & He2).
  exists s2. cbn [map feed]. rewrite Hpush. cbn [bindOutcome].
  split; [exact Hfeed|]. split; [exact Hbm2|]. split; [exact Hd2|].
  split; [exact Hno2|]. split; [exact Hp2|].
  rewrite He2, He1, <- app_assoc. reflexivity.
Qed.

Lemma feed_nulls bs s :
  betweenMembers s -> destroyed s = None -> noPending s ->
  _partial s = false ->
  Forall (nullBlock allow) bs ->
  exists s1,
    feedL bs s = Done s1 /\
    betweenMembers s1 /\ destroyed s1 = None /\ noPending s1 /\
    _partial s1 = false /\ entries s1 = entries s.
Proof.
  revert s. induction bs as [|b bs IH]; intros s Hbm Hd Hno Hp Hall.
  { by exists s. }
  apply Forall_cons in Hall as [[Hlen Hdec] Hall].
  destruct (run_null_block s b Hbm Hlen Hdec)
    as (s1 & Hrun & Hbm1 & Hd1 & Hp1 & Hlog & _ & H1 & _ & H2 & H3).
  assert (Hno1 : noPending s1).
  { destruct Hno as (? & ? & ?). unfold noPending. now rewrite H1, H2, H3. }
  destruct (IH s1 Hbm1 ltac:(congruence) Hno1 Hp1 Hall)
    as (s2 & Hfeed & Hbm2 & Hd2 & Hno2 & Hp2 & He2).
  exists s2. cbn [feed]. rewrite push_run, Hrun by done. cbn [bindOutcome].
  split; [exact Hfeed|]. split; [exact Hbm2|]. split; [exact Hd2|].
  split; [exact Hno2|]. split; [exact Hp2|].
  rewrite He2. unfold entries. now rewrite Hlog, entriesOf_app.
Qed.

Lemma memberBytes_nonempty m : plainMember allow m -> memberBytes m <> [].
Proof.
  intros (Hlen & _). unfold memberBytes.
  destruct (m_block m); [simpl in Hlen; lia|done].
Qed.

Lemma nullBlock_nonempty b : nullBlock allow b -> b <> [].
Proof. intros [Hlen _]. destruct b; [simpl in Hlen; lia|done]. Qed.
End Members.

Section Prefixes.
Variable allow : bool.
Variable ackNow : Header -> bool.
Variable accept : Z -> Buffer -> bool.
Local Abbreviation runL := (run allow ackNow accept).
Local Abbreviation pushL := (push allow ackNow accept).
Local Abbreviation feedL := (feed allow ackNow accept).
Local Abbreviation reach := (reachable allow ackNow accept).
(** ** The beginning of an archive *)

(** An archive of plain members and empty blocks, whole. *)
Lemma feed_archive ms trailer :
  Forall (plainMember allow) ms -> Forall (nullBlock allow) trailer ->
  concat (map memberBytes ms) ++ concat trailer <> [] ->
  exists s,
    feedL [concat (map memberBytes ms) ++ concat trailer] initial = Done s /\
    destroyed s = None.
Proof.
  intros Hms Htr Hne.
  assert (Hbm0 : betweenMembers initial) by (by repeat split).
  assert (Hno0 : noPending initial) by (by repeat split).
  destruct (feed_members allow ackNow accept ms initial Hbm0 eq_refl Hno0
              eq_refl Hms) as (s1 & Hf1 & Hbm1 & Hd1 & Hno1 & Hp1 & He1).
  destruct (feed_nulls allow ackNow accept trailer s1 Hbm1 Hd1 Hno1 Hp1 Htr)
    as (s2 & Hf2 & Hbm2 & Hd2 & Hno2 & Hp2 & He2).
  exists s2. split; [|exact Hd2].
  set (parts := map memberBytes ms ++ trailer).
  assert (Hparts : feedL parts initial = Done s2).
  { unfold parts. rewrite (feed_app allow ackNow accept), Hf1. exact Hf2. }
  assert (Hcat : concat parts = concat (map memberBytes ms) ++ concat trailer).
  { unfold parts. now rewrite concat_app. }
  assert (Hpne : Forall (fun c => c <> []) parts).
  { unfold parts. apply Forall_app. split.
    - apply Forall_fmap. eapply Forall_impl; [exact Hms|].
      intros m Hm. now apply (memberBytes_nonempty allow).
    - eapply Forall_impl; [exact Htr|]. intros b Hb.
      now apply (nullBlock_nonempty allow). }
  assert (Hp0 : parts <> []).
  { intros Hnil. rewrite Hnil in Hcat. simpl in Hcat. congruence. }
  rewrite <- Hcat.
  apply (feed_whole allow ackNow accept);
    [apply lockOk_initial|by repeat split|done|done|done|done].
Qed.

(** The engine takes every beginning of such an archive, however it is
    cut, and ends in a state it reaches by its own actions. *)
Lemma feed_prefix ms trailer chunks rest :
  Forall (plainMember allow) ms -> Forall (nullBlock allow) trailer ->
  chunks <> [] -> Forall (fun c => c <> []) chunks ->
  concat chunks ++ rest = concat (map memberBytes ms) ++ concat trailer ->
  exists s, feedL chunks initial = Done s /\ destroyed s = None /\ reach s.
Proof.
  intros Hms Htr Hne Hall Heq.
  assert (Hc : concat chunks <> []).
  { destruct chunks as [|c cs]; [done|].
    apply Forall_cons in Hall as [Hc _]. simpl. by destruct c. }
  assert (Hwhole : concat (map memberBytes ms) ++ concat trailer <> []).
  { rewrite <- Heq. by destruct (concat chunks). }
  destruct (feed_archive ms trailer Hms Htr Hwhole) as (sw & Hw & Hdw).
  rewrite <- Heq in Hw.
  assert (Hone : exists s, feedL [concat chunks] initial = Done s /\
                           destroyed s = None).
  { destruct rest as [|r0 rest'].
    { rewrite app_nil_r in Hw. by exists sw. }
    set (rest := r0 :: rest') in *.
    cbn [feed bindOutcome] in Hw |- *.
    destruct (push _ _ _ (concat chunks ++ rest) initial) as [sw'| |] eqn:Hp;
      [|done|done].
    injection Hw as ->.
    rewrite (push_enabled allow ackNow accept) in Hp |- * by done.
    rewrite (run_app allow ackNow accept _ (3 * length (concat chunks) + 3)
               (3 * length rest + 3)) in Hp; try done; try lia;
      try (unfold stepsNeeded; simpl; lia);
      try (apply lockOk_write_pre; [apply lockOk_initial|done]).
    destruct (run _ _ _ _ (concat chunks) _ _) as [sa| |] eqn:Ha;
      cbn [bindOutcome] in Hp; [|done|done].
    exists sa. split; [done|].
    exact (run_destroyed allow ackNow accept _ _ _ _ _ Hp Hdw). }
  destruct Hone as (s & Hs & Hd).
  exists s.
  assert (Hf : feedL chunks initial = Done s).
  { apply (feed_concat allow ackNow accept);
      [apply lockOk_initial|by repeat split|done|done|done|done]. }
  split; [exact Hf|]. split; [exact Hd|].
  apply (feed_reach allow ackNow accept chunks initial); [apply reach_initial|done].
Qed.
End Prefixes.

(** ** Members of an archive, one at a time *)

(** Facts about the sample inputs are settled by evaluation. *)
Ltac sample_fact :=
  first [ vm_compute; reflexivity | vm_compute; discriminate
        | by repeat split ].

Ltac sample_header block name :=
  let r := eval vm_compute in (decode block false) in
  match r with Returns (Some ?h) => pose (name := h) end.

(** X18. A member with content, handed over in one chunk to an engine that
    waits for a header: the header block, the content and the padding give
    one more entry, made of the decoded header with what was pending of
    extended headers applied, and of exactly the content. The engine waits
    for the next header again, nothing is pending any more, and [_final]
    would report no error. *)
Theorem file_member_extracted allow ackNow accept s block content pad h :
  betweenMembers s -> destroyed s = None ->
  length block = 512%nat ->
  decode block allow = Returns (Some h) ->
  isExtendedType (h_type h) = false ->
  h_type (hdr (entryHeader s h)) <> Some "directory"%string ->
  sizeNat (h_size (hdr (entryHeader s h))) = Some (length content) ->
  content <> [] ->
  length pad = overflow (Some (h_size (hdr (entryHeader s h)))) ->
  exists s1,
    push allow ackNow accept (block ++ content ++ pad) s = Done s1 /\
    betweenMembers s1 /\ destroyed s1 = None /\ _final s1 = None /\
    entries s1 = entries s ++ [(entryHeader s h, content)] /\
    noPending s1 /\ _paxGlobal s1 = _paxGlobal s.
Proof.
  intros Hbm Hd Hlen Hdec Hext Hdir Hsize Hc Hpad.
  destruct (run_file_entry allow ackNow accept s block content pad h)
    as (s1 & Hrun & Hbm1 & Hd1 & Hp1 & He & Hno & Hg); try done.
  { now apply (falsySize_content _ content). }
  exists s1. rewrite (push_run allow ackNow accept) by done.
  split; [exact Hrun|]. split; [exact Hbm1|]. split; [congruence|].
  split; [now apply final_partial|]. done.
Qed.

Lemma file_member_extracted_witness :
  exists h s1,
    decode helloBlock false = Returns (Some h) /\
    push false lateAck alwaysAccept
      (helloBlock ++ bytesOf "world" ++ replicate 507 zero) initial = Done s1 /\
    entries s1 = [(entryHeader initial h, bytesOf "world")].
Proof.
  let r := eval vm_compute in (decode helloBlock false) in
  match r with Returns (Some ?h) => pose (hh := h) end.
  destruct (file_member_extracted false lateAck alwaysAccept initial helloBlock
              (bytesOf "world") (replicate 507 zero) hh)
    as (s1 & Hp & _ & _ & _ & He & _).
  - by repeat split.
  - reflexivity.
  - vm_compute. reflexivity.
  - vm_compute. reflexivity.
  - vm_compute. reflexivity.
  - vm_compute. discriminate.
  - vm_compute. reflexivity.
  - discriminate.
  - vm_compute. reflexivity.
  - exists hh, s1. split; [vm_compute; reflexivity|]. split; [exact Hp|exact He].
Defined.
(** X19. A member whose size is falsy (zero or NaN) or whose type is
    "directory": the header block alone gives an entry with no content, and
    the engine takes the next block as a header, whatever size the header
    states. *)
Theorem empty_member_extracted allow ackNow accept s block h :
  betweenMembers s -> destroyed s = None ->
  length block = 512%nat ->
  decode block allow = Returns (Some h) ->
  isExtendedType (h_type h) = false ->
  falsySize (h_size (hdr (entryHeader s h))) = true \/
  h_type (hdr (entryHeader s h)) = Some "directory"%string ->
  exists s1,
    push allow ackNow accept block s = Done s1 /\
    betweenMembers s1 /\ destroyed s1 = None /\ _final s1 = None /\
    entries s1 = entries s ++ [(entryHeader s h, [])] /\
    noPending s1 /\ _paxGlobal s1 = _paxGlobal s.
Proof.
  intros Hbm Hd Hlen Hdec Hext Hempty.
  destruct (run_empty_entry allow ackNow accept s block h)
    as (s1 & Hrun & Hbm1 & Hd1 & Hp1 & He & Hno & Hg); try done.
  { destruct Hempty as [->| ->]; [done|].
    rewrite bool_decide_eq_true_2 by done. apply orb_true_r. }
  exists s1. rewrite (push_run allow ackNow accept) by done.
  split; [exact Hrun|]. split; [exact Hbm1|]. split; [congruence|].
  split; [now apply final_partial|]. done.
Qed.

Lemma empty_member_extracted_witness :
  exists h s1,
    decode dirBlock false = Returns (Some h) /\
    push false lateAck alwaysAccept dirBlock initial = Done s1 /\
    entries s1 = [(entryHeader initial h, [])].
Proof.
  let r := eval vm_compute in (decode dirBlock false) in
  match r with Returns (Some ?h) => pose (hh := h) end.
  destruct (empty_member_extracted false lateAck alwaysAccept initial dirBlock hh)
    as (s1 & Hp & _ & _ & _ & He & _).
  - by repeat split.
  - reflexivity.
  - vm_compute. reflexivity.
  - vm_compute. reflexivity.
  - vm_compute. reflexivity.
  - right. vm_compute. reflexivity.
  - exists hh, s1. split; [vm_compute; reflexivity|]. split; [exact Hp|exact He].
Defined.

(** X20. A block for which [decode] returns null, such as the zero blocks
    that end an archive, gives no entry and changes nothing that is
    pending; the engine does not stop there, it takes the next block as a
    header. *)
Theorem null_block_skipped allow ackNow accept s block :
  betweenMembers s -> destroyed s = None ->
  length block = 512%nat ->
  decode block allow = Returns None ->
  exists s1,
    push allow ackNow accept block s = Done s1 /\
    betweenMembers s1 /\ destroyed s1 = None /\ _final s1 = None /\
    entries s1 = entries s /\
    _pax s1 = _pax s /\ _paxGlobal s1 = _paxGlobal s /\
    _gnuLongPath s1 = _gnuLongPath s /\
    _gnuLongLinkPath s1 = _gnuLongLinkPath s.
Proof.
  intros Hbm Hd Hlen Hdec.
  destruct (run_null_block allow ackNow accept s block)
    as (s1 & Hrun & Hbm1 & Hd1 & Hp1 & Hlog & _ & Hrest); try done.
  exists s1. rewrite (push_run allow ackNow accept) by done.
  split; [exact Hrun|]. split; [exact Hbm1|]. split; [congruence|].
  split; [now apply final_partial|]. split; [|exact Hrest].
  unfold entries. now rewrite Hlog, entriesOf_app.
Qed.

Lemma null_block_skipped_witness :
  exists s1,
    push false lateAck alwaysAccept (replicate 512 zero) initial = Done s1 /\
    betweenMembers s1 /\ entries s1 = [].
Proof.
  destruct (null_block_skipped false lateAck alwaysAccept initial
              (replicate 512 zero))
    as (s1 & Hp & Hbm & _ & _ & He & _).
  - by repeat split.
  - reflexivity.
  - vm_compute. reflexivity.
  - vm_compute. reflexivity.
  - exists s1. split; [exact Hp|]. split; [exact Hbm|exact He].
Defined.
(** X21. A block that [decode] refuses destroys the engine with the error
    of [decode]; the block gives no entry, and no chunk is taken after it. *)
Theorem bad_block_destroys allow ackNow accept s block e :
  betweenMembers s -> destroyed s = None ->
  length block = 512%nat ->
  decode block allow = Throws e ->
  exists s1,
    push allow ackNow accept block s = Done s1 /\
    destroyed s1 = Some (DecodeFailed e) /\
    entries s1 = entries s /\
    forall chunks, feed allow ackNow accept chunks s1 = Done s1.
Proof.
  intros Hbm Hd Hlen Hdec.
  destruct (run_bad_block allow ackNow accept s block e)
    as (s1 & Hrun & Hbm1 & Hd1 & Hp1 & Hlog & _); try done.
  rewrite Hd in Hd1.
  exists s1. rewrite (push_run allow ackNow accept) by done.
  split; [exact Hrun|]. split; [exact Hd1|]. split.
  - unfold entries. now rewrite Hlog, entriesOf_app.
  - intros chunks. now apply (feed_destroyed_stays _ _ _ _ _ (DecodeFailed e)).
Qed.

Lemma bad_block_destroys_witness :
  exists s1,
    push false lateAck alwaysAccept (replicate 512 "a"%char) initial = Done s1 /\
    destroyed s1 = Some (DecodeFailed InvalidChecksum) /\
    entries s1 = [].
Proof.
  destruct (bad_block_destroys false lateAck alwaysAccept initial
              (replicate 512 "a"%char) InvalidChecksum)
    as (s1 & Hp & Hd & He & _).
  - by repeat split.
  - reflexivity.
  - reflexivity.
  - vm_compute. reflexivity.
  - exists s1. split; [exact Hp|]. split; [exact Hd|exact He].
Defined.
(** X22. The engine does not stop inside a chunk: [_continue] goes on with
    what is left of the chunk after [destroy]. A member that follows a
    refused block in the same chunk is still emitted as an entry; the same
    member in a chunk of its own is not. *)
Theorem chunk_parsed_past_bad_block allow ackNow accept s bad e
    block content pad h :
  reachable allow ackNow accept s ->
  betweenMembers s -> destroyed s = None ->
  length bad = 512%nat -> decode bad allow = Throws e ->
  length block = 512%nat ->
  decode block allow = Returns (Some h) ->
  isExtendedType (h_type h) = false ->
  h_type (hdr (entryHeader s h)) <> Some "directory"%string ->
  sizeNat (h_size (hdr (entryHeader s h))) = Some (length content) ->
  content <> [] ->
  length pad = overflow (Some (h_size (hdr (entryHeader s h)))) ->
  (exists s1,
     push allow ackNow accept (bad ++ block ++ content ++ pad) s = Done s1 /\
     destroyed s1 = Some (DecodeFailed e) /\
     entries s1 = entries s ++ [(entryHeader s h, content)]) /\
  (exists s2,
     feed allow ackNow accept [bad; block ++ content ++ pad] s = Done s2 /\
     destroyed s2 = Some (DecodeFailed e) /\
     entries s2 = entries s).
Proof.
  intros Hr Hbm Hd Hbl Hbad Hlen Hdec Hext Hdir Hsize Hc Hpad.
  destruct (run_bad_block allow ackNow accept s bad e)
    as (m & Hrun & Hbm1 & Hd1 & Hp1 & Hlog & _ & H1 & _ & H2 & H3); try done.
  rewrite Hd in Hd1. cbn [default from_option id] in Hd1.
  assert (Hem : entries m = entries s).
  { unfold entries. now rewrite Hlog, entriesOf_app. }
  pose proof (entryHeader_ext s m h H1 H2 H3) as Hh.
  split.
  - destruct (run_file_entry allow ackNow accept m block content pad h)
      as (s1 & Hrun1 & _ & Hd2 & _ & He & _); rewrite ?Hh; try done.
    { now apply (falsySize_content _ content). }
    exists s1. rewrite (push_run allow ackNow accept) by done.
    set (member := block ++ content ++ pad) in *.
    assert (Hm : member <> []).
    { unfold member. destruct block; [simpl in Hlen; lia|done]. }
    assert (Hb : bad <> []) by (destruct bad; [simpl in Hbl; lia|done]).
    destruct Hbm as [(Hbusy & Hidle) [Hp Hmis] Hbuf Hstr Hlck].
    rewrite (run_app allow ackNow accept _ (3 * length bad + 3)
               (3 * length member + 3)); try done; try lia.
    + rewrite Hrun. cbn [bindOutcome]. rewrite Hrun1.
      split; [done|]. split; [congruence|]. now rewrite He, Hem, Hh.
    + apply lockOk_write_pre; [|done]. now apply (reachable_lock allow ackNow accept).
    + unfold stepsNeeded. cbn [_missing set_busy]. rewrite Hmis. simpl. lia.
    + unfold stepsNeeded. cbn [_missing set_busy]. rewrite Hmis. simpl. lia.
  - exists m. cbn [feed]. rewrite (push_run allow ackNow accept) by done.
    rewrite Hrun. cbn [bindOutcome].
    rewrite (push_destroyed allow ackNow accept _ _ (DecodeFailed e)) by done.
    done.
Qed.

Lemma chunk_parsed_past_bad_block_witness :
  exists h,
    (exists s1,
       push false lateAck alwaysAccept
         (replicate 512 "a"%char ++ helloBlock ++ bytesOf "world"
          ++ replicate 507 zero) initial = Done s1 /\
       destroyed s1 = Some (DecodeFailed InvalidChecksum) /\
       entries s1 = entries initial ++ [(entryHeader initial h, bytesOf "world")]) /\
    (exists s2,
       feed false lateAck alwaysAccept
         [replicate 512 "a"%char;
          helloBlock ++ bytesOf "world" ++ replicate 507 zero] initial = Done s2 /\
       destroyed s2 = Some (DecodeFailed InvalidChecksum) /\
       entries s2 = entries initial).
Proof.
  sample_header helloBlock hh. exists hh.
  apply (chunk_parsed_past_bad_block false lateAck alwaysAccept initial
           (replicate 512 "a"%char) InvalidChecksum helloBlock
           (bytesOf "world") (replicate 507 zero) hh);
    first [apply reach_initial | sample_fact].
Defined.
(** X23. A PAX header applies to the member after it, and to that one
    only: the entry carries the decoded header with the records of the PAX
    body, laid over those of the global header, mixed in, its content is as
    long as the mixed-in size says, and nothing is pending afterwards. *)
Theorem pax_header_applies_to_next_entry allow ackNow accept s
    xblock xh body xpad block h content pad :
  betweenMembers s -> destroyed s = None -> noPending s ->
  length xblock = 512%nat ->
  decode xblock allow = Returns (Some xh) ->
  h_type xh = Some "pax-header"%string ->
  sizeNat (h_size xh) = Some (length body) -> body <> [] ->
  length xpad = overflow (Some (h_size xh)) ->
  length block = 512%nat ->
  decode block allow = Returns (Some h) ->
  isExtendedType (h_type h) = false ->
  h_type h <> Some "directory"%string ->
  sizeNat (h_size (hdr (mixinPax h (mergedPax (_paxGlobal s) body))))
  = Some (length content) ->
  content <> [] ->
  length pad
  = overflow (Some (h_size (hdr (mixinPax h (mergedPax (_paxGlobal s) body))))) ->
  exists s1,
    feed allow ackNow accept
      [xblock ++ body ++ xpad; block ++ content ++ pad] s = Done s1 /\
    betweenMembers s1 /\ destroyed s1 = None /\ _final s1 = None /\
    entries s1
    = entries s ++ [(mixinPax h (mergedPax (_paxGlobal s) body), content)] /\
    noPending s1 /\ _paxGlobal s1 = _paxGlobal s.
Proof.
  intros Hbm Hd (Hn1 & Hn2 & Hn3) Hxl Hxd Hxt Hxs Hb Hxpad
    Hlen Hdec Hext Hdir Hsize Hc Hpad.
  assert (Hh : entryHeader (storeBody OnPaxHeader body s) h
               = mixinPax h (mergedPax (_paxGlobal s) body)).
  { unfold entryHeader, storeBody. destruct s; simpl in *. now rewrite Hn2, Hn3. }
  destruct (feed_extended_then_file allow ackNow accept s xblock xh OnPaxHeader
              body xpad block h content pad) as (s1 & Hs1);
    rewrite ?Hh; try done.
  { now rewrite Hxt. }
  exists s1. rewrite Hh in Hs1. exact Hs1.
Qed.

Lemma pax_header_applies_to_next_entry_witness :
  exists h s1,
    feed false lateAck alwaysAccept
      [extendedBlock 120 20 ++ paxBody ++ replicate 492 zero; helloMember]
      initial = Done s1 /\
    entries s1 = [(mixinPax h (decodePax paxBody), bytesOf "world")] /\
    h_name (hdr (mixinPax h (decodePax paxBody))) = "renamed.txt"%string.
Proof.
  sample_header helloBlock hh. sample_header (extendedBlock 120 20) xh.
  destruct (pax_header_applies_to_next_entry false lateAck alwaysAccept initial
              (extendedBlock 120 20) xh paxBody (replicate 492 zero)
              helloBlock hh (bytesOf "world") (replicate 507 zero))
    as (s1 & Hf & _ & _ & _ & He & _); [sample_fact..|].
  exists hh, s1. split; [exact Hf|]. split; [exact He|vm_compute; reflexivity].
Defined.
(** X24. A GNU long path header names the member after it, and that one
    only: when the body holds a non-empty string up to its first NUL, the
    entry carries the decoded header with this string as its name, and
    nothing is pending afterwards. *)
Theorem gnu_long_path_names_next_entry allow ackNow accept s
    xblock xh body xpad block h content pad :
  betweenMembers s -> destroyed s = None -> noPending s ->
  length xblock = 512%nat ->
  decode xblock allow = Returns (Some xh) ->
  h_type xh = Some "gnu-long-path"%string ->
  sizeNat (h_size xh) = Some (length body) -> body <> [] ->
  length xpad = overflow (Some (h_size xh)) ->
  decodeLongPath body <> ""%string ->
  length block = 512%nat ->
  decode block allow = Returns (Some h) ->
  isExtendedType (h_type h) = false ->
  h_type h <> Some "directory"%string ->
  sizeNat (h_size h) = Some (length content) ->
  content <> [] ->
  length pad = overflow (Some (h_size h)) ->
  exists s1,
    feed allow ackNow accept
      [xblock ++ body ++ xpad; block ++ content ++ pad] s = Done s1 /\
    betweenMembers s1 /\ destroyed s1 = None /\ _final s1 = None /\
    entries s1
    = entries s
      ++ [({| hdr := withHName (decodeLongPath body) h; hdr_pax := None |},
           content)] /\
    noPending s1 /\ _paxGlobal s1 = _paxGlobal s.
Proof.
  intros Hbm Hd (Hn1 & Hn2 & Hn3) Hxl Hxd Hxt Hxs Hb Hxpad Hname
    Hlen Hdec Hext Hdir Hsize Hc Hpad.
  assert (Hh : entryHeader (storeBody OnGnuLongPath body s) h
               = {| hdr := withHName (decodeLongPath body) h; hdr_pax := None |}).
  { unfold entryHeader, storeBody. destruct s; simpl in *.
    apply String.eqb_neq in Hname. now rewrite ?Hn1, ?Hn2, ?Hn3, Hname, ?Hn1. }
  destruct (feed_extended_then_file allow ackNow accept s xblock xh OnGnuLongPath
              body xpad block h content pad) as (s1 & Hs1);
    rewrite ?Hh; try done.
  { now rewrite Hxt. }
  exists s1. rewrite Hh in Hs1. exact Hs1.
Qed.

Lemma gnu_long_path_names_next_entry_witness :
  exists h s1,
    feed false lateAck alwaysAccept
      [extendedBlock 76 14 ++ longNameBody ++ replicate 498 zero; helloMember]
      initial = Done s1 /\
    entries s1
    = [({| hdr := withHName "long/name.txt" h; hdr_pax := None |},
        bytesOf "world")].
Proof.
  sample_header helloBlock hh. sample_header (extendedBlock 76 14) xh.
  destruct (gnu_long_path_names_next_entry false lateAck alwaysAccept initial
              (extendedBlock 76 14) xh longNameBody (replicate 498 zero)
              helloBlock hh (bytesOf "world") (replicate 507 zero))
    as (s1 & Hf & _ & _ & _ & He & _); [sample_fact..|].
  exists hh, s1. split; [exact Hf|exact He].
Defined.

(** X25. A GNU long link path header names the member after it, and that one
    only: when the body holds a non-empty string up to its first NUL, the
    entry carries the decoded header with this string as its link name, and
    nothing is pending afterwards. *)
Theorem gnu_long_link_path_names_next_entry allow ackNow accept s
    xblock xh body xpad block h content pad :
  betweenMembers s -> destroyed s = None -> noPending s ->
  length xblock = 512%nat ->
  decode xblock allow = Returns (Some xh) ->
  h_type xh = Some "gnu-long-link-path"%string ->
  sizeNat (h_size xh) = Some (length body) -> body <> [] ->
  length xpad = overflow (Some (h_size xh)) ->
  decodeLongPath body <> ""%string ->
  length block = 512%nat ->
  decode block allow = Returns (Some h) ->
  isExtendedType (h_type h) = false ->
  h_type h <> Some "directory"%string ->
  sizeNat (h_size h) = Some (length content) ->
  content <> [] ->
  length pad = overflow (Some (h_size h)) ->
  exists s1,
    feed allow ackNow accept
      [xblock ++ body ++ xpad; block ++ content ++ pad] s = Done s1 /\
    betweenMembers s1 /\ destroyed s1 = None /\ _final s1 = None /\
    entries s1
    = entries s
      ++ [({| hdr := withHLinkname (decodeLongPath body) h; hdr_pax := None |},
           content)] /\
    noPending s1 /\ _paxGlobal s1 = _paxGlobal s.
Proof.
  intros Hbm Hd (Hn1 & Hn2 & Hn3) Hxl Hxd Hxt Hxs Hb Hxpad Hname
    Hlen Hdec Hext Hdir Hsize Hc Hpad.
  assert (Hh : entryHeader (storeBody OnGnuLongLinkPath body s) h
               = {| hdr := withHLinkname (decodeLongPath body) h; hdr_pax := None |}).
  { unfold entryHeader, storeBody. destruct s; simpl in *.
    apply String.eqb_neq in Hname. now rewrite ?Hn1, ?Hn2, ?Hn3, Hname, ?Hn1. }
  destruct (feed_extended_then_file allow ackNow accept s xblock xh OnGnuLongLinkPath
              body xpad block h content pad) as (s1 & Hs1);
    rewrite ?Hh; try done.
  { now rewrite Hxt. }
  exists s1. rewrite Hh in Hs1. exact Hs1.
Qed.

Lemma gnu_long_link_path_names_next_entry_witness :
  exists h s1,
    feed false lateAck alwaysAccept
      [extendedBlock 75 14 ++ longNameBody ++ replicate 498 zero; helloMember]
      initial = Done s1 /\
    entries s1
    = [({| hdr := withHLinkname "long/name.txt" h; hdr_pax := None |},
        bytesOf "world")].
Proof.
  sample_header helloBlock hh. sample_header (extendedBlock 75 14) xh.
  destruct (gnu_long_link_path_names_next_entry false lateAck alwaysAccept initial
              (extendedBlock 75 14) xh longNameBody (replicate 498 zero)
              helloBlock hh (bytesOf "world") (replicate 507 zero))
    as (s1 & Hf & _ & _ & _ & He & _); [sample_fact..|].
  exists hh, s1. split; [exact Hf|exact He].
Defined.

(** X26. A global PAX header is kept, and by itself changes no entry: the
    member after it is emitted with the header as decoded and without a
    PAX mapping. The records only reach an entry through a PAX header of
    its own (X23). *)
Theorem pax_global_header_alone allow ackNow accept s
    xblock xh body xpad block h content pad :
  betweenMembers s -> destroyed s = None -> noPending s ->
  length xblock = 512%nat ->
  decode xblock allow = Returns (Some xh) ->
  h_type xh = Some "pax-global-header"%string ->
  sizeNat (h_size xh) = Some (length body) -> body <> [] ->
  length xpad = overflow (Some (h_size xh)) ->
  length block = 512%nat ->
  decode block allow = Returns (Some h) ->
  isExtendedType (h_type h) = false ->
  h_type h <> Some "directory"%string ->
  sizeNat (h_size h) = Some (length content) ->
  content <> [] ->
  length pad = overflow (Some (h_size h)) ->
  exists s1,
    feed allow ackNow accept
      [xblock ++ body ++ xpad; block ++ content ++ pad] s = Done s1 /\
    betweenMembers s1 /\ destroyed s1 = None /\ _final s1 = None /\
    entries s1 = entries s ++ [({| hdr := h; hdr_pax := None |}, content)] /\
    noPending s1 /\ _paxGlobal s1 = Some (decodePax body).
Proof.
  intros Hbm Hd (Hn1 & Hn2 & Hn3) Hxl Hxd Hxt Hxs Hb Hxpad
    Hlen Hdec Hext Hdir Hsize Hc Hpad.
  assert (Hh : entryHeader (storeBody OnPaxGlobalHeader body s) h
               = {| hdr := h; hdr_pax := None |}).
  { unfold entryHeader, storeBody. destruct s; simpl in *.
    now rewrite Hn1, Hn2, Hn3. }
  destruct (feed_extended_then_file allow ackNow accept s xblock xh
              OnPaxGlobalHeader body xpad block h content pad) as (s1 & Hs1);
    rewrite ?Hh; try done.
  { now rewrite Hxt. }
  exists s1. rewrite Hh in Hs1. exact Hs1.
Qed.

Lemma pax_global_header_alone_witness :
  exists h s1,
    feed false lateAck alwaysAccept
      [extendedBlock 103 20 ++ paxBody ++ replicate 492 zero; helloMember]
      initial = Done s1 /\
    entries s1 = [({| hdr := h; hdr_pax := None |}, bytesOf "world")] /\
    h_name h = "hello.txt"%string /\
    _paxGlobal s1 = Some (decodePax paxBody).
Proof.
  sample_header helloBlock hh. sample_header (extendedBlock 103 20) xh.
  destruct (pax_global_header_alone false lateAck alwaysAccept initial
              (extendedBlock 103 20) xh paxBody (replicate 492 zero)
              helloBlock hh (bytesOf "world") (replicate 507 zero))
    as (s1 & Hf & _ & _ & _ & He & _ & Hg); [sample_fact..|].
  exists hh, s1. split; [exact Hf|]. split; [exact He|]. split; [reflexivity|exact Hg].
Defined.
(** X27. Extraction of an archive of plain members: whatever the chunks
    the input arrives in, an archive made of members that stand for
    themselves (header block, content, padding), followed by any number of
    empty blocks, gives exactly one entry for each member, in order, with
    the header as decoded and the whole content; the engine is not
    destroyed, and [_final] reports no error. *)
Theorem archive_extracted allow ackNow accept ms trailer chunks :
  Forall (plainMember allow) ms ->
  Forall (nullBlock allow) trailer ->
  chunks <> [] -> Forall (fun c => c <> []) chunks ->
  concat chunks = concat (map memberBytes ms) ++ concat trailer ->
  exists s,
    feed allow ackNow accept chunks initial = Done s /\
    entries s = map memberEntry ms /\
    destroyed s = None /\ _final s = None /\ betweenMembers s.
Proof.
  intros Hms Htr Hne Hall Heq.
  assert (Hbm0 : betweenMembers initial) by (by repeat split).
  assert (Hno0 : noPending initial) by (by repeat split).
  destruct (feed_members allow ackNow accept ms initial Hbm0 eq_refl Hno0
              eq_refl Hms) as (s1 & Hf1 & Hbm1 & Hd1 & Hno1 & Hp1 & He1).
  destruct (feed_nulls allow ackNow accept trailer s1 Hbm1 Hd1 Hno1 Hp1 Htr)
    as (s2 & Hf2 & Hbm2 & Hd2 & Hno2 & Hp2 & He2).
  exists s2.
  split; [|split; [now rewrite He2, He1|split; [done|split;
    [now apply final_partial|done]]]].
  set (parts := map memberBytes ms ++ trailer).
  assert (Hparts : feed allow ackNow accept parts initial = Done s2).
  { unfold parts. rewrite (feed_app allow ackNow accept), Hf1. exact Hf2. }
  assert (Hcat : concat parts = concat chunks).
  { unfold parts. now rewrite concat_app, Heq. }
  assert (Hpne : Forall (fun c => c <> []) parts).
  { unfold parts. apply Forall_app. split.
    - apply Forall_fmap. eapply Forall_impl; [exact Hms|].
      intros m Hm. now apply (memberBytes_nonempty allow).
    - eapply Forall_impl; [exact Htr|]. intros b Hb.
      now apply (nullBlock_nonempty allow). }
  assert (Hp0 : parts <> []).
  { intros Hnil. rewrite Hnil in Hcat. simpl in Hcat.
    destruct chunks as [|c rest]; [done|].
    apply Forall_cons in Hall as [Hc _]. simpl in Hcat. by destruct c. }
  apply (feed_concat allow ackNow accept);
    [apply lockOk_initial|by repeat split|done|done| |done].
  rewrite <- Hcat.
  apply (feed_whole allow ackNow accept);
    [apply lockOk_initial|by repeat split|done|done|done|done].
Qed.

Lemma archive_extracted_witness :
  exists h s,
    feed false lateAck alwaysAccept helloChunks initial = Done s /\
    entries s = [({| hdr := h; hdr_pax := None |}, bytesOf "world")] /\
    h_name h = "hello.txt"%string /\ _final s = None.
Proof.
  sample_header helloBlock hh.
  destruct (archive_extracted false lateAck alwaysAccept
              [{| m_block := helloBlock; m_header := hh;
                  m_content := bytesOf "world"; m_pad := replicate 507 zero |}]
              [replicate 512 zero; replicate 512 zero] helloChunks)
    as (s & Hf & He & _ & Hfin & _).
  - repeat constructor; sample_fact.
  - repeat constructor; sample_fact.
  - discriminate.
  - repeat constructor; vm_compute; discriminate.
  - vm_compute. reflexivity.
  - exists hh, s. split; [exact Hf|]. split; [exact He|]. split; [reflexivity|exact Hfin].
Defined.

(** ** The engine on the beginning of an archive *)

(** X14. While it reads an archive of plain members, cut in any way, the
    engine never keeps the content of an entry: after every chunk, a
    source is open exactly while the pending step is the content of an
    entry, and the buffer is then empty, every content byte having gone to
    the source. Otherwise the buffer holds exactly the part of the pending
    step that has arrived: never more than a header block of 512 bytes or
    the padding after a content, at most 511. *)
Theorem content_never_buffered allow ackNow accept ms trailer chunks rest :
  Forall (plainMember allow) ms -> Forall (nullBlock allow) trailer ->
  chunks <> [] -> Forall (fun c => c <> []) chunks ->
  concat chunks ++ rest = concat (map memberBytes ms) ++ concat trailer ->
  exists s,
    feed allow ackNow accept chunks initial = Done s /\
    (_stream s <> None <-> _onparse s = OnStreamEnd) /\
    (_stream s <> None -> _buffer s = []) /\
    (_stream s = None ->
     stepSize s = Some (length (_buffer s) + _missing s)%nat) /\
    (_onparse s = OnHeader -> (length (_buffer s) + _missing s = 512)%nat) /\
    (_onparse s = OnDrain -> (length (_buffer s) + _missing s <= 511)%nat).
Proof.
  intros Hms Htr Hne Hall Heq.
  destruct (feed_prefix allow ackNow accept ms trailer chunks rest
              Hms Htr Hne Hall Heq) as (s & Hf & _ & Hr).
  exists s. split; [exact Hf|].
  destruct (reachable_buffer allow ackNow accept s Hr) as [Hsrc Hcont Hstep _ _].
  assert (Hnone : _stream s = None -> _onparse s <> OnStreamEnd).
  { intros Hs Hp. apply Hsrc in Hp. done. }
  split; [exact Hsrc|]. split; [intros Hs; apply Hcont, Hsrc, Hs|].
  split; [intros Hs; apply Hstep, Hnone, Hs|].
  split; intros Hp.
  - assert (Hn : _onparse s <> OnStreamEnd) by congruence.
    specialize (Hstep Hn). unfold stepSize in Hstep. rewrite Hp in Hstep.
    congruence.
  - assert (Hn : _onparse s <> OnStreamEnd) by congruence.
    specialize (Hstep Hn). unfold stepSize in Hstep. rewrite Hp in Hstep.
    injection Hstep as <-. apply overflow_lt.
Qed.

Lemma content_never_buffered_witness :
  exists s,
    feed false lateAck alwaysAccept
      [take 100 helloArchive; take 600 (drop 100 helloArchive)] initial
    = Done s /\
    (_stream s <> None <-> _onparse s = OnStreamEnd) /\
    (_stream s <> None -> _buffer s = []) /\
    (_stream s = None ->
     stepSize s = Some (length (_buffer s) + _missing s)%nat) /\
    (_onparse s = OnHeader -> (length (_buffer s) + _missing s = 512)%nat) /\
    (_onparse s = OnDrain -> (length (_buffer s) + _missing s <= 511)%nat).
Proof.
  sample_header helloBlock hh.
  apply (content_never_buffered false lateAck alwaysAccept
           [{| m_block := helloBlock; m_header := hh;
               m_content := bytesOf "world"; m_pad := replicate 507 zero |}]
           [replicate 512 zero; replicate 512 zero]
           [take 100 helloArchive; take 600 (drop 100 helloArchive)]
           (drop 700 helloArchive)).
  - repeat constructor; sample_fact.
  - repeat constructor; sample_fact.
  - discriminate.
  - repeat constructor; vm_compute; discriminate.
  - vm_compute. reflexivity.
Defined.

(** X15. An archive of plain members is read on a grid of 512-byte
    blocks, however it is cut: after every chunk, each header was decoded
    at, and each source was created with, an offset that is a multiple of
    512 (the offset given to a source is that of the first byte of its
    content), and while a header or padding is pending the offset, which is
    where that step ends, is a multiple of 512. *)
Theorem headers_block_aligned allow ackNow accept ms trailer chunks rest :
  Forall (plainMember allow) ms -> Forall (nullBlock allow) trailer ->
  chunks <> [] -> Forall (fun c => c <> []) chunks ->
  concat chunks ++ rest = concat (map memberBytes ms) ++ concat trailer ->
  exists s,
    feed allow ackNow accept chunks initial = Done s /\
    Forall alignedEvent (log s) /\
    (_onparse s = OnHeader \/ _onparse s = OnDrain -> _offset s mod 512 = 0) /\
    (_onparse s <> OnHeader -> _onparse s <> OnDrain ->
     exists n : nat, bodySize s = Some n /\
       (_offset s - Z.of_nat n) mod 512 = 0).
Proof.
  intros Hms Htr Hne Hall Heq.
  destruct (feed_prefix allow ackNow accept ms trailer chunks rest
              Hms Htr Hne Hall Heq) as (s & Hf & _ & Hr).
  exists s. split; [exact Hf|].
  destruct (reachable_buffer allow ackNow accept s Hr)
    as [_ _ _ (n & Hn & Hal) Hlog].
  split; [exact Hlog|]. split.
  - intros Hp. destruct (decide _) as [_|Hd]; [|done].
    now rewrite Z.sub_0_r in Hal.
  - intros H1 H2. destruct (decide _) as [[Hd|Hd]|_]; [done|done|].
    exists n. split; [|exact Hal].
    unfold stepSize in Hn. by destruct (_onparse s).
Qed.

Lemma headers_block_aligned_witness :
  exists s,
    feed false lateAck alwaysAccept
      [take 100 helloArchive; take 600 (drop 100 helloArchive)] initial
    = Done s /\
    Forall alignedEvent (log s) /\
    (_onparse s = OnHeader \/ _onparse s = OnDrain -> _offset s mod 512 = 0) /\
    (_onparse s <> OnHeader -> _onparse s <> OnDrain ->
     exists n : nat, bodySize s = Some n /\
       (_offset s - Z.of_nat n) mod 512 = 0).
Proof.
  sample_header helloBlock hh.
  apply (headers_block_aligned false lateAck alwaysAccept
           [{| m_block := helloBlock; m_header := hh;
               m_content := bytesOf "world"; m_pad := replicate 507 zero |}]
           [replicate 512 zero; replicate 512 zero]
           [take 100 helloArchive; take 600 (drop 100 helloArchive)]
           (drop 700 helloArchive)).
  - repeat constructor; sample_fact.
  - repeat constructor; sample_fact.
  - discriminate.
  - repeat constructor; vm_compute; discriminate.
  - vm_compute. reflexivity.
Defined.

(** X16. The offset counts the input: after every chunk of an archive of
    plain members, however it is cut, the offset less the bytes still
    missing of the pending step is the number of bytes given so far. The
    offset is the position in the input at which the pending step ends. *)
Theorem offset_counts_input allow ackNow accept ms trailer chunks rest :
  Forall (plainMember allow) ms -> Forall (nullBlock allow) trailer ->
  chunks <> [] -> Forall (fun c => c <> []) chunks ->
  concat chunks ++ rest = concat (map memberBytes ms) ++ concat trailer ->
  exists s,
    feed allow ackNow accept chunks initial = Done s /\
    _offset s = Z.of_nat (length (concat chunks)) + Z.of_nat (_missing s).
Proof.
  intros Hms Htr Hne Hall Heq.
  destruct (feed_prefix allow ackNow accept ms trailer chunks rest
              Hms Htr Hne Hall Heq) as (s & Hf & Hd & _).
  exists s. split; [exact Hf|].
  pose proof (feed_offset allow ackNow accept chunks initial s
                lockOk_initial ltac:(by repeat split) Hf Hd) as Ho.
  simpl in Ho. lia.
Qed.

Lemma offset_counts_input_witness :
  exists s,
    feed false lateAck alwaysAccept
      [take 100 helloArchive; take 600 (drop 100 helloArchive)] initial
    = Done s /\
    _offset s
    = Z.of_nat (length (concat [take 100 helloArchive;
                                take 600 (drop 100 helloArchive)]))
      + Z.of_nat (_missing s).
Proof.
  sample_header helloBlock hh.
  apply (offset_counts_input false lateAck alwaysAccept
           [{| m_block := helloBlock; m_header := hh;
               m_content := bytesOf "world"; m_pad := replicate 507 zero |}]
           [replicate 512 zero; replicate 512 zero]
           [take 100 helloArchive; take 600 (drop 100 helloArchive)]
           (drop 700 helloArchive)).
  - repeat constructor; sample_fact.
  - repeat constructor; sample_fact.
  - discriminate.
  - repeat constructor; vm_compute; discriminate.
  - vm_compute. reflexivity.
Defined.

(** X17. How the beginning of an archive of plain members is cut does not
    matter: two lists of non-empty chunks with the same bytes in all are
    both taken without an error, and they take the engine to the very same
    state, with the same log, entries and pending step. *)
Theorem rechunking_invariance allow ackNow accept ms trailer chunks1 chunks2 rest :
  Forall (plainMember allow) ms -> Forall (nullBlock allow) trailer ->
  chunks1 <> [] -> Forall (fun c => c <> []) chunks1 ->
  chunks2 <> [] -> Forall (fun c => c <> []) chunks2 ->
  concat chunks1 = concat chunks2 ->
  concat chunks1 ++ rest = concat (map memberBytes ms) ++ concat trailer ->
  exists s,
    feed allow ackNow accept chunks1 initial = Done s /\
    feed allow ackNow accept chunks2 initial = Done s /\
    destroyed s = None.
Proof.
  intros Hms Htr Hn1 Ha1 Hn2 Ha2 Hsame Heq.
  destruct (feed_prefix allow ackNow accept ms trailer chunks1 rest
              Hms Htr Hn1 Ha1 Heq) as (s & Hf & Hd & _).
  exists s. split; [exact Hf|]. split; [|exact Hd].
  assert (Hw : feed allow ackNow accept [concat chunks1] initial = Done s).
  { apply feed_whole; first [done|apply lockOk_initial|by repeat split]. }
  rewrite Hsame in Hw.
  apply feed_concat; first [done|apply lockOk_initial|by repeat split].
Qed.

Lemma rechunking_invariance_witness :
  exists s,
    feed false lateAck alwaysAccept
      [take 100 helloArchive; take 600 (drop 100 helloArchive)] initial
    = Done s /\
    feed false lateAck alwaysAccept [take 700 helloArchive] initial = Done s /\
    destroyed s = None.
Proof.
  sample_header helloBlock hh.
  apply (rechunking_invariance false lateAck alwaysAccept
           [{| m_block := helloBlock; m_header := hh;
               m_content := bytesOf "world"; m_pad := replicate 507 zero |}]
           [replicate 512 zero; replicate 512 zero]
           [take 100 helloArchive; take 600 (drop 100 helloArchive)]
           [take 700 helloArchive]
           (drop 700 helloArchive)).
  - repeat constructor; sample_fact.
  - repeat constructor; sample_fact.
  - discriminate.
  - repeat constructor; vm_compute; discriminate.
  - discriminate.
  - repeat constructor; vm_compute; discriminate.
  - vm_compute. reflexivity.
  - vm_compute. reflexivity.
Defined.

(** ** Termination *)

(** X13. Every action of the engine returns, in every state and whatever
    sizes the headers state, negative ones and ones that are no number
    included: the loop of [_write] stops, since each turn either takes
    bytes of the chunk or brings the engine nearer a step that does, and
    the acknowledgment and the drain event run that loop once. The calls of
    the buffer list are taken to return. *)
Theorem engine_actions_terminate allow ackNow accept oddSlice oddConsume a s :
  exists s',
    Total.perform allow ackNow accept oddSlice oddConsume a s = Total.Done s'.
Proof. apply total_perform_returns. Qed.
